(* ===== verification/_CoqProject ===== *)
-Q . S2P
Prelude.v
RecencyList.v
Lru.v
Cache.v
CacheRefine.v
History.v
CacheTheorems.v
KvStore.v
CacheKv.v
SyncCache.v
Concurrency.v
ShardedCache.v
ShardHash.v
ShardedTheorems.v
ShardedEquiv.v
LiveExport.v
Numbers.v
LineBuffer.v
Protocol.v
Demo.v
Stream.v
Snapshot.v
Truncation.v
Persistence.v
PersistenceTheorems.v
LoadOutcome.v
SaveRace.v
CommandHandler.v
Settled.v
Socket.v
Connection.v
ConnectionTheorems.v
Workers.v
BusyServer.v
BusySound.v
Server.v
ServerShutdown.v
ServerStart.v
PeriodicSaver.v
Client.v
ServerMain.v
Process.v
