(* ===== verification/Prelude.v ===== *)
(** * CacheX, verified

    CacheX is an in-memory key/value cache with LRU eviction and per-key expiry,
    a snapshot file, and a TCP server with a line protocol in front of it.  This
    library models its C++ sources (src/include/cachex, src/src) as Rocq
    functions and step relations and proves what makes each part correct.

    ** The program

    A [Cache] is a [RecencyList] of entries and a hash index of list iterators
    kept in step by hand.  [SyncCache] puts one mutex around a [Cache];
    [ShardedCache] spreads the keys over many [SyncCache]s by a mixed hash.  The
    layers above call one method table: [PersistenceManager] exports the entries
    to a file and loads them back, [PeriodicSaver] does so from a thread,
    [CommandHandler] applies one parsed request.  A [Connection] cuts the bytes
    of a socket into lines ([LineBuffer]), parses each ([parse_command]) and
    sends the reply; the [Server] accepts connections and runs one worker thread
    for each.  [server_main.cpp] puts it together, [client_main.cpp] is the
    interactive client, [main.cpp] a demonstration in one process.

    ** The files

    - Prelude: byte strings, the outcome monad ([Ret], [UB], [Hang]), machine
      integers, keyed lists, tactics and hints.
    - RecencyList, Lru, Cache, CacheRefine, History, CacheTheorems: the cache
      engine (recency_list.cpp, cache.cpp), the abstract LRU list it implements,
      the refinement between them, and what callers rely on.
    - KvStore: the method table shared by the three caches and the laws its
      clients may use, as type classes ([KvOps], [KvLaws], and [KvOverflows] for
      the calls the laws leave out); CacheKv, SyncCache and ShardedCache
      (sync_cache.hpp, sharded_cache.cpp) are the instances.
    - Concurrency: threads inside the methods of [SyncCache], as a step relation.
      LiveExport: [export_entries] of the sharded cache while other threads call it.
    - ShardHash, ShardedTheorems, ShardedEquiv: the hash, the division of the
      capacity, and the equivalence of sharded and plain caches.
    - Numbers, LineBuffer, Protocol: decimal text, framing (line_buffer.cpp) and
      the request and reply grammar (protocol.cpp).
    - Stream, Snapshot, Truncation, Persistence, PersistenceTheorems,
      LoadOutcome: the part of
      [std::istream] the loader uses, the snapshot format, [save] and [load]
      (persistence.cpp).  SaveRace: concurrent and interrupted saves.
      PeriodicSaver: the saver's thread and the callers of its [stop], with the
      flag, the mutex and the condition variable.
    - CommandHandler, Settled, Socket, Connection, ConnectionTheorems:
      command_handler.cpp, socket.cpp, connection.cpp, the state of a server
      between two commands, and what a client can count on.
    - Workers: the workers of many connections over one sharded cache, for the
      commands that make one call.  BusyServer, BusySound: all commands, SAVE and
      LOAD too, and the auto-save thread, as trees of effects on the shards and
      the files, and a program logic for them.
    - Server, ServerShutdown, ServerStart: server.cpp ([run], [stop], the workers
      and the sockets of the clients as a step relation, its end after [stop], then
      [start]).  ServerMain: server_main.cpp.  Process: the same from the command
      line to the exit status, with a run of BusyServer in between.
    - Client: client_main.cpp and version.cpp, and client and server at the two
      ends of one connection.  Demo: main.cpp.

    ** How the model corresponds to the code

    A definition has the name of the function, method or constant it translates.
    Objects are records; a method is a function from the state to the result and
    the new state.  [UB] is undefined behaviour: a dereferenced dangling iterator,
    [back()] of an empty list, an overflowing [long long]; theorems that say a
    call returns [Ret] exclude it.  A [std::list] iterator is the identity of a
    node, so that use after erase is visible.  [std::size_t] wraps at 64 bits.

    What the program asks of its surroundings is an argument: the monotonic
    clock (one reading per cache call, one per shard in an export, one per record
    in a load), the wall clock, the process id, the answers of [recv], [send],
    [accept], [bind] and the resolver (lists, consumed in order), the files (a
    map from paths to contents) and whether the disk creates, fills and renames.
    [std::hash] is an argument of which nothing is assumed, and so are the three
    version numbers, which the build generates.

    Loops are structural wherever the code's loop consumes a list.  The others
    carry fuel that suffices: [trim] as many turns as there are nodes, the
    tokenizer and [drain] as many as there are bytes, [serve_loop] one per answer
    of [recv]; running out is [Hang], which the theorems exclude.  A loop that
    waits for an answer of the kernel that never comes is [Hang] too.  Twenty
    digits are enough for every 64-bit number.

    Threads are step relations: each step is one lock, one read or write of
    shared state, one system call; a run is any interleaving of them.  The
    threads of BusyServer are finite trees whose next effect depends on the
    answers; there a whole call on a shard is one step, which C10 justifies.

    ** What is proved

    - C1 to C9: the cache engine is the LRU list, on every history of calls whose
      deadlines are representable, and undefined on no other; index and list
      stay in step; eviction order, expiry, [ttl]; when a TTL overflows.
    - C10 to C13: calls of concurrent threads are linearizable, exclude each
      other without deadlock and all finish; clients served at once see a server
      that handles one request at a time, for the requests that do not touch the
      snapshot; an export beside writers lists each
      shard as it was at one moment.
    - C14, C15: with all commands and auto-saves interleaved, also in the middle
      of a SAVE or a LOAD, the server stays settled, every request gets one line,
      nothing gets stuck and every schedule ends; the effect trees do what
      [execute] does.
    - C16 to C19: the shard hash loses nothing of the library's hash, the
      capacity is divided exactly and kept, and an unbounded sharded cache
      answers as one cache does.
    - C20 to C22: framing does not depend on how the stream is cut; parsing and
      printing of requests, and what a parsed request can be.
    - C23 to C26, C39: a save and a load bring back what was visible; truncated
      files are rejected; concurrent and interrupted saves never leave a torn
      file; on a file of any bytes [load] returns except when a time in it
      overflows, which is characterised exactly.
    - C27: the reply and the effect of every command.
    - C28: sockets are closed once.
    - C29, C33 to C35: the server's connection count and the sockets it owns,
      shutdown of server and saver.
    - C30 to C32, C40: a connection within the line limit performs the session
      of its lines, replies one line per request up to QUIT (SAVE and LOAD
      included), and is closed when a line grows past the limit, which bounds
      its buffer; client and server agree.
    - C36 to C38: the process from its command line to its exit status, which is
      that of its final save, the command line, and that a restart with a
      snapshot path and no capacity limit keeps the entries.

    ** Not modelled

    The log lines of a verbose server, and the sending of the refusal (whose text
    is in ServerStart) to a client over the connection limit; a [setsockopt] that
    fails on an open descriptor; the accessors that return a field;
    running out of memory (a shard count of 2^64 - 1 is accepted by the command
    line, its vector cannot be allocated); the destructors that only release
    memory; the option of [set_no_sigpipe] on systems other than Linux; the
    buffers of the kernel between the two ends of a connection (what [recv] and
    [send] answer is an argument).  The benchmarks only time calls of the library
    and the tests only check it; neither has state of its own to verify. *)
From Stdlib Require Export ZArith Ascii String Lia Sorted.
From stdpp Require Export prelude gmap strings.
#[global] Open Scope Z_scope.
#[global] Open Scope list_scope.

(** ** Byte strings

    A [std::string] is a sequence of arbitrary bytes (embedded NULs included):
    a list of 8-bit characters.  [$"SET"] is the C++ literal ["SET"]. *)
Abbreviation bytes := (list ascii).

Declare Scope cachex_scope.
Delimit Scope cachex_scope with cachex.
Notation "$ s" := (list_ascii_of_string s%string) (at level 1, s at level 0, format "$ s") : cachex_scope.
#[global] Open Scope cachex_scope.

(** ** Outcomes

    What a C++ call can do: return a value, or reach undefined behaviour (a
    dereferenced dangling iterator, [back()] of an empty list, a signed
    overflow).  [Hang] is a loop that used up the fuel the model gives it. *)
Inductive outcome (A : Type) : Type :=
| Ret (a : A)
| UB
| Hang.
Arguments Ret {A} _.
Arguments UB {A}.
Arguments Hang {A}.

#[global] Instance outcome_eq_dec {A} `{EqDecision A} : EqDecision (outcome A).
Proof. solve_decision. Defined.

#[global] Instance outcome_ret : MRet outcome := fun A a => Ret a.
#[global] Instance outcome_bind : MBind outcome := fun A B f m =>
  match m with Ret a => f a | UB => UB | Hang => Hang end.
#[global] Instance outcome_fmap : FMap outcome := fun A B f m =>
  match m with Ret a => Ret (f a) | UB => UB | Hang => Hang end.

(** Reading through something that must be there: absent means undefined. *)
Definition must {A} (o : option A) : outcome A :=
  match o with Some a => Ret a | None => UB end.

(** ** Machine integers

    [std::size_t] and [std::uint64_t] are 64-bit and wrap; [long long] and the
    [rep] of the [chrono] durations are signed 64-bit, where leaving the range
    is undefined behaviour. *)
Definition u64 (z : Z) : Z := z `mod` 2 ^ 64.
#[global] Arguments u64 : simpl never.
Definition i64_min : Z := - 2 ^ 63.
Definition i64_max : Z := 2 ^ 63 - 1.
Definition in_i64 (z : Z) : bool := (i64_min <=? z) && (z <=? i64_max).
Definition i64 (z : Z) : outcome Z := if in_i64 z then Ret z else UB.

(** [index_.size()] as a [std::size_t]. *)
Definition zlen {A} (l : list A) : Z := Z.of_nat (length l).

(** ** Keyed lists

    Lists whose elements carry a key: the list's nodes keyed by their identity,
    the entries keyed by their key. *)
Section Keyed.
Context {A K : Type} `{EqDecision K} (f : A → K).

Fixpoint find_by (k : K) (l : list A) : option A :=
  match l with
  | [] => None
  | x :: l => if decide (f x = k) then Some x else find_by k l
  end.

Definition drop_by (k : K) (l : list A) : list A := filter (λ x, f x ≠ k) l.

Definition alter_by (g : A → A) (k : K) (l : list A) : list A :=
  (λ x, if decide (f x = k) then g x else x) <$> l.
End Keyed.
#[global] Arguments drop_by : simpl never.
#[global] Arguments alter_by : simpl never.

(** ** Hint databases and tactics of the development *)
Create HintDb cachex.
Create Rewrite HintDb cachex_simpl.

(** Case analysis on the scrutinee of a [match] in a hypothesis or the goal. *)
Ltac split_match :=
  match goal with
  | H : context [match ?x with _ => _ end] |- _ => destruct x eqn:?
  | |- context [match ?x with _ => _ end] => destruct x eqn:?
  end.

(** Inverts [x ← m; k = Ret r] into the steps that returned. *)
Ltac inv_ret :=
  repeat match goal with
  | H : Ret _ = Ret _ |- _ => injection H as H; try subst
  | H : UB = Ret _ |- _ => discriminate H
  | H : Hang = Ret _ |- _ => discriminate H
  | H : mbind _ ?m = Ret _ |- _ =>
      let E := fresh "E" in destruct m eqn:E; [cbn [mbind outcome_bind] in H | discriminate H | discriminate H]
  end.

(** ** Outcome lemmas *)
Lemma bind_ret_l {A B} (a : A) (k : A → outcome B) : (Ret a ≫= k) = k a.
Proof. reflexivity. Qed.

Lemma bind_Ret_inv {A B} (m : outcome A) (k : A → outcome B) (b : B) :
  (m ≫= k) = Ret b ↔ ∃ a, m = Ret a ∧ k a = Ret b.
Proof.
  split; [destruct m as [a| |]; cbn; try discriminate; eauto|].
  intros (a & -> & H); exact H.
Qed.

Lemma must_Ret {A} (o : option A) (a : A) : must o = Ret a ↔ o = Some a.
Proof. destruct o; cbn; split; congruence. Qed.

(** ** Machine-integer lemmas *)
Lemma in_i64_true (z : Z) : in_i64 z = true ↔ i64_min ≤ z ≤ i64_max.
Proof. unfold in_i64. rewrite andb_true_iff, !Z.leb_le. lia. Qed.

Lemma i64_Ret (z : Z) : i64_min ≤ z ≤ i64_max → i64 z = Ret z.
Proof. intros H. unfold i64. by rewrite (proj2 (in_i64_true z) H). Qed.

Lemma i64_UB (z : Z) : ¬ (i64_min ≤ z ≤ i64_max) → i64 z = UB.
Proof.
  intros H. unfold i64. destruct (in_i64 z) eqn:E; [|done].
  by apply in_i64_true in E.
Qed.

Lemma u64_small (z : Z) : 0 ≤ z < 2 ^ 64 → u64 z = z.
Proof. apply Z.mod_small. Qed.

Lemma u64_range (z : Z) : 0 ≤ u64 z < 2 ^ 64.
Proof. apply Z.mod_pos_bound; lia. Qed.

Lemma u64_idem (z : Z) : u64 (u64 z) = u64 z.
Proof. apply u64_small, u64_range. Qed.

Lemma u64_add_l (a b : Z) : u64 (u64 a + b) = u64 (a + b).
Proof. unfold u64. by rewrite Z.add_mod_idemp_l by lia. Qed.

(** ** Keyed-list lemmas *)
Section KeyedLemmas.
Context {A K : Type} `{EqDecision K} (f : A → K).
Implicit Types (l : list A) (x : A) (k : K).

Lemma find_by_Some k l x : find_by f k l = Some x → x ∈ l ∧ f x = k.
Proof.
  induction l as [|y l IH]; cbn; [done|].
  case_decide; intros ?; simplify_eq; [split; [left|done]|].
  destruct IH; [done|]. split; [by right|done].
Qed.

Lemma find_by_None k l : find_by f k l = None ↔ k ∉ f <$> l.
Proof.
  induction l as [|y l IH]; cbn.
  - split; [intros _; apply not_elem_of_nil|done].
  - rewrite not_elem_of_cons. case_decide as E; [subst|rewrite IH].
    + split; [discriminate|]. intros [? _]. done.
    + split; [|by intros [_ ?]]. intros ?. split; congruence.
Qed.

Lemma find_by_elem l x : NoDup (f <$> l) → x ∈ l → find_by f (f x) l = Some x.
Proof.
  induction l as [|y l IH]; cbn; [by intros _ ?%elem_of_nil|].
  rewrite NoDup_cons, elem_of_cons. intros [Hy Hl] [->|Hx]; [by rewrite decide_True|].
  rewrite decide_False; [by apply IH|]. intros E. apply Hy. rewrite E.
  by apply list_elem_of_fmap_2.
Qed.

Lemma find_by_Some_iff k l x :
  NoDup (f <$> l) → find_by f k l = Some x ↔ x ∈ l ∧ f x = k.
Proof. intros Hl. split; [apply find_by_Some|]. intros [? <-]. by apply find_by_elem. Qed.

Lemma find_by_Permutation k l l' :
  NoDup (f <$> l) → l ≡ₚ l' → find_by f k l = find_by f k l'.
Proof.
  intros Hl Hp. assert (NoDup (f <$> l')) as Hl' by by rewrite <- Hp.
  apply option_eq. intros x. rewrite !find_by_Some_iff by done. by rewrite Hp.
Qed.

Lemma find_by_drop_eq k l : find_by f k (drop_by f k l) = None.
Proof.
  apply find_by_None. unfold drop_by. intros (x & -> & Hx)%list_elem_of_fmap.
  apply list_elem_of_filter in Hx as [? ?]. done.
Qed.

Lemma find_by_drop_ne k k' l : k ≠ k' → find_by f k (drop_by f k' l) = find_by f k l.
Proof.
  intros Hk. unfold drop_by. induction l as [|x l IH]; [done|].
  rewrite filter_cons. cbn [find_by].
  case_decide as E; cbn; [by rewrite IH|].
  rewrite IH. rewrite (decide_False (P := f x = k)); [done|]. naive_solver.
Qed.

Lemma find_by_take_None k n l : find_by f k l = None → find_by f k (take n l) = None.
Proof.
  rewrite !find_by_None. intros H Hin. apply H.
  rewrite fmap_take in Hin. by apply elem_of_take in Hin as (i & ?%list_elem_of_lookup_2 & _).
Qed.

Lemma find_by_sublist l l' k x :
  NoDup (f <$> l') → l `sublist_of` l' → find_by f k l = Some x → find_by f k l' = Some x.
Proof.
  intros Hl' Hs Hx. apply find_by_Some in Hx as [Hx <-].
  apply find_by_elem; [done|]. by eapply elem_of_sublist.
Qed.

Lemma drop_by_notin k l : k ∉ f <$> l → drop_by f k l = l.
Proof.
  unfold drop_by. induction l as [|x l IH]; [done|].
  rewrite fmap_cons, not_elem_of_cons. intros [? ?]. rewrite filter_cons, decide_True by naive_solver.
  by rewrite IH.
Qed.

Lemma drop_by_sublist k l : drop_by f k l `sublist_of` l.
Proof. apply sublist_filter. Qed.

Lemma drop_by_fmap_sublist k l : f <$> drop_by f k l `sublist_of` f <$> l.
Proof. apply fmap_sublist, drop_by_sublist. Qed.

Lemma drop_by_NoDup k l : NoDup (f <$> l) → NoDup (f <$> drop_by f k l).
Proof. intros H. eapply sublist_NoDup; [done|apply drop_by_fmap_sublist]. Qed.

Lemma drop_by_not_in k l : k ∉ f <$> drop_by f k l.
Proof. apply find_by_None, find_by_drop_eq. Qed.

Lemma drop_by_Permutation k l x :
  NoDup (f <$> l) → find_by f k l = Some x → l ≡ₚ x :: drop_by f k l.
Proof.
  intros Hl. induction l as [|y l IH]; cbn [find_by]; [done|].
  cbn in Hl. apply NoDup_cons in Hl as [Hy Hl]. unfold drop_by. rewrite filter_cons.
  case_decide as E; intros Hx.
  - simplify_eq. rewrite decide_False by naive_solver.
    pose proof (drop_by_notin (f x) l Hy) as D. unfold drop_by in D. by rewrite D.
  - rewrite decide_True by done. rewrite (IH Hl Hx) at 1. apply Permutation_swap.
Qed.

Lemma drop_by_length k l x :
  NoDup (f <$> l) → find_by f k l = Some x → length l = S (length (drop_by f k l)).
Proof. intros Hl Hx. by rewrite (drop_by_Permutation k l x) at 1. Qed.

Lemma drop_by_drop k l : drop_by f k (drop_by f k l) = drop_by f k l.
Proof. apply drop_by_notin, drop_by_not_in. Qed.

Lemma alter_by_fmap g k l :
  (∀ x, f (g x) = f x) → f <$> alter_by f g k l = f <$> l.
Proof.
  intros Hg. unfold alter_by. rewrite <- list_fmap_compose.
  apply list_fmap_ext. intros _ x _. cbn. case_decide; [apply Hg|done].
Qed.

Lemma find_by_alter g k l :
  (∀ x, f (g x) = f x) → find_by f k (alter_by f g k l) = g <$> find_by f k l.
Proof.
  intros Hg. induction l as [|x l IH]; [done|].
  change (alter_by f g k (x :: l)) with
    ((if decide (f x = k) then g x else x) :: alter_by f g k l).
  cbn [find_by]. destruct (decide (f x = k)) as [E|E].
  - by rewrite decide_True by (by rewrite Hg).
  - by rewrite decide_False, IH.
Qed.

Lemma drop_by_alter g k l :
  (∀ x, f (g x) = f x) → drop_by f k (alter_by f g k l) = drop_by f k l.
Proof.
  intros Hg. unfold drop_by. induction l as [|x l IH]; [done|].
  change (alter_by f g k (x :: l)) with
    ((if decide (f x = k) then g x else x) :: alter_by f g k l).
  rewrite !filter_cons.
  destruct (decide (f x = k)) as [E|E].
  - rewrite !decide_False by (rewrite ?Hg; auto). exact IH.
  - rewrite !decide_True by done. by rewrite IH.
Qed.
End KeyedLemmas.

Lemma Forall_sub {A} (P : A → Prop) (l l' : list A) :
  l `sublist_of` l' → Forall P l' → Forall P l.
Proof.
  intros Hs H. apply Forall_forall. intros x Hx. rewrite Forall_forall in H.
  by eapply H, elem_of_sublist.
Qed.

Lemma StronglySorted_sub {A} (R : A → A → Prop) (l l' : list A) :
  l `sublist_of` l' → StronglySorted R l' → StronglySorted R l.
Proof.
  intros Hs. induction Hs as [|x l l' Hs IH|x l l' Hs IH]; intros H; [done| |].
  - apply StronglySorted_inv in H as [H Hx]. constructor; [by apply IH|]. by eapply Forall_sub.
  - apply StronglySorted_inv in H as [H _]. by apply IH.
Qed.

Lemma StronglySorted_lookup {A} (R : A → A → Prop) (l : list A) i j x y :
  StronglySorted R l → (i < j)%nat → l !! i = Some x → l !! j = Some y → R x y.
Proof.
  intros H. revert i j. induction H as [|z l H IH Hz]; intros i j Hij Hi Hj; [done|].
  destruct j as [|j]; [lia|]. destruct i as [|i]; cbn in *; simplify_eq.
  - rewrite Forall_forall in Hz. by eapply Hz, list_elem_of_lookup_2.
  - eapply IH; [|done..]. lia.
Qed.

(** Filtering before and after a map. *)
Lemma filter_fmap_agree {A B} (f g : A → B) (P : B → Prop) (Q : A → Prop)
    `{∀ b, Decision (P b), ∀ a, Decision (Q a)} (l : list A) :
  (∀ x, f x = g x) → (∀ x, x ∈ l → P (f x) ↔ Q x) → filter P (f <$> l) = g <$> filter Q l.
Proof.
  intros Hfg. induction l as [|x l IH]; intros Hx; [done|].
  rewrite fmap_cons, !filter_cons. specialize (IH ltac:(intros; apply Hx; by right)).
  specialize (Hx x ltac:(by left)). destruct (decide (Q x)).
  - rewrite decide_True by tauto. rewrite fmap_cons. by rewrite IH, Hfg.
  - rewrite decide_False by tauto. exact IH.
Qed.

(** Dropping by one key is dropping by another that agrees on the list. *)
Lemma drop_by_fmap {A B K K'} `{EqDecision K, EqDecision K'} (f : A → K) (h : B → K')
    (g : A → B) (k : K) (k' : K') (l : list A) :
  (∀ x, x ∈ l → f x = k ↔ h (g x) = k') →
  g <$> drop_by f k l = drop_by h k' (g <$> l).
Proof.
  unfold drop_by. induction l as [|x l IH]; intros Hx; [done|].
  rewrite fmap_cons, !filter_cons. specialize (IH ltac:(intros; apply Hx; by right)).
  assert (f x = k ↔ h (g x) = k') as E by (apply Hx; by left).
  destruct (decide (f x = k)) as [F|F].
  - rewrite decide_False, decide_False by tauto. exact IH.
  - rewrite decide_True, decide_True by tauto. rewrite fmap_cons. by rewrite IH.
Qed.

#[export] Hint Resolve drop_by_NoDup drop_by_sublist drop_by_not_in : cachex.
#[export] Hint Rewrite @find_by_drop_eq @drop_by_drop : cachex_simpl.
