(* ===== verification/RecencyList.v ===== *)
(** * The recency list (include/cachex/recency_list.hpp, src/recency_list.cpp)

    [RecencyList] wraps a [std::list<Entry>]: most recently used at the front.
    A [std::list] iterator designates a *node*, not a position, and stays valid
    until that node is erased, however the list is reordered.  The model keeps
    the nodes in list order, each with its identity; an iterator is a node
    identity, and using one that designates no node of the list is undefined
    behaviour.  Identities are never reused, so a dangling iterator never comes
    back to life by accident. *)
From S2P Require Import Prelude.

(** [Entry::Clock] is [steady_clock]: a [time_point] counts nanoseconds. *)
Abbreviation time_point := Z.

(** One cached key-value pair; [expires_at = None] never expires. *)
Record Entry := mkEntry {
  key : bytes;
  value : bytes;
  expires_at : option time_point
}.

#[global] Instance Entry_eq_dec : EqDecision Entry.
Proof. solve_decision. Defined.

Module RecencyList.

(** [RecencyList::Iterator]: the identity of a node. *)
Abbreviation Iterator := nat.

(** [entries_], with the identity the next allocated node will get. *)
Record t := mk {
  nodes : list (Iterator * Entry);
  next_node : Iterator
}.

Definition empty_list : t := mk [] 0%nat.

(** The entries front to back, as [begin()]..[end()] enumerate them. *)
Definition entries (l : t) : list Entry := (nodes l).*2.

(** [*it]. *)
Definition deref (it : Iterator) (l : t) : outcome Entry :=
  snd <$> must (find_by fst it (nodes l)).

(** Assigning members of [*it] in place. *)
Definition assign (it : Iterator) (g : Entry → Entry) (l : t) : outcome t :=
  _ ← deref it l;
  Ret (mk (alter_by fst (λ n, (n.1, g n.2)) it (nodes l)) (next_node l)).

(** [push_front], then [begin()]. *)
Definition insert_newest (entry : Entry) (l : t) : Iterator * t :=
  (next_node l, mk ((next_node l, entry) :: nodes l) (S (next_node l))).

(** [entries_.splice(entries_.begin(), entries_, it)]: relinks the node. *)
Definition mark_used (it : Iterator) (l : t) : outcome t :=
  n ← must (find_by fst it (nodes l));
  Ret (mk (n :: drop_by fst it (nodes l)) (next_node l)).

(** [entries_.erase(it)]. *)
Definition erase (it : Iterator) (l : t) : outcome t :=
  _ ← must (find_by fst it (nodes l));
  Ret (mk (drop_by fst it (nodes l)) (next_node l)).

(** [entries_.back()], undefined on an empty list. *)
Definition oldest (l : t) : outcome Entry := snd <$> must (last (nodes l)).

(** [entries_.pop_back()], undefined on an empty list. *)
Definition pop_oldest (l : t) : outcome t :=
  _ ← must (last (nodes l));
  Ret (mk (removelast (nodes l)) (next_node l)).

Definition clear (l : t) : t := mk [] (next_node l).

Definition size (l : t) : Z := zlen (nodes l).

Definition is_empty (l : t) : bool := match nodes l with [] => true | _ => false end.

(** Well-formed: node identities are distinct and already allocated. *)
Record wf (l : t) : Prop := {
  wf_ids : NoDup (nodes l).*1;
  wf_next : Forall (λ n, (n.1 < next_node l)%nat) (nodes l)
}.

(** ** Lemmas *)
Lemma wf_empty : wf empty_list.
Proof. split; [apply NoDup_nil_2|constructor]. Qed.

Lemma deref_Ret it l e : wf l → deref it l = Ret e ↔ (it, e) ∈ nodes l.
Proof.
  intros [Hids _]. unfold deref. split.
  - destruct (find_by _ _ _) as [[i e']|] eqn:E; cbn; [|discriminate].
    intros [= ->]. apply find_by_Some in E as [? E]. cbn in E. by subst.
  - intros Hin. pose proof (find_by_elem fst _ _ Hids Hin) as E.
    cbn in E. rewrite E. reflexivity.
Qed.

Lemma fresh_not_in l : wf l → next_node l ∉ (nodes l).*1.
Proof.
  intros [_ Hn] ((i & e) & E & Hin)%list_elem_of_fmap. cbn in E. subst.
  rewrite Forall_forall in Hn. apply Hn in Hin. cbn in Hin. lia.
Qed.

(** The identities a well-formed list may shrink to. *)
Lemma wf_sub l ns : wf l → ns `sublist_of` nodes l → wf (mk ns (next_node l)).
Proof.
  intros [Hids Hn] Hs. split; cbn.
  - eapply sublist_NoDup; [exact Hids|by apply fmap_sublist].
  - by eapply Forall_sub.
Qed.

Lemma wf_perm l ns : wf l → nodes l ≡ₚ ns → wf (mk ns (next_node l)).
Proof. intros [Hids Hn] Hp. split; cbn; by rewrite <- Hp. Qed.

Lemma wf_insert_newest e l : wf l → wf (insert_newest e l).2.
Proof.
  intros Hl. split; cbn.
  - apply NoDup_cons; split; [by apply fresh_not_in|apply Hl].
  - constructor; [cbn; lia|]. eapply Forall_impl; [apply Hl|]. cbn; intros; lia.
Qed.

Lemma mark_used_Ret it e l :
  wf l → (it, e) ∈ nodes l →
  ∃ l', mark_used it l = Ret l' ∧ wf l' ∧ nodes l' = (it, e) :: drop_by fst it (nodes l) ∧
        nodes l ≡ₚ nodes l'.
Proof.
  intros Hl Hin. pose proof (find_by_elem fst _ _ (wf_ids _ Hl) Hin) as E. cbn in E.
  unfold mark_used. rewrite E. eexists. split; [reflexivity|].
  pose proof (drop_by_Permutation fst _ _ _ (wf_ids _ Hl) E) as Hp.
  split; [by apply wf_perm|]. by split.
Qed.

Lemma erase_Ret it e l :
  wf l → (it, e) ∈ nodes l →
  ∃ l', erase it l = Ret l' ∧ wf l' ∧ nodes l' = drop_by fst it (nodes l).
Proof.
  intros Hl Hin. pose proof (find_by_elem fst _ _ (wf_ids _ Hl) Hin) as E. cbn in E.
  unfold erase. rewrite E. eexists. split; [reflexivity|]. split; [|done].
  apply wf_sub; [done|]. apply drop_by_sublist.
Qed.

Lemma last_removelast {A} (l : list A) x : last l = Some x → l = removelast l ++ [x].
Proof.
  intros (l' & ->)%last_Some. by rewrite removelast_last.
Qed.

Lemma pop_oldest_Ret l n :
  wf l → last (nodes l) = Some n →
  ∃ l', pop_oldest l = Ret l' ∧ wf l' ∧ nodes l = nodes l' ++ [n].
Proof.
  intros Hl Hn. unfold pop_oldest. rewrite Hn. eexists. split; [reflexivity|].
  pose proof (last_removelast _ _ Hn) as E. split; [|exact E].
  apply wf_sub; [done|]. rewrite E at 2. apply sublist_inserts_r, reflexivity.
Qed.
End RecencyList.
