(* ===== verification/Lru.v ===== *)
(** * What a cache promises: an LRU list of entries with deadlines

    The abstract specification of [cachex::Cache], with no index, no iterators
    and no nodes: the resident entries from most to least recently used, the
    capacity and the two lifetime counters.  Every operation is a pure function
    on that list.  CacheRefine.v proves that the two-structure implementation
    does exactly this, and that it never reaches undefined behaviour on the
    way. *)
From S2P Require Import Prelude RecencyList.

(** The answer of [ttl]: src of [TtlState] and [TtlInfo] (cache.hpp). *)
Inductive TtlState := Missing | Persistent | Expiring.

Record TtlInfo := mkTtlInfo {
  state : TtlState;
  remaining : Z  (** milliseconds *)
}.

#[global] Instance TtlState_eq_dec : EqDecision TtlState.
Proof. solve_decision. Defined.
#[global] Instance TtlInfo_eq_dec : EqDecision TtlInfo.
Proof. solve_decision. Defined.

(** One entry as an outside observer sees it (cache.hpp). *)
Record EntrySnapshot := mkSnapshot {
  snap_key : bytes;
  snap_value : bytes;
  remaining_ttl : option Z  (** milliseconds; [None] never expires *)
}.

Module Lru.

Record t := mk {
  items : list Entry;       (** most recently used first *)
  cap : option Z;
  evicted : Z;
  reclaimed : Z
}.

(** An entry whose deadline has passed is dead: resident, but not visible. *)
Definition dead (now : time_point) (e : Entry) : bool :=
  match expires_at e with Some d => bool_decide (d ≤ now) | None => false end.

Definition lookup (k : bytes) (s : t) : option Entry := find_by key k (items s).

(** The entry a reader can observe at [now]. *)
Definition visible (now : time_point) (k : bytes) (s : t) : option Entry :=
  match lookup k s with
  | Some e => if dead now e then None else Some e
  | None => None
  end.

Definition with_items (l : list Entry) (s : t) : t := mk l (cap s) (evicted s) (reclaimed s).

(** Drops a dead entry, counting it. *)
Definition reclaim (k : bytes) (s : t) : t :=
  mk (drop_by key k (items s)) (cap s) (evicted s) (u64 (reclaimed s + 1)).

(** The entries a capacity keeps: the most recently used ones. *)
Definition keep (c : option Z) (l : list Entry) : list Entry :=
  match c with Some n => take (Z.to_nat n) l | None => l end.

(** A new entry goes to the front and pushes the oldest out. *)
Definition admit_new (e : Entry) (s : t) : t :=
  let l := e :: items s in
  mk (keep (cap s) l) (cap s) (u64 (evicted s + (zlen l - zlen (keep (cap s) l)))) (reclaimed s).

Definition put (k v : bytes) (d : option time_point) (s : t) : t :=
  match lookup k s with
  | Some _ => with_items (mkEntry k v d :: drop_by key k (items s)) s
  | None => admit_new (mkEntry k v d) s
  end.

Definition erase (now : time_point) (k : bytes) (s : t) : bool * t :=
  match lookup k s with
  | None => (false, s)
  | Some e => if dead now e then (false, reclaim k s)
              else (true, with_items (drop_by key k (items s)) s)
  end.

(** A non-positive TTL erases; otherwise the deadline is [ttl] ms from now. *)
Definition put_ttl (now : time_point) (k v : bytes) (ttl : Z) (s : t) : t :=
  if bool_decide (ttl ≤ 0) then (erase now k s).2
  else put k v (Some (now + ttl * 1000000)) s.

Definition get (now : time_point) (k : bytes) (s : t) : option bytes * t :=
  match lookup k s with
  | None => (None, s)
  | Some e => if dead now e then (None, reclaim k s)
              else (Some (value e), with_items (e :: drop_by key k (items s)) s)
  end.

(** Milliseconds left, truncated. *)
Definition time_left (now d : time_point) : Z := (d - now) `quot` 1000000.

Definition ttl (now : time_point) (k : bytes) (s : t) : TtlInfo * t :=
  match lookup k s with
  | None => (mkTtlInfo Missing 0, s)
  | Some e =>
      match expires_at e with
      | None => (mkTtlInfo Persistent 0, s)
      | Some d => if dead now e then (mkTtlInfo Missing 0, reclaim k s)
                  else (mkTtlInfo Expiring (time_left now d), s)
      end
  end.

Definition contains (now : time_point) (k : bytes) (s : t) : bool :=
  bool_decide (is_Some (visible now k s)).

Definition clear (s : t) : t := with_items [] s.

Definition snapshot_of (now : time_point) (e : Entry) : EntrySnapshot :=
  mkSnapshot (key e) (value e) (time_left now <$> expires_at e).

Definition export (now : time_point) (s : t) : list EntrySnapshot :=
  snapshot_of now <$> filter (λ e, dead now e = false) (items s).

Definition keys (s : t) : list bytes := key <$> items s.

(** The invariant of the specification: one entry per key, within capacity. *)
Record ok (s : t) : Prop := {
  ok_keys : NoDup (keys s);
  ok_cap : match cap s with Some n => 0 ≤ n ∧ zlen (items s) ≤ n | None => True end
}.

(** ** Lemmas *)
Lemma keep_sublist c l : keep c l `sublist_of` l.
Proof. destruct c; cbn; [apply sublist_take|done]. Qed.

Lemma keep_prefix c l : keep c l `prefix_of` l.
Proof. destruct c; cbn; [apply prefix_take|done]. Qed.

Lemma ok_drop s k n m : ok s → ok (mk (drop_by key k (items s)) (cap s) n m).
Proof.
  intros [Hk Hc]. split; cbn; [by apply drop_by_NoDup|].
  destruct (cap s); [|done]. destruct Hc as [? Hc]. split; [done|].
  pose proof (sublist_length _ _ (drop_by_sublist key k (items s))). unfold zlen in *. lia.
Qed.

Lemma ok_front s k e :
  ok s → is_Some (lookup k s) → key e = k → ok (with_items (e :: drop_by key k (items s)) s).
Proof.
  intros [Hk Hc] [x Hx] He. split; cbn.
  - apply NoDup_cons. rewrite He. split; [apply drop_by_not_in|by apply drop_by_NoDup].
  - destruct (cap s); [|done]. destruct Hc as [? Hc]. split; [done|].
    pose proof (drop_by_length key k _ _ Hk Hx). unfold zlen in *. cbn. lia.
Qed.

Lemma ok_admit_new s e : ok s → lookup (key e) s = None → ok (admit_new e s).
Proof.
  intros [Hk Hc] He. apply find_by_None in He. split; cbn.
  - apply sublist_NoDup with (l2 := key <$> (e :: items s)).
    + cbn. by apply NoDup_cons.
    + apply fmap_sublist, keep_sublist.
  - destruct (cap s) as [n|]; [|done]. destruct Hc as [? Hc]. split; [done|].
    unfold zlen, keep. rewrite length_take. lia.
Qed.

Lemma ok_put k v d s : ok s → ok (put k v d s).
Proof.
  intros Hs. unfold put. destruct (lookup k s) eqn:E; [by apply ok_front|by apply ok_admit_new].
Qed.

Lemma ok_reclaim k s : ok s → ok (reclaim k s).
Proof. apply ok_drop. Qed.

Lemma lookup_key k s e : lookup k s = Some e → key e = k.
Proof. intros H%find_by_Some. apply H. Qed.
End Lru.

#[export] Hint Resolve Lru.ok_put Lru.ok_reclaim Lru.ok_drop : cachex.
