(* ===== verification/Cache.v ===== *)
(** * The cache engine (include/cachex/cache.hpp, src/cache.cpp)

    [cachex::Cache] as written: an owning recency list and an index from keys
    to list iterators, kept in step by hand.  Each method is a function on the
    state that may reach undefined behaviour (a stale iterator, [back()] of an
    empty list, an overflowing deadline).  [Clock::now()] is the argument
    [now]; every method reads the clock at most once. *)
From S2P Require Import Prelude RecencyList Lru.

Module Cache.

(** The data members of [class Cache].  An [Index::iterator] is the key it
    designates; [end()] is [None]. *)
Record t := mk {
  entries_ : RecencyList.t;
  index_ : gmap bytes RecencyList.Iterator;
  capacity_ : option Z;
  evictions_ : Z;
  expired_removals_ : Z
}.

(** [Cache()]: unbounded. *)
Definition Cache_unbounded : t := mk RecencyList.empty_list ∅ None 0 0.

(** [Cache(std::size_t capacity)]. *)
Definition Cache_bounded (capacity : Z) : t := mk RecencyList.empty_list ∅ (Some capacity) 0 0.

Definition with_entries (l : RecencyList.t) (c : t) : t :=
  mk l (index_ c) (capacity_ c) (evictions_ c) (expired_removals_ c).
Definition with_index (m : gmap bytes RecencyList.Iterator) (c : t) : t :=
  mk (entries_ c) m (capacity_ c) (evictions_ c) (expired_removals_ c).
Definition count_eviction (c : t) : t :=
  mk (entries_ c) (index_ c) (capacity_ c) (u64 (evictions_ c + 1)) (expired_removals_ c).
Definition count_expired (c : t) : t :=
  mk (entries_ c) (index_ c) (capacity_ c) (evictions_ c) (u64 (expired_removals_ c + 1)).

(** Whether an entry's deadline has passed. *)
Definition is_expired (now : time_point) (entry : Entry) : bool :=
  match expires_at entry with Some d => d <=? now | None => false end.

(** [index_.find(key)]. *)
Definition index_find (k : bytes) (c : t) : option bytes :=
  match index_ c !! k with Some _ => Some k | None => None end.

(** [it->second]. *)
Definition second (it : bytes) (c : t) : outcome RecencyList.Iterator := must (index_ c !! it).

(** [index_.emplace(key, node)]: inserts only when the key is absent. *)
Definition index_emplace (k : bytes) (node : RecencyList.Iterator) (c : t) : t :=
  match index_ c !! k with Some _ => c | None => with_index (<[k := node]> (index_ c)) c end.

(** [Cache::remove]: the list node first, through the map entry, then the map
    entry. *)
Definition remove (it : bytes) (c : t) : outcome t :=
  node ← second it c;
  l ← RecencyList.erase node (entries_ c);
  let c := with_entries l c in
  _ ← second it c;
  Ret (with_index (delete it (index_ c)) c).

(** [Cache::evict_oldest]. *)
Definition evict_oldest (c : t) : outcome t :=
  victim ← RecencyList.oldest (entries_ c);
  let c := with_index (delete (key victim) (index_ c)) c in
  l ← RecencyList.pop_oldest (entries_ c);
  Ret (count_eviction (with_entries l c)).

(** [capacity_.has_value() && index_.size() > *capacity_]. *)
Definition over_capacity (c : t) : bool :=
  match capacity_ c with Some n => n <? Z.of_nat (size (index_ c)) | None => false end.

(** The [while] loop of [store]. *)
Fixpoint trim (fuel : nat) (c : t) : outcome t :=
  match fuel with
  | O => Hang
  | S fuel => if over_capacity c then c' ← evict_oldest c; trim fuel c' else Ret c
  end.

(** [Cache::store].  Each round of the loop removes a list node, so the number
    of nodes bounds it. *)
Definition store (k v : bytes) (expires : option time_point) (c : t) : outcome t :=
  match index_find k c with
  | Some it =>
      node ← second it c;
      l ← RecencyList.assign node (λ e, mkEntry (key e) v expires) (entries_ c);
      l ← RecencyList.mark_used node l;
      Ret (with_entries l c)
  | None =>
      let '(node, l) := RecencyList.insert_newest (mkEntry k v expires) (entries_ c) in
      let c := index_emplace k node (with_entries l c) in
      trim (S (length (RecencyList.nodes l))) c
  end.

(** [Cache::set(key, value)]. *)
Definition set (k v : bytes) (c : t) : outcome t := store k v None c.

(** [Cache::erase]. *)
Definition erase (now : time_point) (k : bytes) (c : t) : outcome (bool * t) :=
  match index_find k c with
  | None => Ret (false, c)
  | Some it =>
      node ← second it c;
      entry ← RecencyList.deref node (entries_ c);
      let was_visible := negb (is_expired now entry) in
      let c := if was_visible then c else count_expired c in
      c ← remove it c;
      Ret (was_visible, c)
  end.

(** [Clock::now() + ttl]: milliseconds converted to nanoseconds and added, both
    in signed 64 bits. *)
Definition deadline (now : time_point) (ttl : Z) : outcome time_point :=
  ns ← i64 (ttl * 1000000); i64 (now + ns).

(** [Cache::set(key, value, ttl)]. *)
Definition set_ttl (now : time_point) (k v : bytes) (ttl : Z) (c : t) : outcome t :=
  if ttl <=? 0 then snd <$> erase now k c
  else d ← deadline now ttl; store k v (Some d) c.

(** [Cache::find_live]. *)
Definition find_live (now : time_point) (k : bytes) (c : t) : outcome (option bytes * t) :=
  match index_find k c with
  | None => Ret (None, c)
  | Some it =>
      node ← second it c;
      entry ← RecencyList.deref node (entries_ c);
      if is_expired now entry then
        c ← remove it c; Ret (None, count_expired c)
      else Ret (Some it, c)
  end.

(** [Cache::get]. *)
Definition get (now : time_point) (k : bytes) (c : t) : outcome (option bytes * t) :=
  '(it, c) ← find_live now k c;
  match it with
  | None => Ret (None, c)
  | Some it =>
      node ← second it c;
      l ← RecencyList.mark_used node (entries_ c);
      entry ← RecencyList.deref node l;
      Ret (Some (value entry), with_entries l c)
  end.

(** [Cache::get_into]: [out] is the caller's buffer before and after. *)
Definition get_into (now : time_point) (k : bytes) (out : bytes) (c : t)
  : outcome (bool * bytes * t) :=
  '(it, c) ← find_live now k c;
  match it with
  | None => Ret (false, out, c)
  | Some it =>
      node ← second it c;
      l ← RecencyList.mark_used node (entries_ c);
      entry ← RecencyList.deref node l;
      Ret (true, value entry, with_entries l c)
  end.

(** [duration_cast<Duration>(expires - now)]: truncation toward zero. *)
Definition duration_cast_ms (ns : Z) : Z := ns `quot` 1000000.

(** [Cache::ttl]. *)
Definition ttl (now : time_point) (k : bytes) (c : t) : outcome (TtlInfo * t) :=
  match index_find k c with
  | None => Ret (mkTtlInfo Missing 0, c)
  | Some it =>
      node ← second it c;
      entry ← RecencyList.deref node (entries_ c);
      match expires_at entry with
      | None => Ret (mkTtlInfo Persistent 0, c)
      | Some d =>
          if d <=? now then
            c ← remove it c; Ret (mkTtlInfo Missing 0, count_expired c)
          else
            left ← i64 (d - now);
            Ret (mkTtlInfo Expiring (duration_cast_ms left), c)
      end
  end.

(** [Cache::contains]. *)
Definition contains (now : time_point) (k : bytes) (c : t) : outcome bool :=
  match index_find k c with
  | None => Ret false
  | Some it =>
      node ← second it c;
      entry ← RecencyList.deref node (entries_ c);
      Ret (negb (is_expired now entry))
  end.

(** [Cache::clear]. *)
Definition clear (c : t) : t :=
  with_entries (RecencyList.clear (entries_ c)) (with_index ∅ c).

Definition csize (c : t) : Z := Z.of_nat (size (index_ c)).
Definition empty (c : t) : bool := bool_decide (index_ c = ∅).
Definition capacity (c : t) : option Z := capacity_ c.
Definition evictions (c : t) : Z := evictions_ c.
Definition expired_removals (c : t) : Z := expired_removals_ c.

(** The loop of [Cache::export_entries], one entry after the other. *)
Fixpoint export_loop (now : time_point) (es : list Entry) : outcome (list EntrySnapshot) :=
  match es with
  | [] => Ret []
  | entry :: es =>
      match expires_at entry with
      | None =>
          out ← export_loop now es;
          Ret (mkSnapshot (key entry) (value entry) None :: out)
      | Some d =>
          if d <=? now then export_loop now es
          else
            left ← i64 (d - now);
            out ← export_loop now es;
            Ret (mkSnapshot (key entry) (value entry) (Some (duration_cast_ms left)) :: out)
      end
  end.

Definition export_entries (now : time_point) (c : t) : outcome (list EntrySnapshot) :=
  export_loop now (RecencyList.entries (entries_ c)).

(** [Cache::keys_by_recency]. *)
Definition keys_by_recency (c : t) : list bytes := key <$> RecencyList.entries (entries_ c).
End Cache.
