(* ===== verification/CacheRefine.v ===== *)
(** * The cache engine implements the LRU specification

    [inv] is the representation invariant of ARCHITECTURE.md section 5: every
    iterator of the index designates a live node, every node is designated by
    exactly one index entry, the two structures have the same size, and that
    size is within capacity.  Under it every method returns (no undefined
    behaviour, no endless loop), keeps the invariant, and does to [abs c] what
    the specification says. *)
From S2P Require Import Prelude RecencyList Lru Cache.

Module CacheRefine.
Import RecencyList (nodes, entries, wf, next_node).

(** What the index must be, given the nodes. *)
Definition index_of (ns : list (RecencyList.Iterator * Entry)) : gmap bytes RecencyList.Iterator :=
  list_to_map ((λ n, (key n.2, n.1)) <$> ns).

Definition deadline_ok (e : Entry) : Prop :=
  match expires_at e with Some d => i64_min ≤ d ≤ i64_max | None => True end.

(** The LRU list a cache stands for. *)
Definition abs (c : Cache.t) : Lru.t :=
  Lru.mk (entries (Cache.entries_ c)) (Cache.capacity_ c)
    (Cache.evictions_ c) (Cache.expired_removals_ c).

(** The two structures are in step: what holds even in the middle of [store],
    while the cache is over capacity. *)
Record linked (c : Cache.t) : Prop := {
  linked_list : wf (Cache.entries_ c);
  linked_index : Cache.index_ c = index_of (nodes (Cache.entries_ c));
  linked_keys : NoDup (key <$> (nodes (Cache.entries_ c)).*2);
  linked_deadlines : Forall deadline_ok (entries (Cache.entries_ c));
  linked_evictions : u64 (Cache.evictions_ c) = Cache.evictions_ c
}.

(** The representation invariant, between two calls. *)
Record inv (c : Cache.t) : Prop := {
  inv_linked : linked c;
  inv_ok : Lru.ok (abs c)
}.

(** ** The index and the nodes *)
Section Nodes.
Implicit Types (ns : list (RecencyList.Iterator * Entry)).

Lemma index_keys ns : ((λ n, (key n.2, n.1)) <$> ns).*1 = key <$> ns.*2.
Proof. by rewrite <- !list_fmap_compose. Qed.

Lemma index_of_Some ns k it :
  NoDup (key <$> ns.*2) → index_of ns !! k = Some it ↔ ∃ e, (it, e) ∈ ns ∧ key e = k.
Proof.
  intros Hk. unfold index_of. rewrite <- elem_of_list_to_map by by rewrite index_keys.
  rewrite list_elem_of_fmap. split.
  - intros ([i e] & [= -> ->] & ?). eauto.
  - intros (e & ? & <-). by exists (it, e).
Qed.

Lemma index_of_perm ns ns' :
  NoDup (key <$> ns.*2) → ns ≡ₚ ns' → index_of ns = index_of ns'.
Proof.
  intros Hk Hp. apply list_to_map_proper; [by rewrite index_keys|by rewrite Hp].
Qed.

Lemma index_of_size ns : NoDup (key <$> ns.*2) → size (index_of ns) = length ns.
Proof.
  intros Hk. unfold index_of. rewrite map_size_list_to_map by by rewrite index_keys.
  apply length_fmap.
Qed.

(** A node is determined by its identity and by its key. *)
Lemma node_key_iff ns it e n :
  NoDup ns.*1 → NoDup (key <$> ns.*2) → (it, e) ∈ ns → n ∈ ns →
  n.1 = it ↔ key n.2 = key e.
Proof.
  intros Hi Hk Hin Hn. split; intros E.
  - pose proof (find_by_elem fst _ _ Hi Hin) as F1. pose proof (find_by_elem fst _ _ Hi Hn) as F2.
    cbn in F1. rewrite E in F2. assert (n = (it, e)) as -> by congruence. done.
  - rewrite <- list_fmap_compose in Hk.
    pose proof (find_by_elem (key ∘ snd) _ _ Hk Hin) as F1.
    pose proof (find_by_elem (key ∘ snd) _ _ Hk Hn) as F2.
    cbn in F1, F2. rewrite E in F2. assert (n = (it, e)) as -> by congruence. done.
Qed.

Lemma drop_node_entries ns it e :
  NoDup ns.*1 → NoDup (key <$> ns.*2) → (it, e) ∈ ns →
  (drop_by fst it ns).*2 = drop_by key (key e) ns.*2.
Proof.
  intros Hi Hk Hin. apply drop_by_fmap. intros n Hn. by eapply node_key_iff.
Qed.

Lemma find_node_entry ns it e k :
  NoDup (key <$> ns.*2) → (it, e) ∈ ns → key e = k → find_by key k ns.*2 = Some e.
Proof.
  intros Hk Hin <-. apply find_by_elem; [done|].
  apply list_elem_of_fmap. by exists (it, e).
Qed.

Lemma index_of_None ns k :
  NoDup (key <$> ns.*2) → index_of ns !! k = None → find_by key k ns.*2 = None.
Proof.
  intros Hk Hn. apply find_by_None.
  intros (e & -> & ([it e'] & -> & Hin)%list_elem_of_fmap)%list_elem_of_fmap.
  enough (index_of ns !! key e' = Some it) by (cbn in *; congruence).
  apply index_of_Some; eauto.
Qed.

Lemma index_of_drop ns it e :
  NoDup ns.*1 → NoDup (key <$> ns.*2) → (it, e) ∈ ns →
  index_of (drop_by fst it ns) = delete (key e) (index_of ns).
Proof.
  intros Hi Hk Hin. pose proof (find_by_elem fst _ _ Hi Hin) as E. cbn in E.
  rewrite (index_of_perm ns _ Hk (drop_by_Permutation fst _ _ _ Hi E)).
  unfold index_of at 2. cbn. fold (index_of (drop_by fst it ns)).
  rewrite delete_insert_id; [done|].
  destruct (index_of (drop_by fst it ns) !! key e) as [it'|] eqn:F; [|done].
  apply index_of_Some in F as (e' & Hin' & Ek).
  - apply list_elem_of_filter in Hin' as [Hne Hin']. exfalso. apply Hne.
    by apply (node_key_iff ns it e (it', e')).
  - rewrite (drop_node_entries ns it e) by done. by apply drop_by_NoDup.
Qed.

Lemma index_of_app_last ns n :
  NoDup (key <$> (ns ++ [n]).*2) → index_of ns = delete (key n.2) (index_of (ns ++ [n])).
Proof.
  intros Hk. rewrite (index_of_perm (ns ++ [n]) (n :: ns)) by (done || by rewrite Permutation_app_comm).
  unfold index_of at 2. cbn. fold (index_of ns). rewrite delete_insert_id; [done|].
  apply not_elem_of_list_to_map. rewrite index_keys.
  rewrite fmap_app, fmap_app in Hk. apply NoDup_app in Hk as (_ & Hk & _).
  intros Hin. apply (Hk _ Hin). cbn. by left.
Qed.
End Nodes.

(** ** The two structures in step *)
Section Linked.
Implicit Types (c : Cache.t) (k : bytes).

Lemma dead_is_expired now e : Lru.dead now e = Cache.is_expired now e.
Proof.
  unfold Lru.dead, Cache.is_expired. destruct (expires_at e) as [d|]; [|done].
  destruct (Z.leb_spec d now); [by rewrite bool_decide_true|by rewrite bool_decide_false by lia].
Qed.

(** Looking a key up: absent from both structures, or one node in both. *)
Lemma find_cases c k :
  linked c →
  (Cache.index_find k c = None ∧ Cache.index_ c !! k = None ∧ Lru.lookup k (abs c) = None) ∨
  (∃ node e, Cache.index_find k c = Some k ∧ Cache.second k c = Ret node ∧
     (node, e) ∈ nodes (Cache.entries_ c) ∧ key e = k ∧
     Lru.lookup k (abs c) = Some e ∧ RecencyList.deref node (Cache.entries_ c) = Ret e).
Proof.
  intros [Hl Hi Hk _ _]. unfold Cache.index_find, Cache.second.
  destruct (Cache.index_ c !! k) as [node|] eqn:E.
  - right. rewrite Hi in E. apply index_of_Some in E as (e & Hin & Ek); [|done].
    exists node, e. do 4 (split; [done|]). split.
    + by eapply find_node_entry.
    + by apply RecencyList.deref_Ret.
  - left. do 2 (split; [done|]). rewrite Hi in E. by apply index_of_None.
Qed.

Lemma linked_count c n m :
  linked c → u64 n = n →
  linked (Cache.mk (Cache.entries_ c) (Cache.index_ c) (Cache.capacity_ c) n m).
Proof. intros [] Hn. by split. Qed.

(** Permuting the nodes leaves the index right. *)
Lemma linked_perm c l :
  linked c → wf l → nodes (Cache.entries_ c) ≡ₚ nodes l → linked (Cache.with_entries l c).
Proof.
  intros [Hl Hi Hk Hd He] Hl' Hp. split; cbn; try done.
  - rewrite Hi. by apply index_of_perm.
  - by rewrite <- Hp.
  - unfold entries. by rewrite <- Hp.
Qed.

Lemma remove_node c node e :
  linked c → (node, e) ∈ nodes (Cache.entries_ c) →
  ∃ c', Cache.remove (key e) c = Ret c' ∧ linked c' ∧
    abs c' = Lru.with_items (drop_by key (key e) (Lru.items (abs c))) (abs c).
Proof.
  intros Hc Hin. destruct Hc as [Hl Hi Hk Hd He].
  assert (Cache.index_ c !! key e = Some node) as Hx.
  { rewrite Hi. apply index_of_Some; eauto. }
  destruct (RecencyList.erase_Ret node e _ Hl Hin) as (l' & Hr & Hl' & Hn).
  unfold Cache.remove, Cache.second. rewrite Hx. cbn. rewrite Hr. cbn. rewrite Hx. cbn.
  assert ((drop_by fst node (nodes (Cache.entries_ c))).*2 =
    drop_by key (key e) (nodes (Cache.entries_ c)).*2) as Hd2.
  { apply drop_node_entries; [apply Hl|done..]. }
  eexists. split; [reflexivity|]. split.
  - split; cbn; unfold entries; try done; rewrite Hn.
    + rewrite Hi. symmetry. apply index_of_drop; [apply Hl|done..].
    + rewrite Hd2. by apply drop_by_NoDup.
    + rewrite Hd2. eapply Forall_sub; [apply drop_by_sublist|exact Hd].
  - unfold abs, Lru.with_items; cbn. unfold entries. by rewrite Hn, Hd2.
Qed.

Lemma touch_node c node e :
  linked c → (node, e) ∈ nodes (Cache.entries_ c) →
  ∃ l, RecencyList.mark_used node (Cache.entries_ c) = Ret l ∧
    RecencyList.deref node l = Ret e ∧ linked (Cache.with_entries l c) ∧
    abs (Cache.with_entries l c) =
      Lru.with_items (e :: drop_by key (key e) (Lru.items (abs c))) (abs c).
Proof.
  intros Hc Hin. pose proof (linked_list _ Hc) as Hl.
  destruct (RecencyList.mark_used_Ret node e _ Hl Hin) as (l & Hr & Hl' & Hn & Hp).
  exists l. split; [done|]. split.
  - apply RecencyList.deref_Ret; [done|]. rewrite Hn. by left.
  - split; [by apply linked_perm|]. unfold abs, Lru.with_items; cbn. unfold entries.
    rewrite Hn. cbn. rewrite (drop_node_entries _ node e) by (apply Hl || apply Hc || done).
    done.
Qed.

(** Overwriting the value and the deadline of a node in place. *)
Lemma assign_node c node e v d :
  linked c → (node, e) ∈ nodes (Cache.entries_ c) → deadline_ok (mkEntry (key e) v d) →
  ∃ l, RecencyList.assign node (λ e, mkEntry (key e) v d) (Cache.entries_ c) = Ret l ∧
    (node, mkEntry (key e) v d) ∈ nodes l ∧ linked (Cache.with_entries l c) ∧
    drop_by key (key e) (entries l) = drop_by key (key e) (entries (Cache.entries_ c)).
Proof.
  intros Hc Hin Hok. destruct Hc as [Hl Hi Hk Hd He].
  unfold RecencyList.assign. rewrite (proj2 (RecencyList.deref_Ret _ _ _ Hl) Hin). cbn.
  set (g := λ n : RecencyList.Iterator * Entry, (n.1, mkEntry (key n.2) v d)).
  set (ns := nodes (Cache.entries_ c)) in *.
  assert (∀ n, n ∈ alter_by fst g node ns → ∃ n', n' ∈ ns ∧ n.1 = n'.1 ∧ key n.2 = key n'.2 ∧
     (n = n' ∨ expires_at n.2 = d)) as Halter.
  { intros n (n' & -> & Hn')%list_elem_of_fmap. exists n'. case_decide; cbn; eauto. }
  assert (key <$> (alter_by fst g node ns).*2 = key <$> ns.*2) as Hkeys.
  { unfold alter_by. rewrite <- !list_fmap_compose. apply list_fmap_ext.
    intros _ n _. cbn. by case_decide. }
  assert ((alter_by fst g node ns).*1 = ns.*1) as Hids by by apply alter_by_fmap.
  assert ((node, mkEntry (key e) v d) ∈ alter_by fst g node ns) as Hin'.
  { apply list_elem_of_fmap. exists (node, e). cbn. by rewrite decide_True. }
  eexists. split; [reflexivity|]. cbn. split; [done|]. split.
  - split; cbn; try done.
    + split; cbn; [rewrite Hids; apply Hl|]. apply Forall_forall. intros n Hn.
      destruct (Halter _ Hn) as (n' & Hn' & -> & _).
      pose proof (RecencyList.wf_next _ Hl) as Hw. rewrite Forall_forall in Hw. by apply Hw.
    + rewrite Hi. unfold index_of. f_equal. unfold alter_by. rewrite <- !list_fmap_compose.
      apply list_fmap_ext. intros _ n _. cbn. by case_decide.
    + by rewrite Hkeys.
    + apply Forall_forall. intros x (n & -> & Hn)%list_elem_of_fmap.
      destruct (Halter _ Hn) as (n' & Hn' & _ & _ & [->|E]).
      * rewrite Forall_forall in Hd. apply Hd, list_elem_of_fmap. by exists n'.
      * unfold deadline_ok in *. by rewrite E.
  - unfold entries. cbn [RecencyList.nodes]. fold ns. fold g.
    assert (NoDup (alter_by fst g node ns).*1) as Hi' by (rewrite Hids; apply Hl).
    assert (NoDup (key <$> (alter_by fst g node ns).*2)) as Hk' by by rewrite Hkeys.
    pose proof (drop_node_entries _ _ _ Hi' Hk' Hin') as D. cbn [key] in D. rewrite <- D.
    rewrite <- (drop_node_entries ns node e); [|apply Hl|done..].
    f_equal. by apply drop_by_alter.
Qed.

Lemma evict_node c n :
  linked c → last (nodes (Cache.entries_ c)) = Some n →
  ∃ c', Cache.evict_oldest c = Ret c' ∧ linked c' ∧
    nodes (Cache.entries_ c) = nodes (Cache.entries_ c') ++ [n] ∧
    Cache.capacity_ c' = Cache.capacity_ c ∧
    Cache.evictions_ c' = u64 (Cache.evictions_ c + 1) ∧
    Cache.expired_removals_ c' = Cache.expired_removals_ c.
Proof.
  intros [Hl Hi Hk Hd He] Hn.
  destruct (RecencyList.pop_oldest_Ret _ _ Hl Hn) as (l' & Hr & Hl' & Hns).
  unfold Cache.evict_oldest, RecencyList.oldest. rewrite Hn. cbn. rewrite Hr. cbn.
  eexists. split; [reflexivity|]. split; [|by cbn]. split; cbn; try done.
  - rewrite Hi, Hns. symmetry. apply index_of_app_last. by rewrite <- Hns.
  - rewrite Hns in Hk. rewrite !fmap_app in Hk. by apply NoDup_app in Hk as (? & _ & _).
  - unfold entries in *. rewrite Hns, fmap_app in Hd. by apply Forall_app in Hd as [? _].
  - apply u64_idem.
Qed.

Lemma over_capacity_spec c :
  linked c →
  Cache.over_capacity c = match Cache.capacity_ c with
    | Some n => n <? zlen (nodes (Cache.entries_ c)) | None => false end.
Proof.
  intros Hc. unfold Cache.over_capacity. rewrite (linked_index _ Hc).
  by rewrite index_of_size by apply Hc.
Qed.

(** The trimming loop keeps the most recently used entries, and terminates. *)
Lemma trim_spec fuel c :
  linked c → (∀ n, Cache.capacity_ c = Some n → 0 ≤ n) →
  (length (nodes (Cache.entries_ c)) < fuel)%nat →
  let items := Lru.items (abs c) in
  let kept := Lru.keep (Cache.capacity_ c) items in
  ∃ c', Cache.trim fuel c = Ret c' ∧ linked c' ∧
    abs c' = Lru.mk kept (Cache.capacity_ c)
      (u64 (Cache.evictions_ c + (zlen items - zlen kept))) (Cache.expired_removals_ c).
Proof.
  revert c. induction fuel as [|fuel IH]; intros c Hc Hcap Hf; [lia|]. cbn [Cache.trim].
  rewrite over_capacity_spec by done. set (ns := nodes (Cache.entries_ c)) in *.
  assert (length (Lru.items (abs c)) = length ns) as Hlen by apply length_fmap.
  destruct (Cache.capacity_ c) as [n|] eqn:Ec; cbn [Lru.keep]; cycle 1.
  { exists c. split; [done|]. split; [done|]. unfold abs. rewrite Ec, Z.sub_diag, Z.add_0_r.
    by rewrite (linked_evictions _ Hc). }
  specialize (Hcap n eq_refl). unfold zlen. destruct (Z.ltb_spec n (Z.of_nat (length ns))) as [Ho|Ho].
  - destruct (last ns) as [x|] eqn:El; cycle 1.
    { apply last_None in El. rewrite El in Ho. cbn in Ho. lia. }
    destruct (evict_node c x Hc El) as (c1 & -> & Hc1 & Hns & Ec1 & Ee & Er).
    rewrite bind_ret_l.
    fold ns in Hns. apply (f_equal length) in Hns as Hl1. rewrite length_app in Hl1. cbn in Hl1.
    destruct (IH c1 Hc1) as (c' & -> & Hc' & Habs); [rewrite Ec1, Ec; congruence|lia|].
    exists c'. split; [done|]. split; [done|]. rewrite Habs, Ec1, Ec, Ee, Er. cbn [Lru.keep].
    assert (Lru.items (abs c) = Lru.items (abs c1) ++ [x.2]) as ->.
    { unfold abs, entries; cbn. fold ns. by rewrite Hns, fmap_app. }
    assert (length (Lru.items (abs c1)) = length (nodes (Cache.entries_ c1))) as Hl2
      by apply length_fmap.
    rewrite take_app_le by lia. f_equal. rewrite u64_add_l, length_app. f_equal.
    unfold zlen. cbn [length]. lia.
  - exists c. split; [done|]. split; [done|]. rewrite take_ge by lia.
    rewrite Z.sub_diag, Z.add_0_r, (linked_evictions _ Hc). unfold abs. by rewrite Ec.
Qed.
End Linked.

(** ** Every method returns, keeps the invariant and follows the specification *)
Section Methods.
Implicit Types (c : Cache.t) (k v : bytes).

Lemma inv_unbounded : inv Cache.Cache_unbounded.
Proof.
  split; [split; cbn; try done|split; cbn; done || apply NoDup_nil_2].
  - apply RecencyList.wf_empty.
  - apply NoDup_nil_2.
Qed.

Lemma inv_bounded n : 0 ≤ n → inv (Cache.Cache_bounded n).
Proof.
  intros Hn. split; [split; cbn; try done|split; cbn].
  - apply RecencyList.wf_empty.
  - apply NoDup_nil_2.
  - apply NoDup_nil_2.
  - done.
Qed.

Lemma linked_count_expired c : linked c → linked (Cache.count_expired c).
Proof. intros Hc. apply linked_count; [done|apply Hc]. Qed.

(** Removing a node, counted or not, keeps the invariant. *)
Lemma remove_refines c node e :
  inv c → (node, e) ∈ nodes (Cache.entries_ c) →
  ∃ c', Cache.remove (key e) c = Ret c' ∧ inv c' ∧ inv (Cache.count_expired c') ∧
    abs c' = Lru.with_items (drop_by key (key e) (Lru.items (abs c))) (abs c) ∧
    abs (Cache.count_expired c') = Lru.reclaim (key e) (abs c).
Proof.
  intros [Hc Hok] Hin. destruct (remove_node c node e Hc Hin) as (c' & Hr & Hc' & Habs).
  assert (abs (Cache.count_expired c') = Lru.reclaim (key e) (abs c)) as Habs'.
  { unfold abs, Lru.with_items, Lru.reclaim in *. cbn in *. by injection Habs as -> -> -> ->. }
  exists c'. split; [done|]. split_and!; try done.
  - split; [done|]. rewrite Habs. by apply Lru.ok_drop.
  - split; [by apply linked_count_expired|]. rewrite Habs'. by apply Lru.ok_drop.
Qed.

Lemma store_refines c k v d :
  inv c → deadline_ok (mkEntry k v d) →
  ∃ c', Cache.store k v d c = Ret c' ∧ inv c' ∧ abs c' = Lru.put k v d (abs c).
Proof.
  intros [Hc Hok] Hd.
  enough (∃ c', Cache.store k v d c = Ret c' ∧ linked c' ∧ abs c' = Lru.put k v d (abs c))
    as (c' & ? & ? & Habs).
  { exists c'. split; [done|]. split; [|done]. split; [done|]. rewrite Habs. by apply Lru.ok_put. }
  unfold Cache.store, Lru.put.
  destruct (find_cases c k Hc) as [(-> & Hi & ->)|(node & e & -> & -> & Hin & <- & -> & _)].
  - cbn. set (l := (RecencyList.insert_newest (mkEntry k v d) (Cache.entries_ c)).2).
    unfold Cache.index_emplace. cbn. rewrite Hi.
    set (c1 := Cache.with_index _ _).
    assert (linked c1) as Hc1.
    { split; cbn; [by apply RecencyList.wf_insert_newest, Hc| | |by constructor; [|apply Hc]|apply Hc].
      - by rewrite (linked_index _ Hc).
      - apply NoDup_cons. split; [|apply Hc]. apply find_by_None.
        apply index_of_None; [apply Hc|]. by rewrite <- (linked_index _ Hc). }
    destruct (trim_spec (S (S (length (nodes (Cache.entries_ c))))) c1 Hc1) as (c' & Ht & Hc' & Habs).
    + cbn. intros n E. pose proof (Lru.ok_cap _ Hok) as H. cbn in H. rewrite E in H. apply H.
    + cbn. lia.
    + exists c'. split; [exact Ht|]. split; [done|]. rewrite Habs. done.
  - rewrite bind_ret_l.
    destruct (assign_node c node e v d Hc Hin Hd) as (l & -> & Hin' & Hl & Hdrop).
    rewrite bind_ret_l.
    destruct (touch_node _ node _ Hl Hin') as (l' & Ht & _ & Hl' & Habs). cbn in Ht. rewrite Ht.
    rewrite bind_ret_l. eexists. split; [reflexivity|]. split; [exact Hl'|].
    cbn in Habs. unfold Lru.with_items in *. cbn in *. unfold entries in *.
    rewrite <- Hdrop. exact Habs.
Qed.

(** Case analysis on where a key is, and what that makes of each method. *)
Ltac find_case Hinv k :=
  let node := fresh "node" in let e := fresh "e" in let Hin := fresh "Hin" in
  let Hlook := fresh "Hlook" in let Hderef := fresh "Hderef" in
  destruct (find_cases _ k (inv_linked _ Hinv))
    as [(-> & _ & ->)|(node & e & -> & -> & Hin & <- & -> & Hderef)];
  [|rewrite ?bind_ret_l, Hderef, ?bind_ret_l].

Lemma erase_refines c now k :
  inv c → ∃ r c', Cache.erase now k c = Ret (r, c') ∧ inv c' ∧
    Lru.erase now k (abs c) = (r, abs c').
Proof.
  intros Hc. unfold Cache.erase, Lru.erase. find_case Hc k; [eauto|].
  rewrite dead_is_expired. destruct (Cache.is_expired now e); cbn [negb].
  - destruct (remove_refines (Cache.count_expired c) node e) as (c' & Hr & Hc' & _ & Ha & _).
    { split; [by apply linked_count_expired, Hc|]. split; apply (inv_ok _ Hc). }
    { exact Hin. }
    rewrite Hr, bind_ret_l. do 2 eexists. split; [reflexivity|]. split; [done|].
    by rewrite Ha.
  - destruct (remove_refines c node e Hc Hin) as (c' & -> & Hc' & _ & Ha & _).
    rewrite bind_ret_l. do 2 eexists. split; [reflexivity|]. split; [done|]. by rewrite Ha.
Qed.

(** A deadline is computed without overflow exactly when it is representable. *)
Lemma deadline_Ret now ttl :
  0 ≤ now → 0 < ttl → now + ttl * 1000000 ≤ i64_max →
  Cache.deadline now ttl = Ret (now + ttl * 1000000).
Proof.
  intros Hn Ht Hm. unfold Cache.deadline.
  rewrite i64_Ret by (unfold i64_min, i64_max in *; lia). rewrite bind_ret_l.
  apply i64_Ret. unfold i64_min, i64_max in *; lia.
Qed.

Lemma set_ttl_refines c now k v ttl :
  inv c → 0 ≤ now → now + ttl * 1000000 ≤ i64_max →
  ∃ c', Cache.set_ttl now k v ttl c = Ret c' ∧ inv c' ∧ abs c' = Lru.put_ttl now k v ttl (abs c).
Proof.
  intros Hc Hn Hm. unfold Cache.set_ttl, Lru.put_ttl.
  destruct (Z.leb_spec ttl 0) as [Ht|Ht].
  - destruct (erase_refines c now k Hc) as (r & c' & -> & Hc' & Ha). rewrite bool_decide_true by done.
    exists c'. split; [done|]. split; [done|]. by rewrite Ha.
  - rewrite bool_decide_false by lia. rewrite deadline_Ret by lia. rewrite bind_ret_l.
    apply store_refines; [done|]. cbn. unfold i64_min, i64_max in *. lia.
Qed.

(** [find_live] reclaims a dead entry and finds a live one. *)
Lemma find_live_refines c now k :
  inv c →
  (∃ c', Cache.find_live now k c = Ret (None, c') ∧ inv c' ∧ Lru.get now k (abs c) = (None, abs c')) ∨
  (∃ node e, Cache.find_live now k c = Ret (Some k, c) ∧ Cache.second k c = Ret node ∧
     (node, e) ∈ nodes (Cache.entries_ c) ∧ key e = k ∧ Lru.lookup k (abs c) = Some e ∧
     Lru.get now k (abs c) =
       (Some (value e), Lru.with_items (e :: drop_by key k (Lru.items (abs c))) (abs c))).
Proof.
  intros Hc. unfold Cache.find_live, Lru.get.
  destruct (find_cases _ k (inv_linked _ Hc))
    as [(-> & _ & ->)|(node & e & -> & -> & Hin & <- & -> & Hd)]; [left; eauto|].
  rewrite bind_ret_l, Hd, bind_ret_l, dead_is_expired. destruct (Cache.is_expired now e).
  - left. destruct (remove_refines c node e Hc Hin) as (c' & -> & _ & Hc' & _ & Ha).
    rewrite bind_ret_l. eexists. split; [reflexivity|]. split; [done|]. by rewrite Ha.
  - right. exists node, e. split_and!; done.
Qed.

Lemma get_into_refines c now k out :
  inv c → ∃ r c', Cache.get now k c = Ret (r, c') ∧ inv c' ∧ Lru.get now k (abs c) = (r, abs c') ∧
    Cache.get_into now k out c = Ret (bool_decide (is_Some r), default out r, c').
Proof.
  intros Hc. unfold Cache.get, Cache.get_into.
  destruct (find_live_refines c now k Hc)
    as [(c' & -> & Hc' & Hg)|(node & e & -> & Hs & Hin & <- & Hl & ->)]; rewrite !bind_ret_l.
  { exists None, c'. split_and!; done. }
  destruct (touch_node c node e (inv_linked _ Hc) Hin) as (l & Hm & Hd & Hl' & Ha).
  rewrite Hs, !bind_ret_l, Hm, !bind_ret_l, Hd, !bind_ret_l.
  do 2 eexists. split; [reflexivity|]. split; [|split; [by rewrite Ha|reflexivity]].
  split; [done|]. rewrite Ha. apply Lru.ok_front; [apply Hc|by rewrite Hl|done].
Qed.

Lemma ttl_refines c now k :
  inv c → 0 ≤ now → ∃ r c', Cache.ttl now k c = Ret (r, c') ∧ inv c' ∧
    Lru.ttl now k (abs c) = (r, abs c').
Proof.
  intros Hc Hn. unfold Cache.ttl, Lru.ttl. find_case Hc k; [eauto|].
  rewrite dead_is_expired. unfold Cache.is_expired.
  pose proof (linked_deadlines _ (inv_linked _ Hc)) as Hd. rewrite Forall_forall in Hd.
  assert (deadline_ok e) as He. { apply Hd, list_elem_of_fmap. by exists (node, e). }
  unfold deadline_ok in He. destruct (expires_at e) as [d|]; [|eauto].
  destruct (Z.leb_spec d now).
  - destruct (remove_refines c node e Hc Hin) as (c' & -> & _ & Hc' & _ & Ha).
    rewrite bind_ret_l. do 2 eexists. split; [reflexivity|]. split; [done|]. by rewrite Ha.
  - rewrite i64_Ret by (unfold i64_min, i64_max in *; lia). rewrite bind_ret_l.
    by do 2 eexists.
Qed.

Lemma contains_refines c now k :
  inv c → Cache.contains now k c = Ret (Lru.contains now k (abs c)).
Proof.
  intros Hc. unfold Cache.contains, Lru.contains, Lru.visible. find_case Hc k; [done|].
  rewrite dead_is_expired. by destruct (Cache.is_expired now e).
Qed.

Lemma clear_refines c : inv c → inv (Cache.clear c) ∧ abs (Cache.clear c) = Lru.clear (abs c).
Proof.
  intros [Hc [Hk Hcap]]. split; [|done]. split.
  - split; cbn; try done; [|apply NoDup_nil_2|apply Hc].
    split; cbn; [apply NoDup_nil_2|constructor].
  - split; cbn; [apply NoDup_nil_2|]. cbn in Hcap. destruct (Cache.capacity_ c); [|done].
    split; [apply Hcap|]. unfold zlen. cbn. lia.
Qed.

Lemma export_refines c now :
  inv c → 0 ≤ now → Cache.export_entries now c = Ret (Lru.export now (abs c)).
Proof.
  intros Hc Hn. unfold Cache.export_entries, Lru.export. cbn [abs Lru.items].
  pose proof (linked_deadlines _ (inv_linked _ Hc)) as Hd.
  induction (entries (Cache.entries_ c)) as [|e es IH]; [done|].
  apply Forall_cons in Hd as [He Hd]. cbn [Cache.export_loop]. rewrite filter_cons, dead_is_expired.
  unfold Cache.is_expired, deadline_ok in *. destruct (expires_at e) as [d|] eqn:E.
  - destruct (Z.leb_spec d now).
    + rewrite decide_False by done. by apply IH.
    + rewrite decide_True by done. rewrite i64_Ret by (unfold i64_min, i64_max in *; lia).
      rewrite IH by done. cbn. unfold Lru.snapshot_of at 2. by rewrite E.
  - rewrite decide_True by done. rewrite IH by done. cbn. unfold Lru.snapshot_of at 2. by rewrite E.
Qed.
End Methods.
End CacheRefine.
