(* ===== verification/History.v ===== *)
(** * Histories of cache calls

    The public interface of [class Cache] as a datatype of calls and answers,
    one run function for the implementation and one for the specification.
    A history is a sequence of calls, each with the clock reading it sees. *)
From S2P Require Import Prelude RecencyList Lru Cache CacheRefine.

Module History.
Import CacheRefine.

(** The public methods of [class Cache]. *)
Inductive op :=
| OpSet (k v : bytes)
| OpSetTtl (k v : bytes) (ttl : Z)
| OpGet (k : bytes)
| OpGetInto (k out : bytes)
| OpErase (k : bytes)
| OpContains (k : bytes)
| OpTtl (k : bytes)
| OpClear
| OpSize
| OpEmpty
| OpCapacity
| OpEvictions
| OpExpiredRemovals
| OpExport
| OpKeys.

(** Their answers. *)
Inductive answer :=
| Done
| Value (v : option bytes)
| Into (hit : bool) (out : bytes)
| Bool (b : bool)
| Ttl (i : TtlInfo)
| Count (n : Z)
| Limit (n : option Z)
| Snapshot (l : list EntrySnapshot)
| Keys (l : list bytes).

(** One call on the implementation. *)
Definition run (now : time_point) (o : op) (c : Cache.t) : outcome (answer * Cache.t) :=
  match o with
  | OpSet k v => c ← Cache.set k v c; Ret (Done, c)
  | OpSetTtl k v ttl => c ← Cache.set_ttl now k v ttl c; Ret (Done, c)
  | OpGet k => '(r, c) ← Cache.get now k c; Ret (Value r, c)
  | OpGetInto k out => '(hit, out, c) ← Cache.get_into now k out c; Ret (Into hit out, c)
  | OpErase k => '(r, c) ← Cache.erase now k c; Ret (Bool r, c)
  | OpContains k => r ← Cache.contains now k c; Ret (Bool r, c)
  | OpTtl k => '(r, c) ← Cache.ttl now k c; Ret (Ttl r, c)
  | OpClear => Ret (Done, Cache.clear c)
  | OpSize => Ret (Count (Cache.csize c), c)
  | OpEmpty => Ret (Bool (Cache.empty c), c)
  | OpCapacity => Ret (Limit (Cache.capacity c), c)
  | OpEvictions => Ret (Count (Cache.evictions c), c)
  | OpExpiredRemovals => Ret (Count (Cache.expired_removals c), c)
  | OpExport => l ← Cache.export_entries now c; Ret (Snapshot l, c)
  | OpKeys => Ret (Keys (Cache.keys_by_recency c), c)
  end.

(** The same call on the specification. *)
Definition spec (now : time_point) (o : op) (s : Lru.t) : answer * Lru.t :=
  match o with
  | OpSet k v => (Done, Lru.put k v None s)
  | OpSetTtl k v ttl => (Done, Lru.put_ttl now k v ttl s)
  | OpGet k => let '(r, s) := Lru.get now k s in (Value r, s)
  | OpGetInto k out => let '(r, s) := Lru.get now k s in
                       (Into (bool_decide (is_Some r)) (default out r), s)
  | OpErase k => let '(r, s) := Lru.erase now k s in (Bool r, s)
  | OpContains k => (Bool (Lru.contains now k s), s)
  | OpTtl k => let '(r, s) := Lru.ttl now k s in (Ttl r, s)
  | OpClear => (Done, Lru.clear s)
  | OpSize => (Count (zlen (Lru.items s)), s)
  | OpEmpty => (Bool (bool_decide (Lru.items s = [])), s)
  | OpCapacity => (Limit (Lru.cap s), s)
  | OpEvictions => (Count (Lru.evicted s), s)
  | OpExpiredRemovals => (Count (Lru.reclaimed s), s)
  | OpExport => (Snapshot (Lru.export now s), s)
  | OpKeys => (Keys (Lru.keys s), s)
  end.

(** What a call needs: a monotonic-clock reading, and a deadline that fits. *)
Definition call_ok (now : time_point) (o : op) : bool :=
  (0 <=? now) &&
  match o with OpSetTtl _ _ ttl => now + ttl * 1000000 <=? i64_max | _ => true end.

Abbreviation history := (list (time_point * op)).

Fixpoint run_all (h : history) (c : Cache.t) : outcome (list answer * Cache.t) :=
  match h with
  | [] => Ret ([], c)
  | (now, o) :: h =>
      '(r, c) ← run now o c;
      '(rs, c) ← run_all h c;
      Ret (r :: rs, c)
  end.

Fixpoint spec_all (h : history) (s : Lru.t) : list answer * Lru.t :=
  match h with
  | [] => ([], s)
  | (now, o) :: h =>
      let '(r, s) := spec now o s in
      let '(rs, s) := spec_all h s in
      (r :: rs, s)
  end.

(** The caches a program can have built: one of the two constructors, then any
    history of calls. *)
Inductive reachable : Cache.t → Prop :=
| reachable_unbounded : reachable Cache.Cache_unbounded
| reachable_bounded n : 0 ≤ n < 2 ^ 64 → reachable (Cache.Cache_bounded n)
| reachable_step c c' now o r :
    reachable c → call_ok now o = true → run now o c = Ret (r, c') → reachable c'.

(** The key a call used, read off the call and its answer. *)
Definition used (o : op) (r : answer) : option bytes :=
  match o, r with
  | OpSet k _, _ => Some k
  | OpSetTtl k _ ttl, _ => if bool_decide (ttl ≤ 0) then None else Some k
  | OpGet k, Value (Some _) => Some k
  | OpGetInto k _, Into true _ => Some k
  | _, _ => None
  end.

(** Position in the log of the last call that used the key; the log is most
    recent first. *)
Fixpoint last_use (k : bytes) (log : list (op * answer)) : option nat :=
  match log with
  | [] => None
  | (o, r) :: older =>
      if decide (used o r = Some k) then Some (length older) else last_use k older
  end.

(** Runs a history and keeps the log, most recent first. *)
Fixpoint run_log (h : history) (log : list (op * answer)) (c : Cache.t)
  : outcome (list (op * answer) * Cache.t) :=
  match h with
  | [] => Ret (log, c)
  | (now, o) :: h => '(r, c) ← run now o c; run_log h ((o, r) :: log) c
  end.

(** [k1] was used after [k2]. *)
Definition used_after (log : list (op * answer)) (k1 k2 : bytes) : Prop :=
  ∃ n1 n2, last_use k1 log = Some n1 ∧ last_use k2 log = Some n2 ∧ (n2 < n1)%nat.

(** ** Refinement of one call and of whole histories *)
Lemma csize_abs c : inv c → Cache.csize c = zlen (Lru.items (abs c)).
Proof.
  intros Hc. unfold Cache.csize, zlen. rewrite (linked_index _ (inv_linked _ Hc)).
  rewrite index_of_size by apply Hc. cbn. unfold RecencyList.entries. by rewrite length_fmap.
Qed.

Lemma empty_abs c : inv c → Cache.empty c = bool_decide (Lru.items (abs c) = []).
Proof.
  intros Hc. pose proof (csize_abs c Hc) as E. unfold Cache.csize, zlen in E.
  apply bool_decide_ext. rewrite <- map_size_empty_iff, <- length_zero_iff_nil. lia.
Qed.

Lemma run_refines c now o :
  inv c → call_ok now o = true →
  ∃ r c', run now o c = Ret (r, c') ∧ inv c' ∧ spec now o (abs c) = (r, abs c').
Proof.
  intros Hc Hok. apply andb_true_iff in Hok as [Hn%Z.leb_le Ho].
  destruct o; cbn [run spec].
  - destruct (store_refines c k v None Hc I) as (c' & Hr & Hc' & Ha).
    unfold Cache.set. rewrite Hr. exists Done, c'. by rewrite Ha.
  - apply Z.leb_le in Ho. destruct (set_ttl_refines c now k v ttl Hc Hn Ho) as (c' & -> & Hc' & Ha).
    exists Done, c'. by rewrite Ha.
  - destruct (get_into_refines c now k [] Hc) as (r & c' & -> & Hc' & -> & _). by exists (Value r), c'.
  - destruct (get_into_refines c now k out Hc) as (r & c' & _ & Hc' & -> & ->). by do 2 eexists.
  - destruct (erase_refines c now k Hc) as (r & c' & -> & Hc' & ->). by exists (Bool r), c'.
  - rewrite contains_refines by done. by do 2 eexists.
  - destruct (ttl_refines c now k Hc Hn) as (r & c' & -> & Hc' & ->). by exists (Ttl r), c'.
  - destruct (clear_refines c Hc) as [? <-]. by do 2 eexists.
  - rewrite csize_abs by done. by do 2 eexists.
  - rewrite empty_abs by done. by do 2 eexists.
  - by do 2 eexists.
  - by do 2 eexists.
  - by do 2 eexists.
  - rewrite export_refines by done. by do 2 eexists.
  - by do 2 eexists.
Qed.

Lemma run_all_refines h c :
  inv c → Forall (λ '(now, o), call_ok now o = true) h →
  ∃ rs c', run_all h c = Ret (rs, c') ∧ inv c' ∧ spec_all h (abs c) = (rs, abs c').
Proof.
  intros Hc Hh. revert c Hc. induction Hh as [|[now o] h Ho _ IH]; intros c Hc; cbn.
  { by do 2 eexists. }
  destruct (run_refines c now o Hc Ho) as (r & c1 & -> & Hc1 & ->). cbn.
  destruct (IH c1 Hc1) as (rs & c' & -> & Hc' & ->). cbn. by do 2 eexists.
Qed.

Lemma reachable_inv c : reachable c → inv c.
Proof.
  induction 1 as [|n Hn|c c' now o r _ IH Ho Hr].
  - apply inv_unbounded.
  - apply inv_bounded. lia.
  - destruct (run_refines c now o IH Ho) as (r' & c1 & Hr' & Hc1 & _). congruence.
Qed.

(** Calls from an invariant state never get stuck, so answers determine runs. *)
Lemma run_inv c now o r c' :
  inv c → call_ok now o = true → run now o c = Ret (r, c') →
  inv c' ∧ spec now o (abs c) = (r, abs c').
Proof.
  intros Hc Ho Hr. destruct (run_refines c now o Hc Ho) as (r1 & c1 & Hr1 & ? & ?).
  rewrite Hr in Hr1. by simplify_eq.
Qed.
End History.
