(* ===== verification/CacheTheorems.v ===== *)
(** * What makes the cache engine correct

    The properties of [class Cache] a caller relies on, stated on the
    implementation and proved through the LRU specification it refines. *)
From S2P Require Import Prelude RecencyList Lru Cache CacheRefine History.

Module CacheTheorems.
Import CacheRefine History.

(** The two constructors. *)
Definition new_cache (capacity : option Z) : Cache.t :=
  match capacity with
  | None => Cache.Cache_unbounded
  | Some n => Cache.Cache_bounded n
  end.

(** A capacity a [std::size_t] can hold. *)
Definition size_t_ok (capacity : option Z) : bool :=
  match capacity with Some n => (0 <=? n) && (n <? 2 ^ 64) | None => true end.

Definition calls_ok (h : history) : bool := forallb (λ x, call_ok x.1 x.2) h.

(** Readings a steady clock can give: a signed 64-bit count of nanoseconds, not
    negative. *)
Definition clock_ok (h : history) : bool := forallb (λ x, (0 <=? x.1) && (x.1 <=? i64_max)) h.

(** The cache after a history, for concrete histories. *)
Definition after (capacity : option Z) (h : history) : Cache.t :=
  match run_all h (new_cache capacity) with Ret (_, c) => c | _ => new_cache capacity end.

(** ** Lemmas *)
Section Lemmas.
Implicit Types (c : Cache.t) (s : Lru.t) (k : bytes) (h : history).

Lemma calls_ok_Forall h : calls_ok h = true → Forall (λ '(now, o), call_ok now o = true) h.
Proof.
  unfold calls_ok. rewrite forallb_forall, Forall_forall. intros H [now o] Hin.
  apply (H (now, o)). by apply list_elem_of_In.
Qed.

Lemma reachable_new n : size_t_ok n = true → reachable (new_cache n).
Proof.
  destruct n as [n|]; cbn; [|constructor]. rewrite andb_true_iff, Z.leb_le, Z.ltb_lt.
  intros ?. by constructor.
Qed.

Lemma run_all_reachable h c rs c' :
  reachable c → calls_ok h = true → run_all h c = Ret (rs, c') → reachable c'.
Proof.
  revert c rs. induction h as [|[now o] h IH]; intros c rs Hc Hh Hr; cbn in *; inv_ret.
  { by simplify_eq. }
  apply andb_true_iff in Hh as [Ho Hh].
  destruct a as [r c1]; cbn in Hr; inv_ret. destruct a as [rs1 c2]. cbn in Hr. simplify_eq.
  eapply IH; [|done|done]. by econstructor.
Qed.

Lemma reachable_after n h : size_t_ok n = true → calls_ok h = true → reachable (after n h).
Proof.
  intros Hn Hh. unfold after. destruct (run_all h (new_cache n)) as [[rs c]| |] eqn:E;
    [|by apply reachable_new..].
  eapply run_all_reachable; [by apply reachable_new|done..].
Qed.

Lemma abs_new n : abs (new_cache n) = Lru.mk [] n 0 0.
Proof. by destruct n. Qed.

(** *** Visibility *)
Lemma visible_front t k e s :
  Lru.visible t k (Lru.with_items (e :: drop_by key (key e) (Lru.items s)) s) =
  if decide (key e = k) then (if Lru.dead t e then None else Some e) else Lru.visible t k s.
Proof.
  unfold Lru.visible, Lru.lookup. cbn. case_decide as E; [done|].
  by rewrite find_by_drop_ne by congruence.
Qed.

Lemma dead_mono t t' e : t ≤ t' → Lru.dead t e = true → Lru.dead t' e = true.
Proof.
  unfold Lru.dead. destruct (expires_at e); [|done]. rewrite !bool_decide_eq_true. lia.
Qed.

Lemma visible_reclaim now t k k' s :
  now ≤ t → Lru.visible now k s = None → Lru.visible t k' (Lru.reclaim k s) = Lru.visible t k' s.
Proof.
  intros Ht Hv. unfold Lru.visible, Lru.lookup in *. cbn.
  destruct (decide (k' = k)) as [->|Hne]; [|by rewrite find_by_drop_ne].
  rewrite find_by_drop_eq. destruct (find_by key k (Lru.items s)) as [e|]; [|done].
  destruct (Lru.dead now e) eqn:E; [|done]. by rewrite (dead_mono _ _ _ Ht E).
Qed.

Lemma visible_get now t k k' s :
  Lru.ok s → now ≤ t → Lru.visible t k' (Lru.get now k s).2 = Lru.visible t k' s.
Proof.
  intros Hs Ht. unfold Lru.get. destruct (Lru.lookup k s) as [e|] eqn:E; [|done].
  destruct (Lru.dead now e) eqn:D; cbn [snd].
  - eapply visible_reclaim; [done|]. unfold Lru.visible. by rewrite E, D.
  - pose proof (Lru.lookup_key _ _ _ E) as <-. rewrite visible_front. case_decide as F; [|done].
    subst k'. unfold Lru.visible. by rewrite E.
Qed.

Lemma visible_ttl now t k k' s :
  now ≤ t → Lru.visible t k' (Lru.ttl now k s).2 = Lru.visible t k' s.
Proof.
  intros Ht. unfold Lru.ttl. destruct (Lru.lookup k s) as [e|] eqn:E; [|done].
  destruct (expires_at e) as [d|] eqn:X; [|done]. destruct (Lru.dead now e) eqn:D; [|done].
  eapply visible_reclaim; [done|]. unfold Lru.visible. by rewrite E, D.
Qed.

Lemma get_visible now k s : (Lru.get now k s).1 = value <$> Lru.visible now k s.
Proof.
  unfold Lru.get, Lru.visible. destruct (Lru.lookup k s) as [e|]; [|done].
  by destruct (Lru.dead now e).
Qed.

(** Storing under a key: visible until its deadline, if anything is stored. *)
Lemma visible_put t k v d s :
  Lru.cap s ≠ Some 0 → Lru.ok s →
  Lru.visible t k (Lru.put k v d s) =
  (if Lru.dead t (mkEntry k v d) then None else Some (mkEntry k v d)).
Proof.
  intros Hc Hs. unfold Lru.put. destruct (Lru.lookup k s) eqn:E.
  - pose proof (visible_front t k (mkEntry k v d) s) as H. cbn in H. rewrite H.
    by rewrite decide_True.
  - unfold Lru.visible, Lru.lookup. cbn. pose proof (Lru.ok_cap _ Hs) as Hcap.
    destruct (Lru.cap s) as [n|]; cbn; [|by rewrite decide_True].
    destruct (Z.to_nat n) as [|m] eqn:En; [|cbn; by rewrite decide_True].
    assert (n = 0) by lia. congruence.
Qed.

(** Storing never changes another key, except by evicting it. *)
Lemma visible_put_other t k v d k' s :
  k' ≠ k → Lru.ok s →
  Lru.visible t k' (Lru.put k v d s) = Lru.visible t k' s ∨ Lru.lookup k' (Lru.put k v d s) = None.
Proof.
  intros Hk Hs. unfold Lru.put. destruct (Lru.lookup k s) eqn:E.
  - left. pose proof (visible_front t k' (mkEntry k v d) s) as H. cbn in H. rewrite H.
    by rewrite decide_False.
  - destruct (Lru.lookup k' (Lru.admit_new _ s)) as [e|] eqn:F; [left|by right].
    unfold Lru.visible. rewrite F. unfold Lru.lookup in *. cbn in F.
    apply find_by_sublist with (l' := mkEntry k v d :: Lru.items s) in F.
    + cbn in F. rewrite decide_False in F by done. by rewrite F.
    + apply NoDup_cons. split; [by apply find_by_None|apply Hs].
    + apply Lru.keep_sublist.
Qed.

Lemma visible_erase t now k k' s :
  Lru.visible t k' (Lru.erase now k s).2 = if decide (k' = k) then None else Lru.visible t k' s.
Proof.
  unfold Lru.erase. destruct (Lru.lookup k s) as [e|] eqn:E; cbn.
  - destruct (Lru.dead now e); unfold Lru.visible, Lru.lookup; cbn;
      (case_decide as F; [subst; by rewrite find_by_drop_eq|by rewrite find_by_drop_ne]).
  - case_decide as F; [|done]. subst. unfold Lru.visible. by rewrite E.
Qed.

Lemma lookup_erased now k s : Lru.lookup k (Lru.erase now k s).2 = None.
Proof.
  unfold Lru.erase. destruct (Lru.lookup k s) as [e|] eqn:E; [|done].
  destruct (Lru.dead now e); apply find_by_drop_eq.
Qed.

Lemma erase_visible now k s :
  (Lru.erase now k s).1 = bool_decide (is_Some (Lru.visible now k s)).
Proof.
  unfold Lru.erase, Lru.visible. destruct (Lru.lookup k s) as [e|]; [|done].
  by destruct (Lru.dead now e).
Qed.

(** *** Recency *)
Lemma keys_touch e s k :
  Lru.lookup k s = Some e →
  key <$> e :: drop_by key k (Lru.items s) = k :: drop_by id k (Lru.keys s).
Proof.
  intros H%Lru.lookup_key. cbn. rewrite H. f_equal.
  by apply (drop_by_fmap key id key).
Qed.

Lemma keys_drop_sub k s : key <$> drop_by key k (Lru.items s) `sublist_of` Lru.keys s.
Proof. apply fmap_sublist, drop_by_sublist. Qed.

Lemma keys_put_sub k v d s :
  Lru.keys (Lru.put k v d s) `sublist_of` k :: drop_by id k (Lru.keys s).
Proof.
  unfold Lru.put. destruct (Lru.lookup k s) as [e|] eqn:E.
  - unfold Lru.keys at 1. cbn. rewrite (drop_by_fmap key id key k k) by done. done.
  - apply find_by_None in E.
    rewrite (drop_by_notin id) by by rewrite list_fmap_id.
    unfold Lru.keys at 1, Lru.admit_new. cbn.
    etrans; [apply fmap_sublist, Lru.keep_sublist|done].
Qed.

(** One call moves at most the key it used, to the front. *)
Lemma keys_step now o s r s' :
  spec now o s = (r, s') →
  match used o r with
  | Some k => Lru.keys s' `sublist_of` k :: drop_by id k (Lru.keys s)
  | None => Lru.keys s' `sublist_of` Lru.keys s
  end.
Proof.
  destruct o; cbn [spec]; intros E; try (simplify_eq; cbn; done).
  - simplify_eq. cbn. apply keys_put_sub.
  - simplify_eq. unfold Lru.put_ttl, used. case_bool_decide; [|apply keys_put_sub].
    unfold Lru.erase. destruct (Lru.lookup k s) as [e|]; [|done].
    destruct (Lru.dead now e); apply keys_drop_sub.
  - unfold Lru.get in E. destruct (Lru.lookup k s) as [e|] eqn:El; [|by simplify_eq/=].
    destruct (Lru.dead now e); cbn in E; simplify_eq; cbn [used]; [apply keys_drop_sub|].
    unfold Lru.keys at 1. cbn [Lru.with_items Lru.items]. by rewrite (keys_touch e s k).
  - unfold Lru.get in E. destruct (Lru.lookup k s) as [e|] eqn:El; [|by simplify_eq/=].
    destruct (Lru.dead now e); cbn in E; simplify_eq; cbn [used]; [apply keys_drop_sub|].
    unfold Lru.keys at 1. cbn [Lru.with_items Lru.items]. by rewrite (keys_touch e s k).
  - unfold Lru.erase in E. destruct (Lru.lookup k s) as [e|]; [|by simplify_eq/=].
    destruct (Lru.dead now e); cbn in E; simplify_eq; apply keys_drop_sub.
  - unfold Lru.ttl in E. destruct (Lru.lookup k s) as [e|]; [|by simplify_eq/=].
    destruct (expires_at e); [|by simplify_eq/=].
    destruct (Lru.dead now e); cbn in E; simplify_eq; cbn [used]; [apply keys_drop_sub|done].
  - simplify_eq. cbn. apply sublist_nil_l.
Qed.

Lemma last_use_lt k log n : last_use k log = Some n → (n < length log)%nat.
Proof.
  induction log as [|[o r] log IH]; cbn; [done|].
  case_decide; intros ?; simplify_eq; [lia|]. specialize (IH H0). lia.
Qed.

(** The order the log says the resident keys have. *)
Definition ordered (log : list (op * answer)) (l : list bytes) : Prop :=
  StronglySorted (used_after log) l ∧ Forall (λ k, is_Some (last_use k log)) l.

Lemma ordered_sub log l l' : l `sublist_of` l' → ordered log l' → ordered log l.
Proof. intros Hs [H1 H2]. split; [by eapply StronglySorted_sub|by eapply Forall_sub]. Qed.

Lemma ordered_unused log o r l : used o r = None → ordered log l → ordered ((o, r) :: log) l.
Proof.
  intros Hu. assert (∀ k, last_use k ((o, r) :: log) = last_use k log) as E.
  { intros k. cbn. by rewrite Hu, decide_False. }
  intros [H1 H2]. split.
  - unfold used_after. induction H1 as [|x l H1 IH Hx]; [constructor|].
    apply Forall_cons in H2 as [_ H2]. constructor; [by apply IH|].
    eapply Forall_impl; [exact Hx|]. intros y. cbn beta. by rewrite !E.
  - eapply Forall_impl; [exact H2|]. intros k. cbn beta. by rewrite E.
Qed.

Lemma ordered_used log o r k l :
  used o r = Some k → ordered log l → ordered ((o, r) :: log) (k :: drop_by id k l).
Proof.
  intros Hu Ho. apply (ordered_sub log (drop_by id k l)) in Ho; [|apply drop_by_sublist].
  assert (∀ k', k' ≠ k → last_use k' ((o, r) :: log) = last_use k' log) as E.
  { intros k' Hne. cbn. rewrite Hu. rewrite decide_False; congruence. }
  assert (last_use k ((o, r) :: log) = Some (length log)) as Ek.
  { cbn. by rewrite Hu, decide_True. }
  assert (k ∉ drop_by id k l) as Hk.
  { pose proof (drop_by_not_in id k l) as H. by rewrite list_fmap_id in H. }
  destruct Ho as [H1 H2]. revert H1 H2 Hk. generalize (drop_by id k l). clear l.
  intros l H1 H2 Hk. assert (Forall (λ x, x ≠ k) l) as Hne.
  { apply Forall_forall. intros x Hx ->. done. }
  clear Hk. split; [constructor|].
  - induction H1 as [|x l H1 IH Hx]; [constructor|].
    apply Forall_cons in H2 as [_ H2]. apply Forall_cons in Hne as [Hxk Hne].
    constructor; [by apply IH|]. rewrite Forall_forall in Hx, Hne.
    apply Forall_forall. intros y Hy. unfold used_after. rewrite !E by auto. by apply Hx.
  - rewrite Forall_forall in H2, Hne. apply Forall_forall. intros y Hy.
    destruct (H2 y Hy) as [n Hn]. exists (length log), n. rewrite (E y) by by apply Hne.
    split_and!; [done..|]. by eapply last_use_lt.
  - constructor; [by rewrite Ek|]. rewrite Forall_forall in H2, Hne. apply Forall_forall.
    intros y Hy. rewrite (E y) by by apply Hne. by apply H2.
Qed.

Lemma run_log_ordered h log c log' c' :
  inv c → calls_ok h = true → ordered log (Lru.keys (abs c)) →
  run_log h log c = Ret (log', c') → inv c' ∧ ordered log' (Lru.keys (abs c')).
Proof.
  revert log c. induction h as [|[now o] h IH]; intros log c Hc Hh Ho Hr; cbn in Hr.
  { by simplify_eq. }
  apply andb_true_iff in Hh as [Hok Hh]. inv_ret. destruct a as [r c1].
  destruct (run_inv c now o r c1 Hc Hok E) as [Hc1 Hs].
  apply IH in Hr; [done..|]. apply keys_step in Hs. destruct (used o r) as [k|] eqn:Hu.
  - eapply ordered_sub; [exact Hs|]. by apply ordered_used.
  - eapply ordered_sub; [exact Hs|]. by apply ordered_unused.
Qed.

Lemma run_log_total h log c :
  inv c → calls_ok h = true → ∃ log' c', run_log h log c = Ret (log', c').
Proof.
  revert log c. induction h as [|[now o] h IH]; intros log c Hc Hh; cbn; [eauto|].
  apply andb_true_iff in Hh as [Hok Hh].
  destruct (run_refines c now o Hc Hok) as (r & c1 & -> & Hc1 & _). by apply IH.
Qed.

(** *** From the specification back to the methods *)
Lemma get_answer c t k :
  inv c → ∃ c', Cache.get t k c = Ret (value <$> Lru.visible t k (abs c), c').
Proof.
  intros Hc. destruct (get_into_refines c t k [] Hc) as (r & c' & Hr & _ & Hg & _).
  exists c'. rewrite Hr, <- get_visible, Hg. done.
Qed.

Lemma contains_answer c t k :
  inv c → Cache.contains t k c = Ret (bool_decide (is_Some (Lru.visible t k (abs c)))).
Proof. apply contains_refines. Qed.

Lemma get_same c c' t k :
  inv c → inv c' → Lru.visible t k (abs c') = Lru.visible t k (abs c) →
  ∃ r c1 c2, Cache.get t k c = Ret (r, c1) ∧ Cache.get t k c' = Ret (r, c2).
Proof.
  intros Hc Hc' E. destruct (get_answer c t k Hc) as [c1 H1].
  destruct (get_answer c' t k Hc') as [c2 H2]. rewrite E in H2. eauto.
Qed.

Lemma contains_same c c' t k :
  inv c → inv c' → Lru.visible t k (abs c') = Lru.visible t k (abs c) →
  Cache.contains t k c' = Cache.contains t k c.
Proof. intros Hc Hc' E. by rewrite !contains_answer, E. Qed.

Lemma keys_abs c : Cache.keys_by_recency c = Lru.keys (abs c).
Proof. done. Qed.

Lemma set_refines c k v :
  inv c → ∃ c', Cache.set k v c = Ret c' ∧ inv c' ∧ abs c' = Lru.put k v None (abs c).
Proof. intros Hc. by apply store_refines. Qed.

(** The only way a call can leave the defined behaviours: a deadline too large. *)
Lemma set_ttl_UB c now k v ttl :
  0 ≤ now → i64_max < now + ttl * 1000000 → 0 < ttl → Cache.set_ttl now k v ttl c = UB.
Proof.
  intros Hnow Hbig Httl. unfold Cache.set_ttl. rewrite (proj2 (Z.leb_gt ttl 0)) by lia.
  unfold Cache.deadline. destruct (decide (ttl * 1000000 ≤ i64_max)).
  - rewrite i64_Ret by (unfold i64_min, i64_max in *; lia). rewrite bind_ret_l.
    rewrite i64_UB; [done|]. lia.
  - rewrite i64_UB; [done|]. lia.
Qed.

Lemma run_UB c now o : 0 ≤ now ≤ i64_max → call_ok now o = false → run now o c = UB.
Proof.
  intros Hnow Hok. unfold call_ok in Hok. rewrite (proj2 (Z.leb_le 0 now)) in Hok by lia.
  destruct o; try discriminate. apply Z.leb_gt in Hok. cbn. rewrite set_ttl_UB; [done|lia..].
Qed.

Lemma run_all_UB h c :
  inv c → clock_ok h = true → calls_ok h = false → run_all h c = UB.
Proof.
  revert c. induction h as [|[now o] h IH]; intros c Hc Hclock Hbad; [done|].
  apply andb_true_iff in Hclock as [Hn Hclock]. cbn in Hn.
  rewrite andb_true_iff, !Z.leb_le in Hn. cbn in Hbad. cbn.
  destruct (call_ok now o) eqn:Ho; [|by rewrite run_UB].
  destruct (run_refines c now o Hc Ho) as (r & c1 & -> & Hc1 & _). cbn. by rewrite IH.
Qed.

(** A cache of capacity 0 shows nothing. *)
Lemma visible_put_zero t k k' v d s :
  Lru.cap s = Some 0 → Lru.ok s → Lru.visible t k' (Lru.put k v d s) = None ∧
    Lru.lookup k' (Lru.put k v d s) = None.
Proof.
  intros Hz Hs. pose proof (Lru.ok_cap _ Hs) as Hcap. rewrite Hz in Hcap. unfold zlen in Hcap.
  assert (Lru.items s = []) as El by (apply nil_length_inv; lia).
  unfold Lru.visible, Lru.put, Lru.lookup. rewrite El. cbn. by rewrite Hz.
Qed.

Lemma removelast_take {A} (l : list A) : removelast l = take (length l - 1) l.
Proof. rewrite removelast_firstn_len. f_equal. lia. Qed.
End Lemmas.

(** ** The properties *)

(** C1.  Refinement.  From either constructor, a history of calls of the public
    interface (any method, any keys and values, any non-negative clock
    readings) runs to completion, with exactly the answers the LRU-list
    specification gives, if every deadline it asks for ([now + ttl] of a
    [set(k, v, ttl)]) is representable; and if some deadline is not, the history
    is undefined.  So an overflowing deadline is the only undefined behaviour
    of the engine: no dangling iterator, no [back()] of an empty list. *)
Theorem cache_refines_lru_list capacity h
    (Hcap : size_t_ok capacity = true) (Hclock : clock_ok h = true) :
  if calls_ok h
  then ∃ answers c, run_all h (new_cache capacity) = Ret (answers, c) ∧
         spec_all h (Lru.mk [] capacity 0 0) = (answers, abs c)
  else run_all h (new_cache capacity) = UB.
Proof.
  assert (inv (new_cache capacity)) as Hc by by apply reachable_inv, reachable_new.
  destruct (calls_ok h) eqn:Hcalls; [|by apply run_all_UB].
  destruct (run_all_refines h _ Hc (calls_ok_Forall h Hcalls)) as (rs & c & Hr & _ & Hs).
  rewrite abs_new in Hs. eauto.
Qed.

(** C2.  Invariant.  In every reachable cache the index and the list are in
    step: a key is mapped to a node exactly when that node is in the list and
    holds the key, no node and no key occurs twice, both structures have the
    same size, and that size is within capacity. *)
Theorem cache_structures_in_step c (H : reachable c) :
  (∀ k it, Cache.index_ c !! k = Some it ↔
     ∃ e, (it, e) ∈ RecencyList.nodes (Cache.entries_ c) ∧ key e = k) ∧
  NoDup (RecencyList.nodes (Cache.entries_ c)).*1 ∧
  NoDup (Cache.keys_by_recency c) ∧
  Cache.csize c = RecencyList.size (Cache.entries_ c) ∧
  (∀ n, Cache.capacity c = Some n → Cache.csize c ≤ n).
Proof.
  apply reachable_inv in H as Hc. pose proof (inv_linked _ Hc) as Hl.
  pose proof (csize_abs c Hc) as Hs. split_and!.
  - intros k it. rewrite (linked_index _ Hl). apply index_of_Some, Hl.
  - apply (linked_list _ Hl).
  - apply (inv_ok _ Hc).
  - rewrite Hs. unfold zlen, RecencyList.size, RecencyList.entries. cbn.
    unfold zlen, RecencyList.entries. by rewrite length_fmap.
  - intros n Hn. pose proof (Lru.ok_cap _ (inv_ok _ Hc)) as Hcap. cbn in Hcap.
    unfold Cache.capacity in Hn. rewrite Hn in Hcap. rewrite Hs. apply Hcap.
Qed.

(** C3.  What [set] does to the recency order, on every branch: an existing key
    moves to the front; a new key is put in front; at capacity the key at the
    back, and only that one, is evicted and counted; with capacity 0 nothing
    is stored. *)
Theorem set_recency c k v (H : reachable c) :
  let keys := Cache.keys_by_recency in
  ∃ c', Cache.set k v c = Ret c' ∧
    (k ∈ keys c → keys c' = k :: drop_by id k (keys c) ∧ Cache.evictions c' = Cache.evictions c) ∧
    (k ∉ keys c → (∀ n, Cache.capacity c = Some n → Cache.csize c < n) →
       keys c' = k :: keys c ∧ Cache.evictions c' = Cache.evictions c) ∧
    (k ∉ keys c → Cache.capacity c = Some (Cache.csize c) → Cache.csize c ≠ 0 →
       keys c' = k :: removelast (keys c) ∧ Cache.evictions c' = u64 (Cache.evictions c + 1)) ∧
    (Cache.capacity c = Some 0 → keys c' = [] ∧ Cache.evictions c' = u64 (Cache.evictions c + 1)).
Proof.
  intros keys. apply reachable_inv in H as Hc. destruct (set_refines c k v Hc) as (c' & Hr & Hc' & Ha).
  pose proof (csize_abs c Hc) as Hs. unfold zlen in Hs.
  pose proof (linked_evictions _ (inv_linked _ Hc)) as He.
  assert (Cache.evictions c' = Lru.evicted (abs c')) as Hev by done.
  exists c'. split; [done|]. unfold keys. rewrite !keys_abs, Hev, Ha. unfold Lru.put.
  assert (Lru.lookup k (abs c) = None ↔ k ∉ Lru.keys (abs c)) as Hl by apply find_by_None.
  change (Lru.items (abs c)) with (RecencyList.entries (Cache.entries_ c)) in *.
  set (l := RecencyList.entries (Cache.entries_ c)) in *. split_and!.
  - intros Hk. destruct (Lru.lookup k (abs c)) as [e|] eqn:E; [|by apply Hl in Hk].
    split; [|done]. cbn. f_equal. by apply (drop_by_fmap key id key).
  - intros Hk Hroom. apply Hl in Hk. rewrite Hk. unfold Lru.keys. cbn. unfold Cache.capacity in Hroom.
    destruct (Cache.capacity_ c) as [n|]; cbn [Lru.keep]; fold l.
    + specialize (Hroom n eq_refl). rewrite take_ge by (cbn; lia). rewrite Z.sub_diag, Z.add_0_r. done.
    + rewrite Z.sub_diag, Z.add_0_r. done.
  - intros Hk Hfull Hne. apply Hl in Hk. rewrite Hk. unfold Lru.keys. cbn. unfold Cache.capacity in Hfull.
    rewrite Hfull, Hs. cbn [Lru.keep]. fold l. rewrite Nat2Z.id.
    destruct (length l) as [|m] eqn:El; [lia|]. cbn [take]. rewrite fmap_cons, fmap_take. cbn [key].
    rewrite removelast_take, length_fmap, El. split; [do 2 f_equal; lia|].
    f_equal. unfold zlen. cbn. rewrite length_take, El. unfold Cache.evictions. lia.
  - intros Hz. unfold Cache.capacity in Hz. pose proof (Lru.ok_cap _ (inv_ok _ Hc)) as Hcap. cbn in Hcap.
    rewrite Hz in Hcap. fold l in Hcap. unfold zlen in Hcap.
    assert (l = []) as El by (apply nil_length_inv; lia).
    assert (Lru.lookup k (abs c) = None) as ->. { unfold Lru.lookup. change (Lru.items (abs c)) with l. by rewrite El. }
    unfold Lru.keys. cbn. rewrite Hz. cbn. fold l. rewrite El. done.
Qed.

(** C4.  LRU.  Run any history from an empty cache and log each call with its
    answer.  The resident keys, front to back, are then in strictly decreasing
    order of the last call that used them (a [set] that stores, a [get] or
    [get_into] that hits; nothing else).  So the key at the back, the next
    victim, is the least recently used one. *)
Theorem keys_in_recency_order capacity h
    (Hcap : size_t_ok capacity = true) (Hcalls : calls_ok h = true) :
  ∃ log c, run_log h [] (new_cache capacity) = Ret (log, c) ∧
    ∀ i j k1 k2, (i < j)%nat → Cache.keys_by_recency c !! i = Some k1 →
      Cache.keys_by_recency c !! j = Some k2 → used_after log k1 k2.
Proof.
  assert (inv (new_cache capacity)) as Hc by by apply reachable_inv, reachable_new.
  destruct (run_log_total h [] _ Hc Hcalls) as (log & c & Hr).
  exists log, c. split; [done|]. intros i j k1 k2 Hij Hi Hj.
  apply run_log_ordered in Hr as [_ [Hs _]]; [|done..|].
  - by eapply StronglySorted_lookup.
  - rewrite abs_new. split; constructor.
Qed.

(** C5.  TTL contract.  After [set(k, v, ttl)] at [now], with a representable
    deadline, the key is visible at [t] if and only if the capacity is not 0,
    [ttl] is positive and [t] is before the deadline; while visible it reads
    as [v], otherwise as absent. *)
Theorem set_ttl_visibility c now k v ttl t (H : reachable c) (Hnow : 0 ≤ now)
    (Hfit : now + ttl * 1000000 ≤ i64_max) :
  ∃ c' c'', Cache.set_ttl now k v ttl c = Ret c' ∧
    let visible := bool_decide (Cache.capacity c ≠ Some 0 ∧ 0 < ttl ∧ t < now + ttl * 1000000) in
    Cache.contains t k c' = Ret visible ∧
    Cache.get t k c' = Ret (if visible then Some v else None, c'').
Proof.
  apply reachable_inv in H as Hc.
  destruct (set_ttl_refines c now k v ttl Hc Hnow Hfit) as (c' & Hr & Hc' & Ha).
  destruct (get_answer c' t k Hc') as [c'' Hg]. exists c', c''. split; [done|].
  rewrite Hg, contains_answer, Ha by done. unfold Lru.put_ttl. cbn zeta.
  destruct (decide (ttl ≤ 0)) as [Ht|Ht].
  - rewrite (bool_decide_true (ttl ≤ 0)) by done. rewrite visible_erase, decide_True by done.
    rewrite (bool_decide_false (_ ∧ _)) by lia. done.
  - rewrite (bool_decide_false (ttl ≤ 0)) by lia.
    destruct (decide (Cache.capacity c = Some 0)) as [Hz|Hz].
    { rewrite (proj1 (visible_put_zero t k k v _ (abs c) Hz (inv_ok _ Hc))).
      rewrite (bool_decide_false (_ ∧ _)) by naive_solver. done. }
    rewrite visible_put by (done || apply Hc).
    unfold Lru.dead; cbn. destruct (decide (now + ttl * 1000000 ≤ t)).
    + rewrite (bool_decide_true (_ ≤ t)) by done. rewrite (bool_decide_false (_ ∧ _)) by lia. done.
    + rewrite (bool_decide_false (_ ≤ _)) by done.
      rewrite (bool_decide_true (_ ∧ _)) by (split; [done|lia]). done.
Qed.

(** C6.  Overwrite contract.  After [set(k, v)], whatever TTL the key had, it
    reads as [v] at every clock reading and has no expiry; in a cache of
    capacity 0, which stores nothing, it reads as absent. *)
Theorem set_clears_ttl c k v t (H : reachable c) (Ht : 0 ≤ t) :
  ∃ c' c1 c2, Cache.set k v c = Ret c' ∧
    let stored := bool_decide (Cache.capacity c ≠ Some 0) in
    Cache.get t k c' = Ret (if stored then Some v else None, c1) ∧
    Cache.ttl t k c' = Ret (mkTtlInfo (if stored then Persistent else Missing) 0, c2).
Proof.
  apply reachable_inv in H as Hc. destruct (set_refines c k v Hc) as (c' & Hr & Hc' & Ha).
  destruct (get_answer c' t k Hc') as [c1 Hg]. destruct (ttl_refines c' t k Hc' Ht) as (i & c2 & Hi & _ & Hs).
  exists c', c1, c2. split; [done|]. cbn zeta. rewrite Hg, Hi, Ha. rewrite Ha in Hs.
  unfold Lru.ttl in Hs. destruct (decide (Cache.capacity c = Some 0)) as [Hz|Hz].
  - destruct (visible_put_zero t k k v None (abs c) Hz (inv_ok _ Hc)) as [-> Hl].
    rewrite Hl in Hs. rewrite bool_decide_false by naive_solver. by simplify_eq/=.
  - rewrite bool_decide_true by done.
    pose proof (visible_put t k v None (abs c) Hz (inv_ok _ Hc)) as Hv.
    rewrite Hv. split; [done|]. revert Hs. unfold Lru.visible in Hv.
    destruct (Lru.lookup k (Lru.put k v None (abs c))) as [e|]; [|done].
    cbn in Hv. destruct (Lru.dead t e); [done|]. injection Hv as ->. cbn. congruence.
Qed.

(** The calls that read. *)
Definition is_read (o : op) : bool :=
  match o with OpSet _ _ | OpSetTtl _ _ _ | OpErase _ | OpClear => false | _ => true end.

(** C7.  Reads change nothing a reader can see: after [get], [get_into], [ttl],
    [contains] or any accessor at [now], every key reads the same at every
    later time, although the call may have reordered the list or reclaimed an
    expired entry. *)
Theorem reads_are_invisible c now o t k (H : reachable c) (Hok : call_ok now o = true)
    (Hread : is_read o = true) (Ht : now ≤ t) :
  ∃ r c', run now o c = Ret (r, c') ∧
    ∃ r' c1 c2, Cache.get t k c = Ret (r', c1) ∧ Cache.get t k c' = Ret (r', c2).
Proof.
  apply reachable_inv in H as Hc. destruct (run_refines c now o Hc Hok) as (r & c' & Hr & Hc' & Hs).
  exists r, c'. split; [done|]. apply get_same; [done..|].
  assert (abs c' = (spec now o (abs c)).2) as -> by by rewrite Hs.
  destruct o; try discriminate; cbn [spec]; try done.
  - rewrite (surjective_pairing (Lru.get _ _ _)). cbn. apply visible_get; [apply Hc|done].
  - rewrite (surjective_pairing (Lru.get _ _ _)). cbn. apply visible_get; [apply Hc|done].
  - rewrite (surjective_pairing (Lru.ttl _ _ _)). cbn. by apply visible_ttl.
Qed.

(** [erase] answers whether the key was visible, leaves it absent from both
    structures, and changes no other key. *)
Theorem erase_contract c now k (H : reachable c) :
  ∃ b c', Cache.erase now k c = Ret (b, c') ∧ Cache.contains now k c = Ret b ∧
    Cache.index_ c' !! k = None ∧ (k ∉ Cache.keys_by_recency c') ∧
    ∀ t k', k' ≠ k → Cache.contains t k' c' = Cache.contains t k' c.
Proof.
  apply reachable_inv in H as Hc. destruct (erase_refines c now k Hc) as (b & c' & Hr & Hc' & Hs).
  assert (abs c' = (Lru.erase now k (abs c)).2) as Ha by by rewrite Hs.
  assert (b = (Lru.erase now k (abs c)).1) as -> by by rewrite Hs.
  pose proof (lookup_erased now k (abs c)) as Hnone. rewrite <- Ha in Hnone.
  do 2 eexists. split; [exact Hr|]. rewrite contains_answer by done. split_and!.
  - by rewrite erase_visible.
  - destruct (find_cases c' k (inv_linked _ Hc')) as [(_ & ? & _)|(? & ? & ? & ? & ? & ? & ? & ?)];
      [done|congruence].
  - by apply find_by_None.
  - intros t k' Hne. apply contains_same; [done..|]. by rewrite Ha, visible_erase, decide_False.
Qed.

(** C8.  [ttl] tells the truth: [Missing] exactly when the key is not visible,
    [Persistent] when it will be visible at every later time, and [Expiring]
    with [r] milliseconds when it stays visible for [r] milliseconds and is gone
    at most one millisecond later.  It never counts as a use. *)
Theorem ttl_contract c now k (H : reachable c) (Hnow : 0 ≤ now) :
  ∃ i c', Cache.ttl now k c = Ret (i, c') ∧
    Cache.keys_by_recency c' `sublist_of` Cache.keys_by_recency c ∧
    match state i with
    | Missing => Cache.contains now k c = Ret false
    | Persistent => ∀ t, Cache.contains t k c' = Ret true
    | Expiring => 0 ≤ remaining i ∧ Cache.contains now k c = Ret true ∧
        (∀ t, t < now + remaining i * 1000000 → Cache.contains t k c' = Ret true) ∧
        (∀ t, now + (remaining i + 1) * 1000000 ≤ t → Cache.contains t k c' = Ret false)
    end.
Proof.
  apply reachable_inv in H as Hc. destruct (ttl_refines c now k Hc Hnow) as (i & c' & Hr & Hc' & Hs).
  assert (spec now (OpTtl k) (abs c) = (Ttl i, abs c')) as Hsub by (cbn; by rewrite Hs).
  exists i, c'. split; [done|]. split; [exact (keys_step _ _ _ _ _ Hsub)|].
  assert (i = (Lru.ttl now k (abs c)).1) as -> by by rewrite Hs.
  assert (∀ t, Cache.contains t k c' =
    Ret (bool_decide (is_Some (Lru.visible t k (Lru.ttl now k (abs c)).2)))) as Hcon.
  { intros t. rewrite Hs. by apply contains_answer. }
  clear Hs Hsub. rewrite contains_answer by done. unfold Lru.ttl, Lru.visible in *.
  destruct (Lru.lookup k (abs c)) as [e|] eqn:El; [|done].
  destruct (expires_at e) as [d|] eqn:Ed; cycle 1.
  { cbn in *. intros t. rewrite Hcon, El. unfold Lru.dead. by rewrite Ed. }
  destruct (Lru.dead now e) eqn:Dn; [done|]. cbn in *. rewrite El in Hcon.
  unfold Lru.dead in *. rewrite Ed in *. apply bool_decide_eq_false in Dn.
  unfold Lru.time_left. rewrite Z.quot_div_nonneg by lia.
  pose proof (Z.div_mod (d - now) 1000000). pose proof (Z.mod_pos_bound (d - now) 1000000).
  split; [apply Z.div_pos; lia|]. split; [done|]. split; intros t Ht; rewrite Hcon.
  - by rewrite (bool_decide_false (d ≤ t)) by lia.
  - by rewrite (bool_decide_true (d ≤ t)) by lia.
Qed.

(** C9.  Bounds.  A positive TTL makes [set] overflow its deadline (undefined
    behaviour) exactly when [now + ttl] does not fit in signed 64-bit
    nanoseconds; otherwise the call returns. *)
Theorem set_ttl_overflow c now k v ttl (H : reachable c) (Hnow : 0 ≤ now ≤ i64_max) (Httl : 0 < ttl) :
  if bool_decide (now + ttl * 1000000 ≤ i64_max)
  then ∃ c', Cache.set_ttl now k v ttl c = Ret c' ∧ reachable c'
  else Cache.set_ttl now k v ttl c = UB.
Proof.
  case_bool_decide as Hfit.
  - apply reachable_inv in H as Hc.
    destruct (set_ttl_refines c now k v ttl Hc) as (c' & Hr & _ & _); [lia..|].
    exists c'. split; [done|]. apply (reachable_step c c' now (OpSetTtl k v ttl) Done); [done| |].
    + unfold call_ok. rewrite andb_true_iff, !Z.leb_le. lia.
    + cbn. by rewrite Hr.
  - by apply set_ttl_UB; lia.
Qed.

(** [export_entries] lists exactly the keys visible at [now], in recency
    order, with the values a [get] would return; its length is at most
    [size()], which also counts expired entries not yet reclaimed. *)
Theorem export_lists_visible c now (H : reachable c) (Hnow : 0 ≤ now) :
  ∃ l, Cache.export_entries now c = Ret l ∧
    snap_key <$> l = filter (λ k, Cache.contains now k c = Ret true) (Cache.keys_by_recency c) ∧
    (∀ x, x ∈ l → ∃ c', Cache.get now (snap_key x) c = Ret (Some (snap_value x), c')) ∧
    zlen l ≤ Cache.csize c.
Proof.
  apply reachable_inv in H as Hc. exists (Lru.export now (abs c)).
  split; [by apply export_refines|]. rewrite csize_abs by done. rewrite keys_abs.
  pose proof (Lru.ok_keys _ (inv_ok _ Hc)) as Hk. split_and!.
  - unfold Lru.export. rewrite <- list_fmap_compose. unfold Lru.keys. symmetry.
    apply (filter_fmap_agree key (snap_key ∘ Lru.snapshot_of now)); [done|].
    intros e He. rewrite contains_answer by done. unfold Lru.visible, Lru.lookup.
    rewrite (find_by_elem key) by done. destruct (Lru.dead now e); naive_solver.
  - intros x (e & -> & He)%list_elem_of_fmap. apply list_elem_of_filter in He as [Hd He].
    destruct (get_answer c now (key e) Hc) as [c' Hg]. exists c'. cbn. rewrite Hg.
    unfold Lru.visible, Lru.lookup. rewrite (find_by_elem key) by done. by rewrite Hd.
  - unfold zlen, Lru.export. rewrite length_fmap.
    pose proof (sublist_length _ _ (sublist_filter (λ e, Lru.dead now e = false) (Lru.items (abs c)))). lia.
Qed.

(** ** Witnesses: the hypotheses hold on a concrete cache *)

(** Capacity 3; [b] is the oldest key, [c] expires at 5000002 ns. *)
Definition demo_calls : history :=
  [(0, OpSet $"a" $"1"); (1, OpSet $"b" $"2"); (2, OpSetTtl $"c" $"3" 5); (3, OpGet $"a")].
Definition demo : Cache.t := after (Some 3) demo_calls.

Lemma demo_reachable : reachable demo.
Proof. by apply reachable_after. Qed.

Lemma cache_refines_lru_list_witness :
  (∃ answers c, run_all demo_calls (new_cache (Some 3)) = Ret (answers, c) ∧
     spec_all demo_calls (Lru.mk [] (Some 3) 0 0) = (answers, abs c)) ∧
  run_all (demo_calls ++ [(9, OpSetTtl $"d" $"4" (2 ^ 53))]) (new_cache (Some 3)) = UB.
Proof.
  split.
  - exact (cache_refines_lru_list (Some 3) demo_calls eq_refl eq_refl).
  - exact (cache_refines_lru_list (Some 3) (demo_calls ++ [(9, OpSetTtl $"d" $"4" (2 ^ 53))])
             eq_refl eq_refl).
Defined.

Lemma cache_structures_in_step_witness : Cache.csize demo = 3 ∧ Cache.csize demo ≤ 3.
Proof.
  split; [reflexivity|].
  apply (proj2 (proj2 (proj2 (proj2 (cache_structures_in_step demo demo_reachable))))).
  reflexivity.
Defined.

Lemma set_recency_witness :
  ∃ c', Cache.set $"d" $"4" demo = Ret c' ∧
    Cache.keys_by_recency c' = [$"d"; $"a"; $"c"] ∧ Cache.evictions c' = 1.
Proof.
  destruct (set_recency demo $"d" $"4" demo_reachable) as (c' & Hr & _ & _ & H & _).
  exists c'. split; [exact Hr|]. apply H; [|reflexivity|discriminate].
  apply (bool_decide_eq_true_1 _). vm_compute. reflexivity.
Defined.

Lemma keys_in_recency_order_witness :
  ∃ log c, run_log demo_calls [] (new_cache (Some 3)) = Ret (log, c) ∧ used_after log $"a" $"b".
Proof.
  destruct (keys_in_recency_order (Some 3) demo_calls eq_refl eq_refl) as (log & c & Hr & H).
  exists log, c. split; [exact Hr|]. vm_compute in Hr. injection Hr as _ <-.
  apply (H 0%nat 2%nat); [lia|reflexivity|reflexivity].
Defined.

Lemma set_ttl_visibility_witness :
  ∃ c' c'', Cache.set_ttl 10 $"k" $"v" 2 demo = Ret c' ∧
    Cache.contains 2000009 $"k" c' = Ret true ∧ Cache.get 2000009 $"k" c' = Ret (Some $"v", c'').
Proof.
  refine (set_ttl_visibility demo 10 $"k" $"v" 2 2000009 demo_reachable _ _); vm_compute; congruence.
Defined.

Lemma set_clears_ttl_witness :
  ∃ c' c1 c2, Cache.set $"c" $"9" demo = Ret c' ∧ Cache.get 7000000 $"c" c' = Ret (Some $"9", c1) ∧
    Cache.ttl 7000000 $"c" c' = Ret (mkTtlInfo Persistent 0, c2).
Proof. apply (set_clears_ttl demo $"c" $"9" 7000000 demo_reachable); lia. Defined.

Lemma reads_are_invisible_witness :
  ∃ r c', run 9000000 (OpGet $"c") demo = Ret (r, c') ∧
    ∃ r' c1 c2, Cache.get 9000001 $"b" demo = Ret (r', c1) ∧ Cache.get 9000001 $"b" c' = Ret (r', c2).
Proof.
  apply (reads_are_invisible demo 9000000 (OpGet $"c") 9000001 $"b" demo_reachable);
    [reflexivity|reflexivity|lia].
Defined.

Lemma erase_contract_witness :
  ∃ b c', Cache.erase 9000000 $"c" demo = Ret (b, c') ∧ Cache.contains 9000000 $"c" demo = Ret b.
Proof.
  destruct (erase_contract demo 9000000 $"c" demo_reachable) as (b & c' & H1 & H2 & _). eauto.
Defined.

Lemma ttl_contract_witness :
  ∃ i c', Cache.ttl 1000002 $"c" demo = Ret (i, c') ∧ i = mkTtlInfo Expiring 4.
Proof.
  destruct (ttl_contract demo 1000002 $"c" demo_reachable) as (i & c' & Hr & _); [lia|].
  exists i, c'. split; [exact Hr|]. vm_compute in Hr. congruence.
Defined.

Lemma set_ttl_overflow_witness : Cache.set_ttl 1 $"k" $"v" (2 ^ 53) demo = UB.
Proof.
  refine (set_ttl_overflow demo 1 $"k" $"v" (2 ^ 53) demo_reachable _ _); vm_compute; intuition congruence.
Defined.

Lemma export_lists_visible_witness :
  ∃ l, Cache.export_entries 6000000 demo = Ret l ∧ snap_key <$> l = [$"a"; $"b"].
Proof.
  destruct (export_lists_visible demo 6000000 demo_reachable) as (l & Hr & Hk & _); [lia|].
  exists l. split; [exact Hr|]. rewrite Hk. vm_compute. reflexivity.
Defined.
End CacheTheorems.
