(* ===== verification/KvStore.v ===== *)
(** * The interface between the caches and their clients

    [Cache], [SyncCache] and [ShardedCache] expose the same methods ("callers
    cannot tell the difference", sharded_cache.hpp).  [KvOps] is that method
    table, as the persistence and network layers call it; [KvLaws] is what
    they may rely on, stated on the entries visible at a time.  The clients'
    theorems are proved for any [KvLaws] store; CacheKv.v, SyncCache.v and
    ShardedCache.v discharge the laws. *)
From S2P Require Import Prelude RecencyList Lru.

(** The shared method table. *)
Class KvOps (C : Type) := {
  kv_set : bytes → bytes → C → outcome C;
  kv_set_ttl : time_point → bytes → bytes → Z → C → outcome C;
  kv_get : time_point → bytes → C → outcome (option bytes * C);
  kv_get_into : time_point → bytes → bytes → C → outcome (bool * bytes * C);
  kv_erase : time_point → bytes → C → outcome (bool * C);
  kv_contains : time_point → bytes → C → outcome bool;
  kv_ttl : time_point → bytes → C → outcome (TtlInfo * C);
  (** [clock i] is the i-th reading of the clock during the export *)
  kv_export : (nat → time_point) → C → outcome (list EntrySnapshot)
}.

(** A call on one key, and its answer. *)
Inductive kv_call :=
| KSet (k v : bytes)
| KSetTtl (k v : bytes) (ttl : Z)
| KGet (k : bytes)
| KGetInto (k out : bytes)
| KErase (k : bytes)
| KContains (k : bytes)
| KTtl (k : bytes).

Inductive kv_answer :=
| AnsDone
| AnsValue (v : option bytes)
| AnsInto (hit : bool) (out : bytes)
| AnsBool (b : bool)
| AnsTtl (i : TtlInfo).

Definition call_key (o : kv_call) : bytes :=
  match o with
  | KSet k _ | KSetTtl k _ _ | KGet k | KGetInto k _ | KErase k | KContains k | KTtl k => k
  end.

Definition kv_run {C} `{KvOps C} (now : time_point) (o : kv_call) (c : C)
  : outcome (kv_answer * C) :=
  match o with
  | KSet k v => c ← kv_set k v c; Ret (AnsDone, c)
  | KSetTtl k v ttl => c ← kv_set_ttl now k v ttl c; Ret (AnsDone, c)
  | KGet k => '(r, c) ← kv_get now k c; Ret (AnsValue r, c)
  | KGetInto k out => '(hit, out, c) ← kv_get_into now k out c; Ret (AnsInto hit out, c)
  | KErase k => '(b, c) ← kv_erase now k c; Ret (AnsBool b, c)
  | KContains k => b ← kv_contains now k c; Ret (AnsBool b, c)
  | KTtl k => '(i, c) ← kv_ttl now k c; Ret (AnsTtl i, c)
  end.

Fixpoint kv_run_all {C} `{KvOps C} (h : list (time_point * kv_call)) (c : C)
  : outcome (list kv_answer * C) :=
  match h with
  | [] => Ret ([], c)
  | (now, o) :: h =>
      '(r, c) ← kv_run now o c;
      '(rs, c) ← kv_run_all h c;
      Ret (r :: rs, c)
  end.

(** The methods of the shared table that are not about one key. *)
Class KvAdmin (C : Type) := {
  kv_clear : C → outcome C;
  kv_size : C → outcome Z;
  kv_empty : C → outcome bool;
  kv_capacity : C → outcome (option Z);
  kv_evictions : C → outcome Z;
  kv_expired_removals : C → outcome Z
}.

(** Any call of the shared table, and its answer. *)
Inductive call :=
| OnKey (o : kv_call)
| CallClear
| CallSize
| CallEmpty
| CallCapacity
| CallEvictions
| CallExpiredRemovals
| CallExport.

Inductive reply :=
| OfKey (a : kv_answer)
| Cleared
| Number (n : Z)
| Flag (b : bool)
| Limit (n : option Z)
| Listing (l : list EntrySnapshot).

Definition call_run {C} `{KvOps C, KvAdmin C} (now : time_point) (o : call) (c : C)
  : outcome (reply * C) :=
  match o with
  | OnKey o => '(a, c) ← kv_run now o c; Ret (OfKey a, c)
  | CallClear => c ← kv_clear c; Ret (Cleared, c)
  | CallSize => n ← kv_size c; Ret (Number n, c)
  | CallEmpty => b ← kv_empty c; Ret (Flag b, c)
  | CallCapacity => n ← kv_capacity c; Ret (Limit n, c)
  | CallEvictions => n ← kv_evictions c; Ret (Number n, c)
  | CallExpiredRemovals => n ← kv_expired_removals c; Ret (Number n, c)
  | CallExport => l ← kv_export (λ _, now) c; Ret (Listing l, c)
  end.

Fixpoint call_run_all {C} `{KvOps C, KvAdmin C} (h : list (time_point * call)) (c : C)
  : outcome (list reply * C) :=
  match h with
  | [] => Ret ([], c)
  | (now, o) :: h =>
      '(r, c) ← call_run now o c;
      '(rs, c) ← call_run_all h c;
      Ret (r :: rs, c)
  end.

(** A monotonic clock reading and a deadline that fits in 64 bits. *)
Definition kv_call_ok (now : time_point) (o : kv_call) : bool :=
  (0 <=? now) &&
  match o with KSetTtl _ _ ttl => now + ttl * 1000000 <=? i64_max | _ => true end.

Definition call_ok (now : time_point) (o : call) : bool :=
  (0 <=? now) && match o with OnKey o => kv_call_ok now o | _ => true end.

(** What [ttl] answers about the entry visible at [now]. *)
Definition ttl_info (now : time_point) (e : option Entry) : TtlInfo :=
  match e with
  | None => mkTtlInfo Missing 0
  | Some e =>
      match expires_at e with
      | None => mkTtlInfo Persistent 0
      | Some d => mkTtlInfo Expiring (Lru.time_left now d)
      end
  end.

(** An entry as it reads at [t]. *)
Definition alive (t : time_point) (e : Entry) : option Entry :=
  if Lru.dead t e then None else Some e.

(** A list of exactly the entries visible in a store, each key looked at when
    the clock showed [now key]. *)
Definition lists_visible {C} (view : time_point → bytes → C → option Entry) (now : bytes → time_point)
    (c : C) (l : list EntrySnapshot) : Prop :=
  ∀ x, x ∈ l ↔ ∃ e, view (now (snap_key x)) (snap_key x) c = Some e ∧
    x = Lru.snapshot_of (now (snap_key x)) e.

Class KvLaws (C : Type) `{KvOps C} := {
  (** a well-formed store, no call in progress *)
  kv_ok : C → Prop;
  (** the entry visible under a key at a time *)
  kv_view : time_point → bytes → C → option Entry;
  (** the part of the store the key belongs to can hold an entry *)
  kv_room : bytes → C → Prop;
  (** the store never evicts *)
  kv_unbounded : C → Prop;
  kv_unbounded_room k c : kv_ok c → kv_unbounded c → kv_room k c;
  kv_view_key t k c e : kv_view t k c = Some e → key e = k ∧ Lru.dead t e = false;
  kv_view_deadline t k c e d :
    kv_ok c → kv_view t k c = Some e → expires_at e = Some d → d ≤ i64_max;
  kv_set_law k v c : kv_ok c → ∃ c', kv_set k v c = Ret c' ∧ kv_ok c' ∧
    (kv_room k c → ∀ t, kv_view t k c' = Some (mkEntry k v None)) ∧
    (∀ t k', k' ≠ k → kv_view t k' c' = kv_view t k' c ∨ kv_view t k' c' = None) ∧
    (∀ k', kv_room k' c' ↔ kv_room k' c) ∧
    (kv_unbounded c → kv_unbounded c' ∧ ∀ t k', k' ≠ k → kv_view t k' c' = kv_view t k' c) ∧
    (∀ t x, kv_view t k c' = Some x → x = mkEntry k v None);
  kv_set_ttl_law now k v ttl c :
    kv_ok c → 0 ≤ now → now + ttl * 1000000 ≤ i64_max →
    ∃ c', kv_set_ttl now k v ttl c = Ret c' ∧ kv_ok c' ∧
    (kv_room k c → ∀ t, kv_view t k c' =
       if bool_decide (ttl ≤ 0) then None else alive t (mkEntry k v (Some (now + ttl * 1000000)))) ∧
    (∀ t k', k' ≠ k → kv_view t k' c' = kv_view t k' c ∨ kv_view t k' c' = None) ∧
    (∀ k', kv_room k' c' ↔ kv_room k' c) ∧
    (kv_unbounded c → kv_unbounded c' ∧ ∀ t k', k' ≠ k → kv_view t k' c' = kv_view t k' c) ∧
    (∀ t x, kv_view t k c' = Some x → x = mkEntry k v (Some (now + ttl * 1000000)));
  kv_get_law now k c : kv_ok c → ∃ c', kv_get now k c = Ret (value <$> kv_view now k c, c') ∧
    kv_ok c' ∧ (∀ t k', now ≤ t → kv_view t k' c' = kv_view t k' c) ∧
    (∀ t k', kv_view t k' c' = kv_view t k' c ∨ kv_view t k' c' = None) ∧
    (∀ k', kv_room k' c' ↔ kv_room k' c);
  kv_get_into_law now k out c : kv_ok c → kv_get_into now k out c =
    ('(r, c') ← kv_get now k c; Ret (bool_decide (is_Some r), default out r, c'));
  kv_erase_law now k c : kv_ok c →
    ∃ c', kv_erase now k c = Ret (bool_decide (is_Some (kv_view now k c)), c') ∧ kv_ok c' ∧
    (∀ t, kv_view t k c' = None) ∧ (∀ t k', k' ≠ k → kv_view t k' c' = kv_view t k' c) ∧
    (∀ k', kv_room k' c' ↔ kv_room k' c);
  kv_contains_law now k c : kv_ok c →
    kv_contains now k c = Ret (bool_decide (is_Some (kv_view now k c)));
  kv_ttl_law now k c : kv_ok c → 0 ≤ now →
    ∃ c', kv_ttl now k c = Ret (ttl_info now (kv_view now k c), c') ∧ kv_ok c' ∧
    (∀ t k', now ≤ t → kv_view t k' c' = kv_view t k' c) ∧
    (∀ t k', kv_view t k' c' = kv_view t k' c ∨ kv_view t k' c' = None) ∧
    (∀ k', kv_room k' c' ↔ kv_room k' c);
  kv_export_law clock c : kv_ok c → (∀ i, 0 ≤ clock i) →
    ∃ l (reading : bytes → nat), kv_export clock c = Ret l ∧ NoDup (snap_key <$> l) ∧
    lists_visible kv_view (clock ∘ reading) c l
}.

(** A store that leaves the defined behaviours on a deadline too large to
    represent; the law above is about all other calls. *)
Class KvOverflows (C : Type) `{KvLaws C} := kv_set_ttl_overflows now k v ttl c :
  kv_ok c → 0 ≤ now → 0 < ttl → i64_max < now + ttl * 1000000 → kv_set_ttl now k v ttl c = UB.
