(* ===== verification/CacheKv.v ===== *)
(** * The cache engine discharges the interface *)
From S2P Require Import Prelude RecencyList Lru Cache CacheRefine History CacheTheorems.
From S2P Require Import KvStore.

Module CacheKv.
Import CacheRefine CacheTheorems.

#[export] Instance Cache_ops : KvOps Cache.t := {
  kv_set := Cache.set;
  kv_set_ttl := Cache.set_ttl;
  kv_get := Cache.get;
  kv_get_into := Cache.get_into;
  kv_erase := Cache.erase;
  kv_contains := Cache.contains;
  kv_ttl := Cache.ttl;
  kv_export clock := Cache.export_entries (clock 0%nat)
}.

#[export] Instance Cache_admin : KvAdmin Cache.t := {
  kv_clear := fun c => Ret (Cache.clear c);
  kv_size := fun c => Ret (Cache.csize c);
  kv_empty := fun c => Ret (Cache.empty c);
  kv_capacity := fun c => Ret (Cache.capacity c);
  kv_evictions := fun c => Ret (Cache.evictions c);
  kv_expired_removals := fun c => Ret (Cache.expired_removals c)
}.

Definition view (t : time_point) (k : bytes) (c : Cache.t) : option Entry :=
  Lru.visible t k (abs c).

Definition room (c : Cache.t) : Prop := Cache.capacity_ c ≠ Some 0.

(** ** The capacity is fixed at construction *)
Lemma cap_erase now k s : Lru.cap (Lru.erase now k s).2 = Lru.cap s.
Proof. unfold Lru.erase. repeat split_match; done. Qed.

Lemma cap_put k v d s : Lru.cap (Lru.put k v d s) = Lru.cap s.
Proof. unfold Lru.put. by destruct (Lru.lookup k s). Qed.

Lemma cap_put_ttl now k v ttl s : Lru.cap (Lru.put_ttl now k v ttl s) = Lru.cap s.
Proof. unfold Lru.put_ttl. case_bool_decide; [apply cap_erase|apply cap_put]. Qed.

Lemma cap_get now k s : Lru.cap (Lru.get now k s).2 = Lru.cap s.
Proof. unfold Lru.get. repeat split_match; done. Qed.

Lemma cap_ttl now k s : Lru.cap (Lru.ttl now k s).2 = Lru.cap s.
Proof. unfold Lru.ttl. repeat split_match; done. Qed.

Lemma room_abs c c' : Lru.cap (abs c') = Lru.cap (abs c) → room c' ↔ room c.
Proof. unfold room. cbn. by intros ->. Qed.

(** ** Visibility after a call *)
Lemma visible_put_frame t k v d k' s :
  k' ≠ k → Lru.ok s →
  Lru.visible t k' (Lru.put k v d s) = Lru.visible t k' s ∨ Lru.visible t k' (Lru.put k v d s) = None.
Proof.
  intros Hk Hs. destruct (visible_put_other t k v d k' s Hk Hs) as [?|E]; [by left|].
  right. unfold Lru.visible. by rewrite E.
Qed.

Lemma visible_put_unbounded t k v d k' s :
  Lru.cap s = None → k' ≠ k → Lru.visible t k' (Lru.put k v d s) = Lru.visible t k' s.
Proof.
  intros Hc Hk. unfold Lru.put, Lru.visible, Lru.lookup.
  destruct (find_by key k (Lru.items s)); cbn.
  - by rewrite decide_False, find_by_drop_ne by congruence.
  - rewrite Hc. cbn. by rewrite decide_False by congruence.
Qed.

(** Whatever the capacity, only the new value can be seen under the key. *)
Lemma visible_put_entry t k v d s x : Lru.visible t k (Lru.put k v d s) = Some x → x = mkEntry k v d.
Proof.
  unfold Lru.put, Lru.visible. destruct (Lru.lookup k s); unfold Lru.lookup; cbn.
  - rewrite decide_True by done. destruct (Lru.dead _ _); [done|]. by intros [= <-].
  - assert (∀ c l y, find_by key k (Lru.keep c (mkEntry k v d :: l)) = Some y → y = mkEntry k v d) as Hk.
    { intros [n|] l y; cbn; [destruct (Z.to_nat n); cbn; [done|]|]; rewrite decide_True by done; by intros [= <-]. }
    destruct (find_by key k _) as [y|] eqn:E; [|done]. apply Hk in E as ->.
    destruct (Lru.dead _ _); [done|]. by intros [= <-].
Qed.

Lemma ttl_visible now k s : (Lru.ttl now k s).1 = ttl_info now (Lru.visible now k s).
Proof.
  unfold Lru.ttl, Lru.visible, ttl_info. destruct (Lru.lookup k s) as [e|]; [|done].
  unfold Lru.dead. destruct (expires_at e) eqn:E; cbn; [|by rewrite E].
  case_bool_decide; cbn; [done|by rewrite E].
Qed.

Lemma visible_key t k s e : Lru.visible t k s = Some e → key e = k ∧ Lru.dead t e = false.
Proof.
  unfold Lru.visible. destruct (Lru.lookup k s) eqn:E; [|done].
  apply Lru.lookup_key in E. destruct (Lru.dead t e0) eqn:D; intros ?; by simplify_eq.
Qed.

(** A read reclaims at most: it shows nothing that was not there before it. *)
Lemma visible_reclaim_sub t k k' s :
  Lru.visible t k' (Lru.reclaim k s) = Lru.visible t k' s ∨ Lru.visible t k' (Lru.reclaim k s) = None.
Proof.
  unfold Lru.visible, Lru.lookup. cbn. destruct (decide (k' = k)) as [->|?].
  - right. by rewrite find_by_drop_eq.
  - left. by rewrite find_by_drop_ne.
Qed.

Lemma visible_get_sub now t k k' s :
  Lru.visible t k' (Lru.get now k s).2 = Lru.visible t k' s ∨
  Lru.visible t k' (Lru.get now k s).2 = None.
Proof.
  unfold Lru.get. destruct (Lru.lookup k s) as [e|] eqn:E; [|by left].
  destruct (Lru.dead now e); [apply visible_reclaim_sub|]. left. cbn [snd].
  pose proof (Lru.lookup_key _ _ _ E) as <-. rewrite visible_front. case_decide; [|done].
  subst k'. unfold Lru.visible. by rewrite E.
Qed.

Lemma visible_ttl_sub now t k k' s :
  Lru.visible t k' (Lru.ttl now k s).2 = Lru.visible t k' s ∨
  Lru.visible t k' (Lru.ttl now k s).2 = None.
Proof.
  unfold Lru.ttl. repeat split_match; cbn; (by left) || apply visible_reclaim_sub.
Qed.

Lemma visible_deadline t k c e d :
  inv c → view t k c = Some e → expires_at e = Some d → d ≤ i64_max.
Proof.
  intros Hc Hv Hd. unfold view, Lru.visible in Hv. split_match; [|done].
  destruct (Lru.dead t _); simplify_eq. unfold Lru.lookup in *.
  match goal with H : find_by _ _ _ = _ |- _ => apply find_by_Some in H as [Hin _] end.
  pose proof (linked_deadlines _ (inv_linked _ Hc)) as Hall. rewrite Forall_forall in Hall.
  specialize (Hall e Hin). unfold deadline_ok in Hall. rewrite Hd in Hall. lia.
Qed.

(** An export lists what is visible. *)
Lemma elem_of_export now s x :
  NoDup (Lru.keys s) →
  x ∈ Lru.export now s ↔ ∃ e, Lru.visible now (snap_key x) s = Some e ∧ x = Lru.snapshot_of now e.
Proof.
  intros Hk. unfold Lru.export, Lru.visible, Lru.lookup. rewrite list_elem_of_fmap. split.
  - intros (e & -> & [Hd He]%list_elem_of_filter). exists e. cbn.
    by rewrite (find_by_elem key), Hd.
  - intros (e & Hv & ->). cbn in Hv. split_match; [|done].
    match goal with H : find_by _ _ _ = _ |- _ => apply find_by_Some in H as [Hin _] end.
    destruct (Lru.dead now _) eqn:D; simplify_eq. exists e. split; [done|].
    by apply list_elem_of_filter.
Qed.

Lemma export_NoDup now s : NoDup (Lru.keys s) → NoDup (snap_key <$> Lru.export now s).
Proof.
  intros Hk. unfold Lru.export. rewrite <- list_fmap_compose.
  eapply sublist_NoDup; [exact Hk|]. apply (fmap_sublist key), sublist_filter.
Qed.

(** ** The laws *)
#[export] Program Instance Cache_laws : KvLaws Cache.t := {
  kv_ok := inv;
  kv_view := view;
  kv_room := fun _ => room;
  kv_unbounded := fun c => Lru.cap (abs c) = None
}.
Next Obligation. intros k c _ Hc. unfold room. cbn in Hc. by rewrite Hc. Qed.
Next Obligation. intros t k c e. apply visible_key. Qed.
Next Obligation. intros t k c e d. apply visible_deadline. Qed.
Next Obligation.
  intros k v c Hc. destruct (set_refines c k v Hc) as (c' & Hr & Hc' & Ha). cbn.
  exists c'. unfold view. rewrite Ha. split_and!; [done..| | | | |].
  - intros Hroom t. rewrite visible_put by (done || apply Hc). done.
  - intros t k' Hk. apply visible_put_frame; [done|apply Hc].
  - intros _. apply room_abs. by rewrite Ha, cap_put.
  - intros Hu. split; [change (Lru.cap (abs c') = None); by rewrite Ha, cap_put|]. intros t k' Hk. by apply visible_put_unbounded.
  - intros t x. apply visible_put_entry.
Qed.
Next Obligation.
  intros now k v ttl c Hc Hn Hm. destruct (set_ttl_refines c now k v ttl Hc Hn Hm) as (c' & Hr & Hc' & Ha).
  exists c'. unfold view. rewrite Ha. split_and!; [done..| | | | |].
  - intros Hroom t. unfold Lru.put_ttl. case_bool_decide.
    + by rewrite visible_erase, decide_True.
    + by rewrite visible_put by (done || apply Hc).
  - intros t k' Hk. unfold Lru.put_ttl. case_bool_decide.
    + left. by rewrite visible_erase, decide_False.
    + apply visible_put_frame; [done|apply Hc].
  - intros _. apply room_abs. by rewrite Ha, cap_put_ttl.
  - intros Hu. split; [by rewrite cap_put_ttl|]. intros t k' Hk. unfold Lru.put_ttl. case_bool_decide.
    + by rewrite visible_erase, decide_False.
    + by apply visible_put_unbounded.
  - intros t x. unfold Lru.put_ttl. case_bool_decide; [|apply visible_put_entry].
    by rewrite visible_erase, decide_True.
Qed.
Next Obligation.
  intros now k c Hc. destruct (get_into_refines c now k [] Hc) as (r & c' & Hr & Hc' & Hs & _).
  assert (abs c' = (Lru.get now k (abs c)).2) as Ha by by rewrite Hs.
  exists c'. unfold view. rewrite <- get_visible, Hs, Ha. split_and!; [done..| | |].
  - intros t k' Ht. apply visible_get; [apply Hc|done].
  - intros t k'. apply visible_get_sub.
  - intros _. apply room_abs. by rewrite Ha, cap_get.
Qed.
Next Obligation.
  intros now k out c Hc. destruct (get_into_refines c now k out Hc) as (r & c' & Hg & _ & _ & Hi).
  cbn. by rewrite Hg, Hi.
Qed.
Next Obligation.
  intros now k c Hc. destruct (erase_refines c now k Hc) as (r & c' & Hr & Hc' & Hs).
  assert (abs c' = (Lru.erase now k (abs c)).2) as Ha by by rewrite Hs.
  exists c'. unfold view. rewrite <- erase_visible, Hs, Ha. split_and!; [done..| | |].
  - intros t. by rewrite visible_erase, decide_True.
  - intros t k' Hk. by rewrite visible_erase, decide_False.
  - intros _. apply room_abs. by rewrite Ha, cap_erase.
Qed.
Next Obligation. intros now k c Hc. by apply contains_answer. Qed.
Next Obligation.
  intros now k c Hc Hn. destruct (ttl_refines c now k Hc Hn) as (r & c' & Hr & Hc' & Hs).
  assert (abs c' = (Lru.ttl now k (abs c)).2) as Ha by by rewrite Hs.
  exists c'. unfold view. rewrite <- ttl_visible, Hs, Ha. split_and!; [done..| | |].
  - intros t k' Ht. by apply visible_ttl.
  - intros t k'. apply visible_ttl_sub.
  - intros _. apply room_abs. by rewrite Ha, cap_ttl.
Qed.
Next Obligation.
  intros clock c Hc Hn. exists (Lru.export (clock 0%nat) (abs c)), (λ _, 0%nat). split; [by apply export_refines|].
  pose proof (Lru.ok_keys _ (inv_ok _ Hc)). split; [by apply export_NoDup|].
  intros x. by apply elem_of_export.
Qed.
#[export] Instance Cache_overflows : KvOverflows Cache.t.
Proof. intros now k v ttl c _ Hn Ht Hd. by apply set_ttl_UB. Qed.
End CacheKv.
