(* ===== verification/SyncCache.v ===== *)
(** * The synchronised cache (include/cachex/sync_cache.hpp)

    One exclusive mutex around a [Cache].  Each method constructs a
    [std::lock_guard], runs one cache method and releases the mutex on return.
    Here a method is called by one thread at a time: on a mutex somebody else
    holds it would wait, which a sequential call cannot end ([Hang]).
    Concurrency.v lets the threads interleave inside the methods. *)
From S2P Require Import Prelude RecencyList Lru Cache CacheRefine History CacheTheorems.
From S2P Require Import KvStore CacheKv.

Module SyncCache.
Import CacheKv.

(** The thread that holds the mutex, if any. *)
Abbreviation thread_id := nat.

Record t := mk {
  mutex_ : option thread_id;
  cache_ : Cache.t
}.

Definition SyncCache_unbounded : t := mk None Cache.Cache_unbounded.
Definition SyncCache_bounded (capacity : Z) : t := mk None (Cache.Cache_bounded capacity).

(** [const std::lock_guard<std::mutex> lock(mutex_)] around a body. *)
Definition lock_guard {A} (body : Cache.t → outcome (A * Cache.t)) (s : t) : outcome (A * t) :=
  match mutex_ s with
  | Some _ => Hang
  | None => '(a, c) ← body (cache_ s); Ret (a, mk None c)
  end.

(** The same around a [const] body. *)
Definition lock_guard_const {A} (body : Cache.t → outcome A) (s : t) : outcome A :=
  fst <$> lock_guard (λ c, a ← body c; Ret (a, c)) s.

(** The same around a body that returns nothing. *)
Definition lock_guard_void (body : Cache.t → outcome Cache.t) (s : t) : outcome t :=
  snd <$> lock_guard (λ c, c ← body c; Ret (tt, c)) s.

Definition set (k v : bytes) : t → outcome t := lock_guard_void (Cache.set k v).
Definition set_ttl (now : time_point) (k v : bytes) (ttl : Z) : t → outcome t :=
  lock_guard_void (Cache.set_ttl now k v ttl).
Definition get (now : time_point) (k : bytes) : t → outcome (option bytes * t) :=
  lock_guard (Cache.get now k).
Definition get_into (now : time_point) (k out : bytes) : t → outcome (bool * bytes * t) :=
  lock_guard (Cache.get_into now k out).
Definition erase (now : time_point) (k : bytes) : t → outcome (bool * t) :=
  lock_guard (Cache.erase now k).
Definition contains (now : time_point) (k : bytes) : t → outcome bool :=
  lock_guard_const (Cache.contains now k).
Definition ttl (now : time_point) (k : bytes) : t → outcome (TtlInfo * t) :=
  lock_guard (Cache.ttl now k).
Definition size : t → outcome Z := lock_guard_const (λ c, Ret (Cache.csize c)).
Definition empty : t → outcome bool := lock_guard_const (λ c, Ret (Cache.empty c)).
Definition clear : t → outcome t := lock_guard_void (λ c, Ret (Cache.clear c)).
Definition capacity : t → outcome (option Z) := lock_guard_const (λ c, Ret (Cache.capacity c)).
Definition evictions : t → outcome Z := lock_guard_const (λ c, Ret (Cache.evictions c)).
Definition expired_removals : t → outcome Z :=
  lock_guard_const (λ c, Ret (Cache.expired_removals c)).
Definition export_entries (now : time_point) : t → outcome (list EntrySnapshot) :=
  lock_guard_const (Cache.export_entries now).
Definition keys_by_recency : t → outcome (list bytes) :=
  lock_guard_const (λ c, Ret (Cache.keys_by_recency c)).

#[export] Instance SyncCache_ops : KvOps t := {
  kv_set := set;
  kv_set_ttl := set_ttl;
  kv_get := get;
  kv_get_into := get_into;
  kv_erase := erase;
  kv_contains := contains;
  kv_ttl := ttl;
  kv_export clock := export_entries (clock 0%nat)
}.

#[export] Instance SyncCache_admin : KvAdmin t := {
  kv_clear := clear;
  kv_size := size;
  kv_empty := empty;
  kv_capacity := capacity;
  kv_evictions := evictions;
  kv_expired_removals := expired_removals
}.

(** Between two calls: the mutex is free and the cache is well formed. *)
Definition sync_ok (s : t) : Prop := mutex_ s = None ∧ CacheRefine.inv (cache_ s).

(** ** Lemmas: on a free mutex each method is the cache's *)
Lemma lock_guard_free {A} (body : Cache.t → outcome (A * Cache.t)) s a c :
  mutex_ s = None → body (cache_ s) = Ret (a, c) → lock_guard body s = Ret (a, mk None c).
Proof. intros Hm Hb. unfold lock_guard. by rewrite Hm, Hb. Qed.

Lemma lock_guard_void_free (body : Cache.t → outcome Cache.t) s c :
  mutex_ s = None → body (cache_ s) = Ret c → lock_guard_void body s = Ret (mk None c).
Proof.
  intros Hm Hb. unfold lock_guard_void. erewrite lock_guard_free; [done|done|]. by rewrite Hb.
Qed.

Lemma lock_guard_const_free {A} (body : Cache.t → outcome A) s a :
  mutex_ s = None → body (cache_ s) = Ret a → lock_guard_const body s = Ret a.
Proof.
  intros Hm Hb. unfold lock_guard_const. erewrite lock_guard_free; [done|done|]. by rewrite Hb.
Qed.

Lemma sync_ok_cache s c : sync_ok s → CacheRefine.inv c → sync_ok (mk None c).
Proof. intros _ Hc. by split. Qed.

#[export] Program Instance SyncCache_laws : KvLaws t := {
  kv_ok := sync_ok;
  kv_view := fun now k s => CacheKv.view now k (cache_ s);
  kv_room := fun _ s => CacheKv.room (cache_ s);
  kv_unbounded := fun s => Lru.cap (CacheRefine.abs (cache_ s)) = None
}.
Next Obligation. intros k s _ Hc. unfold CacheKv.room. cbn in Hc. by rewrite Hc. Qed.
Next Obligation. intros now k c e. apply CacheKv.visible_key. Qed.
Next Obligation. intros now k s e d [_ Hc]. by apply CacheKv.visible_deadline. Qed.
Next Obligation.
  intros k v s [Hm Hc]. destruct (kv_set_law k v (cache_ s)) as (c' & Hr & Hc' & H); [done|].
  exists (mk None c'). split; [by apply lock_guard_void_free|]. split; [by split|exact H].
Qed.
Next Obligation.
  intros now k v ms s [Hm Hc] Hn Hd.
  destruct (kv_set_ttl_law now k v ms (cache_ s)) as (c' & Hr & Hc' & H); [done..|].
  exists (mk None c'). split; [by apply lock_guard_void_free|]. split; [by split|exact H].
Qed.
Next Obligation.
  intros now k s [Hm Hc]. destruct (kv_get_law now k (cache_ s)) as (c' & Hr & Hc' & H); [done|].
  exists (mk None c'). split; [by apply lock_guard_free|]. split; [by split|exact H].
Qed.
Next Obligation.
  intros now k out s [Hm Hc]. destruct (kv_get_law now k (cache_ s)) as (c' & Hr & Hc' & _); [done|].
  pose proof (kv_get_into_law now k out (cache_ s) Hc) as Hi. rewrite Hr in Hi.
  cbn. unfold get_into. erewrite lock_guard_free by done. unfold get.
  by erewrite lock_guard_free by done.
Qed.
Next Obligation.
  intros now k s [Hm Hc]. destruct (kv_erase_law now k (cache_ s)) as (c' & Hr & Hc' & H); [done|].
  exists (mk None c'). split; [by apply lock_guard_free|]. split; [by split|exact H].
Qed.
Next Obligation.
  intros now k s [Hm Hc]. apply lock_guard_const_free; [done|]. by apply (CacheTheorems.contains_answer (cache_ s) now k).
Qed.
Next Obligation.
  intros now k s [Hm Hc] Hn. destruct (kv_ttl_law now k (cache_ s)) as (c' & Hr & Hc' & H); [done..|].
  exists (mk None c'). split; [by apply lock_guard_free|]. split; [by split|exact H].
Qed.
Next Obligation.
  intros clock s [Hm Hc] Hn. destruct (kv_export_law clock (cache_ s)) as (l & r & Hr & H); [done..|].
  exists l, r. split; [by apply lock_guard_const_free|exact H].
Qed.
End SyncCache.
