(* ===== verification/Concurrency.v ===== *)
(** * Threads sharing a sharded cache

    Worker threads call the methods of [SyncCache] on the shards they choose.
    A call is not atomic: a thread takes the shard's mutex ([std::lock_guard]),
    reads the clock and the shared state, writes the new state back, and
    releases the mutex; the scheduler interleaves these steps of all threads in
    any order, and the clock may advance between any two.  Each thread has a
    program, the calls it will make, each on one shard. *)
From S2P Require Import Prelude RecencyList Lru Cache CacheRefine History SyncCache.

Module Concurrency.
Import CacheRefine History.

(** Where a thread is inside a method. *)
Inductive pc :=
| Idle
| Locked (i : nat) (o : op)                            (** the guard is constructed *)
| Loaded (i : nat) (o : op) (now : time_point) (c : Cache.t)  (** the state is read *)
| Stored (i : nat) (r : answer).                       (** the new state is written *)

Record thread := mkThread {
  program : list (nat * op);   (** the calls still to make *)
  at_pc : pc;
  answers : list answer        (** what the finished calls returned *)
}.

(** A call that took effect. *)
Record event := mkEvent {
  ev_thread : nat;
  ev_shard : nat;
  ev_now : time_point;
  ev_op : op;
  ev_answer : answer
}.

Record machine := mkMachine {
  shards : list SyncCache.t;
  threads : list thread;
  clock : time_point;
  log : list event             (** in order of effect *)
}.

(** The shard whose mutex a thread holds. *)
Definition holds (p : pc) : option nat :=
  match p with
  | Idle => None
  | Locked i _ | Loaded i _ _ _ | Stored i _ => Some i
  end.

(** One step of thread [t]. *)
Inductive tstep (t : nat) : machine → machine → Prop :=
| step_lock m i o prog ans s :
    threads m !! t = Some (mkThread ((i, o) :: prog) Idle ans) →
    shards m !! i = Some s → SyncCache.mutex_ s = None →
    tstep t m (mkMachine (<[i := SyncCache.mk (Some t) (SyncCache.cache_ s)]> (shards m))
      (<[t := mkThread prog (Locked i o) ans]> (threads m)) (clock m) (log m))
| step_load m i o prog ans s :
    threads m !! t = Some (mkThread prog (Locked i o) ans) → shards m !! i = Some s →
    tstep t m (mkMachine (shards m)
      (<[t := mkThread prog (Loaded i o (clock m) (SyncCache.cache_ s)) ans]> (threads m))
      (clock m) (log m))
| step_store m i o now c r c' prog ans s :
    threads m !! t = Some (mkThread prog (Loaded i o now c) ans) → shards m !! i = Some s →
    run now o c = Ret (r, c') →
    tstep t m (mkMachine (<[i := SyncCache.mk (SyncCache.mutex_ s) c']> (shards m))
      (<[t := mkThread prog (Stored i r) ans]> (threads m)) (clock m)
      (log m ++ [mkEvent t i now o r]))
| step_unlock m i r prog ans s :
    threads m !! t = Some (mkThread prog (Stored i r) ans) → shards m !! i = Some s →
    tstep t m (mkMachine (<[i := SyncCache.mk None (SyncCache.cache_ s)]> (shards m))
      (<[t := mkThread prog Idle (ans ++ [r])]> (threads m)) (clock m) (log m)).

(** Any thread, or the monotonic clock, takes a step. *)
Inductive step (limit : time_point) : machine → machine → Prop :=
| step_thread t m m' : tstep t m m' → step limit m m'
| step_tick m now : clock m ≤ now ≤ limit →
    step limit m (mkMachine (shards m) (threads m) now (log m)).

Definition start (s0 : list SyncCache.t) (progs : list (list (nat * op))) : machine :=
  mkMachine s0 ((λ p, mkThread p Idle []) <$> progs) 0 [].

Inductive reaches (limit : time_point) (m : machine) : machine → Prop :=
| reaches_refl : reaches limit m m
| reaches_step m1 m2 : reaches limit m m1 → step limit m1 m2 → reaches limit m m2.

(** The calls that took effect on shard [i] and their answers. *)
Definition on_shard (i : nat) (l : list event) : list event := filter (λ e, ev_shard e = i) l.
Definition calls (l : list event) : history := (λ e, (ev_now e, ev_op e)) <$> l.
Definition by_thread (t : nat) (l : list event) : list event := filter (λ e, ev_thread e = t) l.

(** A thread's call in progress that has not taken effect, and its answer not
    yet returned. *)
Definition in_flight (p : pc) : list (nat * op) :=
  match p with Locked i o | Loaded i o _ _ => [(i, o)] | _ => [] end.
Definition pending (p : pc) : list answer :=
  match p with Stored _ r => [r] | _ => [] end.

(** A call that cannot overflow a deadline before [limit]. *)
Definition op_fits (limit : time_point) (o : op) : bool :=
  match o with OpSetTtl _ _ ttl => limit + ttl * 1000000 <=? i64_max | _ => true end.

(** Every call of a program names a shard and fits. *)
Definition prog_ok (limit : time_point) (n : nat) (prog : list (nat * op)) : bool :=
  forallb (λ x, (x.1 <? n)%nat && op_fits limit x.2) prog.

Definition finished (th : thread) : Prop := program th = [] ∧ at_pc th = Idle.

#[global] Instance idle_dec (p : pc) : Decision (p = Idle).
Proof. destruct p; (by left) || (right; discriminate). Defined.

#[global] Instance no_call_dec (l : list (nat * op)) : Decision (l = []).
Proof. destruct l; (by left) || (right; discriminate). Defined.

(** ** Lemmas *)
Lemma run_all_snoc h now o c rs c1 r c2 :
  run_all h c = Ret (rs, c1) → run now o c1 = Ret (r, c2) →
  run_all (h ++ [(now, o)]) c = Ret (rs ++ [r], c2).
Proof.
  revert c rs. induction h as [|[n o'] h IH]; intros c rs Hh Hr; cbn in *.
  - injection Hh as <- <-. by rewrite Hr.
  - destruct (run n o' c) as [[r' c']| |]; cbn in *; try discriminate.
    destruct (run_all h c') as [[rs' c'']| |] eqn:E; cbn in *; try discriminate.
    injection Hh as <- <-. by erewrite IH.
Qed.

(** Updating one element of a list that has it. *)
Lemma lookup_update {A} (l : list A) i j x y :
  l !! i = Some x → <[i := y]> l !! j = if decide (j = i) then Some y else l !! j.
Proof.
  intros Hi. case_decide as E; [subst|by apply list_lookup_insert_ne].
  apply list_lookup_insert_eq. by eapply lookup_lt_Some.
Qed.

(** *** Schedules that can be run *)

(** The step of thread [t], if it can take one. *)
Definition tstep_run (t : nat) (m : machine) : option machine :=
  th ← threads m !! t;
  match at_pc th with
  | Idle =>
      match program th with
      | (i, o) :: prog =>
          s ← shards m !! i;
          match SyncCache.mutex_ s with
          | None => Some (mkMachine (<[i := SyncCache.mk (Some t) (SyncCache.cache_ s)]> (shards m))
                      (<[t := mkThread prog (Locked i o) (answers th)]> (threads m)) (clock m) (log m))
          | Some _ => None
          end
      | [] => None
      end
  | Locked i o =>
      s ← shards m !! i;
      Some (mkMachine (shards m)
        (<[t := mkThread (program th) (Loaded i o (clock m) (SyncCache.cache_ s)) (answers th)]> (threads m))
        (clock m) (log m))
  | Loaded i o now c =>
      s ← shards m !! i;
      match run now o c with
      | Ret (r, c') => Some (mkMachine (<[i := SyncCache.mk (SyncCache.mutex_ s) c']> (shards m))
                         (<[t := mkThread (program th) (Stored i r) (answers th)]> (threads m)) (clock m)
                         (log m ++ [mkEvent t i now o r]))
      | _ => None
      end
  | Stored i r =>
      s ← shards m !! i;
      Some (mkMachine (<[i := SyncCache.mk None (SyncCache.cache_ s)]> (shards m))
        (<[t := mkThread (program th) Idle (answers th ++ [r])]> (threads m)) (clock m) (log m))
  end.

Fixpoint schedule (ts : list nat) (m : machine) : option machine :=
  match ts with
  | [] => Some m
  | t :: ts => m ← tstep_run t m; schedule ts m
  end.

Lemma tstep_run_sound t m m' : tstep_run t m = Some m' → tstep t m m'.
Proof.
  unfold tstep_run. intros (th & Hth & H)%bind_Some. destruct th as [prog p ans]. cbn [at_pc program answers] in H.
  destruct p as [|i o|i o now c|i r].
  - destruct prog as [|[i o] prog]; [done|]. apply bind_Some in H as (s & Hs & H).
    destruct (SyncCache.mutex_ s) eqn:E; [done|]. injection H as <-. by apply step_lock.
  - apply bind_Some in H as (s & Hs & [= <-]). by eapply step_load.
  - apply bind_Some in H as (s & Hs & H). destruct (run now o c) as [[r c']| |] eqn:E; try done.
    injection H as <-. by eapply step_store.
  - apply bind_Some in H as (s & Hs & [= <-]). by eapply step_unlock.
Qed.

Lemma schedule_reaches limit ts m0 m m' : reaches limit m0 m → schedule ts m = Some m' → reaches limit m0 m'.
Proof.
  revert m. induction ts as [|t ts IH]; intros m Hm H; cbn in H; [by injection H as <-|].
  apply bind_Some in H as (m1 & Ht%tstep_run_sound & H). eapply IH; [|exact H].
  eapply reaches_step; [exact Hm|by eapply step_thread].
Qed.

(** ** The invariant of the machine *)
Section Machine.
Context (limit : time_point) (s0 : list SyncCache.t) (progs : list (list (nat * op))).

Record good (m : machine) : Prop := {
  good_clock : 0 ≤ clock m ≤ limit;
  good_len : length (shards m) = length s0;
  (** a mutex is held by exactly the thread that is inside a method of it *)
  good_mutex i s : shards m !! i = Some s → ∀ t, SyncCache.mutex_ s = Some t ↔
    ∃ th, threads m !! t = Some th ∧ holds (at_pc th) = Some i;
  good_holds t th i : threads m !! t = Some th → holds (at_pc th) = Some i → (i < length s0)%nat;
  (** what a thread has read is still what the shard holds *)
  good_loaded t th i o now c : threads m !! t = Some th → at_pc th = Loaded i o now c →
    call_ok now o = true ∧ ∀ s, shards m !! i = Some s → SyncCache.cache_ s = c;
  (** each shard is the result of its events, one after the other *)
  good_shard i s : shards m !! i = Some s → inv (SyncCache.cache_ s) ∧
    ∃ s', s0 !! i = Some s' ∧
      run_all (calls (on_shard i (log m))) (SyncCache.cache_ s') =
        Ret (ev_answer <$> on_shard i (log m), SyncCache.cache_ s);
  (** each thread runs its program in order *)
  good_thread t th : threads m !! t = Some th → ∃ prog, progs !! t = Some prog ∧
    prog = ((λ e, (ev_shard e, ev_op e)) <$> by_thread t (log m)) ++ in_flight (at_pc th) ++ program th ∧
    answers th ++ pending (at_pc th) = ev_answer <$> by_thread t (log m)
}.

Context (Hs0 : Forall SyncCache.sync_ok s0) (Hlimit : 0 ≤ limit)
  (Hprogs : Forall (λ p, prog_ok limit (length s0) p = true) progs).

Lemma good_start : good (start s0 progs).
Proof.
  split; cbn; try done.
  - intros i s Hs t. rewrite Forall_lookup in Hs0. destruct (Hs0 i s Hs) as [-> _].
    split; [done|]. intros (th & Hth & Hh). rewrite list_lookup_fmap in Hth.
    destruct (progs !! t); cbn in Hth; by simplify_eq.
  - intros t th i Hth Hp. rewrite list_lookup_fmap in Hth.
    destruct (progs !! t); cbn in Hth; by simplify_eq.
  - intros t th i o now c Hth Hp. rewrite list_lookup_fmap in Hth.
    destruct (progs !! t); cbn in Hth; by simplify_eq.
  - intros i s Hs. rewrite Forall_lookup in Hs0. destruct (Hs0 i s Hs) as [_ ?].
    split; [done|]. by exists s.
  - intros t th Hth. rewrite list_lookup_fmap in Hth.
    destruct (progs !! t) as [p|]; cbn in Hth; simplify_eq. by exists p.
Qed.

(** A call of a thread's program names an existing shard and fits. *)
Lemma good_call m t th i o :
  good m → threads m !! t = Some th → (i, o) ∈ in_flight (at_pc th) ++ program th →
  (i < length s0)%nat ∧ op_fits limit o = true.
Proof.
  intros Hm Hth Hin. destruct (good_thread _ Hm _ _ Hth) as (prog & Hp & -> & _).
  rewrite Forall_lookup in Hprogs. specialize (Hprogs _ _ Hp).
  unfold prog_ok in Hprogs. rewrite forallb_forall in Hprogs.
  assert (In (i, o) (((λ e, (ev_shard e, ev_op e)) <$> by_thread t (log m)) ++
    in_flight (at_pc th) ++ program th)) as Hin'.
  { apply in_or_app. right. by apply list_elem_of_In. }
  specialize (Hprogs _ Hin'). cbn in Hprogs. apply andb_true_iff in Hprogs as [H1%Nat.ltb_lt H2].
  done.
Qed.

(** Two threads never hold the same mutex. *)
Lemma good_exclusive m t1 t2 th1 th2 i s :
  good m → shards m !! i = Some s → threads m !! t1 = Some th1 → threads m !! t2 = Some th2 →
  holds (at_pc th1) = Some i → holds (at_pc th2) = Some i → t1 = t2.
Proof.
  intros Hm Hs H1 H2 E1 E2.
  pose proof (proj2 (good_mutex _ Hm i s Hs t1)) as M1.
  pose proof (proj2 (good_mutex _ Hm i s Hs t2)) as M2.
  rewrite M1 in M2 by eauto. specialize (M2 ltac:(eauto)). by simplify_eq.
Qed.

(** A thread that changes neither what it holds nor the log and the shards. *)
Lemma own_update m t th th' t' i :
  threads m !! t = Some th →
  (∃ x, <[t := th']> (threads m) !! t' = Some x ∧ holds (at_pc x) = Some i) ↔
  (if decide (t' = t) then holds (at_pc th') = Some i
   else ∃ x, threads m !! t' = Some x ∧ holds (at_pc x) = Some i).
Proof.
  intros Hth. rewrite (lookup_update _ _ _ _ _ Hth). case_decide; [|done].
  split; [by intros (x & ? & ?); simplify_eq|]. intros ?. by exists th'.
Qed.

Lemma good_lock m t i o prog ans s :
  good m → threads m !! t = Some (mkThread ((i, o) :: prog) Idle ans) →
  shards m !! i = Some s → SyncCache.mutex_ s = None →
  good (mkMachine (<[i := SyncCache.mk (Some t) (SyncCache.cache_ s)]> (shards m))
    (<[t := mkThread prog (Locked i o) ans]> (threads m)) (clock m) (log m)).
Proof.
  intros Hm Hth Hs Hfree. split; cbn.
  - apply Hm.
  - rewrite length_insert. apply Hm.
  - intros i' s' Hs' t'. rewrite (own_update _ _ _ _ _ _ Hth).
    rewrite (lookup_update _ _ _ _ _ Hs) in Hs'. destruct (decide (i' = i)) as [->|Hi]; simplify_eq.
    + cbn. case_decide as Et; [subst; done|]. split; [by intros [= ->]|].
      intros Hown%(good_mutex _ Hm i s Hs). congruence.
    + rewrite (good_mutex _ Hm i' s' Hs'). case_decide as Et; [subst|done]. cbn. split.
      * intros (th & ? & ?). by simplify_eq.
      * intros [= ->]. done.
  - intros t' th' i' Hth' Hp. rewrite (lookup_update _ _ _ _ _ Hth) in Hth'.
    case_decide; [|by eapply (good_holds _ Hm)]. simplify_eq/=.
    rewrite <- (good_len _ Hm). by eapply lookup_lt_Some.
  - intros t' th' i' o' now c Hth' Hp. rewrite (lookup_update _ _ _ _ _ Hth) in Hth'.
    case_decide; simplify_eq/=. destruct (good_loaded _ Hm _ _ _ _ _ _ Hth' Hp) as [? Hc].
    split; [done|]. intros s' Hs'. rewrite (lookup_update _ _ _ _ _ Hs) in Hs'.
    case_decide; simplify_eq/=; auto.
  - intros i' s' Hs'. rewrite (lookup_update _ _ _ _ _ Hs) in Hs'.
    case_decide; simplify_eq/=; by apply (good_shard _ Hm).
  - intros t' th' Hth'. rewrite (lookup_update _ _ _ _ _ Hth) in Hth'.
    case_decide; simplify_eq/=; [|by apply (good_thread _ Hm)].
    apply (good_thread _ Hm) in Hth as (p & ? & ? & ?). by exists p.
Qed.

Lemma good_load m t i o prog ans s :
  good m → threads m !! t = Some (mkThread prog (Locked i o) ans) → shards m !! i = Some s →
  good (mkMachine (shards m)
    (<[t := mkThread prog (Loaded i o (clock m) (SyncCache.cache_ s)) ans]> (threads m))
    (clock m) (log m)).
Proof.
  intros Hm Hth Hs. split; cbn; [apply Hm..| | | | |].
  - intros i' s' Hs' t'. rewrite (own_update _ _ _ _ _ _ Hth), (good_mutex _ Hm i' s' Hs').
    case_decide as Et; [subst|done]. cbn. split.
    + intros (th & ? & ?). by simplify_eq.
    + intros E. by eexists.
  - intros t' th' i' Hth' Hp. rewrite (lookup_update _ _ _ _ _ Hth) in Hth'.
    case_decide; [|by eapply (good_holds _ Hm)]. simplify_eq/=.
    by eapply (good_holds _ Hm _ _ _ Hth).
  - intros t' th' i' o' now c Hth' Hp. rewrite (lookup_update _ _ _ _ _ Hth) in Hth'.
    case_decide; [|by eapply good_loaded]. simplify_eq/=. split; [|by intros; simplify_eq].
    destruct (good_call m t _ i' o' Hm Hth) as [_ Hf]; [by left|].
    destruct (good_clock _ Hm) as [? ?]. unfold call_ok. rewrite andb_true_iff, Z.leb_le. split; [done|].
    destruct o'; try done. cbn in Hf. apply Z.leb_le in Hf. apply Z.leb_le. lia.
  - intros i' s' Hs'. by apply (good_shard _ Hm).
  - intros t' th' Hth'. rewrite (lookup_update _ _ _ _ _ Hth) in Hth'.
    case_decide; simplify_eq/=; [|by apply (good_thread _ Hm)].
    apply (good_thread _ Hm) in Hth as (p & ? & ? & ?). by exists p.
Qed.

Lemma good_store m t i o now c r c' prog ans s :
  good m → threads m !! t = Some (mkThread prog (Loaded i o now c) ans) → shards m !! i = Some s →
  run now o c = Ret (r, c') →
  good (mkMachine (<[i := SyncCache.mk (SyncCache.mutex_ s) c']> (shards m))
    (<[t := mkThread prog (Stored i r) ans]> (threads m)) (clock m) (log m ++ [mkEvent t i now o r])).
Proof.
  intros Hm Hth Hs Hr. destruct (good_loaded _ Hm _ _ _ _ _ _ Hth eq_refl) as [Hok Hc].
  specialize (Hc s Hs). split; cbn.
  - apply Hm.
  - rewrite length_insert. apply Hm.
  - intros i' s' Hs' t'. rewrite (own_update _ _ _ _ _ _ Hth).
    assert (∃ s1, shards m !! i' = Some s1 ∧ SyncCache.mutex_ s' = SyncCache.mutex_ s1) as (s1 & Hs1 & ->).
    { rewrite (lookup_update _ _ _ _ _ Hs) in Hs'. case_decide; simplify_eq/=; eauto. }
    rewrite (good_mutex _ Hm i' s1 Hs1). case_decide as Et; [subst|done]. cbn. split.
    + intros (th & ? & ?). by simplify_eq.
    + intros E. by eexists.
  - intros t' th' i' Hth' Hp. rewrite (lookup_update _ _ _ _ _ Hth) in Hth'.
    case_decide; [|by eapply (good_holds _ Hm)]. simplify_eq/=.
    by eapply (good_holds _ Hm _ _ _ Hth).
  - intros t' th' i' o' now' c1 Hth' Hp. rewrite (lookup_update _ _ _ _ _ Hth) in Hth'.
    case_decide as Et; simplify_eq/=. destruct (good_loaded _ Hm _ _ _ _ _ _ Hth' Hp) as [? Hc'].
    split; [done|]. intros s' Hs'. rewrite (lookup_update _ _ _ _ _ Hs) in Hs'.
    case_decide; simplify_eq/=; [|auto]. exfalso. apply Et.
    eapply (good_exclusive m t' t _ _ i); [done..|by rewrite Hp|done].
  - intros i' s' Hs'. rewrite (lookup_update _ _ _ _ _ Hs) in Hs'. unfold on_shard.
    rewrite filter_app. case_decide as Ei; simplify_eq/=.
    + rewrite filter_cons_True, filter_nil by done. unfold calls. rewrite !fmap_app.
      destruct (good_shard _ Hm i s Hs) as (Hinv & si & Hsi & Hrun). split.
      * by eapply run_inv.
      * exists si. split; [done|]. cbn. by eapply run_all_snoc.
    + rewrite filter_cons_False, filter_nil, app_nil_r by (cbn; congruence).
      by apply (good_shard _ Hm).
  - intros t' th' Hth'. rewrite (lookup_update _ _ _ _ _ Hth) in Hth'. unfold by_thread.
    rewrite filter_app. case_decide as Et; simplify_eq/=.
    + rewrite filter_cons_True, filter_nil by done. rewrite !fmap_app.
      apply (good_thread _ Hm) in Hth as (p & Hp & Heq & Ha). cbn in *. exists p.
      rewrite app_nil_r in Ha. split; [done|]. rewrite <- app_assoc. by rewrite Ha.
    + rewrite filter_cons_False, filter_nil, app_nil_r by (cbn; congruence).
      by apply (good_thread _ Hm).
Qed.

Lemma good_unlock m t i r prog ans s :
  good m → threads m !! t = Some (mkThread prog (Stored i r) ans) → shards m !! i = Some s →
  good (mkMachine (<[i := SyncCache.mk None (SyncCache.cache_ s)]> (shards m))
    (<[t := mkThread prog Idle (ans ++ [r])]> (threads m)) (clock m) (log m)).
Proof.
  intros Hm Hth Hs. split; cbn.
  - apply Hm.
  - rewrite length_insert. apply Hm.
  - intros i' s' Hs' t'. rewrite (own_update _ _ _ _ _ _ Hth).
    rewrite (lookup_update _ _ _ _ _ Hs) in Hs'. destruct (decide (i' = i)) as [->|Hi]; simplify_eq.
    + cbn. case_decide as Et; [subst; done|]. split; [done|].
      intros (th & Hth' & E). exfalso. apply Et.
      by eapply (good_exclusive m t' t _ _ i).
    + rewrite (good_mutex _ Hm i' s' Hs'). case_decide as Et; [subst|done]. cbn. split; [|done].
      intros (th & ? & ?). by simplify_eq/=.
  - intros t' th' i' Hth' Hp. rewrite (lookup_update _ _ _ _ _ Hth) in Hth'.
    case_decide; [|by eapply (good_holds _ Hm)]. simplify_eq/=.
  - intros t' th' i' o' now c Hth' Hp. rewrite (lookup_update _ _ _ _ _ Hth) in Hth'.
    case_decide; simplify_eq/=. destruct (good_loaded _ Hm _ _ _ _ _ _ Hth' Hp) as [? Hc].
    split; [done|]. intros s' Hs'. rewrite (lookup_update _ _ _ _ _ Hs) in Hs'.
    case_decide; simplify_eq/=; auto.
  - intros i' s' Hs'. rewrite (lookup_update _ _ _ _ _ Hs) in Hs'.
    case_decide; simplify_eq/=; by apply (good_shard _ Hm).
  - intros t' th' Hth'. rewrite (lookup_update _ _ _ _ _ Hth) in Hth'.
    case_decide; simplify_eq/=; [|by apply (good_thread _ Hm)].
    apply (good_thread _ Hm) in Hth as (p & ? & ? & ?). exists p. split_and!; [done..|].
    by rewrite app_nil_r.
Qed.

Lemma good_step m m' : good m → step limit m m' → good m'.
Proof.
  intros Hm Hst. revert Hm. destruct Hst as [t m m' Ht|m now Hnow]; intros Hm.
  - revert Hm. destruct Ht; intros Hm; [by eapply good_lock|by eapply good_load|by eapply good_store|by eapply good_unlock].
  - destruct Hm. split; try done. cbn. lia.
Qed.

Lemma good_reaches m : reaches limit (start s0 progs) m → good m.
Proof. induction 1; [apply good_start|by eapply good_step]. Qed.

(** *** One order of the clock

    The log is in order of effect; a call reads the clock earlier, so that two
    calls on different shards may take effect in the other order.  There is one
    order of all calls that agrees with the clock and, on each shard and for each
    thread, with the log. *)
Definition no_later (e1 e2 : event) : Prop := ev_now e1 ≤ ev_now e2.

(** The same calls, on each shard and of each thread in the same order. *)
Definition same_order (l l' : list event) : Prop :=
  l ≡ₚ l' ∧ (∀ i, on_shard i l = on_shard i l') ∧ (∀ t, by_thread t l = by_thread t l').

Record timed (m : machine) : Prop := {
  timed_log : Forall (λ e, 0 ≤ ev_now e ≤ clock m) (log m);
  timed_loaded t th i o now c : threads m !! t = Some th → at_pc th = Loaded i o now c →
    now ≤ clock m ∧ ∀ e, e ∈ log m → ev_shard e = i ∨ ev_thread e = t → ev_now e ≤ now;
  timed_order : ∃ l, StronglySorted no_later l ∧ same_order l (log m)
}.

(** A call goes after all calls that are not later. *)
Fixpoint insert_event (e : event) (l : list event) : list event :=
  match l with
  | [] => [e]
  | x :: l => if ev_now x <=? ev_now e then x :: insert_event e l else e :: x :: l
  end.

Lemma insert_event_perm e l : insert_event e l ≡ₚ e :: l.
Proof. induction l as [|x l IH]; cbn; [done|]. destruct (_ <=? _); [|done]. rewrite IH. constructor. Qed.

Lemma insert_event_sorted e l : StronglySorted no_later l → StronglySorted no_later (insert_event e l).
Proof.
  induction 1 as [|x l Hl IH Hx]; cbn; [repeat constructor|]. destruct (Z.leb_spec (ev_now x) (ev_now e)).
  - constructor; [done|]. rewrite insert_event_perm. by constructor.
  - constructor; [by constructor|]. constructor; [unfold no_later; lia|].
    eapply Forall_impl; [exact Hx|]. intros y. unfold no_later. lia.
Qed.

(** Where nothing later is selected, the call comes last. *)
Lemma insert_event_filter P `{∀ x, Decision (P x)} e l :
  StronglySorted no_later l → P e → (∀ x, x ∈ l → P x → ev_now x ≤ ev_now e) →
  filter P (insert_event e l) = filter P l ++ [e].
Proof.
  intros Hl He. induction Hl as [|x l Hl IH Hx]; intros Hle; cbn [insert_event].
  { by rewrite filter_cons_True. }
  destruct (Z.leb_spec (ev_now x) (ev_now e)) as [Hxe|Hxe].
  - rewrite !filter_cons, IH by (intros y Hy; apply Hle; by right). by case_decide.
  - assert (filter P (x :: l) = []) as E0; [|by rewrite filter_cons_True, E0].
    destruct (filter P (x :: l)) as [|y r] eqn:E; [done|].
    assert (y ∈ filter P (x :: l)) as [Py Hy]%list_elem_of_filter by (rewrite E; left).
    specialize (Hle y Hy Py). exfalso. apply elem_of_cons in Hy as [->|Hy]; [lia|].
    rewrite Forall_forall in Hx. specialize (Hx y Hy). unfold no_later in Hx. lia.
Qed.

Lemma insert_event_other P `{∀ x, Decision (P x)} e l : ¬ P e → filter P (insert_event e l) = filter P l.
Proof.
  intros He. induction l as [|x l IH]; cbn [insert_event]; [by rewrite filter_cons_False|].
  destruct (_ <=? _); [by rewrite !filter_cons, IH|by rewrite (filter_cons_False P e)].
Qed.

Lemma timed_store m t i o now c r prog ans :
  timed m → threads m !! t = Some (mkThread prog (Loaded i o now c) ans) →
  ∃ l, StronglySorted no_later l ∧ same_order l (log m ++ [mkEvent t i now o r]).
Proof.
  intros Hm Hth. destruct (timed_loaded _ Hm _ _ _ _ _ _ Hth eq_refl) as [_ Hle].
  destruct (timed_order _ Hm) as (l & Hl & Hp & Hsh & Hbt). set (e := mkEvent t i now o r).
  exists (insert_event e l). split; [by apply insert_event_sorted|]. split_and!.
  - rewrite insert_event_perm, Hp. apply Permutation_cons_append.
  - intros i'. unfold on_shard in *. rewrite filter_app, <- Hsh. destruct (decide (i' = i)) as [->|Hi].
    + rewrite filter_cons_True by done. apply insert_event_filter; [done|done|].
      intros x Hx Px. apply Hle; [by rewrite <- Hp|by left].
    + rewrite filter_cons_False, app_nil_r by (cbn; congruence). apply insert_event_other. cbn. congruence.
  - intros t'. unfold by_thread in *. rewrite filter_app, <- Hbt. destruct (decide (t' = t)) as [->|Hi].
    + rewrite filter_cons_True by done. apply insert_event_filter; [done|done|].
      intros x Hx Px. apply Hle; [by rewrite <- Hp|by right].
    + rewrite filter_cons_False, app_nil_r by (cbn; congruence). apply insert_event_other. cbn. congruence.
Qed.

Lemma timed_step m m' : good m → timed m → step limit m m' → timed m'.
Proof.
  intros Hg Hm Hst. destruct Hst as [t m m' Ht|m now Hnow].
  - destruct Ht as [m i o prog ans s Hth Hs Hfree|m i o prog ans s Hth Hs
                   |m i o now c r c' prog ans s Hth Hs Hr|m i r prog ans s Hth Hs];
      (split; cbn [threads clock log];
       [|intros t' th' i' o' now' c'' Hth' Hp; rewrite (lookup_update _ _ _ _ _ Hth) in Hth';
         case_decide as Et; simplify_eq/=|]); try apply Hm; try (by eapply timed_loaded).
    + pose proof (timed_log _ Hm) as Hl. rewrite Forall_forall in Hl. split; [done|]. intros e He _. by apply Hl.
    + apply Forall_app. split; [apply Hm|]. constructor; [|done].
      destruct (timed_loaded _ Hm _ _ _ _ _ _ Hth eq_refl) as [Hc _].
      destruct (good_loaded _ Hg _ _ _ _ _ _ Hth eq_refl) as [[Hn%Z.leb_le _]%andb_true_iff _]. done.
    + destruct (timed_loaded _ Hm _ _ _ _ _ _ Hth' Hp) as [Hc Hle]. split; [done|].
      intros e [He|He%list_elem_of_singleton]%elem_of_app Hor; [by apply Hle|]. subst e. cbn in Hor |- *. exfalso.
      apply Et. destruct Hor as [<-|<-]; [|done].
      eapply (good_exclusive m t' t _ _ i); [done..|by rewrite Hp|done].
    + by eapply timed_store.
  - destruct Hm as [Hl Hld Ho]. split; cbn; [|intros t th i o now' c Hth Hp|done].
    + eapply Forall_impl; [exact Hl|]. intros e. cbn. lia.
    + destruct (Hld _ _ _ _ _ _ Hth Hp). split; [lia|done].
Qed.

Lemma timed_start : timed (start s0 progs).
Proof.
  split; cbn; [done| |].
  - intros t th i o now c Hth Hp. rewrite list_lookup_fmap in Hth.
    destruct (progs !! t); cbn in Hth; by simplify_eq.
  - exists []. split; [constructor|]. done.
Qed.

Lemma timed_reaches m : reaches limit (start s0 progs) m → timed m.
Proof.
  induction 1 as [|m1 m2 H1 IH H2]; [apply timed_start|]. eapply timed_step; [by apply good_reaches|done..].
Qed.

(** The threads are those that were started, and only they act. *)
Lemma threads_reaches m : reaches limit (start s0 progs) m →
  length (threads m) = length progs ∧ Forall (λ e, (ev_thread e < length progs)%nat) (log m).
Proof.
  induction 1 as [|m1 m2 _ [IHl IHe] Hst]; [by cbn; rewrite length_fmap|].
  destruct Hst as [t m m' Ht|m now _]; [|done].
  destruct Ht; cbn [threads log]; rewrite length_insert; split; try done.
  apply Forall_app. split; [done|]. constructor; [|done]. cbn. rewrite <- IHl. by eapply lookup_lt_Some.
Qed.

(** *** Progress *)

(** A thread inside a method can always take its next step. *)
Lemma inside_steps m t th :
  good m → threads m !! t = Some th → at_pc th ≠ Idle → ∃ m', tstep t m m'.
Proof.
  intros Hm Hth Hp. destruct th as [prog p ans]. cbn in Hp.
  assert (∀ i, holds p = Some i → ∃ s, shards m !! i = Some s) as Hshard.
  { intros i Hi. apply lookup_lt_is_Some. rewrite (good_len _ Hm).
    by eapply (good_holds _ Hm _ _ _ Hth). }
  destruct p as [|i o|i o now c|i r]; [done|..]; destruct (Hshard i eq_refl) as [s Hs].
  - eexists. by eapply step_load.
  - destruct (good_loaded _ Hm _ _ _ _ _ _ Hth eq_refl) as [Hok Hc].
    destruct (good_shard _ Hm i s Hs) as [Hinv _]. rewrite (Hc s Hs) in Hinv.
    destruct (run_refines c now o Hinv Hok) as (r & c' & Hr & _).
    eexists. by eapply step_store.
  - eexists. by eapply step_unlock.
Qed.

(** With every thread outside, every mutex is free. *)
Lemma all_idle_free m i s :
  good m → Forall (λ th, at_pc th = Idle) (threads m) → shards m !! i = Some s →
  SyncCache.mutex_ s = None.
Proof.
  intros Hm Hidle Hs. destruct (SyncCache.mutex_ s) as [t|] eqn:E; [|done].
  apply (good_mutex _ Hm i s Hs) in E as (th & Hth & Hh).
  rewrite Forall_lookup in Hidle. by rewrite (Hidle _ _ Hth) in Hh.
Qed.

Lemma progress m :
  good m → Forall finished (threads m) ∨ ∃ t m', tstep t m m'.
Proof.
  intros Hm. destruct (decide (Forall (λ th, at_pc th = Idle) (threads m))) as [Hidle|Hin].
  - destruct (decide (Forall (λ th, program th = []) (threads m))) as [Hdone|Hmore].
    + left. apply Forall_lookup. intros t th Hth. split.
      * by apply (proj1 (Forall_lookup _ _) Hdone t).
      * by apply (proj1 (Forall_lookup _ _) Hidle t).
    + right. apply not_Forall_Exists, Exists_exists in Hmore as (th & [t Hth]%list_elem_of_lookup & Hp);
        [|apply _].
      pose proof (proj1 (Forall_lookup _ _) Hidle t th Hth) as Hpc.
      destruct th as [[|[i o] prog] p ans]; cbn in *; [done|]. subst p.
      destruct (good_call m t _ i o Hm Hth) as [Hi _]; [cbn; by left|].
      rewrite <- (good_len _ Hm) in Hi. apply lookup_lt_is_Some in Hi as [s Hs].
      exists t. eexists. eapply step_lock; [done..|]. by eapply all_idle_free.
  - right. apply not_Forall_Exists, Exists_exists in Hin as (th & [t Hth]%list_elem_of_lookup & Hp);
      [|apply _].
    exists t. by eapply inside_steps.
Qed.

(** The steps the threads still have to make: four per call. *)
Definition pc_work (p : pc) : nat :=
  match p with Idle => 0 | Locked _ _ => 3 | Loaded _ _ _ _ => 2 | Stored _ _ => 1 end.
Definition work (m : machine) : nat :=
  sum_list_with (λ th, 4 * length (program th) + pc_work (at_pc th))%nat (threads m).

Lemma sum_list_update {A} (f : A → nat) (l : list A) i x y :
  l !! i = Some x → (sum_list_with f (<[i := y]> l) + f x = sum_list_with f l + f y)%nat.
Proof.
  revert i. induction l as [|z l IH]; intros [|i] Hi; cbn in Hi; simplify_eq; [cbn; lia|].
  specialize (IH i Hi). change (<[S i := y]> (z :: l)) with (z :: <[i := y]> l).
  cbn [sum_list_with]. lia.
Qed.

Lemma tstep_work t m m' : tstep t m m' → (S (work m') = work m)%nat.
Proof.
  intros H; destruct H; unfold work; cbn [threads];
    match goal with Hth : threads _ !! _ = Some _ |- context [@insert nat thread _ _ _ ?y _] =>
      pose proof (sum_list_update (λ th, 4 * length (program th) + pc_work (at_pc th))%nat _ _ _ y Hth)
    end; cbn [program at_pc pc_work length] in *; lia.
Qed.
End Machine.

(** From every reachable state the threads can run to the end. *)
Lemma can_finish limit s0 progs m :
  Forall SyncCache.sync_ok s0 → 0 ≤ limit → Forall (λ p, prog_ok limit (length s0) p = true) progs →
  reaches limit (start s0 progs) m →
  ∃ m', reaches limit (start s0 progs) m' ∧ Forall finished (threads m').
Proof.
  intros Hs0 Hlimit Hprogs Hm. remember (work m) as n eqn:En. revert m Hm En.
  induction n as [|n IH]; intros m Hm En;
    destruct (progress limit s0 progs Hprogs m) as [?|(t & m' & Ht)];
    try (by apply good_reaches); [by exists m| |by exists m|].
  - apply tstep_work in Ht. lia.
  - apply (IH m').
    + eapply reaches_step; [done|by eapply step_thread].
    + apply tstep_work in Ht. lia.
Qed.

(** ** The properties *)

(** C10.  Linearizability.  However the threads and the clock interleave, every
    shard is in the state, and every call that took effect got the answer,
    that running the logged calls of that shard one after the other gives; and
    the log contains each thread's calls in program order with the answers it
    got.  No update is lost and no call observes a half-done one.  All calls
    together have one order that agrees with their clock readings, and with the
    log on each shard and for each thread. *)
Theorem calls_are_linearizable limit s0 progs m
    (Hs0 : Forall SyncCache.sync_ok s0) (Hlimit : 0 ≤ limit)
    (Hprogs : Forall (λ p, prog_ok limit (length s0) p = true) progs)
    (Hm : reaches limit (start s0 progs) m) :
  (∀ i s, shards m !! i = Some s → ∃ s', s0 !! i = Some s' ∧
     run_all (calls (on_shard i (log m))) (SyncCache.cache_ s') =
       Ret (ev_answer <$> on_shard i (log m), SyncCache.cache_ s)) ∧
  (∀ t th, threads m !! t = Some th → ∃ prog, progs !! t = Some prog ∧
     prog = ((λ e, (ev_shard e, ev_op e)) <$> by_thread t (log m)) ++
              in_flight (at_pc th) ++ program th ∧
     answers th ++ pending (at_pc th) = ev_answer <$> by_thread t (log m)) ∧
  (∃ l, StronglySorted no_later l ∧ same_order l (log m)).
Proof.
  pose proof (good_reaches limit s0 progs Hs0 Hlimit Hprogs m Hm) as Hg. split_and!.
  - intros i s Hs. by apply (good_shard _ _ _ _ Hg).
  - intros t th Hth. by apply (good_thread _ _ _ _ Hg).
  - by apply (timed_order _ (timed_reaches limit s0 progs Hs0 Hlimit Hprogs m Hm)).
Qed.


(** ** Witness: two threads race on one key of one shard *)
Definition race_shards : list SyncCache.t := [SyncCache.SyncCache_bounded 2].
Definition race_progs : list (list (nat * op)) :=
  [[(0%nat, OpSet $"k" $"1")]; [(0%nat, OpGet $"k")]].

Lemma race_ok : Forall SyncCache.sync_ok race_shards.
Proof. repeat constructor; apply CacheRefine.inv_bounded; lia. Qed.

Lemma race_progs_ok : Forall (λ p, prog_ok 100 (length race_shards) p = true) race_progs.
Proof. repeat constructor. Qed.

(** Thread 1 has taken the mutex first. *)
Definition race_state : machine :=
  mkMachine [SyncCache.mk (Some 1%nat) (Cache.Cache_bounded 2)]
    [mkThread [(0%nat, OpSet $"k" $"1")] Idle []; mkThread [] (Locked 0 (OpGet $"k")) []] 0 [].

Lemma race_reaches : reaches 100 (start race_shards race_progs) race_state.
Proof.
  eapply reaches_step; [apply reaches_refl|]. eapply (step_thread _ 1).
  exact (step_lock 1 (start race_shards race_progs) 0 (OpGet $"k") [] []
    (SyncCache.SyncCache_bounded 2) eq_refl eq_refl eq_refl).
Qed.

Lemma calls_are_linearizable_witness :
  ∃ prog, race_progs !! 1%nat = Some prog ∧ prog = [] ++ in_flight (Locked 0 (OpGet $"k")) ++ [].
Proof.
  destruct (calls_are_linearizable 100 race_shards race_progs race_state race_ok
    ltac:(lia) race_progs_ok race_reaches) as (_ & H & _).
  destruct (H 1%nat _ eq_refl) as (prog & Hp & Heq & _). by exists prog.
Defined.

End Concurrency.
