(* ===== verification/ShardedCache.v ===== *)
(** * The sharded cache (include/cachex/sharded_cache.hpp, src/sharded_cache.cpp)

    A vector of independent [SyncCache] shards; a key belongs to the shard its
    mixed hash selects.  [std::hash<std::string>] is implementation-defined: it
    is the parameter [hash], of which nothing is assumed (the cast to
    [std::uint64_t] is part of the model). *)
From S2P Require Import Prelude RecencyList Lru Cache CacheRefine CacheTheorems KvStore.
From S2P Require Import CacheKv SyncCache.

Module ShardedCache.
#[local] Existing Instances SyncCache.SyncCache_ops SyncCache.SyncCache_laws.

(** [h ^= h >> s] on an unsigned 64-bit value. *)
Definition xorshift (s h : Z) : Z := Z.lxor h (Z.shiftr h s).

(** splitmix64's finalizer, on an unsigned 64-bit value. *)
Definition finalize (h : Z) : Z :=
  let h := xorshift 30 h in
  let h := u64 (h * 0xbf58476d1ce4e5b9) in
  let h := xorshift 27 h in
  let h := u64 (h * 0x94d049bb133111eb) in
  xorshift 31 h.

Definition sane_shard_count (requested : Z) : Z := if requested =? 0 then 1 else requested.

(** The number of shards of a bounded cache, and the capacity of shard [i]. *)
Definition bounded_count (shard_count total_capacity : Z) : Z :=
  let count := sane_shard_count shard_count in
  if total_capacity <? count then Z.max 1 total_capacity else count.

Definition shard_capacity (total_capacity count i : Z) : Z :=
  let base := total_capacity / count in
  let remainder := total_capacity `mod` count in
  base + (if i <? remainder then 1 else 0).

(** [shards_]; the type carries the hash the shards are selected with. *)
Record t (hash : bytes → Z) := mk { shards_ : list SyncCache.t }.
Arguments mk {hash} _.
Arguments shards_ {hash} _.

Section Sharded.
Context (hash : bytes → Z).
Local Abbreviation sharded := (t hash).
Implicit Types (c : sharded).

(** [shard_hash]. *)
Definition shard_hash (k : bytes) : Z := finalize (u64 (hash k)).

(** [ShardedCache(shard_count)]. *)
Definition ShardedCache_unbounded (shard_count : Z) : sharded :=
  mk ((λ _, SyncCache.SyncCache_unbounded) <$> seq 0 (Z.to_nat (sane_shard_count shard_count))).

(** [ShardedCache(shard_count, total_capacity)]. *)
Definition ShardedCache_bounded (shard_count total_capacity : Z) : sharded :=
  let count := bounded_count shard_count total_capacity in
  mk ((λ i, SyncCache.SyncCache_bounded (shard_capacity total_capacity count (Z.of_nat i)))
        <$> seq 0 (Z.to_nat count)).

Definition shard_count (c : sharded) : Z := zlen (shards_ c).

(** [shard_hash(key) % shards_.size()]; a remainder by zero is undefined. *)
Definition shard_index_for (k : bytes) (c : sharded) : outcome nat :=
  if shard_count c =? 0 then UB else Ret (Z.to_nat (shard_hash k `mod` shard_count c)).

(** [*shards_[index]], undefined out of range. *)
Definition shard_at (i : nat) (c : sharded) : outcome SyncCache.t := must (shards_ c !! i).

(** The vector with one shard changed by a call on it. *)
Definition put_shard (i : nat) (s : SyncCache.t) (c : sharded) : sharded :=
  mk (<[i := s]> (shards_ c)).

(** A method of [shard_for(key)]. *)
Definition on_shard_for {A} (k : bytes) (body : SyncCache.t → outcome (A * SyncCache.t))
    (c : sharded) : outcome (A * sharded) :=
  i ← shard_index_for k c;
  shard ← shard_at i c;
  '(a, shard) ← body shard;
  Ret (a, put_shard i shard c).

Definition set (k v : bytes) (c : sharded) : outcome sharded :=
  snd <$> on_shard_for k (λ s, s ← SyncCache.set k v s; Ret (tt, s)) c.
Definition set_ttl (now : time_point) (k v : bytes) (ttl : Z) (c : sharded) : outcome sharded :=
  snd <$> on_shard_for k (λ s, s ← SyncCache.set_ttl now k v ttl s; Ret (tt, s)) c.
Definition get (now : time_point) (k : bytes) : sharded → outcome (option bytes * sharded) :=
  on_shard_for k (SyncCache.get now k).
Definition get_into (now : time_point) (k out : bytes) : sharded → outcome (bool * bytes * sharded) :=
  on_shard_for k (SyncCache.get_into now k out).
Definition erase (now : time_point) (k : bytes) : sharded → outcome (bool * sharded) :=
  on_shard_for k (SyncCache.erase now k).
Definition contains (now : time_point) (k : bytes) (c : sharded) : outcome bool :=
  i ← shard_index_for k c;
  shard ← shard_at i c;
  SyncCache.contains now k shard.
Definition ttl (now : time_point) (k : bytes) : sharded → outcome (TtlInfo * sharded) :=
  on_shard_for k (SyncCache.ttl now k).

(** The loops over the shards, one lock at a time. *)
Fixpoint clear_loop (l : list SyncCache.t) : outcome (list SyncCache.t) :=
  match l with
  | [] => Ret []
  | s :: l => s ← SyncCache.clear s; l ← clear_loop l; Ret (s :: l)
  end.
Definition clear (c : sharded) : outcome sharded := mk <$> clear_loop (shards_ c).

(** [total += f(shard)], in [std::size_t]. *)
Fixpoint sum_loop (f : SyncCache.t → outcome Z) (total : Z) (l : list SyncCache.t) : outcome Z :=
  match l with
  | [] => Ret total
  | s :: l => n ← f s; sum_loop f (u64 (total + n)) l
  end.

Definition size (c : sharded) : outcome Z := sum_loop SyncCache.size 0 (shards_ c).
Definition empty (c : sharded) : outcome bool := n ← size c; Ret (n =? 0).
Definition evictions (c : sharded) : outcome Z := sum_loop SyncCache.evictions 0 (shards_ c).
Definition expired_removals (c : sharded) : outcome Z :=
  sum_loop SyncCache.expired_removals 0 (shards_ c).

(** [capacity]: [nullopt] if the first shard has none. *)
Definition capacity (c : sharded) : outcome (option Z) :=
  front ← must (head (shards_ c));
  cap ← SyncCache.capacity front;
  match cap with
  | None => Ret None
  | Some _ =>
      total ← sum_loop (λ s, cap ← SyncCache.capacity s; Ret (default 0 cap)) 0 (shards_ c);
      Ret (Some total)
  end.

(** Each shard is exported at its own reading of the clock. *)
Fixpoint export_loop (clock : nat → time_point) (l : list SyncCache.t) : outcome (list EntrySnapshot) :=
  match l with
  | [] => Ret []
  | s :: l =>
      part ← SyncCache.export_entries (clock 0%nat) s;
      rest ← export_loop (clock ∘ S) l;
      Ret (part ++ rest)
  end.
Definition export_entries (clock : nat → time_point) (c : sharded) : outcome (list EntrySnapshot) :=
  export_loop clock (shards_ c).

#[export] Instance ShardedCache_ops : KvOps sharded := {
  kv_set := set;
  kv_set_ttl := set_ttl;
  kv_get := get;
  kv_get_into := get_into;
  kv_erase := erase;
  kv_contains := contains;
  kv_ttl := ttl;
  kv_export := export_entries
}.

#[export] Instance ShardedCache_admin : KvAdmin sharded := {
  kv_clear := clear;
  kv_size := size;
  kv_empty := empty;
  kv_capacity := capacity;
  kv_evictions := evictions;
  kv_expired_removals := expired_removals
}.

(** The index of a key's shard. *)
Definition home (k : bytes) (c : sharded) : nat := Z.to_nat (shard_hash k `mod` shard_count c).

(** Between two calls: at least one shard, each well formed and holding only
    keys that belong to it. *)
Record sharded_ok (c : sharded) : Prop := {
  ok_some : shards_ c ≠ [];
  ok_shards : Forall SyncCache.sync_ok (shards_ c);
  ok_routed : ∀ i s t k e, shards_ c !! i = Some s →
    CacheKv.view t k (SyncCache.cache_ s) = Some e → home k c = i
}.

(** ** Lemmas *)
Lemma count_pos c : shards_ c ≠ [] → 0 < shard_count c.
Proof. unfold shard_count, zlen. destruct (shards_ c); [done|]. cbn. lia. Qed.

Lemma home_lt k c : shards_ c ≠ [] → (home k c < length (shards_ c))%nat.
Proof.
  intros H%count_pos. unfold home. pose proof (Z.mod_pos_bound (shard_hash k) (shard_count c) H).
  unfold shard_count, zlen in *. lia.
Qed.

Lemma shard_index_for_home k c : shards_ c ≠ [] → shard_index_for k c = Ret (home k c).
Proof.
  intros H%count_pos. unfold shard_index_for. by rewrite (proj2 (Z.eqb_neq (shard_count c) 0)) by lia.
Qed.

(** The shard of a key, and what a method of it does to the whole. *)
Lemma home_shard k c :
  sharded_ok c → ∃ s, shards_ c !! home k c = Some s ∧ SyncCache.sync_ok s.
Proof.
  intros [Hs Hok _]. destruct (lookup_lt_is_Some_2 (shards_ c) (home k c)) as [s E]; [by apply home_lt|].
  exists s. split; [done|]. rewrite Forall_lookup in Hok. by eapply Hok.
Qed.

Lemma on_shard_for_Ret {A} k (body : SyncCache.t → outcome (A * SyncCache.t)) c s a s' :
  sharded_ok c → shards_ c !! home k c = Some s → body s = Ret (a, s') →
  on_shard_for k body c = Ret (a, put_shard (home k c) s' c).
Proof.
  intros [Hs _ _] E Hb. unfold on_shard_for. rewrite shard_index_for_home by done. cbn.
  unfold shard_at. rewrite E. cbn. by rewrite Hb.
Qed.

Lemma home_update k' i s c : home k' (put_shard i s c) = home k' c.
Proof. unfold home, shard_count, zlen. cbn. by rewrite length_insert. Qed.

(** A call on the shard of [k] that shows nothing new except under [k]. *)
Lemma update_ok k s s' c :
  sharded_ok c → shards_ c !! home k c = Some s → SyncCache.sync_ok s' →
  (∀ t k', k' ≠ k → CacheKv.view t k' (SyncCache.cache_ s') = CacheKv.view t k' (SyncCache.cache_ s) ∨
    CacheKv.view t k' (SyncCache.cache_ s') = None) →
  sharded_ok (put_shard (home k c) s' c).
Proof.
  intros [Hs Hok Hr] Hk Hok' Hframe. split; cbn.
  - intros E%(f_equal length). rewrite length_insert in E. destruct (shards_ c); done.
  - by apply Forall_insert.
  - intros i x t k' e. rewrite home_update. rewrite list_lookup_insert_Some.
    intros [(<- & -> & _)|[_ Hx]] Hv; [|by eapply Hr].
    destruct (decide (k' = k)) as [->|Hne]; [done|].
    destruct (Hframe t k' Hne) as [E|E]; rewrite E in Hv; [by eapply Hr|done].
Qed.

(** What is visible under a key: what is visible in its shard. *)
Definition view (now : time_point) (k : bytes) (c : sharded) : option Entry :=
  match shards_ c !! home k c with
  | Some s => CacheKv.view now k (SyncCache.cache_ s)
  | None => None
  end.

Definition has_room (k : bytes) (c : sharded) : Prop :=
  ∃ s, shards_ c !! home k c = Some s ∧ CacheKv.room (SyncCache.cache_ s).

Section Update.
Context (c : sharded) (k : bytes) (s s' : SyncCache.t) (Hs : shards_ c !! home k c = Some s).

Lemma lookup_home_update k' :
  shards_ (put_shard (home k c) s' c) !! home k' (put_shard (home k c) s' c) =
  if decide (home k' c = home k c) then Some s' else shards_ c !! home k' c.
Proof.
  rewrite home_update. cbn. case_decide as E.
  - rewrite E. apply list_lookup_insert_eq. by eapply lookup_lt_Some.
  - by apply list_lookup_insert_ne.
Qed.

Lemma view_update t k' :
  view t k' (put_shard (home k c) s' c) =
  if decide (home k' c = home k c) then CacheKv.view t k' (SyncCache.cache_ s') else view t k' c.
Proof. unfold view. rewrite lookup_home_update. by case_decide. Qed.

(** A method that preserves what its shard shows preserves what the whole shows. *)
Lemma view_update_same t k' :
  CacheKv.view t k' (SyncCache.cache_ s') = CacheKv.view t k' (SyncCache.cache_ s) →
  view t k' (put_shard (home k c) s' c) = view t k' c.
Proof. intros E. rewrite view_update. case_decide as D; [|done]. unfold view. by rewrite D, Hs. Qed.

Lemma room_update k' :
  (CacheKv.room (SyncCache.cache_ s') ↔ CacheKv.room (SyncCache.cache_ s)) →
  has_room k' (put_shard (home k c) s' c) ↔ has_room k' c.
Proof.
  intros E. unfold has_room. rewrite lookup_home_update. case_decide as D; [|done]. rewrite D, Hs.
  split; intros (x & ? & ?); simplify_eq; eexists; (split; [done|]); by apply E.
Qed.

Lemma view_home t : view t k c = CacheKv.view t k (SyncCache.cache_ s).
Proof. unfold view. by rewrite Hs. Qed.

(** No other shard shows the key. *)
Lemma view_shard t k' i x e : sharded_ok c → shards_ c !! i = Some x →
  CacheKv.view t k' (SyncCache.cache_ x) = Some e → view t k' c = Some e.
Proof. intros Hc Hx Hv. unfold view. by rewrite (ok_routed _ Hc _ _ _ _ _ Hx Hv), Hx. Qed.

Lemma room_home : has_room k c → CacheKv.room (SyncCache.cache_ s).
Proof. intros (x & ? & ?). by simplify_eq. Qed.
End Update.
End Sharded.

(** What the loop over the shards exports. *)
Lemma export_loop_spec clock l :
  Forall SyncCache.sync_ok l → (∀ i, 0 ≤ clock i) →
  ∃ r, export_loop clock l = Ret r ∧
    (∀ x, x ∈ r ↔ ∃ i s e, l !! i = Some s ∧
       CacheKv.view (clock i) (snap_key x) (SyncCache.cache_ s) = Some e ∧ x = Lru.snapshot_of (clock i) e) ∧
    ((∀ i j si sj k ei ej, l !! i = Some si → l !! j = Some sj →
        CacheKv.view (clock i) k (SyncCache.cache_ si) = Some ei →
        CacheKv.view (clock j) k (SyncCache.cache_ sj) = Some ej → i = j) → NoDup (snap_key <$> r)).
Proof.
  intros Hl. revert clock. induction Hl as [|s l Hs Hl IH]; intros clock Hn; cbn [export_loop].
  { exists []. split; [done|]. split; [|intros; apply NoDup_nil_2].
    intros x. split; [by intros ?%not_elem_of_nil|]. intros (i & s & e & Hi & _). done. }
  destruct (IH (clock ∘ S)) as (r & -> & Hin & Hdup); [intros i; apply Hn|].
  destruct (kv_export_law (λ _, clock 0%nat) s) as (p & rd & Hp & Hpd & Hpin); [done|done|].
  unfold lists_visible in Hpin. cbn in Hp, Hpin. rewrite Hp. exists (p ++ r). split; [done|]. split.
  - intros x. rewrite elem_of_app, Hin, Hpin. split.
    + intros [(e & He)|(i & si & e & He)]; [by exists 0%nat, s, e|by exists (S i), si, e].
    + intros ([|i] & si & e & Hi & He); cbn in Hi; [left; exists e; by simplify_eq|right; by exists i, si, e].
  - intros Hsep. rewrite fmap_app. apply NoDup_app. split; [done|]. split.
    + intros k (x & -> & Hx)%list_elem_of_fmap (y & Ey & Hy)%list_elem_of_fmap.
      apply Hpin in Hx as (ex & Hvx & _). apply Hin in Hy as (i & si & ey & Hi & Hvy & _).
      rewrite <- Ey in Hvy. specialize (Hsep 0%nat (S i) s si _ _ _ eq_refl Hi Hvx Hvy). done.
    + apply Hdup. intros i j si sj k ei ej Hi Hj Hvi Hvj.
      specialize (Hsep (S i) (S j) si sj _ _ _ Hi Hj Hvi Hvj). lia.
Qed.

(** ** The laws of the interface *)
#[export] Program Instance ShardedCache_laws hash : KvLaws (t hash) := {
  kv_ok := sharded_ok hash;
  kv_view := view hash;
  kv_room := has_room hash;
  kv_unbounded := fun c => Forall kv_unbounded (shards_ c)
}.
Next Obligation.
  intros hash k c Hc Hu. destruct (home_shard hash k c Hc) as (s & Hs & Hok). exists s. split; [done|].
  rewrite Forall_lookup in Hu. exact (kv_unbounded_room k s Hok (Hu _ _ Hs)).
Qed.
Next Obligation.
  intros hash now k c e. unfold view. destruct (shards_ c !! _); [|done]. apply CacheKv.visible_key.
Qed.
Next Obligation.
  intros hash now k c e d Hc Hv. destruct (home_shard hash k c Hc) as (s & Hs & Hok).
  rewrite (view_home _ _ _ s) in Hv by done. exact (kv_view_deadline now k s e d Hok Hv).
Qed.
Next Obligation.
  intros hash k v c Hc. destruct (home_shard hash k c Hc) as (s & Hs & Hok).
  destruct (kv_set_law k v s) as (s' & Hr & Hok' & Hset & Hother & Hroom & Hunb & Hval); [done|].
  exists (put_shard hash (home hash k c) s' c). split_and!.
  - cbn. unfold set. cbn in Hr. erewrite on_shard_for_Ret; [done|done|exact Hs|]. by rewrite Hr.
  - by apply (update_ok _ _ s).
  - intros Hroom0 now. rewrite (view_update _ _ _ s) by done. rewrite decide_True by done.
    apply Hset. by eapply room_home.
  - intros now k' Hk. destruct (Hother now k' Hk) as [E|E]; [left; by apply (view_update_same _ _ _ s)|].
    rewrite (view_update _ _ _ s) by done.
    destruct (decide (home hash k' c = home hash k c)); [right; exact E|by left].
  - intros k'. apply (room_update _ _ _ s); [done|]. apply (Hroom k').
  - intros Hu. rewrite Forall_lookup in Hu. destruct (Hunb (Hu _ _ Hs)) as [Hu' Hsame]. split.
    + apply Forall_insert; [by apply Forall_lookup|done].
    + intros t' k' Hk. apply (view_update_same _ _ _ s); [done|]. exact (Hsame t' k' Hk).
  - intros t' x. rewrite (view_update _ _ _ s) by done. rewrite decide_True by done. exact (Hval t' x).
Qed.
Next Obligation.
  intros hash now k v ms c Hc Hn Hd. destruct (home_shard hash k c Hc) as (s & Hs & Hok).
  destruct (kv_set_ttl_law now k v ms s) as (s' & Hr & Hok' & Hset & Hother & Hroom & Hunb & Hval); [done..|].
  exists (put_shard hash (home hash k c) s' c). split_and!.
  - cbn. unfold set_ttl. cbn in Hr. erewrite on_shard_for_Ret; [done|done|exact Hs|]. by rewrite Hr.
  - by apply (update_ok _ _ s).
  - intros Hroom0 t'. rewrite (view_update _ _ _ s) by done. rewrite decide_True by done.
    apply Hset. by eapply room_home.
  - intros t' k' Hk. destruct (Hother t' k' Hk) as [E|E]; [left; by apply (view_update_same _ _ _ s)|].
    rewrite (view_update _ _ _ s) by done.
    destruct (decide (home hash k' c = home hash k c)); [right; exact E|by left].
  - intros k'. apply (room_update _ _ _ s); [done|]. apply (Hroom k').
  - intros Hu. rewrite Forall_lookup in Hu. destruct (Hunb (Hu _ _ Hs)) as [Hu' Hsame]. split.
    + apply Forall_insert; [by apply Forall_lookup|done].
    + intros t' k' Hk. apply (view_update_same _ _ _ s); [done|]. exact (Hsame t' k' Hk).
  - intros t' x. rewrite (view_update _ _ _ s) by done. rewrite decide_True by done. exact (Hval t' x).
Qed.
Next Obligation.
  intros hash now k c Hc. destruct (home_shard hash k c Hc) as (s & Hs & Hok).
  destruct (kv_get_law now k s) as (s' & Hr & Hok' & Hsame & Hsub & Hroom); [done|].
  exists (put_shard hash (home hash k c) s' c). split_and!.
  - rewrite (view_home _ _ _ s) by done. by eapply on_shard_for_Ret.
  - apply (update_ok _ _ s); [done..|]. intros t' k' _. apply Hsub.
  - intros t' k' Ht. apply (view_update_same _ _ _ s); [done|]. by apply Hsame.
  - intros t' k'. rewrite (view_update _ _ _ s) by done. destruct (decide _) as [E|]; [|by left].
    unfold view. rewrite E, Hs. apply Hsub.
  - intros k'. apply (room_update _ _ _ s); [done|]. apply (Hroom k').
Qed.
Next Obligation.
  intros hash now k out c Hc. destruct (home_shard hash k c Hc) as (s & Hs & Hok).
  destruct (kv_get_law now k s) as (s' & Hr & _); [done|].
  pose proof (kv_get_into_law now k out s Hok) as Hi. rewrite Hr in Hi. cbn.
  unfold get_into, get. erewrite !on_shard_for_Ret by done. done.
Qed.
Next Obligation.
  intros hash now k c Hc. destruct (home_shard hash k c Hc) as (s & Hs & Hok).
  destruct (kv_erase_law now k s) as (s' & Hr & Hok' & Hgone & Hsame & Hroom); [done|].
  exists (put_shard hash (home hash k c) s' c). split_and!.
  - rewrite (view_home _ _ _ s) by done. by eapply on_shard_for_Ret.
  - apply (update_ok _ _ s); [done..|]. intros t' k' Hk. left. by apply Hsame.
  - intros t'. rewrite (view_update _ _ _ s), decide_True by done. apply Hgone.
  - intros t' k' Hk. apply (view_update_same _ _ _ s); [done|]. by apply Hsame.
  - intros k'. apply (room_update _ _ _ s); [done|]. apply (Hroom k').
Qed.
Next Obligation.
  intros hash now k c Hc. destruct (home_shard hash k c Hc) as (s & Hs & Hok).
  cbn. unfold contains. rewrite shard_index_for_home by apply Hc. cbn. unfold shard_at. rewrite Hs.
  rewrite (view_home _ _ _ s) by done. cbn. exact (kv_contains_law now k s Hok).
Qed.
Next Obligation.
  intros hash now k c Hc Hn. destruct (home_shard hash k c Hc) as (s & Hs & Hok).
  destruct (kv_ttl_law now k s) as (s' & Hr & Hok' & Hsame & Hsub & Hroom); [done..|].
  exists (put_shard hash (home hash k c) s' c). split_and!.
  - rewrite (view_home _ _ _ s) by done. by eapply on_shard_for_Ret.
  - apply (update_ok _ _ s); [done..|]. intros t' k' _. apply Hsub.
  - intros t' k' Ht. apply (view_update_same _ _ _ s); [done|]. by apply Hsame.
  - intros t' k'. rewrite (view_update _ _ _ s) by done. destruct (decide _) as [E|]; [|by left].
    unfold view. rewrite E, Hs. apply Hsub.
  - intros k'. apply (room_update _ _ _ s); [done|]. apply (Hroom k').
Qed.
Next Obligation.
  intros hash clock c Hc Hn. cbn [kv_export ShardedCache_ops].
  destruct (export_loop_spec clock (shards_ c)) as (l & Hl & Hin & Hdup); [apply Hc|done|].
  exists l, (λ k, home hash k c). split; [done|]. split.
  - apply Hdup. intros i j si sj k ei ej Hi Hj Hvi Hvj.
    rewrite <- (ok_routed _ _ Hc _ _ _ _ _ Hi Hvi). by apply (ok_routed _ _ Hc _ _ _ _ _ Hj Hvj).
  - intros x. rewrite Hin. split.
    + intros (i & s & e & Hi & Hv & ->). cbn in Hv |- *. rewrite (ok_routed _ _ Hc _ _ _ _ _ Hi Hv).
      exists e. split; [by eapply view_shard|done].
    + intros (e & Hv & Hx). cbn in Hv, Hx. unfold view in Hv.
      destruct (shards_ c !! home hash (snap_key x) c) as [s|] eqn:Hs; [|done].
      by exists (home hash (snap_key x) c), s, e.
Qed.
#[export] Instance ShardedCache_overflows hash : KvOverflows (t hash).
Proof.
  intros now k v ms c Hc Hn Ht Hd. destruct (home_shard hash k c Hc) as (s & Hs & [Hfree Hinv]).
  cbn. unfold set_ttl, on_shard_for. rewrite shard_index_for_home by apply Hc.
  cbn [mbind outcome_bind]. unfold shard_at. rewrite Hs. cbn [must mbind outcome_bind].
  unfold SyncCache.set_ttl, SyncCache.lock_guard_void, SyncCache.lock_guard.
  rewrite Hfree, (CacheTheorems.set_ttl_UB _ now k v ms Hn Hd Ht). done.
Qed.
End ShardedCache.
