(* ===== verification/ShardHash.v ===== *)
(** * The shard hash loses nothing

    [shard_hash] (sharded_cache.cpp) runs splitmix64's finalizer over the
    library's hash.  Each of its five steps is undone by an explicit inverse,
    so the finalizer is a bijection of the 64-bit values: two keys collide
    after mixing exactly when the library's hash already collided. *)
From S2P Require Import Prelude ShardedCache.

Module ShardHash.
Import ShardedCache.

(** The inverse of [h ^= h >> s] for [3 * s >= 64]. *)
Definition unxorshift (s h : Z) : Z :=
  Z.lxor (Z.lxor h (Z.shiftr h s)) (Z.shiftr h (2 * s)).

Definition unfinalize (h : Z) : Z :=
  let h := unxorshift 31 h in
  let h := u64 (h * 0x319642b2d24d8ec3) in
  let h := unxorshift 27 h in
  let h := u64 (h * 0x96de1b173f119089) in
  unxorshift 30 h.

(** ** Lemmas *)
Lemma bit_high h n : 0 ≤ h < 2 ^ 64 → 64 ≤ n → Z.testbit h n = false.
Proof.
  intros Hh Hn. rewrite <- (Z.mod_small h (2 ^ 64)) by done. apply Z.mod_pow2_bits_high. lia.
Qed.

Lemma lxor_range a b : 0 ≤ a < 2 ^ 64 → 0 ≤ b < 2 ^ 64 → 0 ≤ Z.lxor a b < 2 ^ 64.
Proof.
  intros Ha Hb. assert (0 ≤ Z.lxor a b) as H0 by (apply Z.lxor_nonneg; lia). split; [done|].
  rewrite <- (Z.mod_small (Z.lxor a b) (2 ^ 64)); [apply Z.mod_pos_bound; lia|].
  split; [done|]. destruct (Z.eq_dec (Z.lxor a b) 0) as [->|Hne]; [lia|].
  apply Z.log2_lt_pow2; [lia|]. pose proof (Z.log2_lxor a b ltac:(lia) ltac:(lia)).
  assert (∀ x, 0 ≤ x < 2 ^ 64 → Z.log2 x < 64) as Hl.
  { intros x Hx. destruct (Z.eq_dec x 0) as [->|]; [cbn; lia|]. apply Z.log2_lt_pow2; lia. }
  pose proof (Hl a Ha). pose proof (Hl b Hb). lia.
Qed.

Lemma shiftr_range s h : 0 ≤ s → 0 ≤ h < 2 ^ 64 → 0 ≤ Z.shiftr h s < 2 ^ 64.
Proof.
  intros Hs Hh. rewrite Z.shiftr_div_pow2 by done.
  pose proof (Z.pow_pos_nonneg 2 s ltac:(lia) Hs). split; [apply Z.div_pos; lia|].
  apply Z.div_lt_upper_bound; nia.
Qed.

Lemma xorshift_range s h : 0 ≤ s → 0 ≤ h < 2 ^ 64 → 0 ≤ xorshift s h < 2 ^ 64.
Proof. intros Hs Hh. apply lxor_range; [done|by apply shiftr_range]. Qed.

Lemma unxorshift_range s h : 0 ≤ s → 0 ≤ h < 2 ^ 64 → 0 ≤ unxorshift s h < 2 ^ 64.
Proof. intros Hs Hh. repeat apply lxor_range; try done; apply shiftr_range; lia. Qed.

(** A step and its inverse, in either order: the tail falls off the end. *)
Section Xorshift.
Context (s h : Z) (Hs : 0 ≤ s) (Hs3 : 64 ≤ 3 * s) (Hh : 0 ≤ h < 2 ^ 64).

Lemma unxorshift_xorshift : unxorshift s (xorshift s h) = h.
Proof.
  apply Z.bits_inj'. intros n Hn. unfold unxorshift, xorshift.
  rewrite !Z.lxor_spec, !Z.shiftr_spec, !Z.lxor_spec, !Z.shiftr_spec by lia.
  replace (n + 2 * s + s) with (n + 3 * s) by lia. replace (n + s + s) with (n + 2 * s) by lia.
  rewrite (bit_high h (n + 3 * s)) by lia.
  by destruct (Z.testbit h n), (Z.testbit h (n + s)), (Z.testbit h (n + 2 * s)).
Qed.

Lemma xorshift_unxorshift : xorshift s (unxorshift s h) = h.
Proof.
  apply Z.bits_inj'. intros n Hn. unfold unxorshift, xorshift.
  rewrite !Z.lxor_spec, !Z.shiftr_spec, !Z.lxor_spec, !Z.shiftr_spec by lia.
  replace (n + s + 2 * s) with (n + 3 * s) by lia. replace (n + s + s) with (n + 2 * s) by lia.
  rewrite (bit_high h (n + 3 * s)) by lia.
  by destruct (Z.testbit h n), (Z.testbit h (n + s)), (Z.testbit h (n + 2 * s)).
Qed.
End Xorshift.

Lemma mul_inverse a b h : u64 (a * b) = 1 → 0 ≤ h < 2 ^ 64 → u64 (u64 (h * a) * b) = h.
Proof.
  intros Hab Hh. unfold u64 in *. rewrite Z.mul_mod_idemp_l by lia.
  rewrite <- Z.mul_assoc, <- Z.mul_mod_idemp_r, Hab, Z.mul_1_r by lia. by apply Z.mod_small.
Qed.

#[local] Create HintDb shard.
#[local] Hint Resolve xorshift_range unxorshift_range u64_range : shard.

Lemma unfinalize_finalize h : 0 ≤ h < 2 ^ 64 → unfinalize (finalize h) = h.
Proof.
  intros Hh. unfold unfinalize, finalize.
  rewrite unxorshift_xorshift by auto with lia shard.
  rewrite mul_inverse; [|reflexivity|auto with lia shard].
  rewrite unxorshift_xorshift by auto with lia shard.
  rewrite mul_inverse; [|reflexivity|auto with lia shard].
  by apply unxorshift_xorshift.
Qed.

Lemma finalize_unfinalize h : 0 ≤ h < 2 ^ 64 → finalize (unfinalize h) = h.
Proof.
  intros Hh. unfold unfinalize, finalize.
  rewrite xorshift_unxorshift by auto with lia shard.
  rewrite mul_inverse; [|reflexivity|auto with lia shard].
  rewrite xorshift_unxorshift by auto with lia shard.
  rewrite mul_inverse; [|reflexivity|auto with lia shard].
  by apply xorshift_unxorshift.
Qed.

Lemma finalize_range h : 0 ≤ h < 2 ^ 64 → 0 ≤ finalize h < 2 ^ 64.
Proof. intros Hh. unfold finalize. auto with lia shard. Qed.

(** ** The property *)

(** C16.  The shard hash is a 64-bit value, two keys share it exactly when
    [std::hash] gives them the same 64-bit value, and every 64-bit value is the
    shard hash of any key whose [std::hash] is that value's preimage: mixing
    neither merges nor loses hash values. *)
Theorem shard_hash_lossless (hash : bytes → Z) :
  (∀ k, 0 ≤ shard_hash hash k < 2 ^ 64) ∧
  (∀ k1 k2, shard_hash hash k1 = shard_hash hash k2 ↔ u64 (hash k1) = u64 (hash k2)) ∧
  (∀ h, 0 ≤ h < 2 ^ 64 → ∀ k, hash k = unfinalize h → shard_hash hash k = h).
Proof.
  unfold shard_hash. split_and!.
  - intros k. apply finalize_range, u64_range.
  - intros k1 k2. split; [|congruence]. intros E%(f_equal unfinalize).
    by rewrite !unfinalize_finalize in E by apply u64_range.
  - intros h Hh k ->. rewrite u64_small; [by apply finalize_unfinalize|].
    unfold unfinalize. auto with lia shard.
Qed.
End ShardHash.
