(* ===== verification/ShardedEquiv.v ===== *)
(** * Sharding is invisible when nothing is evicted

    An unbounded [ShardedCache] and one unbounded [Cache], given the same
    history of calls, answer alike: same hits and values, same TTLs, same
    sizes and counters; an export lists the same entries, in another order.
    What a call does to one key depends on that key's entry alone
    ([key_step]); the sharded cache keeps each entry in another list. *)
From S2P Require Import Prelude RecencyList Lru Cache CacheRefine History CacheTheorems.
From S2P Require Import KvStore CacheKv SyncCache ShardedCache ShardedTheorems.

Module ShardedEquiv.
Import CacheRefine CacheTheorems ShardedCache ShardedTheorems.
#[local] Existing Instances CacheKv.Cache_ops CacheKv.Cache_laws CacheKv.Cache_admin
  SyncCache.SyncCache_ops SyncCache.SyncCache_laws.

(** ** What a call does to the entry of its key *)
Definition live (now : time_point) (e : option Entry) : option Entry := e ≫= alive now.

Definition gone (now : time_point) (e : option Entry) : Z :=
  match e with Some x => if Lru.dead now x then 1 else 0 | None => 0 end.

(** The answer, the entry afterwards, and how many entries were reclaimed. *)
Definition key_step (now : time_point) (o : kv_call) (e : option Entry)
  : kv_answer * option Entry * Z :=
  match o with
  | KSet k v => (AnsDone, Some (mkEntry k v None), 0)
  | KSetTtl k v ms =>
      if bool_decide (ms ≤ 0) then (AnsDone, None, gone now e)
      else (AnsDone, Some (mkEntry k v (Some (now + ms * 1000000))), 0)
  | KGet k => (AnsValue (value <$> live now e), live now e, gone now e)
  | KGetInto k out =>
      (AnsInto (bool_decide (is_Some (value <$> live now e))) (default out (value <$> live now e)),
       live now e, gone now e)
  | KErase k => (AnsBool (bool_decide (is_Some (live now e))), None, gone now e)
  | KContains k => (AnsBool (bool_decide (is_Some (live now e))), e, 0)
  | KTtl k => (AnsTtl (ttl_info now (live now e)), live now e, gone now e)
  end.

Definition count (e : option Entry) : Z := if e is Some _ then 1 else 0.

(** [s'] is [s] with the entry of [k] replaced and [n] more entries reclaimed. *)
Record stepped (k : bytes) (e' : option Entry) (n : Z) (s s' : Lru.t) : Prop := {
  stepped_cap : Lru.cap s' = Lru.cap s;
  stepped_key : Lru.lookup k s' = e';
  stepped_other k' : k' ≠ k → Lru.lookup k' s' = Lru.lookup k' s;
  stepped_size : zlen (Lru.items s') = zlen (Lru.items s) - count (Lru.lookup k s) + count e';
  stepped_reclaimed : u64 (Lru.reclaimed s') = u64 (Lru.reclaimed s + n);
  stepped_word : u64 (Lru.reclaimed s) = Lru.reclaimed s → u64 (Lru.reclaimed s') = Lru.reclaimed s';
  stepped_evicted : Lru.evicted s = 0 → Lru.evicted s' = 0
}.

(** ** Lemmas *)
Lemma visible_live now k s : Lru.visible now k s = live now (Lru.lookup k s).
Proof. unfold Lru.visible, live, alive. by destruct (Lru.lookup k s). Qed.

Lemma stepped_refl k s : stepped k (Lru.lookup k s) 0 s s.
Proof. split; try done; [lia|]. by rewrite Z.add_0_r. Qed.

Lemma drop_size k s e :
  Lru.ok s → Lru.lookup k s = Some e → zlen (drop_by key k (Lru.items s)) = zlen (Lru.items s) - 1.
Proof.
  intros Hs He. pose proof (drop_by_length key k _ _ (Lru.ok_keys _ Hs) He). unfold zlen in *. lia.
Qed.

Lemma stepped_reclaim k s e :
  Lru.ok s → Lru.lookup k s = Some e → stepped k None 1 s (Lru.reclaim k s).
Proof.
  intros Hs He. split; try done; unfold Lru.lookup; cbn.
  - apply find_by_drop_eq.
  - intros k' Hk. by rewrite find_by_drop_ne.
  - fold (Lru.lookup k s). rewrite He, (drop_size k s e) by done. cbn. lia.
  - apply u64_idem.
  - intros _. apply u64_idem.
Qed.

Lemma stepped_drop k s e :
  Lru.ok s → Lru.lookup k s = Some e →
  stepped k None 0 s (Lru.with_items (drop_by key k (Lru.items s)) s).
Proof.
  intros Hs He. split; try done; unfold Lru.lookup; cbn.
  - apply find_by_drop_eq.
  - intros k' Hk. by rewrite find_by_drop_ne.
  - fold (Lru.lookup k s). rewrite He, (drop_size k s e) by done. cbn. lia.
  - by rewrite Z.add_0_r.
Qed.

Lemma stepped_front k s e x :
  Lru.ok s → Lru.lookup k s = Some e → key x = k →
  stepped k (Some x) 0 s (Lru.with_items (x :: drop_by key k (Lru.items s)) s).
Proof.
  intros Hs He Hx. split; try done; unfold Lru.lookup; cbn.
  - by rewrite decide_True.
  - intros k' Hk. rewrite decide_False by congruence. by rewrite find_by_drop_ne.
  - fold (Lru.lookup k s). pose proof (drop_size k s e Hs He) as E. rewrite He.
    unfold zlen in *. cbn [length count]. lia.
  - by rewrite Z.add_0_r.
Qed.

Lemma stepped_put k v d s :
  Lru.ok s → Lru.cap s = None → stepped k (Some (mkEntry k v d)) 0 s (Lru.put k v d s).
Proof.
  intros Hs Hc. unfold Lru.put. destruct (Lru.lookup k s) as [e|] eqn:E; [by apply (stepped_front k s e)|].
  unfold Lru.admit_new. rewrite Hc. split; unfold Lru.lookup; cbn [Lru.items Lru.cap Lru.keep Lru.reclaimed Lru.evicted find_by key].
  - done.
  - by rewrite decide_True.
  - intros k' Hk. by rewrite decide_False by congruence.
  - fold (Lru.lookup k s). rewrite E. unfold zlen. cbn [length count]. lia.
  - by rewrite Z.add_0_r.
  - done.
  - intros ->. by rewrite Z.sub_diag.
Qed.

Lemma stepped_erase now k s :
  Lru.ok s → stepped k None (gone now (Lru.lookup k s)) s (Lru.erase now k s).2.
Proof.
  intros Hs. unfold Lru.erase. destruct (Lru.lookup k s) as [e|] eqn:E; cbn.
  - destruct (Lru.dead now e); [by apply (stepped_reclaim k s e)|by apply (stepped_drop k s e)].
  - rewrite <- E. apply stepped_refl.
Qed.

Lemma stepped_get now k s :
  Lru.ok s → stepped k (live now (Lru.lookup k s)) (gone now (Lru.lookup k s)) s (Lru.get now k s).2.
Proof.
  intros Hs. unfold Lru.get, live, alive. destruct (Lru.lookup k s) as [e|] eqn:E; cbn.
  - destruct (Lru.dead now e); [by apply (stepped_reclaim k s e)|].
    apply (stepped_front k s e); [done..|by eapply Lru.lookup_key].
  - rewrite <- E. apply stepped_refl.
Qed.

Lemma stepped_ttl now k s :
  Lru.ok s → stepped k (live now (Lru.lookup k s)) (gone now (Lru.lookup k s)) s (Lru.ttl now k s).2.
Proof.
  intros Hs. unfold Lru.ttl, live, alive. destruct (Lru.lookup k s) as [e|] eqn:E; cbn.
  - destruct (Lru.dead now e) eqn:D; unfold Lru.dead in D.
    + destruct (expires_at e); [|done]. by apply (stepped_reclaim k s e).
    + destruct (expires_at e); cbn; rewrite <- E; apply stepped_refl.
  - rewrite <- E. apply stepped_refl.
Qed.

(** A call on an unbounded list acts on its key alone. *)
Lemma lru_call_step now o s :
  Lru.ok s → Lru.cap s = None →
  let '(a, e, n) := key_step now o (Lru.lookup (call_key o) s) in
  (lru_call now o s).1 = a ∧ stepped (call_key o) e n s (lru_call now o s).2.
Proof.
  intros Hs Hc. destruct o; cbn.
  - split; [done|by apply stepped_put].
  - unfold Lru.put_ttl. case_bool_decide; (split; [done|]); [by apply stepped_erase|by apply stepped_put].
  - rewrite get_visible, visible_live. split; [done|by apply stepped_get].
  - rewrite get_visible, visible_live. split; [done|by apply stepped_get].
  - rewrite erase_visible, visible_live. split; [done|by apply stepped_erase].
  - unfold Lru.contains. rewrite visible_live. split; [done|by apply stepped_refl].
  - rewrite CacheKv.ttl_visible, visible_live. split; [done|by apply stepped_ttl].
Qed.

(** ** The simulation *)

(** Answers are the same, except that an export may list in another order. *)
Definition same_reply (r1 r2 : reply) : Prop :=
  match r1, r2 with
  | Listing l1, Listing l2 => l1 ≡ₚ l2
  | _, _ => r1 = r2
  end.

Section Simulation.
Context (hash : bytes → Z).
Local Abbreviation sharded := (t hash).
Implicit Types (c : sharded) (d : Cache.t).

Definition lookup (k : bytes) (c : sharded) : option Entry :=
  shards_ c !! home hash k c ≫= λ s, Lru.lookup k (lru s).

Definition unlimited (s : Lru.t) : Prop := Lru.cap s = None ∧ Lru.evicted s = 0.

(** The two caches hold the same entries; [n] bounds how many. *)
Record same (n : Z) (c : sharded) (d : Cache.t) : Prop := {
  same_sharded : sharded_ok hash c;
  same_single : inv d;
  same_shards : Forall (unlimited ∘ lru) (shards_ c);
  same_cache : unlimited (abs d);
  same_lookup k : lookup k c = Lru.lookup k (abs d);
  same_size : total (λ s, zlen (Lru.items (lru s))) (shards_ c) = zlen (Lru.items (abs d));
  same_reclaimed : u64 (total (Lru.reclaimed ∘ lru) (shards_ c)) = u64 (Lru.reclaimed (abs d));
  same_word : u64 (Lru.reclaimed (abs d)) = Lru.reclaimed (abs d);
  same_bound : zlen (Lru.items (abs d)) ≤ n
}.

Lemma same_start m : 0 ≤ m → same 0 (ShardedCache_unbounded hash m) Cache.Cache_unbounded.
Proof.
  intros Hm. assert (∀ f : SyncCache.t → Z, f SyncCache.SyncCache_unbounded = 0 →
    total f (shards_ (ShardedCache_unbounded hash m)) = 0) as Htot.
  { intros f Hf. cbn. generalize 0%nat. induction (Z.to_nat _) as [|n IH]; intros a; [done|].
    cbn. by rewrite IH, Hf. }
  split; try done.
  - by apply unbounded_ok.
  - apply inv_unbounded.
  - by apply Forall_fmap, Forall_true.
  - intros k. unfold lookup. destruct (shards_ _ !! _) as [s|] eqn:E; [|done]. cbn in E |- *.
    rewrite list_lookup_fmap in E. by apply fmap_Some in E as (? & _ & ->).
  - by rewrite Htot.
  - by rewrite Htot.
Qed.

Lemma key_step_count now o e : count (key_step now o e).1.2 ≤ count e + 1.
Proof. destruct o; cbn; try case_bool_decide; destruct e as [x|]; cbn; try lia;
  unfold alive; destruct (Lru.dead now x); cbn; lia. Qed.

Lemma home_lookup n c d k s :
  same n c d → shards_ c !! home hash k c = Some s → Lru.lookup k (lru s) = Lru.lookup k (abs d).
Proof. intros H Hs. rewrite <- (same_lookup _ _ _ H k). unfold lookup. by rewrite Hs. Qed.

(** The same step of a key on both sides. *)
Lemma same_update n c d k s s' e' m d' :
  same n c d → shards_ c !! home hash k c = Some s →
  stepped k e' m (lru s) (lru s') → stepped k e' m (abs d) (abs d') →
  sharded_ok hash (put_shard hash (home hash k c) s' c) → inv d' →
  count e' ≤ count (Lru.lookup k (abs d)) + 1 →
  same (n + 1) (put_shard hash (home hash k c) s' c) d'.
Proof.
  intros H Hs H1 H2 Hc' Hd' Hcount.
  pose proof (stepped_size _ _ _ _ _ H1) as Hz1. pose proof (stepped_size _ _ _ _ _ H2) as Hz2.
  rewrite (home_lookup n c d) in Hz1 by done. split; try done.
  - pose proof (same_shards _ _ _ H) as Hun. apply Forall_insert; [done|].
    rewrite Forall_lookup in Hun. destruct (Hun _ _ Hs) as [Hcap Hev]. split.
    + by rewrite (stepped_cap _ _ _ _ _ H1).
    + by apply (stepped_evicted _ _ _ _ _ H1).
  - destruct (same_cache _ _ _ H). split.
    + by rewrite (stepped_cap _ _ _ _ _ H2).
    + by apply (stepped_evicted _ _ _ _ _ H2).
  - intros k'. unfold lookup. rewrite (lookup_home_update _ _ _ s) by done.
    destruct (decide (k' = k)) as [->|Hk].
    + rewrite decide_True by done. by rewrite (stepped_key _ _ _ _ _ H2), <- (stepped_key _ _ _ _ _ H1).
    + rewrite (stepped_other _ _ _ _ _ H2), <- (same_lookup _ _ _ H) by done. unfold lookup.
      case_decide as D; [|done]. rewrite D, Hs. by apply (stepped_other _ _ _ _ _ H1).
  - cbn [shards_ put_shard]. erewrite total_insert by exact Hs. pose proof (same_size _ _ _ H). lia.
  - cbn [shards_ put_shard]. erewrite total_insert by exact Hs.
    pose proof (stepped_reclaimed _ _ _ _ _ H1) as E1. pose proof (same_reclaimed _ _ _ H) as E0.
    rewrite (stepped_reclaimed _ _ _ _ _ H2). unfold compose, u64 in *.
    rewrite Zplus_mod, E1, <- Zplus_mod, <- (Zplus_mod_idemp_l _ m (2 ^ 64)), <- E0, Zplus_mod_idemp_l.
    f_equal. lia.
  - apply (stepped_word _ _ _ _ _ H2), (same_word _ _ _ H).
  - pose proof (same_bound _ _ _ H). lia.
Qed.

(** A key call keeps the relation and gets the same answer. *)
Lemma same_key_call n c d now o :
  same n c d → kv_call_ok now o = true →
  ∃ a c' d', kv_run now o c = Ret (a, c') ∧ kv_run now o d = Ret (a, d') ∧ same (n + 1) c' d'.
Proof.
  intros H Hok. pose proof (same_sharded _ _ _ H) as Hc. pose proof (same_single _ _ _ H) as Hd.
  destruct (sharded_call hash c now o Hc Hok) as (s & s' & a & Hs & Hr & Hok' & Hl & Hc').
  destruct (cache_call d now o Hd Hok) as (b & d' & Hrd & Hd' & Hld).
  pose proof (same_shards _ _ _ H) as Hun. rewrite Forall_lookup in Hun.
  pose proof (ok_shards _ _ Hc) as Hoks. rewrite Forall_lookup in Hoks.
  pose proof (lru_call_step now o (lru s) (inv_ok _ (proj2 (Hoks _ _ Hs))) (proj1 (Hun _ _ Hs))) as H1.
  pose proof (lru_call_step now o (abs d) (inv_ok _ Hd) (proj1 (same_cache _ _ _ H))) as H2.
  rewrite (home_lookup n c d) in H1 by done.
  pose proof (key_step_count now o (Lru.lookup (call_key o) (abs d))) as Hcount.
  destruct (key_step now o _) as [[x e'] m]. rewrite Hl in H1. rewrite Hld in H2.
  destruct H1 as [E1 H1], H2 as [E2 H2]. cbn [fst snd] in *. subst.
  do 3 eexists. split; [exact Hr|]. split; [exact Hrd|]. by eapply same_update.
Qed.

Lemma same_view n c d now k : same n c d → view hash now k c = CacheKv.view now k d.
Proof.
  intros H. unfold CacheKv.view. rewrite visible_live, <- (same_lookup _ _ _ H).
  unfold view, lookup. destruct (shards_ c !! _) as [s|]; [|done]. apply visible_live.
Qed.

Lemma same_cleared n c d :
  same n c d → 0 ≤ n → same n (mk (cleared <$> shards_ c)) (Cache.clear d).
Proof.
  intros H Hn. pose proof (same_sharded _ _ _ H) as Hc.
  destruct (clear_refines d (same_single _ _ _ H)) as [Hd' Ha].
  split; try done; cbn [shards_]; rewrite ?Ha; try apply H.
  - by apply cleared_ok.
  - apply Forall_fmap. eapply Forall_impl; [apply (same_shards _ _ _ H)|done].
  - intros k. unfold lookup, home, shard_count. cbn [shards_]. rewrite list_lookup_fmap.
    by destruct (shards_ c !! _).
  - cbn. induction (shards_ c) as [|s l IH]; [done|]. cbn. by rewrite IH.
  - etrans; [|apply (same_reclaimed _ _ _ H)]. f_equal. clear.
    induction (shards_ c) as [|s l IH]; [done|]. cbn. f_equal. apply IH.
Qed.

Lemma total_0 l : total (λ _, 0) l = 0.
Proof. by induction l. Qed.

(** One call of either kind. *)
Lemma same_call n c d now o :
  same n c d → 0 ≤ n < 2 ^ 64 → call_ok now o = true →
  ∃ r1 r2 c' d', call_run now o c = Ret (r1, c') ∧ call_run now o d = Ret (r2, d') ∧
    same_reply r1 r2 ∧ same (n + 1) c' d'.
Proof.
  intros H Hn Hok. apply andb_true_iff in Hok as [Hnow%Z.leb_le Ho].
  pose proof (same_sharded _ _ _ H) as Hc. pose proof (same_single _ _ _ H) as Hd.
  assert (∀ c d, same n c d → same (n + 1) c d) as Hmore by (intros ?? []; split; try done; lia).
  assert (u64 (total (λ s, zlen (Lru.items (lru s))) (shards_ c)) = Cache.csize d) as Hsize.
  { rewrite (same_size _ _ _ H), History.csize_abs by done. apply u64_small.
    pose proof (same_bound _ _ _ H). unfold zlen in *. lia. }
  destruct o; cbn.
  - destruct (same_key_call n c d now o H Ho) as (a & c' & d' & -> & -> & H'). by do 4 eexists.
  - rewrite clear_run by done. do 4 eexists. split_and!; [done..|]. by apply Hmore, same_cleared; [|lia].
  - rewrite size_run, Hsize by done. do 4 eexists. by split_and!; [..|apply Hmore].
  - unfold empty. rewrite size_run, Hsize by done. do 4 eexists. split_and!; [done..| |by apply Hmore].
    rewrite History.empty_abs, History.csize_abs by done. cbn [same_reply]. f_equal.
    unfold zlen. destruct (Lru.items (abs d)); [done|]. symmetry. by apply bool_decide_eq_false.
  - rewrite capacity_run by done. do 4 eexists. split_and!; [done..| |by apply Hmore].
    cbn. f_equal. destruct (same_cache _ _ _ H) as [E _]. cbn in E. unfold Cache.capacity. rewrite E.
    pose proof (same_shards _ _ _ H) as Hun. unfold caps. destruct (shards_ c) as [|s l]; [done|].
    apply Forall_cons in Hun as [[Hs _] _]. cbn in Hs |- *. by rewrite Hs.
  - rewrite evictions_run by done. do 4 eexists. split_and!; [done..| |by apply Hmore].
    cbn. f_equal. destruct (same_cache _ _ _ H) as [_ E]. cbn in E. unfold Cache.evictions. rewrite E.
    rewrite (total_ext _ (λ _, 0)); [by rewrite total_0|].
    eapply Forall_impl; [apply (same_shards _ _ _ H)|]. by intros s [_ ?].
  - rewrite expired_run by done. do 4 eexists. split_and!; [done..| |by apply Hmore].
    cbn. f_equal. rewrite (same_reclaimed _ _ _ H). apply (same_word _ _ _ H).
  - destruct (kv_export_law (λ _, now) c) as (l1 & rd1 & H1 & Hd1 & Hin1); [done..|].
    destruct (kv_export_law (λ _, now) d) as (l2 & rd2 & H2 & Hd2 & Hin2); [done..|].
    cbn in H1, H2. rewrite H1, H2. do 4 eexists. split_and!; [done..| |by apply Hmore].
    apply NoDup_Permutation; [by apply (NoDup_fmap_1 snap_key)..|]. intros x. rewrite (Hin1 x), (Hin2 x).
    cbn. by rewrite (same_view n c d).
Qed.

Lemma same_calls h n c d :
  same n c d → 0 ≤ n → n + zlen h < 2 ^ 64 → Forall (λ '(now, o), call_ok now o = true) h →
  ∃ rs1 rs2 c' d', call_run_all h c = Ret (rs1, c') ∧ call_run_all h d = Ret (rs2, d') ∧
    Forall2 same_reply rs1 rs2.
Proof.
  intros H Hn Hlen Hh. revert n c d H Hn Hlen.
  induction Hh as [|[now o] h Ho _ IH]; intros n c d H Hn Hlen; cbn [call_run_all].
  { by do 4 eexists. }
  unfold zlen in Hlen. cbn [length] in Hlen.
  destruct (same_call n c d now o H) as (r1 & r2 & c1 & d1 & -> & -> & Hr & H1); [lia|done|]. cbn.
  destruct (IH (n + 1) c1 d1 H1) as (rs1 & rs2 & c' & d' & -> & -> & Hrs); [lia|unfold zlen; lia|].
  cbn. do 4 eexists. split_and!; [done..|]. by constructor.
Qed.
End Simulation.

(** C19.  Callers cannot tell an unbounded sharded cache from one unbounded
    cache: whatever the number of shards and the hash, both answer every
    history of calls, every answer is the same (hits, values, TTLs, sizes,
    counters), and exports list the same entries up to order.  The history is
    shorter than 2^64 calls, so that no size wraps. *)
Theorem sharding_is_invisible hash m h (Hm : 0 ≤ m) (Hlen : zlen h < 2 ^ 64)
    (Hh : Forall (λ '(now, o), call_ok now o = true) h) :
  ∃ rs1 rs2 c d, call_run_all h (ShardedCache_unbounded hash m) = Ret (rs1, c) ∧
    call_run_all h Cache.Cache_unbounded = Ret (rs2, d) ∧ Forall2 same_reply rs1 rs2.
Proof. apply (same_calls hash h 0); [by apply same_start|lia..|done]. Qed.

Lemma sharding_is_invisible_witness :
  ∃ rs1 rs2 c d, call_run_all demo_history (ShardedCache_unbounded length_hash 3) = Ret (rs1, c) ∧
    call_run_all demo_history Cache.Cache_unbounded = Ret (rs2, d) ∧ Forall2 same_reply rs1 rs2.
Proof.
  apply (sharding_is_invisible length_hash 3 demo_history); [lia|reflexivity|apply demo_history_ok].
Defined.
End ShardedEquiv.
