(* ===== verification/LiveExport.v ===== *)
(** * Exporting a cache that others are using

    [ShardedCache::export_entries] locks one shard at a time, so a SAVE or an
    auto-save on a busy server reads each shard at a moment of its own.  The
    machine of Concurrency.v with one thread that exports: what it collects is
    the export of a cache no thread may ever have seen as a whole, but each
    shard of which is the shard as it was at one moment of the export. *)
From S2P Require Import Prelude RecencyList Lru KvStore Cache CacheRefine History.
From S2P Require Import CacheKv SyncCache Concurrency ShardedCache ShardedTheorems.

Module LiveExport.
Import CacheRefine History Concurrency.

(** The calls of [export_entries] over [n] shards, one after the other, and
    what it puts together from the answers. *)
Definition export_program (n : nat) : list (nat * op) := (λ i, (i, OpExport)) <$> seq 0 n.

Definition part (a : answer) : list EntrySnapshot := match a with Snapshot l => l | _ => [] end.
Definition collect (l : list answer) : list EntrySnapshot := concat (part <$> l).

(** ** A moment in the life of a shard *)

(** [s] is what shard [i] was when the call [e] took effect on it: the calls
    before it, none of them later, lead from the initial shard to [s]; the
    calls after it are none of them earlier. *)
Record cut (s0 : list SyncCache.t) (l : list event) (i : nat) (e : event) (s : SyncCache.t) (past future : list event)
    : Prop := {
  cut_log : on_shard i l = past ++ e :: future;
  cut_state : ∃ s', s0 !! i = Some s' ∧
    run_all (calls past) (SyncCache.cache_ s') = Ret (ev_answer <$> past, SyncCache.cache_ s);
  cut_ok : SyncCache.sync_ok s;
  cut_past : Forall (λ x, ev_now x ≤ ev_now e) past;
  cut_future : Forall (λ x, ev_now e ≤ ev_now x) future
}.

(** ** Lemmas *)
Lemma run_all_app h1 h2 c rs c' :
  run_all (h1 ++ h2) c = Ret (rs, c') →
  ∃ rs1 rs2 c1, run_all h1 c = Ret (rs1, c1) ∧ run_all h2 c1 = Ret (rs2, c') ∧ rs = rs1 ++ rs2 ∧
    length rs1 = length h1.
Proof.
  revert c rs. induction h1 as [|[n o] h1 IH]; intros c rs Hr; cbn in *.
  { by exists [], rs, c. }
  destruct (run n o c) as [[r c1]| |]; cbn in *; try discriminate.
  destruct (run_all (h1 ++ h2) c1) as [[rs' c2]| |] eqn:E; cbn in *; try discriminate. injection Hr as <- <-.
  destruct (IH c1 rs' E) as (rs1 & rs2 & c3 & -> & H2 & -> & Hl). exists (r :: rs1), rs2, c3. cbn. by rewrite Hl.
Qed.

Lemma sorted_filter P `{∀ x, Decision (P x)} l : StronglySorted no_later l → StronglySorted no_later (filter P l).
Proof.
  induction 1 as [|x l Hl IH Hx]; [constructor|]. rewrite filter_cons. case_decide; [|done]. constructor; [done|].
  apply Forall_forall. intros y [_ Hy]%list_elem_of_filter. rewrite Forall_forall in Hx. by apply Hx.
Qed.

Lemma sorted_lookup l i j x y :
  StronglySorted no_later l → l !! i = Some x → l !! j = Some y → (i ≤ j)%nat → ev_now x ≤ ev_now y.
Proof.
  intros Hl. revert i j. induction Hl as [|z l Hl IH Hz]; intros [|i] [|j] Hi Hj Hle; cbn in *; simplify_eq; try lia.
  - rewrite Forall_forall in Hz. apply Hz. by eapply list_elem_of_lookup_2.
  - apply (IH i j); [done..|lia].
Qed.

Lemma sorted_around l1 e l2 :
  StronglySorted no_later (l1 ++ e :: l2) →
  Forall (λ x, ev_now x ≤ ev_now e) l1 ∧ Forall (λ x, ev_now e ≤ ev_now x) l2.
Proof.
  induction l1 as [|x l1 IH]; cbn; intros [Hl Hx]%StronglySorted_inv; [by split|].
  destruct (IH Hl) as [H1 H2]. split; [|done]. constructor; [|done].
  rewrite Forall_forall in Hx. apply Hx, elem_of_app. right. left.
Qed.

(** The answers of exports, put together as [export_entries] does. *)
Lemma collect_export n : ∀ (clock : nat → time_point) (seen : list SyncCache.t) (l : list answer),
  length seen = n → length l = n →
  (∀ i s a, seen !! i = Some s → l !! i = Some a →
     SyncCache.sync_ok s ∧ ∃ p, a = Snapshot p ∧ Cache.export_entries (clock i) (SyncCache.cache_ s) = Ret p) →
  ShardedCache.export_loop clock seen = Ret (collect l).
Proof.
  induction n as [|n IH]; intros clock [|s seen] [|a l] H1 H2 Hall; try discriminate; [done|].
  destruct (Hall 0%nat s a eq_refl eq_refl) as ([Hm _] & p & -> & Hp). cbn [ShardedCache.export_loop].
  assert (SyncCache.export_entries (clock 0%nat) s = Ret p) as ->.
  { unfold SyncCache.export_entries, SyncCache.lock_guard_const, SyncCache.lock_guard. by rewrite Hm, Hp. }
  rewrite (IH (clock ∘ S) seen l); [done|by injection H1|by injection H2|].
  intros i s' a Hi Ha. by apply (Hall (S i)).
Qed.

Section Machine.
Context (limit : time_point) (s0 : list SyncCache.t) (progs : list (list (nat * op))).
Context (Hs0 : Forall SyncCache.sync_ok s0) (Hlimit : 0 ≤ limit)
  (Hprogs : Forall (λ p, prog_ok limit (length s0) p = true) progs).
Context (m : machine) (Hm : reaches limit (start s0 progs) m).

(** Every call that took effect was one that may be made at its time. *)
Lemma logged_ok e : e ∈ log m → (ev_shard e < length s0)%nat ∧ call_ok (ev_now e) (ev_op e) = true.
Proof.
  intros He. pose proof (good_reaches limit s0 progs Hs0 Hlimit Hprogs m Hm) as Hg.
  pose proof (timed_log _ (timed_reaches limit s0 progs Hs0 Hlimit Hprogs m Hm)) as Hlog.
  destruct (threads_reaches limit s0 progs m Hm) as [Hlen Hev]. rewrite Forall_forall in Hev, Hlog.
  specialize (Hlog e He). specialize (Hev e He). pose proof (good_clock _ _ _ _ Hg) as Hclock. cbn in Hlog.
  rewrite <- Hlen in Hev. apply lookup_lt_is_Some in Hev as [th Hth].
  destruct (good_thread _ _ _ _ Hg _ _ Hth) as (prog & Hp & -> & _).
  rewrite Forall_lookup in Hprogs. specialize (Hprogs _ _ Hp). unfold prog_ok in Hprogs. rewrite forallb_forall in Hprogs.
  specialize (Hprogs (ev_shard e, ev_op e)). cbn in Hprogs.
  assert ((ev_shard e <? length s0)%nat && op_fits limit (ev_op e) = true) as [Hi%Nat.ltb_lt Ho]%andb_true_iff.
  { apply Hprogs, list_elem_of_In, elem_of_app. left. apply list_elem_of_fmap. exists e. split; [done|].
    unfold by_thread. by apply list_elem_of_filter. }
  split; [done|]. unfold call_ok. apply andb_true_iff. split; [apply Z.leb_le; lia|].
  unfold op_fits in Ho. destruct (ev_op e); try done. apply Z.leb_le in Ho. apply Z.leb_le. lia.
Qed.

(** The moment a call took effect. *)
Lemma event_cut e : e ∈ log m →
  ∃ s past future c', cut s0 (log m) (ev_shard e) e s past future ∧
    run (ev_now e) (ev_op e) (SyncCache.cache_ s) = Ret (ev_answer e, c').
Proof.
  intros He. pose proof (good_reaches limit s0 progs Hs0 Hlimit Hprogs m Hm) as Hg.
  destruct (timed_order _ (timed_reaches limit s0 progs Hs0 Hlimit Hprogs m Hm)) as (l & Hl & _ & Hsh & _).
  destruct (logged_ok e He) as [Hi _]. rewrite <- (good_len _ _ _ _ Hg) in Hi. apply lookup_lt_is_Some in Hi as [s1 Hs1].
  destruct (good_shard _ _ _ _ Hg _ _ Hs1) as (_ & s' & Hs' & Hrun). set (i := ev_shard e) in *.
  assert (e ∈ on_shard i (log m)) as (past & future & E)%list_elem_of_split by (by apply list_elem_of_filter).
  pose proof Hrun as Hsplit. rewrite E in Hsplit. unfold calls in Hsplit. rewrite fmap_app in Hsplit.
  apply run_all_app in Hsplit as (rs1 & rs2 & c1 & Hr1 & Hr2 & Heq & Hlen1).
  rewrite length_fmap in Hlen1. rewrite fmap_app in Heq. apply app_inj_1 in Heq as [<- <-]; [|by rewrite length_fmap].
  cbn in Hr2. destruct (run (ev_now e) (ev_op e) c1) as [[r c2]| |] eqn:Er; cbn in Hr2; try discriminate.
  destruct (run_all _ c2) as [[rs3 c3]| |]; cbn in Hr2; try discriminate. injection Hr2 as -> _ _.
  assert (∀ x, x ∈ past ++ e :: future → x ∈ log m) as Hin.
  { intros x. rewrite <- E. by intros [_ ?]%list_elem_of_filter. }
  destruct (proj1 (Forall_lookup _ _) Hs0 _ _ Hs') as [_ Hinv].
  destruct (run_all_refines (calls past) (SyncCache.cache_ s') Hinv) as (rs & c & Hrs & Hc & _).
  { apply Forall_fmap, Forall_forall. intros x Hx. apply logged_ok, Hin, elem_of_app. by left. }
  unfold calls in *. rewrite Hr1 in Hrs. injection Hrs as <- <-.
  pose proof (sorted_filter (λ x, ev_shard x = i) l Hl) as Hsorted. fold (on_shard i l) in Hsorted. rewrite Hsh, E in Hsorted.
  apply sorted_around in Hsorted as [Hbefore Hafter].
  exists (SyncCache.mk None c1), past, future, c2. split; [split|done].
  - done.
  - by exists s'.
  - done.
  - exact Hbefore.
  - exact Hafter.
Qed.

(** The calls of the export, as they took effect, in order. *)
Lemma export_events t th before after :
  progs !! t = Some (before ++ export_program (length s0) ++ after) → threads m !! t = Some th →
  (length before + length s0 ≤ length (answers th))%nat →
  ∃ es, length es = length s0 ∧
    take (length s0) (drop (length before) (answers th)) = ev_answer <$> es ∧
    (∀ i e, es !! i = Some e → e ∈ log m ∧ ev_thread e = t ∧ ev_shard e = i ∧ ev_op e = OpExport) ∧
    (∀ i j x y, es !! i = Some x → es !! j = Some y → (i ≤ j)%nat → ev_now x ≤ ev_now y).
Proof.
  intros Hp Hth Hlen. pose proof (good_reaches limit s0 progs Hs0 Hlimit Hprogs m Hm) as Hg.
  destruct (timed_order _ (timed_reaches limit s0 progs Hs0 Hlimit Hprogs m Hm)) as (l & Hl & _ & _ & Hbt).
  destruct (good_thread _ _ _ _ Hg _ _ Hth) as (prog & Hp' & Hprog & Hans). rewrite Hp in Hp'. injection Hp' as <-.
  set (mine := by_thread t (log m)) in *. set (b := length before) in *. set (n := length s0) in *.
  assert (b + n ≤ length mine)%nat as Hmine.
  { apply (f_equal length) in Hans. rewrite length_app, length_fmap in Hans. lia. }
  exists (take n (drop b mine)). split_and!.
  - rewrite length_take, length_drop. lia.
  - rewrite fmap_take, fmap_drop, <- Hans, drop_app_le, take_app_le by (rewrite ?length_drop; lia). done.
  - intros i e Hi. apply lookup_take_Some in Hi as [Hi Hin]. rewrite lookup_drop in Hi.
    assert (e ∈ mine) as [Ht Hlog]%list_elem_of_filter by (by eapply list_elem_of_lookup_2).
    apply (f_equal (.!! (b + i)%nat)) in Hprog.
    rewrite lookup_app_r, lookup_app_l, lookup_app_l in Hprog;
      [|rewrite length_fmap; lia|unfold export_program; rewrite length_fmap, length_seq; lia|lia].
    unfold export_program in Hprog. rewrite !list_lookup_fmap, Hi, lookup_seq_lt in Hprog by lia.
    cbn in Hprog. injection Hprog as <- <-. split_and!; [done..|lia|done].
  - intros i j x y [Hi _]%lookup_take_Some [Hj _]%lookup_take_Some Hle. rewrite lookup_drop in Hi, Hj.
    unfold mine in *. rewrite <- Hbt in Hi, Hj.
    eapply (sorted_lookup (by_thread t l)); [by apply sorted_filter|exact Hi|exact Hj|lia].
Qed.

(** What each of them saw. *)
Lemma export_cuts t es :
  (∀ i e, es !! i = Some e → e ∈ log m ∧ ev_thread e = t ∧ ev_shard e = i ∧ ev_op e = OpExport) →
  ∃ seen, length seen = length es ∧
    ∀ i e s, es !! i = Some e → seen !! i = Some s →
      (∃ past future, cut s0 (log m) i e s past future) ∧
      ∃ p, ev_answer e = Snapshot p ∧ Cache.export_entries (ev_now e) (SyncCache.cache_ s) = Ret p.
Proof.
  induction es as [|e es IH] using rev_ind; intros Hes; [by exists []|].
  destruct IH as (seen & Hlen & Hseen).
  { intros i x Hi. apply Hes. rewrite lookup_app_l; [done|by eapply lookup_lt_Some]. }
  destruct (Hes (length es) e) as (Hlog & _ & Hsh & Hop); [by rewrite list_lookup_middle|].
  destruct (event_cut e Hlog) as (s & past & future & c' & Hcut & Hrun). rewrite Hsh in Hcut. rewrite Hop in Hrun. cbn in Hrun.
  destruct (Cache.export_entries _ _) as [p| |] eqn:Ep; cbn in Hrun; try discriminate. injection Hrun as Ha _.
  exists (seen ++ [s]). split; [by rewrite !length_app, Hlen|]. intros i x s' Hi Hs'.
  apply lookup_app_Some in Hi as [Hi|[Hge Hi]].
  - rewrite lookup_app_l in Hs' by (rewrite Hlen; by eapply lookup_lt_Some). by apply (Hseen i).
  - apply list_lookup_singleton_Some in Hi as [Hi <-].
    rewrite lookup_app_r in Hs' by (rewrite Hlen; done).
    apply list_lookup_singleton_Some in Hs' as [_ <-].
    replace i with (length es) by lia. split; [by exists past, future|]. by exists p.
Qed.
End Machine.

(** ** Property *)

(** C13.  A snapshot of a running cache.  A thread exports a sharded cache while
    any other threads make any calls: what it collects is the export of a cache
    whose every shard is that shard exactly as it was when the export looked at
    it - after all the calls that took effect on it before and none of those
    after, with the clock readings on either side to match - and the shards are
    looked at in order, at non-decreasing times.  So no entry is listed that
    was not visible in its shard at that moment, and none that was is missing. *)
Theorem export_beside_writers limit s0 progs m t th before after
    (Hs0 : Forall SyncCache.sync_ok s0) (Hlimit : 0 ≤ limit)
    (Hprogs : Forall (λ p, prog_ok limit (length s0) p = true) progs)
    (Hm : reaches limit (start s0 progs) m)
    (Hprog : progs !! t = Some (before ++ export_program (length s0) ++ after))
    (Hth : threads m !! t = Some th) (Hdone : (length before + length s0 ≤ length (answers th))%nat) :
  ∃ (clock : nat → time_point) (seen : list SyncCache.t),
    let listed := collect (take (length s0) (drop (length before) (answers th))) in
    length seen = length s0 ∧ (∀ i, 0 ≤ clock i) ∧
    ShardedCache.export_loop clock seen = Ret listed ∧
    (∀ i j, (i ≤ j < length s0)%nat → clock i ≤ clock j) ∧
    (∀ i s, seen !! i = Some s → ∃ e past future, cut s0 (log m) i e s past future ∧
       ev_thread e = t ∧ ev_op e = OpExport ∧ ev_now e = clock i) ∧
    (∀ x, x ∈ listed ↔ ∃ i s e, seen !! i = Some s ∧
       CacheKv.view (clock i) (snap_key x) (SyncCache.cache_ s) = Some e ∧ x = Lru.snapshot_of (clock i) e).
Proof.
  destruct (export_events limit s0 progs Hs0 Hlimit Hprogs m Hm t th before after Hprog Hth Hdone)
    as (es & Hlen & Hans & Hes & Hord).
  destruct (export_cuts limit s0 progs Hs0 Hlimit Hprogs m Hm t es Hes) as (seen & Hseen & Hcuts).
  pose proof (timed_log _ (timed_reaches limit s0 progs Hs0 Hlimit Hprogs m Hm)) as Hlog. rewrite Forall_forall in Hlog.
  set (clock := λ i, default 0 (ev_now <$> es !! i)).
  assert (∀ i s, seen !! i = Some s → ∃ e, es !! i = Some e ∧ clock i = ev_now e) as Hat.
  { intros i s Hi%lookup_lt_Some. rewrite Hseen in Hi. apply lookup_lt_is_Some in Hi as [e He].
    exists e. split; [done|]. unfold clock. by rewrite He. }
  assert (∀ i, 0 ≤ clock i) as Hclock.
  { intros i. unfold clock. destruct (es !! i) as [e|] eqn:E; [|done]. cbn. apply (Hlog e). by apply (Hes i e). }
  assert (ShardedCache.export_loop clock seen = Ret (collect (ev_answer <$> es))) as Hexp.
  { apply (collect_export (length es)); [done|by rewrite length_fmap|]. intros i s a Hs Ha.
    destruct (Hat i s Hs) as (e & He & ->). rewrite list_lookup_fmap, He in Ha. injection Ha as <-.
    destruct (Hcuts i e s He Hs) as [(past & future & Hc) ?]. split; [by apply Hc|done]. }
  assert (Forall SyncCache.sync_ok seen) as Hok.
  { apply Forall_lookup. intros i s Hs. destruct (Hat i s Hs) as (e & He & _).
    destruct (Hcuts i e s He Hs) as [(past & future & Hc) _]. apply Hc. }
  exists clock, seen. cbn zeta. rewrite Hans. split_and!; [congruence|done|done| | |].
  - intros i j [Hij Hj]. rewrite <- Hlen in Hj.
    destruct (lookup_lt_is_Some_2 es j Hj) as [y Hy]. destruct (lookup_lt_is_Some_2 es i ltac:(lia)) as [x Hx].
    unfold clock. rewrite Hx, Hy. by apply (Hord i j).
  - intros i s Hs. destruct (Hat i s Hs) as (e & He & ->). destruct (Hcuts i e s He Hs) as [(past & future & Hc) _].
    destruct (Hes i e He) as (_ & ? & _ & ?). by exists e, past, future.
  - destruct (ShardedCache.export_loop_spec clock seen Hok Hclock) as (r & Hr & Hin & _).
    rewrite Hexp in Hr. injection Hr as <-. done.
Qed.

(** ** Witness: a writer gets in between the two halves of an export *)
Definition busy_shards : list SyncCache.t := [SyncCache.SyncCache_unbounded; SyncCache.SyncCache_unbounded].
Definition busy_progs : list (list (nat * op)) :=
  [[(0%nat, OpSet $"a" $"1"); (1%nat, OpSet $"b" $"2")]; export_program 2].

(** The export of shard 0, both writes, the export of shard 1. *)
Definition busy_schedule : list nat := [1; 1; 1; 1; 0; 0; 0; 0; 0; 0; 0; 0; 1; 1; 1; 1]%nat.
Definition busy_start : machine := start busy_shards busy_progs.
Definition busy_done : machine := default busy_start (schedule busy_schedule busy_start).

Lemma busy_reaches : reaches 100 busy_start busy_done.
Proof. apply (schedule_reaches _ busy_schedule _ busy_start); [constructor|vm_compute; reflexivity]. Qed.

(** The later write is in the snapshot and the earlier one is not. *)
Lemma export_beside_writers_witness :
  ∃ clock seen, ShardedCache.export_loop clock seen = Ret [mkSnapshot $"b" $"2" None] ∧
    length seen = 2%nat ∧ ∀ i s, seen !! i = Some s → ∃ e past future, cut busy_shards (log busy_done) i e s past future.
Proof.
  destruct (export_beside_writers 100 busy_shards busy_progs busy_done 1
    (mkThread [] Idle [Snapshot []; Snapshot [mkSnapshot $"b" $"2" None]]) [] [])
    as (clock & seen & H1 & _ & H2 & _ & H3 & _).
  - repeat constructor; apply CacheRefine.inv_unbounded.
  - lia.
  - repeat constructor.
  - exact busy_reaches.
  - reflexivity.
  - vm_compute. reflexivity.
  - cbn. lia.
  - exists clock, seen. split; [exact H2|]. split; [exact H1|]. intros i s Hs.
    destruct (H3 i s Hs) as (e & past & future & Hc & _). by exists e, past, future.
Defined.
End LiveExport.
