(* ===== verification/Numbers.v ===== *)
(** * Decimal numbers as the standard library reads and writes them

    [std::to_string] (and [operator<<] of an integer), [std::from_chars], and
    the scanning helpers they share with the stream extraction of Stream.v. *)
From S2P Require Import Prelude.

Module Numbers.

(** Longest prefix of bytes that satisfy a test, and the rest. *)
Fixpoint span (p : ascii → bool) (l : bytes) : bytes * bytes :=
  match l with
  | [] => ([], [])
  | c :: r => if p c then let '(a, b) := span p r in (c :: a, b) else ([], l)
  end.

Definition code (c : ascii) : Z := Z.of_N (N_of_ascii c).
Definition is_digit (c : ascii) : bool := (48 <=? code c) && (code c <=? 57).
Definition digit (d : Z) : ascii := ascii_of_N (Z.to_N (48 + d)).

(** The digits of a non-negative number below [10 ^ fuel]. *)
Fixpoint digits (fuel : nat) (n : Z) (acc : bytes) : bytes :=
  match fuel with
  | O => acc
  | S f => let acc := digit (n `mod` 10) :: acc in
           if n <? 10 then acc else digits f (n / 10) acc
  end.

(** Twenty digits are enough for every 64-bit value. *)
Definition to_string (z : Z) : bytes :=
  if z <? 0 then "-"%char :: digits 20 (- z) [] else digits 20 z [].

Definition value_from (v : Z) (l : bytes) : Z := fold_left (λ v c, v * 10 + (code c - 48)) l v.
Definition digits_value (l : bytes) : Z := value_from 0 l.

(** [std::from_chars] in base 10: an optional minus sign (signed types only)
    and at least one digit; it stops at the first byte that is not a digit. *)
Inductive from_chars_result :=
| Parsed (v : Z) (rest : bytes)
| InvalidArgument
| OutOfRange.

Definition from_chars (signed : bool) (lo hi : Z) (text : bytes) : from_chars_result :=
  let '(neg, body) :=
    match text with
    | c :: r => if signed && bool_decide (c = "-"%char) then (true, r) else (false, text)
    | [] => (false, text)
    end in
  let '(ds, rest) := span is_digit body in
  match ds with
  | [] => InvalidArgument
  | _ => let v := if neg then - digits_value ds else digits_value ds in
         if (lo <=? v) && (v <=? hi) then Parsed v rest else OutOfRange
  end.

(** ** Lemmas *)
Lemma span_app p l : (span p l).1 ++ (span p l).2 = l.
Proof.
  induction l as [|c l IH]; [done|]. cbn. destruct (p c); [|done].
  destruct (span p l) as [a b]. cbn in *. by rewrite IH.
Qed.

Lemma span_all p l : Forall (λ c, p c = true) (span p l).1.
Proof.
  induction l as [|c l IH]; cbn; [constructor|]. destruct (p c) eqn:E; [|constructor].
  destruct (span p l). by constructor.
Qed.

Lemma span_stop p l : match (span p l).2 with [] => True | c :: _ => p c = false end.
Proof.
  induction l as [|c l IH]; cbn; [done|]. destruct (p c) eqn:E; [|done]. by destruct (span p l).
Qed.

(** A block of bytes that pass the test, then one that does not. *)
Lemma span_block p a b :
  Forall (λ c, p c = true) a → match b with [] => True | c :: _ => p c = false end →
  span p (a ++ b) = (a, b).
Proof.
  induction 1 as [|c a Hc _ IH]; intros Hb; cbn.
  - destruct b as [|c b]; [done|]. cbn. by rewrite Hb.
  - by rewrite Hc, (IH Hb).
Qed.

Lemma code_digit d : 0 ≤ d < 10 → code (digit d) = 48 + d.
Proof. intros H. unfold code, digit. rewrite N_ascii_embedding by lia. lia. Qed.

Lemma is_digit_digit d : 0 ≤ d < 10 → is_digit (digit d) = true.
Proof. intros H. unfold is_digit. rewrite code_digit by done. apply andb_true_iff. lia. Qed.

Lemma digits_all f n acc :
  0 ≤ n → Forall (λ c, is_digit c = true) acc → Forall (λ c, is_digit c = true) (digits f n acc).
Proof.
  revert n acc. induction f as [|f IH]; intros n acc Hn Ha; [done|]. cbn.
  assert (Forall (λ c, is_digit c = true) (digit (n `mod` 10) :: acc)).
  { constructor; [|done]. apply is_digit_digit, Z.mod_pos_bound. lia. }
  destruct (n <? 10); [done|]. apply IH; [apply Z.div_pos; lia|done].
Qed.

Lemma value_from_app v a b : value_from v (a ++ b) = value_from (value_from v a) b.
Proof. apply fold_left_app. Qed.

Lemma value_digits f n acc :
  0 ≤ n < 10 ^ Z.of_nat f → digits_value (digits f n acc) = value_from n acc.
Proof.
  revert n acc. induction f as [|f IH]; intros n acc Hn.
  { cbn in Hn. assert (n = 0) as -> by lia. done. }
  cbn [digits]. pose proof (Z.mod_pos_bound n 10 ltac:(lia)). pose proof (Z.div_mod n 10 ltac:(lia)).
  destruct (Z.ltb_spec n 10).
  - unfold digits_value, value_from. cbn [fold_left]. rewrite code_digit by lia. f_equal.
    rewrite Z.mod_small by lia. lia.
  - rewrite IH.
    + unfold value_from. cbn [fold_left]. rewrite code_digit by lia. f_equal. lia.
    + split; [apply Z.div_pos; lia|]. apply Z.div_lt_upper_bound; [lia|].
      replace (Z.of_nat (S f)) with (1 + Z.of_nat f) in Hn by lia. rewrite Z.pow_add_r in Hn by lia. lia.
Qed.

Lemma value_from_pos l v : Forall (λ c, is_digit c = true) l → 1 ≤ v → 1 ≤ value_from v l.
Proof.
  intros Hl. revert v. induction Hl as [|c l Hc _ IH]; intros v Hv; [done|]. cbn. apply IH.
  apply andb_true_iff in Hc as [Hc%Z.leb_le _]. lia.
Qed.

Lemma value_from_nonneg l v : Forall (λ c, is_digit c = true) l → 0 ≤ v → 0 ≤ value_from v l.
Proof.
  intros Hl. revert v. induction Hl as [|c l Hc _ IH]; intros v Hv; [done|]. cbn. apply IH.
  apply andb_true_iff in Hc as [Hc%Z.leb_le _]. lia.
Qed.

Lemma digits_not_nil f n acc : acc ≠ [] ∨ f ≠ O → digits f n acc ≠ [].
Proof.
  revert n acc. induction f as [|f IH]; intros n acc H; cbn; [by destruct H|].
  destruct (n <? 10); [done|]. apply IH. by left.
Qed.

Lemma digit_not_minus c : is_digit c = true → c ≠ "-"%char.
Proof. intros H ->. done. Qed.

(** The decimal digits of a number that fits. *)
Lemma digits_20 n :
  0 ≤ n < 10 ^ 20 → ∃ c ds, digits 20 n [] = c :: ds ∧ Forall (λ c, is_digit c = true) (c :: ds) ∧
    digits_value (c :: ds) = n.
Proof.
  intros Hn. assert (digits 20 n [] ≠ []) as Hne by (apply digits_not_nil; by right).
  pose proof (digits_all 20 n [] ltac:(lia) ltac:(constructor)) as Hd.
  pose proof (value_digits 20 n [] Hn) as Hv. destruct (digits 20 n []) as [|c ds]; [done|].
  exists c, ds. split_and!; done.
Qed.

(** Writing then reading, with whatever follows that is not a digit. *)
Lemma from_chars_to_string lo hi z rest :
  lo ≤ z ≤ hi → - 10 ^ 20 < z < 10 ^ 20 →
  match rest with [] => True | c :: _ => is_digit c = false end →
  from_chars true lo hi (to_string z ++ rest) = Parsed z rest.
Proof.
  intros Hz Hb Hr. unfold to_string, from_chars. destruct (Z.ltb_spec z 0).
  - destruct (digits_20 (- z)) as (c & ds & -> & Hd & Hv); [lia|]. cbn [app].
    rewrite bool_decide_true by done. cbn [andb]. change (c :: ds ++ rest) with ((c :: ds) ++ rest).
    rewrite span_block, Hv, Z.opp_involutive by done.
    by rewrite (proj2 (Z.leb_le lo z)), (proj2 (Z.leb_le z hi)) by lia.
  - destruct (digits_20 z) as (c & ds & -> & Hd & Hv); [lia|]. cbn [app].
    apply Forall_cons in Hd as Hc. destruct Hc as [Hc _].
    rewrite bool_decide_false by by apply digit_not_minus. cbn [andb].
    change (c :: ds ++ rest) with ((c :: ds) ++ rest). rewrite span_block, Hv by done.
    by rewrite (proj2 (Z.leb_le lo z)), (proj2 (Z.leb_le z hi)) by lia.
Qed.

(** Decimal text contains digits and possibly a minus sign only. *)
Lemma to_string_chars z :
  - 10 ^ 20 < z < 10 ^ 20 → to_string z ≠ [] ∧
  Forall (λ c, is_digit c = true ∨ c = "-"%char) (to_string z).
Proof.
  intros Hz. unfold to_string. destruct (Z.ltb_spec z 0).
  - destruct (digits_20 (- z)) as (c & ds & -> & Hd & _); [lia|]. split; [done|].
    constructor; [by right|]. eapply Forall_impl; [exact Hd|]. by left.
  - destruct (digits_20 z) as (c & ds & -> & Hd & _); [lia|]. split; [done|].
    eapply Forall_impl; [exact Hd|]. by left.
Qed.
End Numbers.
