(* ===== verification/LineBuffer.v ===== *)
(** * From a byte stream back to lines (include/cachex/line_buffer.hpp, src/net/line_buffer.cpp)

    The buffer, its operations, and the property it exists for: however the
    stream is cut into reads, the lines handed out are the lines of the stream. *)
From S2P Require Import Prelude.

Module LineBuffer.

Definition newline : ascii := "010"%char.
Definition carriage_return : ascii := "013"%char.

Record t := mk { buffer_ : bytes }.
Definition new : t := mk [].

Definition append (data : bytes) (b : t) : t := mk (buffer_ b ++ data).

(** [buffer_.find('\n')]. *)
Fixpoint find (c : ascii) (l : bytes) : option nat :=
  match l with
  | [] => None
  | x :: r => if decide (x = c) then Some O else S <$> find c r
  end.

(** [if (!line.empty() && line.back() == '\r') line.pop_back();] *)
Definition strip_cr (line : bytes) : bytes :=
  if bool_decide (last line = Some carriage_return) then removelast line else line.

Definition next_line (b : t) : option bytes * t :=
  match find newline (buffer_ b) with
  | None => (None, b)
  | Some n =>
      let line := take n (buffer_ b) in
      (Some (strip_cr line), mk (drop (S n) (buffer_ b)))
  end.

Definition buffered (b : t) : Z := zlen (buffer_ b).
Definition empty (b : t) : bool := bool_decide (buffer_ b = []).
Definition clear (b : t) : t := mk [].

(** ** What it is for: the lines of a stream *)

(** Cuts a stream at every newline; the last piece has no terminator yet. *)
Fixpoint split_lines (l : bytes) : list bytes * bytes :=
  match l with
  | [] => ([], [])
  | x :: r =>
      let '(ls, tail) := split_lines r in
      if decide (x = newline) then ([] :: ls, tail)
      else match ls with
           | [] => ([], x :: tail)
           | line :: ls => ((x :: line) :: ls, tail)
           end
  end.

(** [while (auto line = buffer.next_line())]: every complete line. *)
Fixpoint drain (fuel : nat) (b : t) : list bytes * t :=
  match fuel with
  | O => ([], b)
  | S f => match next_line b with
           | (None, b) => ([], b)
           | (Some line, b) => let '(ls, b) := drain f b in (line :: ls, b)
           end
  end.

(** A reader that drains the buffer after each read; a pass takes out at most
    one line per buffered byte. *)
Fixpoint feed (reads : list bytes) (b : t) : list bytes * t :=
  match reads with
  | [] => ([], b)
  | data :: reads =>
      let b := append data b in
      let '(ls, b) := drain (S (length (buffer_ b))) b in
      let '(ls', b) := feed reads b in
      (ls ++ ls', b)
  end.

(** ** Lemmas *)
Lemma find_Some c l n : find c l = Some n → l = take n l ++ c :: drop (S n) l ∧ c ∉ take n l.
Proof.
  revert n. induction l as [|x l IH]; intros n H; cbn in H; [done|].
  case_decide; simplify_eq.
  - split; [done|apply not_elem_of_nil].
  - destruct (find c l) as [m|] eqn:E; [|done]. cbn in H. simplify_eq.
    destruct (IH m eq_refl) as [E1 E2]. cbn. split; [by f_equal|]. apply not_elem_of_cons. auto.
Qed.

Lemma find_None c l : find c l = None ↔ c ∉ l.
Proof.
  induction l as [|x l IH]; cbn; [split; auto using not_elem_of_nil|].
  rewrite not_elem_of_cons. case_decide as D; [subst; split; [done|by intros []]|].
  rewrite fmap_None, IH. split; [intros; split; congruence|by intros []].
Qed.

Lemma split_no_newline l : newline ∉ l → split_lines l = ([], l).
Proof.
  induction l as [|x l IH]; intros H; [done|]. apply not_elem_of_cons in H as [Hx Hl].
  cbn. rewrite IH by done. by rewrite decide_False.
Qed.

Lemma split_line a l :
  newline ∉ a →
  split_lines (a ++ newline :: l) = (a :: (split_lines l).1, (split_lines l).2).
Proof.
  intros H. induction a as [|x a IH]; cbn.
  - destruct (split_lines l). by rewrite decide_True.
  - apply not_elem_of_cons in H as [Hx Ha]. rewrite IH by done. by rewrite decide_False.
Qed.

Lemma split_tail l : newline ∉ (split_lines l).2.
Proof.
  induction l as [|x l IH]; cbn; [apply not_elem_of_nil|].
  destruct (split_lines l) as [[|y ls] tail]; case_decide; try done.
  by apply not_elem_of_cons.
Qed.

(** What has no newline yet is completed by what comes next. *)
Lemma split_app a b :
  split_lines (a ++ b) =
  ((split_lines a).1 ++ (split_lines ((split_lines a).2 ++ b)).1, (split_lines ((split_lines a).2 ++ b)).2).
Proof.
  induction a as [|x a IH]; cbn; [by destruct (split_lines b)|]. rewrite IH. clear IH.
  destruct (split_lines a) as [ls tail] eqn:E. cbn.
  pose proof (split_tail a) as Ht. rewrite E in Ht. cbn in Ht.
  case_decide; [done|]. destruct ls as [|line ls]; [|done]. cbn.
  destruct (split_lines (tail ++ b)) as [ls2 t2]. cbn. rewrite decide_False by done. by destruct ls2.
Qed.

Lemma split_length l : (length (split_lines l).1 ≤ length l)%nat.
Proof.
  induction l as [|x l IH]; cbn; [done|]. destruct (split_lines l) as [[|y ls] tail]; case_decide;
    cbn in *; lia.
Qed.

(** Draining yields the lines of the buffer and leaves the rest. *)
Lemma drain_spec fuel b :
  (length (split_lines (buffer_ b)).1 < fuel)%nat →
  drain fuel b = (strip_cr <$> (split_lines (buffer_ b)).1, mk (split_lines (buffer_ b)).2).
Proof.
  revert b. induction fuel as [|f IH]; intros [l] Hf; [lia|]. cbn [drain]. unfold next_line.
  cbn [buffer_] in *. destruct (find newline l) as [n|] eqn:E.
  - apply find_Some in E as [El Hn].
    assert (split_lines l = (take n l :: (split_lines (drop (S n) l)).1, (split_lines (drop (S n) l)).2)) as Hs.
    { rewrite El at 1. by apply split_line. }
    rewrite Hs in Hf |- *. cbn in Hf. rewrite IH by (cbn; lia). done.
  - apply find_None in E. by rewrite split_no_newline.
Qed.

Lemma feed_spec reads b :
  feed reads b = (strip_cr <$> (split_lines (buffer_ b ++ concat reads)).1,
                  mk (split_lines (buffer_ b ++ concat reads)).2) ∨ reads = [].
Proof.
  revert b. induction reads as [|data reads IH]; intros b; [by right|left]. cbn [feed concat].
  rewrite drain_spec by (pose proof (split_length (buffer_ (append data b))); lia). cbn [append buffer_].
  rewrite app_assoc, (split_app (buffer_ b ++ data)). cbn [fst snd].
  destruct (IH (mk (split_lines (buffer_ b ++ data)).2)) as [-> | ->]; cbn [buffer_].
  - by rewrite fmap_app.
  - cbn [feed concat]. rewrite !app_nil_r, (split_no_newline (split_lines _).2) by apply split_tail.
    cbn [fst snd]. by rewrite app_nil_r.
Qed.

(** The lines carry no newline, before and after the carriage return goes. *)
Lemma split_clean l : Forall (λ line, newline ∉ line) (split_lines l).1.
Proof.
  induction l as [|x l IH]; cbn; [constructor|].
  destruct (split_lines l) as [[|line ls] tail]; case_decide; cbn in *.
  - by repeat constructor; apply not_elem_of_nil.
  - constructor.
  - constructor; [apply not_elem_of_nil|done].
  - apply Forall_cons in IH as [H1 H2]. constructor; [by apply not_elem_of_cons|done].
Qed.

Lemma strip_cr_clean line : newline ∉ line → newline ∉ strip_cr line.
Proof.
  intros Hl. unfold strip_cr. case_bool_decide; [|done]. intros Hin. apply Hl.
  destruct line as [|c r] using rev_ind; [done|]. rewrite removelast_last in Hin.
  apply elem_of_app. by left.
Qed.

(** ** The property *)

(** C20.  TCP has no message boundaries: however a byte stream is cut into
    reads, the lines handed out are the lines of the whole stream (a trailing
    carriage return removed), in order, and what stays buffered is the last,
    unterminated piece. *)
Theorem framing_ignores_chunks reads :
  feed reads new =
    (strip_cr <$> (split_lines (concat reads)).1, mk (split_lines (concat reads)).2) ∧
  (∀ line, strip_cr (line ++ [carriage_return]) = line) ∧
  (∀ line, last line ≠ Some carriage_return → strip_cr line = line).
Proof.
  split; [by destruct (feed_spec reads new) as [H| ->]|]. unfold strip_cr. split.
  - intros line. rewrite last_snoc, bool_decide_true by done. apply removelast_last.
  - intros line H. by rewrite bool_decide_false.
Qed.
End LineBuffer.
