(* ===== verification/Protocol.v ===== *)
(** * Requests and replies (include/cachex/protocol.hpp, src/net/protocol.cpp)

    The request parser and the reply formatters, byte for byte. *)
From S2P Require Import Prelude Numbers LineBuffer.

Module Protocol.
Import Numbers.

Definition kMaxLineBytes : Z := 64 * 1024.
Definition kMaxTtlSeconds : Z := 315360000.

Inductive CommandType := Set_ | Get | Delete | Exists_ | Ttl | Ping | Save | Load | Quit.

#[global] Instance CommandType_eq_dec : EqDecision CommandType.
Proof. solve_decision. Defined.

Record Command := mkCommand {
  type : CommandType;
  key : bytes;
  value : bytes;
  ttl : option Z  (** seconds, [SET] only *)
}.

(** [ParseResult]: a command, or the reason there is none. *)
Inductive ParseResult :=
| succeed (command : Command)
| fail (error : bytes).

#[global] Instance Command_eq_dec : EqDecision Command.
Proof. solve_decision. Defined.
#[global] Instance ParseResult_eq_dec : EqDecision ParseResult.
Proof. solve_decision. Defined.

(** ** The parser *)
Definition is_separator (c : ascii) : bool :=
  bool_decide (c = " "%char) || bool_decide (c = "009"%char).

(** The loop of [tokenize]: skip separators, stop at the end, take a word.  Each
    turn but the last consumes a byte, so the length of the line is enough. *)
Fixpoint tokenize_loop (fuel : nat) (line : bytes) : list bytes :=
  match fuel with
  | O => []
  | S f =>
      let rest := (span is_separator line).2 in
      match rest with
      | [] => []
      | _ => let '(word, rest) := span (λ c, negb (is_separator c)) rest in
             word :: tokenize_loop f rest
      end
  end.

Definition tokenize (line : bytes) : list bytes := tokenize_loop (S (length line)) line.

Definition upper (c : ascii) : ascii :=
  if (97 <=? code c) && (code c <=? 122) then ascii_of_N (Z.to_N (code c - 97 + 65)) else c.
Definition to_upper (text : bytes) : bytes := upper <$> text.

Definition quote : bytes := $"'".

Definition quoted (text : bytes) : bytes :=
  quote ++ take 32 text ++ (if (32 <? zlen text) then $"..." else []) ++ quote.

(** [from_chars] on a [long long], all of the text. *)
Definition parse_integer (text : bytes) : option Z :=
  match text with
  | [] => None
  | _ => match from_chars true i64_min i64_max text with
         | Parsed v [] => Some v
         | _ => None
         end
  end.

Definition wrong_arguments (name expected : bytes) : bytes :=
  $"wrong number of arguments for " ++ quote ++ name ++ quote ++
  $" (expected " ++ quote ++ expected ++ quote ++ $")".

Definition parse_key_only (type : CommandType) (name : bytes) (tokens : list bytes) : ParseResult :=
  match tokens with
  | [_; key] => succeed (mkCommand type key [] None)
  | _ => fail (wrong_arguments name (name ++ $" key"))
  end.

Definition parse_no_args (type : CommandType) (name : bytes) (tokens : list bytes) : ParseResult :=
  match tokens with
  | [_] => succeed (mkCommand type [] [] None)
  | _ => fail (wrong_arguments name name)
  end.

(** The [SET] branch of [parse_command]. *)
Definition parse_ttl (key value text : bytes) : ParseResult :=
  match parse_integer text with
  | None => fail ($"invalid TTL " ++ quoted text ++ $" (expected a whole number of seconds)")
  | Some seconds =>
      if seconds <? 0 then fail $"TTL must not be negative"
      else if kMaxTtlSeconds <? seconds then
        fail ($"TTL too large (maximum " ++ to_string kMaxTtlSeconds ++ $" seconds)")
      else succeed (mkCommand Set_ key value (Some seconds))
  end.

Definition parse_set (tokens : list bytes) : ParseResult :=
  match tokens with
  | [_; key; value] => succeed (mkCommand Set_ key value None)
  | [_; key; value; seconds] => parse_ttl key value seconds
  | _ => fail (wrong_arguments $"SET" $"SET key value [ttl_seconds]")
  end.

Definition parse_command (line : bytes) : ParseResult :=
  let tokens := tokenize line in
  match tokens with
  | [] => fail $"empty command"
  | first :: _ =>
      let verb := to_upper first in
      if bool_decide (verb = $"SET") then parse_set tokens
      else if bool_decide (verb = $"GET") then parse_key_only Get $"GET" tokens
      else if bool_decide (verb = $"DELETE") || bool_decide (verb = $"DEL")
        then parse_key_only Delete $"DELETE" tokens
      else if bool_decide (verb = $"EXISTS") then parse_key_only Exists_ $"EXISTS" tokens
      else if bool_decide (verb = $"TTL") then parse_key_only Ttl $"TTL" tokens
      else if bool_decide (verb = $"PING") then parse_no_args Ping $"PING" tokens
      else if bool_decide (verb = $"SAVE") then parse_no_args Save $"SAVE" tokens
      else if bool_decide (verb = $"LOAD") then parse_no_args Load $"LOAD" tokens
      else if bool_decide (verb = $"QUIT") then parse_no_args Quit $"QUIT" tokens
      else fail ($"unknown command " ++ quoted first)
  end.

Definition command_name (type : CommandType) : bytes :=
  match type with
  | Set_ => $"SET" | Get => $"GET" | Delete => $"DELETE" | Exists_ => $"EXISTS" | Ttl => $"TTL"
  | Ping => $"PING" | Save => $"SAVE" | Load => $"LOAD" | Quit => $"QUIT"
  end.

(** ** The replies *)
Definition line_end : bytes := [LineBuffer.newline].
Definition reply_ok : bytes := $"+OK" ++ line_end.
Definition reply_pong : bytes := $"+PONG" ++ line_end.
Definition reply_bye : bytes := $"+BYE" ++ line_end.
Definition reply_no_expiry : bytes := $"+NOEXPIRE" ++ line_end.
Definition reply_value (value : bytes) : bytes := $"=" ++ value ++ line_end.
Definition reply_nil : bytes := $"_" ++ line_end.
Definition reply_integer (value : Z) : bytes := $":" ++ to_string value ++ line_end.
Definition reply_error (message : bytes) : bytes := $"-ERR " ++ message ++ line_end.

(** ** What the parser accepts *)

(** What separates words: a space or a tab. *)
Definition blank (c : ascii) : bool := bool_decide (c = " "%char) || bool_decide (c = "009"%char).

(** A token: not empty, no blank in it. *)
Definition is_token (w : bytes) : bool :=
  negb (bool_decide (w = [])) && forallb (λ c, negb (blank c)) w.

(** The commands a request line can express. *)
Definition expressible (c : Command) : bool :=
  match type c with
  | Set_ => is_token (key c) && is_token (value c) &&
            match ttl c with Some s => (0 <=? s) && (s <=? kMaxTtlSeconds) | None => true end
  | Get | Delete | Exists_ | Ttl =>
      is_token (key c) && bool_decide (value c = []) && bool_decide (ttl c = None)
  | Ping | Save | Load | Quit =>
      bool_decide (key c = []) && bool_decide (value c = []) && bool_decide (ttl c = None)
  end.

(** The words of a request. *)
Definition words (c : Command) : list bytes :=
  command_name (type c) ::
  match type c with
  | Set_ => key c :: value c :: match ttl c with Some s => [to_string s] | None => [] end
  | Get | Delete | Exists_ | Ttl => [key c]
  | Ping | Save | Load | Quit => []
  end.

(** A request line: the words, each preceded by a run of separators, and a
    final run. *)
Definition separators (s : bytes) : bool := forallb blank s.

Fixpoint layout (gaps : list bytes) (ws : list bytes) (final : bytes) : bytes :=
  match gaps, ws with
  | g :: gaps, w :: ws => g ++ w ++ layout gaps ws final
  | _, _ => final
  end.

(** ** Lemmas on [tokenize] *)
Lemma forallb_Forall_true {A} (p : A → bool) l : forallb p l = true ↔ Forall (λ c, p c = true) l.
Proof. rewrite forallb_forall, List.Forall_forall. done. Qed.

Lemma is_token_spec w : is_token w = true → w ≠ [] ∧ Forall (λ c, negb (is_separator c) = true) w.
Proof.
  unfold is_token. rewrite andb_true_iff, negb_true_iff, bool_decide_eq_false, forallb_Forall_true. done.
Qed.

Lemma tokenize_loop_end fuel s : separators s = true → tokenize_loop fuel s = [].
Proof.
  intros Hs%forallb_Forall_true. destruct fuel; [done|]. cbn.
  rewrite <- (app_nil_r s). by rewrite span_block.
Qed.

(** One word of a line. *)
Lemma tokenize_loop_word fuel g w l :
  separators g = true → is_token w = true →
  match l with [] => True | c :: _ => is_separator c = true end →
  tokenize_loop (S fuel) (g ++ w ++ l) = w :: tokenize_loop fuel l.
Proof.
  intros Hg%forallb_Forall_true [Hne Hw]%is_token_spec Hl. cbn [tokenize_loop].
  destruct w as [|c w]; [done|]. apply Forall_cons in Hw as Hc. destruct Hc as [Hc _].
  rewrite span_block; [|done|cbn; by apply negb_true_iff]. cbn [snd app].
  change (c :: w ++ l) with ((c :: w) ++ l). rewrite span_block; [done|done|].
  destruct l; [done|]. by rewrite Hl.
Qed.

(** The head of what follows a word: the end, or a separator. *)
Lemma layout_head gaps ws final :
  Forall (λ g, separators g = true ∧ g ≠ []) gaps → separators final = true →
  match layout gaps ws final with [] => True | c :: _ => is_separator c = true end.
Proof.
  assert (∀ g l, separators g = true → g ≠ [] →
    match g ++ l with [] => True | c :: _ => is_separator c = true end) as Hhead.
  { intros [|c g] l H Hg; [done|]. cbn in *. by apply andb_true_iff in H as [? _]. }
  intros Hg Hf. destruct Hg as [|g gaps [H1 H2] _], ws as [|w ws]; cbn; try by apply Hhead.
  all: destruct final as [|c f]; [done|]; cbn in Hf; by apply andb_true_iff in Hf as [? _].
Qed.

Lemma tokenize_loop_layout fuel gaps ws final :
  Forall (λ g, separators g = true ∧ g ≠ []) gaps → Forall (λ w, is_token w = true) ws →
  separators final = true → length gaps = length ws → (length ws < fuel)%nat →
  tokenize_loop fuel (layout gaps ws final) = ws.
Proof.
  intros Hg Hw Hf Hlen. revert fuel gaps Hg Hlen.
  induction Hw as [|w ws Hw Hws IH]; intros fuel gaps Hg Hlen Hfuel.
  - destruct gaps; [|done]. by apply tokenize_loop_end.
  - destruct gaps as [|g gaps]; [done|]. apply Forall_cons in Hg as [[Hg1 Hg2] Hg].
    cbn in Hlen, Hfuel. destruct fuel as [|fuel]; [lia|]. cbn [layout].
    rewrite tokenize_loop_word; [|done|done|by apply layout_head].
    by rewrite IH by (done || lia).
Qed.

(** The words of a line, however they are spaced; leading separators are
    allowed but not needed. *)
Lemma tokenize_layout g gaps w ws final :
  separators g = true → Forall (λ g, separators g = true ∧ g ≠ []) gaps →
  Forall (λ w, is_token w = true) (w :: ws) → separators final = true → length gaps = length ws →
  tokenize (g ++ w ++ layout gaps ws final) = w :: ws.
Proof.
  intros Hg Hgaps [Hw Hws]%Forall_cons Hf Hlen. unfold tokenize.
  rewrite tokenize_loop_word; [|done|done|by apply layout_head]. f_equal.
  apply tokenize_loop_layout; try done. rewrite !length_app.
  apply is_token_spec in Hw as [Hw _]. destruct w as [|c w]; [done|]. cbn [length].
  assert (length ws ≤ length (layout gaps ws final))%nat; [|lia].
  clear -Hgaps Hlen. revert gaps Hgaps Hlen. induction ws as [|w ws IH]; intros gaps Hg Hlen; [cbn; lia|].
  destruct gaps as [|g gaps]; [done|]. apply Forall_cons in Hg as [[_ Hg2] Hg]. cbn.
  rewrite !length_app. specialize (IH gaps Hg ltac:(cbn in Hlen; lia)).
  destruct g; [done|]. cbn. lia.
Qed.

(** Every word [tokenize] yields is a token. *)
Lemma tokenize_loop_tokens fuel line : Forall (λ w, is_token w = true) (tokenize_loop fuel line).
Proof.
  revert line. induction fuel as [|f IH]; intros line; cbn; [constructor|].
  pose proof (span_stop is_separator line) as Hstop.
  destruct (span is_separator line).2 as [|c r]; [constructor|]. cbn. rewrite Hstop. cbn.
  pose proof (span_all (λ c, negb (is_separator c)) r) as Hall.
  destruct (span _ r) as [word rest]. constructor; [|apply IH]. cbn [fst] in Hall.
  apply andb_true_iff. split; [by rewrite bool_decide_false|]. apply forallb_Forall_true. constructor; [|done].
  by apply negb_true_iff.
Qed.

Lemma token_no_newline line w : LineBuffer.newline ∉ line → w ∈ tokenize line → LineBuffer.newline ∉ w.
Proof.
  unfold tokenize. generalize (S (length line)). intros fuel. revert line.
  induction fuel as [|f IH]; intros line Hl; cbn; [by intros ?%not_elem_of_nil|].
  pose proof (span_app is_separator line) as E1. set (rest := (span is_separator line).2) in *.
  assert (LineBuffer.newline ∉ rest) as Hr.
  { intros H. apply Hl. rewrite <- E1. apply elem_of_app. by right. }
  clearbody rest. destruct rest as [|c r]; [by intros ?%not_elem_of_nil|].
  pose proof (span_app (λ c, negb (is_separator c)) (c :: r)) as E2.
  destruct (span _ (c :: r)) as [word tail]. cbn in E2. rewrite <- E2 in Hr.
  apply not_elem_of_app in Hr as [Hword Htail]. intros [->|Hw]%elem_of_cons; [done|].
  by apply (IH tail).
Qed.

(** ** Lemmas on the branches of [parse_command] *)
Lemma parse_integer_to_string z : i64_min ≤ z ≤ i64_max → parse_integer (to_string z) = Some z.
Proof.
  intros Hz. unfold i64_min, i64_max in Hz. unfold parse_integer.
  destruct (to_string_chars z) as [Hne _]; [lia|]. destruct (to_string z) eqn:E; [done|]. rewrite <- E.
  rewrite <- (app_nil_r (to_string z)), from_chars_to_string; [done|unfold i64_min, i64_max; lia|lia|done].
Qed.

Lemma to_string_token z : - 10 ^ 20 < z < 10 ^ 20 → is_token (to_string z) = true.
Proof.
  intros Hz. destruct (to_string_chars z Hz) as [Hne Hd]. unfold is_token.
  rewrite bool_decide_false by done. apply forallb_Forall_true. eapply Forall_impl; [exact Hd|].
  intros c Hc. unfold blank.
  rewrite !bool_decide_false; [done|intros ->; by destruct Hc..].
Qed.

(** The verbs a command answers to: its name, letter by letter in either case. *)
Definition either_case (u c : ascii) : bool :=
  bool_decide (c = u) || ((65 <=? code u) && (code u <=? 90) && (code c =? code u + 32)).

Fixpoint spelled (name v : bytes) : bool :=
  match name, v with
  | [], [] => true
  | u :: name, c :: v => either_case u c && spelled name v
  | _, _ => false
  end.

Definition verb_of (t : CommandType) (v : bytes) : bool :=
  spelled (command_name t) v || (bool_decide (t = Delete) && spelled $"DEL" v).

Lemma upper_either u c : upper u = u → either_case u c = true → upper c = u.
Proof.
  intros Hu [->%bool_decide_eq_true|H]%orb_true_iff; [done|].
  apply andb_true_iff in H as [H1 H2%Z.eqb_eq]. apply andb_true_iff in H1 as [H3%Z.leb_le H4%Z.leb_le].
  unfold upper. rewrite (proj2 (Z.leb_le 97 _)), (proj2 (Z.leb_le _ 122)) by lia. cbn [andb].
  rewrite H2. unfold code in *. replace (Z.of_N (N_of_ascii u) + 32 - 97 + 65) with (Z.of_N (N_of_ascii u)) by lia.
  rewrite N2Z.id. apply ascii_N_embedding.
Qed.

Lemma spelled_upper name v : to_upper name = name → spelled name v = true → to_upper v = name.
Proof.
  revert v. induction name as [|u name IH]; intros [|c v] Hn Hs; try done. cbn in *.
  injection Hn as Hu Hn. apply andb_true_iff in Hs as [Hc Hs]. unfold to_upper in *. cbn.
  by rewrite (upper_either u c Hu Hc), IH.
Qed.

(** The branch a verb selects. *)
Lemma parse_command_branch line v args t :
  tokenize line = v :: args → verb_of t v = true →
  parse_command line =
  match t with
  | Set_ => parse_set (v :: args)
  | Get | Delete | Exists_ | Ttl => parse_key_only t (command_name t) (v :: args)
  | Ping | Save | Load | Quit => parse_no_args t (command_name t) (v :: args)
  end.
Proof.
  intros Ht Hv. unfold parse_command. rewrite Ht. unfold verb_of in Hv.
  apply orb_true_iff in Hv as [Hv%spelled_upper|Hv]; [|by destruct t|].
  - rewrite Hv. by destruct t.
  - apply andb_true_iff in Hv as [->%bool_decide_eq_true Hv%spelled_upper]; [|done]. by rewrite Hv.
Qed.

(** A request whose words are those of an expressible command. *)
Lemma parse_words c v :
  expressible c = true → verb_of (type c) v = true →
  match type c with
  | Set_ => parse_set (v :: tail (words c))
  | Get | Delete | Exists_ | Ttl => parse_key_only (type c) (command_name (type c)) (v :: tail (words c))
  | Ping | Save | Load | Quit => parse_no_args (type c) (command_name (type c)) (v :: tail (words c))
  end = succeed c.
Proof.
  destruct c as [t k x s]. unfold expressible, words. cbn [type key value ttl].
  destruct t; cbn; intros H Hv; rewrite ?andb_true_iff in H; destruct_and?;
    repeat match goal with E : bool_decide _ = true |- _ => apply bool_decide_eq_true in E end;
    subst; try done.
  destruct s as [s|]; [|done]. cbn. unfold parse_ttl.
  match goal with E : context [s <=? _] |- _ => apply andb_true_iff in E as [?%Z.leb_le ?%Z.leb_le] end.
  unfold kMaxTtlSeconds in *. rewrite parse_integer_to_string by (unfold i64_min, i64_max; lia).
  rewrite (proj2 (Z.ltb_ge s 0)), (proj2 (Z.ltb_ge _ s)) by lia. done.
Qed.

Lemma words_tokens c : expressible c = true → Forall (λ w, is_token w = true) (tail (words c)).
Proof.
  destruct c as [t k x s]. unfold expressible, words. cbn [type key value ttl tail].
  destruct t; intros H; rewrite ?andb_true_iff in H; destruct_and?; repeat constructor; try done.
  destruct s as [s|]; [|constructor]. constructor; [|constructor].
  match goal with E : context [s <=? _] |- _ => apply andb_true_iff in E as [?%Z.leb_le ?%Z.leb_le] end.
  unfold kMaxTtlSeconds in *. apply to_string_token. lia.
Qed.

(** ** Properties *)

(** C21.  Printing a command and parsing it back gives the command, for every
    command the protocol can express, however its words are spaced with runs of
    spaces and tabs, and in whatever case the verb is typed ([DEL] included). *)
Theorem parse_print_command c v g gaps final
    (Hc : expressible c = true) (Hv : verb_of (type c) v = true) (Hvt : is_token v = true)
    (Hg : separators g = true) (Hgaps : Forall (λ g, separators g = true ∧ g ≠ []) gaps)
    (Hlen : length gaps = length (tail (words c))) (Hf : separators final = true) :
  parse_command (g ++ v ++ layout gaps (tail (words c)) final) = succeed c.
Proof.
  rewrite (parse_command_branch _ v (tail (words c)) (type c)); [by apply parse_words| |done].
  apply tokenize_layout; try done. constructor; [done|by apply words_tokens].
Qed.

(** The error texts are short and carry no newline of their own. *)
Definition error_ok (e : bytes) : Prop := (LineBuffer.newline ∉ e) ∧ zlen e ≤ 100.

Lemma quoted_ok w : LineBuffer.newline ∉ w → (LineBuffer.newline ∉ quoted w) ∧ zlen (quoted w) ≤ 37.
Proof.
  intros Hw. unfold quoted, quote. split.
  - rewrite !not_elem_of_app. split_and!.
    + by apply (bool_decide_eq_true _).
    + intros H. apply Hw. eapply elem_of_sublist; [exact H|]. apply sublist_take.
    + destruct (32 <? zlen w); by apply (bool_decide_eq_true _).
    + by apply (bool_decide_eq_true _).
  - unfold zlen. rewrite !length_app, length_take.
    destruct (32 <? Z.of_nat (length w)); cbn [length list_ascii_of_string]; lia.
Qed.

Lemma no_newline_literal (l : bytes) :
  forallb (λ c, negb (bool_decide (c = LineBuffer.newline))) l = true → LineBuffer.newline ∉ l.
Proof.
  intros H Hin. rewrite forallb_forall in H. apply list_elem_of_In, H in Hin. done.
Qed.

(** An error text built around a quoted token. *)
Lemma error_around a w b :
  LineBuffer.newline ∉ w → LineBuffer.newline ∉ a → LineBuffer.newline ∉ b →
  zlen a + zlen b ≤ 63 → error_ok (a ++ quoted w ++ b).
Proof.
  intros Hw Ha Hb Hlen. destruct (quoted_ok w Hw) as [H1 H2]. split.
  - by rewrite !not_elem_of_app.
  - unfold zlen in *. rewrite !length_app. lia.
Qed.

(** What a result promises, given the words it came from. *)
Definition result_ok (r : ParseResult) : Prop :=
  match r with
  | succeed c => expressible c = true ∧ (LineBuffer.newline ∉ key c) ∧ (LineBuffer.newline ∉ value c)
  | fail e => error_ok e
  end.

Section Branches.
Context (ws : list bytes) (Htok : Forall (λ w, is_token w = true) ws)
  (Hnl : ∀ w, w ∈ ws → LineBuffer.newline ∉ w).

Ltac literal_error := split; [by apply no_newline_literal|by vm_compute].

Lemma key_only_ok t :
  t = Get ∨ t = Delete ∨ t = Exists_ ∨ t = Ttl → result_ok (parse_key_only t (command_name t) ws).
Proof.
  intros Ht. assert (error_ok (wrong_arguments (command_name t) (command_name t ++ $" key"))) as He.
  { destruct t; literal_error. }
  destruct ws as [|v [|k [|]]]; try done. cbn [parse_key_only].
  apply Forall_cons in Htok as [_ [Hk _]%Forall_cons]. split_and!; cbn [key value].
  - by destruct Ht as [->|[->|[->| ->]]]; unfold expressible; cbn; rewrite Hk.
  - apply Hnl. rewrite !elem_of_cons. tauto.
  - apply not_elem_of_nil.
Qed.

Lemma no_args_ok t :
  t = Ping ∨ t = Save ∨ t = Load ∨ t = Quit → result_ok (parse_no_args t (command_name t) ws).
Proof.
  intros Ht. assert (error_ok (wrong_arguments (command_name t) (command_name t))) as He.
  { destruct t; literal_error. }
  destruct ws as [|v [|]]; try done. cbn [parse_no_args].
  split_and!; cbn [key value]; [|apply not_elem_of_nil..]. by destruct Ht as [->|[->|[->| ->]]].
Qed.

Lemma ttl_ok k v s :
  is_token k = true → is_token v = true → LineBuffer.newline ∉ k → LineBuffer.newline ∉ v →
  LineBuffer.newline ∉ s → result_ok (parse_ttl k v s).
Proof.
  intros Hk Hv Hk' Hv' Hs. unfold parse_ttl. destruct (parse_integer s) as [z|].
  - destruct (Z.ltb_spec z 0); [literal_error|]. destruct (Z.ltb_spec kMaxTtlSeconds z); [literal_error|].
    split; [|done]. unfold expressible. cbn. rewrite Hk, Hv. cbn. apply andb_true_iff. lia.
  - by apply error_around; [done|apply no_newline_literal..|].
Qed.

Lemma set_ok : result_ok (parse_set ws).
Proof.
  assert (error_ok (wrong_arguments $"SET" $"SET key value [ttl_seconds]")) as He by literal_error.
  destruct ws as [|v [|k [|x [|s [|]]]]]; try done; cbn [parse_set];
    apply Forall_cons in Htok as [_ [Hk [Hx _]%Forall_cons]%Forall_cons].
  - split_and!; [unfold expressible; cbn; by rewrite Hk, Hx|apply Hnl; rewrite !elem_of_cons; tauto..].
  - apply ttl_ok; [done..|apply Hnl; rewrite !elem_of_cons; tauto|apply Hnl; rewrite !elem_of_cons; tauto|apply Hnl; rewrite !elem_of_cons; tauto].
Qed.
End Branches.

Lemma parse_result_ok line : LineBuffer.newline ∉ line → result_ok (parse_command line).
Proof.
  intros Hline.
  pose proof (tokenize_loop_tokens (S (length line)) line) as Htok. fold (tokenize line) in Htok.
  pose proof (λ w, token_no_newline line w Hline) as Hnl. unfold parse_command.
  destruct (tokenize line) as [|v ws] eqn:E; [split; [by apply no_newline_literal|by vm_compute]|].
  repeat (case_match; [by (apply set_ok || apply (key_only_ok _ Htok Hnl) || apply (no_args_ok _ Htok Hnl)); auto|]).
  destruct (quoted_ok v) as [Hq Hlen]; [apply Hnl; rewrite !elem_of_cons; tauto|]. split.
  - rewrite not_elem_of_app. split; [by apply no_newline_literal|done].
  - unfold zlen in *. rewrite length_app. cbn [length list_ascii_of_string]. lia.
Qed.

(** C22.  Every line has a result.  A parsed command is one the protocol can
    express: its keys and values are non-empty tokens, its TTL is between 0 and
    the ten-year limit (so that no deadline it leads to overflows).  A rejected
    line yields a one-line error text of at most 100 bytes, however long the
    line: a junk token is not reflected back in full. *)
Theorem parse_command_sound line (Hline : LineBuffer.newline ∉ line) : result_ok (parse_command line).
Proof. by apply parse_result_ok. Qed.

(** ** Witnesses *)
Lemma parse_print_command_witness :
  parse_command ($"  " ++ $"set" ++ layout [$" "; $"  "; $" "] [$"k"; $"v"; $"60"] $" ") =
  succeed (mkCommand Set_ $"k" $"v" (Some 60)).
Proof.
  apply (parse_print_command (mkCommand Set_ $"k" $"v" (Some 60)) $"set" $"  " [$" "; $"  "; $" "] $" ");
    try reflexivity. repeat constructor; discriminate.
Defined.

Lemma parse_command_sound_witness : result_ok (parse_command $"GET") ∧
  parse_command $"GET" = fail $"wrong number of arguments for 'GET' (expected 'GET key')".
Proof.
  split; [|reflexivity]. apply parse_command_sound. apply no_newline_literal. reflexivity.
Defined.
End Protocol.
