(* ===== verification/Demo.v ===== *)
(** * The in-process demonstration (src/main.cpp)

    The program prints what a few calls on three caches answer.  [clock i] is
    the reading of the clock during the i-th call that may need one; the output
    is one byte string. *)
From S2P Require Import Prelude Numbers RecencyList Lru Cache LineBuffer Protocol.

Module Demo.
Import Numbers.
Import Protocol (line_end).

Definition print (label : bytes) (v : option bytes) : bytes :=
  $"  " ++ label ++ $" -> " ++ default $"(nil)" v ++ line_end.

Definition print_order (c : Cache.t) : bytes :=
  $"  order (newest first): " ++ concat ((λ k, k ++ $" ") <$> Cache.keys_by_recency c) ++ line_end.

(** [std::boolalpha]. *)
Definition show_bool (b : bool) : bytes := if b then $"true" else $"false".

(** A key as the text shows it, in double quotes. *)
Definition literal (k : bytes) : bytes := ["034"%char] ++ k ++ ["034"%char].

(** The lambda [describe]. *)
Definition describe (now : time_point) (k : bytes) (c : Cache.t) : outcome (bytes * Cache.t) :=
  '(info, c) ← Cache.ttl now k c;
  Ret ($"  ttl " ++ k ++ $" -> " ++
       match state info with
       | Missing => $"missing"
       | Persistent => $"no expiry"
       | Expiring => to_string (remaining info) ++ $" ms left"
       end ++ line_end, c).

(** The three parts of [main]. *)
Definition basic_operations (clock : nat → time_point) : outcome bytes :=
  c ← Cache.set $"user:1" $"ada" Cache.Cache_unbounded;
  c ← Cache.set $"user:2" $"grace" c;
  c ← Cache.set $"user:1" $"ada lovelace" c;
  '(v1, c) ← Cache.get (clock 0%nat) $"user:1" c;
  '(v2, c) ← Cache.get (clock 1%nat) $"user:42" c;
  '(b1, c) ← Cache.erase (clock 2%nat) $"user:2" c;
  '(b2, c) ← Cache.erase (clock 3%nat) $"user:2" c;
  Ret (line_end ++ $"[1] Basic operations (unbounded)" ++ line_end ++
       print $"get user:1 " v1 ++ print $"get user:42" v2 ++
       $"  erase user:2 -> " ++ show_bool b1 ++ $", again -> " ++ show_bool b2 ++
       $", size -> " ++ to_string (Cache.csize c) ++ line_end).

Definition lru_eviction (clock : nat → time_point) : outcome bytes :=
  c ← Cache.set $"a" $"1" (Cache.Cache_bounded 3);
  c ← Cache.set $"b" $"2" c;
  c ← Cache.set $"c" $"3" c;
  let o1 := print_order c in
  '(_, c) ← Cache.get (clock 4%nat) $"a" c;
  let o2 := print_order c in
  c ← Cache.set $"d" $"4" c;
  let o3 := print_order c in
  b ← Cache.contains (clock 5%nat) $"b" c;
  a ← Cache.contains (clock 6%nat) $"a" c;
  Ret (line_end ++ $"[2] LRU eviction (capacity 3)" ++ line_end ++ o1 ++
       $"  get(" ++ literal $"a" ++ $") -- reading it makes it the newest" ++ line_end ++ o2 ++
       $"  set(" ++ literal $"d" ++ $") -- at capacity, so the oldest (" ++
       literal $"b" ++ $") is evicted" ++ line_end ++ o3 ++
       $"  contains b -> " ++ show_bool b ++ $", contains a -> " ++ show_bool a ++
       $", evictions -> " ++ to_string (Cache.evictions c) ++ line_end).

Definition lazy_expiration (clock : nat → time_point) : outcome bytes :=
  c ← Cache.set $"permanent" $"stays" Cache.Cache_unbounded;
  c ← Cache.set_ttl (clock 7%nat) $"fleeting" $"goes" 50 c;
  '(d1, c) ← describe (clock 8%nat) $"permanent" c;
  '(d2, c) ← describe (clock 9%nat) $"fleeting" c;
  '(d3, c) ← describe (clock 10%nat) $"permanent" c;
  '(d4, c) ← describe (clock 11%nat) $"fleeting" c;
  Ret (line_end ++ $"[3] TTL (lazy expiration)" ++ line_end ++ d1 ++ d2 ++
       $"  ... waiting 150 ms ..." ++ line_end ++ d3 ++ d4 ++
       $"  size -> " ++ to_string (Cache.csize c) ++ $", expired removals -> " ++
       to_string (Cache.expired_removals c) ++ line_end).

Definition main (version : bytes) (clock : nat → time_point) : outcome bytes :=
  p1 ← basic_operations clock;
  p2 ← lru_eviction clock;
  p3 ← lazy_expiration clock;
  Ret ($"CacheX " ++ version ++ $" -- in-process cache demo (no server yet)" ++ line_end ++ p1 ++ p2 ++ p3).

(** What it prints does not depend on the clock where no key expires. *)
Lemma untimed_parts clock :
  basic_operations clock = Ret (line_end ++ $"[1] Basic operations (unbounded)" ++ line_end ++
    $"  get user:1  -> ada lovelace" ++ line_end ++ $"  get user:42 -> (nil)" ++ line_end ++
    $"  erase user:2 -> true, again -> false, size -> 1" ++ line_end) ∧
  lru_eviction clock = Ret (line_end ++ $"[2] LRU eviction (capacity 3)" ++ line_end ++
    $"  order (newest first): c b a " ++ line_end ++
    $"  get(" ++ literal $"a" ++ $") -- reading it makes it the newest" ++ line_end ++
    $"  order (newest first): a c b " ++ line_end ++
    $"  set(" ++ literal $"d" ++ $") -- at capacity, so the oldest (" ++ literal $"b" ++ $") is evicted" ++ line_end ++
    $"  order (newest first): d a c " ++ line_end ++
    $"  contains b -> false, contains a -> true, evictions -> 1" ++ line_end).
Proof. split; vm_compute; reflexivity. Qed.

(** The key set for 50 ms is alive a moment later and gone after the sleep. *)
Lemma timed_part :
  lazy_expiration (λ i, if (i <? 10)%nat then 1000000 * Z.of_nat i else 160000000) =
  Ret (line_end ++ $"[3] TTL (lazy expiration)" ++ line_end ++ $"  ttl permanent -> no expiry" ++ line_end ++
    $"  ttl fleeting -> 48 ms left" ++ line_end ++ $"  ... waiting 150 ms ..." ++ line_end ++
    $"  ttl permanent -> no expiry" ++ line_end ++ $"  ttl fleeting -> missing" ++ line_end ++
    $"  size -> 1, expired removals -> 1" ++ line_end).
Proof. vm_compute. reflexivity. Qed.
End Demo.
