(* ===== verification/Stream.v ===== *)
(** * Input streams as the snapshot loader uses them

    The part of [std::ifstream] that [PersistenceManager::load] calls, with the
    state bits that decide what a later call does: an extraction that reaches
    the end of the file sets [eofbit]; the next one then fails before it reads;
    [tellg] of a stream that is not good returns -1.  Extraction follows the
    "C" locale. *)
From S2P Require Import Prelude Numbers.

Module Stream.
Import Numbers.

Record t := mk {
  file : bytes;     (** all of it *)
  rest : bytes;     (** from the read position on *)
  eofbit : bool;
  failbit : bool
}.

Definition open (content : bytes) : t := mk content content false false.
Definition good (s : t) : bool := negb (eofbit s) && negb (failbit s).

(** [!in]. *)
Definition failed (s : t) : bool := failbit s.

Definition is_space (c : ascii) : bool := bool_decide (code c = 32) || ((9 <=? code c) && (code c <=? 13)).

(** Reads up to [rest]; at the end of the file [eofbit] is set. *)
Definition advance (r : bytes) (s : t) : t := mk (file s) r (eofbit s) (failbit s).
Definition at_end (s : t) : t := mk (file s) (rest s) true (failbit s).
Definition fail (s : t) : t := mk (file s) (rest s) (eofbit s) true.

Definition note_end (s : t) : t := match rest s with [] => at_end s | _ => s end.

(** The sentry of a formatted extraction: skip white space, fail at the end. *)
Definition skip_space (s : t) : t :=
  if good s then
    let s := advance (span is_space (rest s)).2 s in
    match rest s with [] => fail (at_end s) | _ => s end
  else fail s.

(** [in >> std::string]: up to the next white space. *)
Definition read_word (s : t) : bytes * t :=
  let s := skip_space s in
  if failed s then ([], s)
  else let '(w, r) := span (λ c, negb (is_space c)) (rest s) in (w, note_end (advance r s)).

(** [in >> integer]: an optional sign and digits.  No digits, or a value out of
    range, fails; the bytes are consumed either way. *)
Definition accept_digits (lo hi : Z) (neg : bool) (body : bytes) (s : t) : Z * t :=
  let '(ds, r) := span is_digit body in
  let s := note_end (advance r s) in
  match ds with
  | [] => (0, fail s)
  | _ => let v := if neg then - digits_value ds else digits_value ds in
         if v <? lo then (lo, fail s) else if hi <? v then (hi, fail s) else (v, s)
  end.

Definition read_int (lo hi : Z) (s : t) : Z * t :=
  let s := skip_space s in
  if failed s then (0, s)
  else match rest s with
       | c :: r => if bool_decide (c = "-"%char) then accept_digits lo hi true r s
                   else if bool_decide (c = "+"%char) then accept_digits lo hi false r s
                   else accept_digits lo hi false (rest s) s
       | [] => accept_digits lo hi false [] s
       end.

(** [in.get()], [None] for end of file. *)
Definition get (s : t) : option ascii * t :=
  if good s then
    match rest s with
    | [] => (None, fail (at_end s))
    | c :: r => (Some c, advance r s)
    end
  else (None, fail s).

(** [in.read(p, n)] and [in.gcount()]: the bytes read. *)
Definition read (n : nat) (s : t) : bytes * t :=
  if good s then
    if (length (rest s) <? n)%nat then (rest s, fail (at_end (advance [] s)))
    else (take n (rest s), advance (drop n (rest s)) s)
  else ([], fail s).

(** [in.tellg()]; its sentry fails on a stream that is not good. *)
Definition tellg (s : t) : Z * t :=
  if good s then (zlen (file s) - zlen (rest s), s) else (-1, fail s).

(** ** Lemmas: extraction from a good stream *)
Definition at_ (f r : bytes) : t := mk f r false false.

Lemma skip_space_at f g c r :
  Forall (λ c, is_space c = true) g → is_space c = false → skip_space (at_ f (g ++ c :: r)) = at_ f (c :: r).
Proof. intros Hg Hc. unfold skip_space. cbn. by rewrite span_block. Qed.

Lemma digit_not_space c : is_digit c = true → is_space c = false.
Proof.
  unfold is_digit, is_space. intros [H1%Z.leb_le H2%Z.leb_le]%andb_true_iff.
  rewrite bool_decide_false by lia. cbn. apply andb_false_iff. right. apply Z.leb_gt. lia.
Qed.

(** A number as [operator<<] writes it, after white space and before a byte
    that is not a digit. *)
Lemma read_int_at lo hi f g z c r :
  Forall (λ c, is_space c = true) g → lo ≤ z ≤ hi → - 10 ^ 20 < z < 10 ^ 20 → is_digit c = false →
  read_int lo hi (at_ f (g ++ to_string z ++ c :: r)) = (z, at_ f (c :: r)).
Proof.
  intros Hg Hz Hb Hc. unfold read_int, to_string. destruct (Z.ltb_spec z 0).
  - destruct (digits_20 (- z)) as (d & ds & -> & Hd & Hv); [lia|]. cbn [app].
    rewrite skip_space_at by done. cbn [failed failbit at_ rest].
    rewrite bool_decide_true by done. unfold accept_digits.
    change (d :: ds ++ c :: r) with ((d :: ds) ++ c :: r).
    rewrite span_block by done. rewrite Hv, Z.opp_involutive.
    by rewrite (proj2 (Z.ltb_ge z lo)), (proj2 (Z.ltb_ge hi z)) by lia.
  - destruct (digits_20 z) as (d & ds & -> & Hd & Hv); [lia|]. cbn [app].
    apply Forall_cons in Hd as Hd'. destruct Hd' as [Hd0 _].
    rewrite skip_space_at by auto using digit_not_space. cbn [failed failbit at_ rest].
    rewrite !bool_decide_false by (intros ->; done). unfold accept_digits.
    change (d :: ds ++ c :: r) with ((d :: ds) ++ c :: r). rewrite span_block by done. rewrite Hv.
    by rewrite (proj2 (Z.ltb_ge z lo)), (proj2 (Z.ltb_ge hi z)) by lia.
Qed.

(** The same with nothing, or one byte of white space, in front. *)
Lemma read_int_here lo hi f z c r :
  lo ≤ z ≤ hi → - 10 ^ 20 < z < 10 ^ 20 → is_digit c = false →
  read_int lo hi (at_ f (to_string z ++ c :: r)) = (z, at_ f (c :: r)).
Proof. intros. by apply (read_int_at lo hi f []). Qed.

Lemma read_int_gap lo hi f b z c r :
  is_space b = true → lo ≤ z ≤ hi → - 10 ^ 20 < z < 10 ^ 20 → is_digit c = false →
  read_int lo hi (at_ f (b :: to_string z ++ c :: r)) = (z, at_ f (c :: r)).
Proof. intros. apply (read_int_at lo hi f [b]); try done. by repeat constructor. Qed.

Lemma read_word_at f w c r :
  w ≠ [] → Forall (λ c, negb (is_space c) = true) w → is_space c = true →
  read_word (at_ f (w ++ c :: r)) = (w, at_ f (c :: r)).
Proof.
  intros Hne Hw Hc. unfold read_word. destruct w as [|d w]; [done|].
  apply Forall_cons in Hw as Hd. destruct Hd as [Hd%negb_true_iff _]. cbn [app].
  replace (skip_space (at_ f (d :: w ++ c :: r))) with (at_ f (d :: w ++ c :: r))
    by (symmetry; by apply (skip_space_at f [])).
  cbn [failed failbit at_ rest]. change (d :: w ++ c :: r) with ((d :: w) ++ c :: r). rewrite span_block; [done|done|by rewrite Hc].
Qed.

Lemma get_at f c r : get (at_ f (c :: r)) = (Some c, at_ f r).
Proof. done. Qed.

Lemma read_at f a r : read (length a) (at_ f (a ++ r)) = (a, at_ f r).
Proof.
  unfold read. cbn [good at_ eofbit failbit negb andb rest]. rewrite (proj2 (Nat.ltb_ge _ _)) by (rewrite length_app; lia).
  by rewrite take_app_length, drop_app_length.
Qed.

Lemma tellg_at f r : tellg (at_ f r) = (zlen f - zlen r, at_ f r).
Proof. done. Qed.
End Stream.
