(* ===== verification/Snapshot.v ===== *)
(** * The snapshot file (src/persistence.cpp)

    The text [save] writes and the parser of [load], and that the parser reads
    back exactly what was written, whatever bytes the keys and values hold. *)
From S2P Require Import Prelude Numbers RecencyList Lru Stream.

Module Snapshot.
Import Numbers.

Definition kMagic : bytes := $"CACHEX-SNAPSHOT".
Definition kVersion : Z := 1.
Definition kNoExpiry : Z := -1.
Definition kMinRecordBytes : Z := 7.
Definition int_min : Z := - 2 ^ 31.
Definition int_max : Z := 2 ^ 31 - 1.

(** One record as read back, before anything is applied to the cache. *)
Record Record := mkRecord {
  rec_key : bytes;
  rec_value : bytes;
  ttl_ms : Z
}.

#[global] Instance Record_eq_dec : EqDecision Record.
Proof. solve_decision. Defined.

(** ** Writing *)
Definition nl : bytes := ["010"%char].
Definition sp : bytes := [" "%char].

Definition ttl_field (e : EntrySnapshot) : Z := default kNoExpiry (remaining_ttl e).

Definition format_entry (e : EntrySnapshot) : bytes :=
  to_string (zlen (snap_key e)) ++ sp ++ to_string (zlen (snap_value e)) ++ sp ++
  to_string (ttl_field e) ++ nl ++ snap_key e ++ snap_value e ++ nl.

Fixpoint format_entries (l : list EntrySnapshot) : bytes :=
  match l with
  | [] => []
  | e :: l => format_entry e ++ format_entries l
  end.

Definition format (saved_at_ms : Z) (entries : list EntrySnapshot) : bytes :=
  kMagic ++ sp ++ to_string kVersion ++ sp ++ to_string saved_at_ms ++ nl ++
  to_string (zlen entries) ++ nl ++ format_entries entries.

(** ** Reading *)

(** [read_exact]: a count of zero does not touch the stream. *)
Definition read_exact (count : Z) (s : Stream.t) : option bytes * Stream.t :=
  if count =? 0 then (Some [], s)
  else let '(data, s) := Stream.read (Z.to_nat count) s in
       (if zlen data =? count then Some data else None, s).

Definition at_record (message : bytes) (i : Z) : bytes :=
  message ++ $" at record " ++ to_string i.

(** One turn of the record loop of [load]. *)
Definition read_record (file_bytes i : Z) (s : Stream.t) : bytes + (Record * Stream.t) :=
  let '(key_len, s) := Stream.read_int i64_min i64_max s in
  let '(value_len, s) := Stream.read_int i64_min i64_max s in
  let '(ttl, s) := Stream.read_int i64_min i64_max s in
  if Stream.failed s then inl (at_record $"truncated entry header" i)
  else if (key_len <? 0) || (value_len <? 0) then inl (at_record $"negative length" i)
  else
    let '(c, s) := Stream.get s in
    if negb (bool_decide (c = Some "010"%char)) then inl (at_record $"malformed entry header" i)
    else if (file_bytes <? key_len) || (file_bytes - key_len <? value_len)
      then inl (at_record $"length exceeds file size" i)
    else
      let '(k, s) := read_exact key_len s in
      match k with
      | None => inl (at_record $"truncated payload" i)
      | Some k =>
          let '(v, s) := read_exact value_len s in
          match v with
          | None => inl (at_record $"truncated payload" i)
          | Some v =>
              let '(c, s) := Stream.get s in
              if negb (bool_decide (c = Some "010"%char)) then inl (at_record $"payload length mismatch" i)
              else inr (mkRecord k v ttl, s)
          end
      end.

(** [for (long long i = 0; i < count; ++i)]: [n] turns from [i] on. *)
Fixpoint read_records (n : nat) (file_bytes i : Z) (s : Stream.t)
  : bytes + list Record * Stream.t :=
  match n with
  | O => inr ([], s)
  | S n =>
      match read_record file_bytes i s with
      | inl e => inl e
      | inr (r, s) =>
          match read_records n file_bytes (i + 1) s with
          | inl e => inl e
          | inr (rs, s) => inr (r :: rs, s)
          end
      end
  end.

(** [load] up to the point where everything is validated: the error text, or
    the time spent on disk and the records.  [now_ms] is the wall clock. *)
Definition parse (now_ms : Z) (content : bytes) : outcome (bytes + Z * list Record) :=
  let s := Stream.open content in
  let file_bytes := zlen content in
  let '(magic, s) := Stream.read_word s in
  let '(version, s) := Stream.read_int int_min int_max s in
  let '(saved_at_ms, s) := Stream.read_int i64_min i64_max s in
  if Stream.failed s || negb (bool_decide (magic = kMagic)) then Ret (inl $"not a CacheX snapshot")
  else if negb (version =? kVersion) then
    Ret (inl ($"unsupported snapshot version " ++ to_string version))
  else
    age ← i64 (now_ms - saved_at_ms);
    let elapsed_ms := Z.max 0 age in
    let '(count, s) := Stream.read_int i64_min i64_max s in
    if Stream.failed s || (count <? 0) then Ret (inl $"missing or invalid entry count")
    else
      let '(_, s) := Stream.get s in
      let '(position, s) := Stream.tellg s in
      if (file_bytes - position) `quot` kMinRecordBytes <? count then
        Ret (inl ($"entry count " ++ to_string count ++ $" exceeds what the file can hold"))
      else
        match read_records (Z.to_nat count) file_bytes 0 s with
        | inl e => Ret (inl e)
        | inr (rs, _) => Ret (inr (elapsed_ms, rs))
        end.

(** ** Lemmas: the parser follows the writer *)
Import Stream (at_, is_space).

Definition record_of (e : EntrySnapshot) : Record :=
  mkRecord (snap_key e) (snap_value e) (ttl_field e).

(** The fields fit the types they are written from. *)
Definition entry_fits (e : EntrySnapshot) : Prop :=
  zlen (snap_key e) + zlen (snap_value e) ≤ i64_max ∧ i64_min ≤ ttl_field e ≤ i64_max.

Lemma read_exact_at f a r :
  read_exact (zlen a) (at_ f (a ++ r)) = (Some a, at_ f r).
Proof.
  unfold read_exact, zlen. destruct (Z.eqb_spec (Z.of_nat (length a)) 0).
  - by destruct a.
  - by rewrite Nat2Z.id, Stream.read_at, Z.eqb_refl.
Qed.

Lemma read_record_at f i e r :
  entry_fits e → zlen (snap_key e) + zlen (snap_value e) ≤ zlen f →
  read_record (zlen f) i (at_ f (format_entry e ++ r)) = inr (record_of e, at_ f r).
Proof.
  intros [Hlen Httl] Hf. unfold read_record, format_entry, i64_min, i64_max in *.
  assert (0 ≤ zlen (snap_key e) ∧ 0 ≤ zlen (snap_value e)) as [Hk Hv] by (unfold zlen; lia).
  rewrite <- !app_assoc. unfold sp, nl. cbn [app].
  rewrite Stream.read_int_here; [|lia|lia|done].
  rewrite Stream.read_int_gap; [|done|lia|lia|done].
  rewrite Stream.read_int_gap; [|done|lia|lia|done].
  cbn [Stream.failed Stream.failbit at_].
  rewrite (proj2 (Z.ltb_ge _ 0)), (proj2 (Z.ltb_ge (zlen (snap_value e)) 0)) by lia. cbn [orb].
  rewrite Stream.get_at. rewrite bool_decide_true by done. cbn [negb].
  rewrite (proj2 (Z.ltb_ge _ _)), (proj2 (Z.ltb_ge (zlen f - _) _)) by lia. cbn [orb].
  rewrite !read_exact_at. rewrite Stream.get_at, bool_decide_true by done. done.
Qed.

Lemma format_entry_length e :
  zlen (snap_key e) + zlen (snap_value e) + 7 ≤ zlen (format_entry e).
Proof.
  assert (∀ z, 1 ≤ zlen (to_string z)) as Hone.
  { intros z. unfold zlen, to_string. destruct (z <? 0); [cbn [length]; lia|].
    pose proof (digits_not_nil 20 z [] ltac:(by right)). destruct (digits 20 z []); [done|cbn [length]; lia]. }
  pose proof (Hone (zlen (snap_key e))) as H1. pose proof (Hone (zlen (snap_value e))) as H2.
  pose proof (Hone (ttl_field e)) as H3. unfold format_entry, sp, nl, zlen in *.
  rewrite !length_app. cbn [length]. lia.
Qed.

Lemma format_entries_length l : 7 * zlen l ≤ zlen (format_entries l).
Proof.
  induction l as [|e l IH]; [done|]. cbn. pose proof (format_entry_length e).
  unfold zlen in *. rewrite length_app. cbn [length]. lia.
Qed.

Lemma read_records_at f i l r :
  Forall entry_fits l → zlen (format_entries l) ≤ zlen f →
  read_records (length l) (zlen f) i (at_ f (format_entries l ++ r)) =
  inr (record_of <$> l, at_ f r).
Proof.
  intros Hl. revert i. induction Hl as [|e l He _ IH]; intros i Hf; [done|].
  cbn [format_entries length read_records] in *. pose proof (format_entry_length e) as Hlen.
  assert (zlen (format_entry e ++ format_entries l) = zlen (format_entry e) + zlen (format_entries l)) as E.
  { unfold zlen. rewrite length_app. lia. }
  rewrite <- app_assoc, read_record_at by (done || unfold zlen in *; lia).
  by rewrite IH by (unfold zlen in *; lia).
Qed.

Lemma parse_format now_ms saved_at_ms l :
  i64_min ≤ saved_at_ms ≤ i64_max → i64_min ≤ now_ms - saved_at_ms ≤ i64_max →
  zlen l ≤ i64_max → Forall entry_fits l →
  parse now_ms (format saved_at_ms l) = Ret (inr (Z.max 0 (now_ms - saved_at_ms), record_of <$> l)).
Proof.
  intros Hs Hage Hlen Hl. unfold parse, i64_min, i64_max in *.
  remember (format saved_at_ms l) as f eqn:Ef. unfold Stream.open. fold (at_ f f).
  rewrite Ef at 2. unfold format, sp, nl. rewrite <- ?app_assoc. cbn [app].
  rewrite Stream.read_word_at; [|done|by repeat constructor|done].
  rewrite Stream.read_int_gap; [|done|by vm_compute|by vm_compute|done].
  rewrite Stream.read_int_gap; [|done|lia|lia|done].
  cbn [Stream.failed Stream.failbit at_ orb]. rewrite bool_decide_true by done. cbn [negb].
  rewrite Z.eqb_refl. cbn [negb]. rewrite i64_Ret by (unfold i64_min, i64_max; lia). rewrite bind_ret_l.
  pose proof (format_entries_length l) as H7. assert (0 ≤ zlen l) as Hpos by (unfold zlen; lia).
  rewrite Stream.read_int_gap; [|done|lia|lia|done].
  cbn [Stream.failed Stream.failbit at_ orb]. rewrite (proj2 (Z.ltb_ge _ 0)) by lia.
  rewrite Stream.get_at, Stream.tellg_at.
  replace (zlen f - (zlen f - zlen (format_entries l))) with (zlen (format_entries l)) by lia.
  rewrite (proj2 (Z.ltb_ge _ _)) by (apply Z.quot_le_lower_bound; unfold kMinRecordBytes; lia).
  unfold zlen at 1. rewrite Nat2Z.id, <- (app_nil_r (format_entries l)).
  rewrite read_records_at; [done|done|]. rewrite Ef. unfold format, zlen. rewrite !length_app. lia.
Qed.
End Snapshot.
