(* ===== verification/Truncation.v ===== *)
(** * A truncated snapshot is rejected

    An extraction that succeeds without reaching the end of the file would have
    done the same on a longer file.  A run of the parser over a cut file that
    accepted it would therefore be a run over the whole file that stops early. *)
From S2P Require Import Prelude Numbers RecencyList Lru Stream Snapshot.

Module Truncation.
Import Numbers Snapshot.
Import Stream (at_, good, failed, rest).

(** ** Success on a prefix is success on the whole *)
Lemma span_app_l p a c b r x : span p r = (a, c :: b) → span p (r ++ x) = (a, c :: b ++ x).
Proof.
  intros E. pose proof (span_app p r) as Hr. pose proof (span_all p r) as Ha.
  pose proof (span_stop p r) as Hc. rewrite E in *. cbn in *. subst r. rewrite <- app_assoc.
  by apply span_block.
Qed.

Lemma good_at s : good s = true → s = at_ (Stream.file s) (rest s).
Proof. destruct s as [f r [] []]; done. Qed.

Lemma at_inj {A} (a b : A) f u v : (a, at_ f u) = (b, at_ f v) → a = b ∧ u = v.
Proof. intros E. by simplify_eq. Qed.

Lemma not_good_skip s : good s = false → failed (Stream.skip_space s) = true.
Proof. unfold Stream.skip_space. by intros ->. Qed.

(** White space in front of something. *)
Lemma skip_space_ext s g x :
  failed (Stream.skip_space s) = false →
  good s = true ∧ good (Stream.skip_space s) = true ∧ rest (Stream.skip_space s) ≠ [] ∧
  Stream.skip_space (at_ g (rest s ++ x)) = at_ g (rest (Stream.skip_space s) ++ x).
Proof.
  unfold Stream.skip_space at 1. destruct (good s) eqn:Hg; [|done].
  unfold Stream.skip_space. rewrite Hg. cbn.
  destruct (span Stream.is_space (rest s)) as [a [|c b]] eqn:E; cbn; [done|].
  rewrite (span_app_l _ _ _ _ _ x E). cbn. intros _. split_and!; try done.
Qed.

(** The integer at the read position. *)
Lemma read_int_failed lo hi s v s' :
  Stream.read_int lo hi s = (v, s') → failed s' = false → good s = true.
Proof.
  unfold Stream.read_int. destruct (failed (Stream.skip_space s)) eqn:E.
  - intros [= <- <-] ?. congruence.
  - intros _ _. by destruct (skip_space_ext s [] [] E) as [? _].
Qed.

Lemma accept_digits_ext lo hi neg body s g y x v s' :
  good s = true → Stream.accept_digits lo hi neg body s = (v, s') → good s' = true →
  Stream.accept_digits lo hi neg (body ++ x) (at_ g y) = (v, at_ g (rest s' ++ x)).
Proof.
  intros Hg. unfold Stream.accept_digits. destruct (span is_digit body) as [ds [|e b]] eqn:E.
  - cbn. repeat case_match; intros [= <- <-]; done.
  - rewrite (span_app_l _ _ _ _ _ x E). cbn.
    destruct ds; [by intros [= <- <-]; destruct s as [? ? [] []]|].
    repeat case_match; intros [= <- <-]; try done; by destruct s as [? ? [] []].
Qed.

Lemma read_int_ext lo hi s g x v s' :
  Stream.read_int lo hi s = (v, s') → good s' = true →
  Stream.read_int lo hi (at_ g (rest s ++ x)) = (v, at_ g (rest s' ++ x)).
Proof.
  unfold Stream.read_int. destruct (failed (Stream.skip_space s)) eqn:F.
  { intros [= <- <-] Hg. apply good_at in Hg. rewrite Hg in F. done. }
  destruct (skip_space_ext s g x F) as (_ & Hg & Hne & ->).
  cbn [failed Stream.failbit at_ rest]. destruct (rest (Stream.skip_space s)) as [|c r]; [done|]. cbn [app].
  repeat case_match; intros E Hg'; by eapply accept_digits_ext in E.
Qed.

(** A word, a byte, a block of bytes. *)
Lemma read_word_ext s g x w s' :
  Stream.read_word s = (w, s') → good s' = true →
  good s = true ∧ Stream.read_word (at_ g (rest s ++ x)) = (w, at_ g (rest s' ++ x)).
Proof.
  unfold Stream.read_word. destruct (failed (Stream.skip_space s)) eqn:F.
  { intros [= <- <-] Hg. apply good_at in Hg. rewrite Hg in F. done. }
  destruct (skip_space_ext s g x F) as (Hs & Hg & _ & ->). cbn [failed Stream.failbit at_ rest].
  destruct (span _ (rest (Stream.skip_space s))) as [a [|c b]] eqn:E; cbn.
  - by intros [= <- <-].
  - intros [= <- <-] _. split; [done|]. by rewrite (span_app_l _ _ _ _ _ x E).
Qed.

Lemma get_ext s g x c s' :
  Stream.get s = (Some c, s') →
  good s = true ∧ good s' = true ∧ Stream.get (at_ g (rest s ++ x)) = (Some c, at_ g (rest s' ++ x)).
Proof.
  unfold Stream.get. destruct (good s) eqn:Hg; [|done]. destruct (rest s) as [|d r] eqn:E; [done|].
  intros [= -> <-]. by split_and!.
Qed.

Lemma read_exact_ext n s g x d s' :
  0 ≤ n → good s' = true → read_exact n s = (Some d, s') →
  good s = true ∧ read_exact n (at_ g (rest s ++ x)) = (Some d, at_ g (rest s' ++ x)).
Proof.
  intros Hn Hg. unfold read_exact. destruct (Z.eqb_spec n 0); [by intros [= <- <-]|].
  unfold Stream.read. destruct (good s) eqn:Hs.
  - cbn [good Stream.eofbit Stream.failbit at_ negb andb rest].
    destruct (Nat.ltb_spec (length (rest s)) (Z.to_nat n)).
    + intros E. destruct (zlen (rest s) =? n); by simplify_eq.
    + rewrite (proj2 (Nat.ltb_ge _ _)) by (rewrite length_app; lia).
      rewrite take_app_le, drop_app_le by done. intros E. split; [done|].
      destruct (zlen _ =? n); by simplify_eq.
  - intros E. destruct (zlen _ =? n); simplify_eq. by destruct s as [? ? [] []].
Qed.

(** One record, and several. *)
Lemma read_record_ext fb fb' i s g x r s' :
  fb ≤ fb' → read_record fb i s = inr (r, s') →
  good s = true ∧ good s' = true ∧ read_record fb' i (at_ g (rest s ++ x)) = inr (r, at_ g (rest s' ++ x)).
Proof.
  intros Hfb. unfold read_record.
  destruct (Stream.read_int _ _ s) as [kl s1] eqn:E1. destruct (Stream.read_int _ _ s1) as [vl s2] eqn:E2.
  destruct (Stream.read_int _ _ s2) as [ms s3] eqn:E3. destruct (failed s3) eqn:F3; [done|].
  pose proof (read_int_failed _ _ _ _ _ E3 F3) as G2.
  assert (failed s2 = false) as F2 by (rewrite (good_at _ G2); done).
  pose proof (read_int_failed _ _ _ _ _ E2 F2) as G1.
  assert (failed s1 = false) as F1 by (rewrite (good_at _ G1); done).
  pose proof (read_int_failed _ _ _ _ _ E1 F1) as G0.
  destruct ((kl <? 0) || (vl <? 0)) eqn:Hneg; [done|]. apply orb_false_iff in Hneg as Hpos.
  destruct Hpos as [Hk%Z.ltb_ge Hv%Z.ltb_ge].
  destruct (Stream.get s3) as [[c1|] s4] eqn:E4; [|done].
  destruct (get_ext s3 g x c1 s4 E4) as (G3 & G4 & X4).
  destruct (negb (bool_decide (Some c1 = _))) eqn:B1; [done|].
  destruct ((fb <? kl) || (fb - kl <? vl)) eqn:Hbig; [done|].
  apply orb_false_iff in Hbig as [Hb1%Z.ltb_ge Hb2%Z.ltb_ge].
  destruct (read_exact kl s4) as [[k|] s5] eqn:E5; [|done].
  destruct (read_exact vl s5) as [[v|] s6] eqn:E6; [|done].
  destruct (Stream.get s6) as [[c2|] s7] eqn:E7; [|done].
  destruct (get_ext s6 g x c2 s7 E7) as (G6 & G7 & X7).
  destruct (negb (bool_decide (Some c2 = _))) eqn:B2; [done|]. intros [= <- <-].
  destruct (read_exact_ext vl s5 g x v s6 Hv G6 E6) as (G5 & X6).
  destruct (read_exact_ext kl s4 g x k s5 Hk G5 E5) as (_ & X5).
  split; [done|]. split; [done|].
  rewrite (read_int_ext _ _ s g x kl s1), (read_int_ext _ _ s1 g x vl s2), (read_int_ext _ _ s2 g x ms s3) by done.
  cbn [failed Stream.failbit at_]. rewrite Hneg, X4, B1.
  rewrite (proj2 (Z.ltb_ge fb' kl)), (proj2 (Z.ltb_ge (fb' - kl) vl)) by lia. cbn [orb].
  by rewrite X5, X6, X7, B2.
Qed.

Lemma read_records_ext n fb fb' i s g x rs s' :
  fb ≤ fb' → good s = true → read_records n fb i s = inr (rs, s') →
  good s' = true ∧ read_records n fb' i (at_ g (rest s ++ x)) = inr (rs, at_ g (rest s' ++ x)).
Proof.
  intros Hfb. revert i s rs. induction n as [|n IH]; intros i s rs Hg E; cbn [read_records] in *.
  { by simplify_eq. }
  destruct (read_record fb i s) as [e|[r s1]] eqn:E1; [done|].
  destruct (read_record_ext fb fb' i s g x r s1 Hfb E1) as (_ & G1 & ->).
  destruct (read_records n fb (i + 1) s1) as [e|[rs1 s2]] eqn:E2; [done|]. simplify_eq.
  by destruct (IH _ _ _ G1 E2) as [G2 ->].
Qed.

(** ** Numbers cut short *)
(** A positive number is written without leading zeros. *)
Lemma digits_head f n acc :
  1 ≤ n < 10 ^ Z.of_nat f → ∃ c l, digits f n acc = c :: l ∧ is_digit c = true ∧ 49 ≤ code c.
Proof.
  revert n acc. induction f as [|f IH]; intros n acc Hn; [cbn in Hn; lia|].
  cbn [digits]. pose proof (Z.mod_pos_bound n 10 ltac:(lia)). destruct (Z.ltb_spec n 10).
  - do 2 eexists. split; [reflexivity|]. rewrite Z.mod_small by lia.
    rewrite is_digit_digit, code_digit by lia. split; [done|lia].
  - apply IH. split; [apply Z.div_le_lower_bound; lia|]. apply Z.div_lt_upper_bound; [lia|].
    replace (Z.of_nat (S f)) with (1 + Z.of_nat f) in Hn by lia. rewrite Z.pow_add_r in Hn by lia. lia.
Qed.

(** A number that may have lost its end: no sign appears, and a positive number
    keeps its first digit. *)
Lemma to_string_head z :
  0 ≤ z < 10 ^ 20 → ∃ c l, to_string z = c :: l ∧ is_digit c = true ∧ (1 ≤ z → 49 ≤ code c).
Proof.
  intros Hz. unfold to_string. rewrite (proj2 (Z.ltb_ge z 0)) by lia.
  destruct (decide (1 ≤ z)) as [Hz1|Hz1].
  - destruct (digits_head 20 z []) as (c & l & -> & ? & ?); [lia|]. by exists c, l.
  - destruct (digits_20 z Hz) as (c & l & -> & [? _]%Forall_cons & _). exists c, l. split_and!; done || lia.
Qed.

Lemma read_int_cut lo hi f q x b z tail v s' :
  Stream.is_space b = true → 0 ≤ z < 10 ^ 20 → lo ≤ 0 ≤ hi → q ++ x = b :: to_string z ++ tail →
  Stream.read_int lo hi (at_ f q) = (v, s') → 0 ≤ v ≤ hi ∧ (failed s' = false → 1 ≤ z → 1 ≤ v).
Proof.
  intros Hb Hz Hlh Hq. destruct (to_string_head z Hz) as (c & l & Hl & Hc & H1).
  rewrite Hl in Hq. unfold Stream.read_int.
  destruct q as [|b' [|c' q]]; cbn in Hq; simplify_eq.
  - cbn. intros [= <- <-]. split; [lia|done].
  - assert (Stream.skip_space (at_ f [b]) = Stream.fail (Stream.at_end (at_ f []))) as ->.
    { unfold Stream.skip_space. cbn. by rewrite Hb. }
    cbn. intros [= <- <-]. split; [lia|done].
  - replace (Stream.skip_space (at_ f (b :: c :: q))) with (at_ f (c :: q)).
    2: { symmetry. apply (Stream.skip_space_at f [b]); [by repeat constructor|by apply Stream.digit_not_space]. }
    cbn [failed Stream.failbit at_ rest]. rewrite !bool_decide_false by (intros ->; done).
    unfold Stream.accept_digits. cbn [span]. rewrite Hc.
    pose proof (span_all is_digit q) as Hds. destruct (span is_digit q) as [ds r]. cbn in Hds.
    pose proof Hc as Hc'. apply andb_true_iff in Hc' as [Hc'%Z.leb_le _].
    assert (0 ≤ digits_value (c :: ds)) as Hv0.
    { apply value_from_nonneg; [by constructor|lia]. }
    assert (1 ≤ z → 1 ≤ digits_value (c :: ds)) as Hv1.
    { intros Hz1. apply (value_from_pos ds); [done|]. specialize (H1 Hz1). lia. }
    rewrite (proj2 (Z.ltb_ge (digits_value _) lo)) by lia.
    destruct (Z.ltb_spec hi (digits_value (c :: ds))); intros [= <- <-]; (split; [lia|]); done.
Qed.

Lemma bad_stream_record n fb i s : good s = false → ∃ e, read_records (S n) fb i s = inl e.
Proof.
  intros Hg. cbn [read_records]. destruct (read_record fb i s) as [e|[r s']] eqn:E; [by eexists|].
  destruct (read_record_ext fb fb i s [] [] r s') as (G & _); [lia|done|]. congruence.
Qed.

(** The record loop over the records of a cut file. *)
Lemma records_cut f p x l s n :
  p ++ x = f → x ≠ [] → l ≠ [] → Forall entry_fits l → zlen (format_entries l) ≤ zlen f →
  (1 ≤ n)%nat → (good s = true → n = length l ∧ rest s ++ x = format_entries l) →
  ∃ e, read_records n (zlen p) 0 s = inl e.
Proof.
  intros Hp Hx Hne Hfit Hlen Hn Hs. destruct (good s) eqn:G.
  - destruct (Hs eq_refl) as [-> Hrest].
    destruct (read_records (length l) (zlen p) 0 s) as [e|[rs s']] eqn:E; [by eexists|].
    assert (zlen p ≤ zlen f) as Hle by (rewrite <- Hp; unfold zlen; rewrite length_app; lia).
    destruct (read_records_ext _ _ (zlen f) _ s f x _ _ Hle G E) as [_ E'].
    pose proof (read_records_at f 0 l [] Hfit Hlen) as E2. rewrite app_nil_r, <- Hrest in E2.
    rewrite E2 in E'. injection E' as _ E'. symmetry in E'. by apply app_eq_nil in E' as [_ ?].
  - destruct n as [|n]; [lia|]. by apply bad_stream_record.
Qed.

(** The header of a cut file: what its successful extractions read. *)
Lemma cut_header f p x wall l s1 s2 s3 magic version saved :
  p ++ x = f → f = format wall l → 0 ≤ wall ≤ i64_max →
  Stream.read_word (at_ p p) = (magic, s1) → Stream.read_int int_min int_max s1 = (version, s2) →
  Stream.read_int i64_min i64_max s2 = (saved, s3) → failed s3 = false →
  magic = kMagic ∧ version = kVersion ∧ 0 ≤ saved ≤ i64_max ∧
  (good s3 = true → rest s3 ++ x = nl ++ to_string (zlen l) ++ nl ++ format_entries l).
Proof.
  intros Hp Hf Hw E1 E2 E3 F3.
  pose proof (read_int_failed _ _ _ _ _ E3 F3) as G2.
  assert (failed s2 = false) as F2 by (rewrite (good_at _ G2); done).
  pose proof (read_int_failed _ _ _ _ _ E2 F2) as G1.
  destruct (read_word_ext _ f x _ _ E1 G1) as [_ X1]. cbn [rest at_] in X1. rewrite Hp, Hf in X1.
  unfold format, sp, nl in X1. rewrite <- ?app_assoc in X1. cbn [app] in X1.
  rewrite Stream.read_word_at in X1; [|done|by repeat constructor|done]. apply at_inj in X1 as [<- X1].
  pose proof (read_int_ext _ _ _ f x _ _ E2 G2) as X2. rewrite <- X1 in X2.
  rewrite Stream.read_int_gap in X2; [|done|by vm_compute|by vm_compute|done]. apply at_inj in X2 as [<- X2].
  split; [done|]. split; [done|]. split.
  - eapply (read_int_cut i64_min i64_max (Stream.file s2) (rest s2) x " "%char wall);
      [done|unfold i64_max in Hw; lia|by vm_compute| |].
    + symmetry. exact X2.
    + rewrite <- (good_at _ G2). exact E3.
  - intros G3. pose proof (read_int_ext _ _ _ f x _ _ E3 G3) as X3. rewrite <- X2 in X3.
    rewrite Stream.read_int_gap in X3; [|done|unfold i64_min; lia|unfold i64_max in *; lia|done].
    apply at_inj in X3 as [_ X3]. symmetry. exact X3.
Qed.

(** ** The property *)

(** C24.  A snapshot of at least one entry that was cut short anywhere (a full
    disk, a copy that stopped) is rejected by the parser with an error text: no
    strict prefix of it is taken for a smaller snapshot. *)
Theorem truncated_snapshot_rejected wall wall' l p x
    (Hw : 0 ≤ wall ≤ i64_max) (Hw' : 0 ≤ wall' ≤ i64_max)
    (Hfit : Forall entry_fits l) (Hlen : 1 ≤ zlen l ≤ i64_max)
    (Hcut : p ++ x = format wall l) (Hx : x ≠ []) :
  ∃ e, parse wall' p = Ret (inl e).
Proof.
  unfold parse. change (Stream.open p) with (at_ p p).
  destruct (Stream.read_word (at_ p p)) as [magic s1] eqn:E1.
  destruct (Stream.read_int int_min int_max s1) as [version s2] eqn:E2.
  destruct (Stream.read_int i64_min i64_max s2) as [saved s3] eqn:E3.
  destruct (failed s3) eqn:F3; cbn [orb]; [by eexists|].
  destruct (cut_header _ p x wall l _ _ _ _ _ _ Hcut eq_refl Hw E1 E2 E3 F3) as (-> & -> & Hs & Hrest).
  rewrite bool_decide_true by done. cbn [negb Z.eqb kVersion Pos.eqb].
  rewrite i64_Ret, bind_ret_l by (unfold i64_min, i64_max in *; lia).
  destruct (Stream.read_int i64_min i64_max s3) as [count s4] eqn:E4.
  destruct (failed s4) eqn:F4; cbn [orb]; [by eexists|].
  pose proof (read_int_failed _ _ _ _ _ E4 F4) as G3. specialize (Hrest G3).
  destruct (read_int_cut i64_min i64_max (Stream.file s3) (rest s3) x "010"%char (zlen l)
    (nl ++ format_entries l) count s4) as [_ Hcount]; [done|unfold i64_max in *; lia|by vm_compute|done| |].
  { rewrite <- (good_at _ G3). done. }
  specialize (Hcount F4 ltac:(lia)). rewrite (proj2 (Z.ltb_ge count 0)) by lia.
  destruct (Stream.get s4) as [c s5] eqn:E5. destruct (Stream.tellg s5) as [pos s6] eqn:E6.
  destruct (_ <? count); [by eexists|].
  destruct (records_cut _ p x l s6 (Z.to_nat count) Hcut Hx) as [e ->]; [..|by eexists].
  - intros ->. unfold zlen in Hlen. cbn in Hlen. lia.
  - done.
  - unfold format, zlen. rewrite !length_app. lia.
  - lia.
  - intros G6. unfold Stream.tellg in E6. destruct (good s5) eqn:G5; simplify_eq.
    2: { by destruct s5 as [? ? [] []]. }
    destruct c as [c|].
    2: { destruct s4 as [? [] [] []]; unfold Stream.get in E5; cbn in E5; by simplify_eq. }
    destruct (get_ext _ (format wall l) x _ _ E5) as (G4 & _ & X5).
    pose proof (read_int_ext _ _ _ (format wall l) x _ _ E4 G4) as X4. rewrite Hrest in X4.
    unfold nl in X4. cbn [app] in X4.
    rewrite Stream.read_int_gap in X4; [|done|unfold i64_min, i64_max in *; lia|unfold i64_max in *; lia|done].
    apply at_inj in X4 as [<- X4]. unfold zlen. rewrite Nat2Z.id. split; [done|].
    rewrite <- X4 in X5. rewrite Stream.get_at in X5. apply at_inj in X5 as [_ X5]. symmetry. exact X5.
Qed.
(** ** Witness *)
Definition demo_entries : list EntrySnapshot :=
  [mkSnapshot $"k" $"v" None; mkSnapshot $"session" $"abc" (Some 5000)].

Lemma truncated_snapshot_rejected_witness :
  ∃ e, parse 1000 (take 30 (format 7 demo_entries)) = Ret (inl e).
Proof.
  apply (truncated_snapshot_rejected 7 1000 demo_entries _ (drop 30 (format 7 demo_entries))).
  - by vm_compute.
  - by vm_compute.
  - repeat constructor; by vm_compute.
  - by vm_compute.
  - reflexivity.
  - by vm_compute.
Defined.
End Truncation.
