(* ===== verification/Persistence.v ===== *)
(** * Saving and loading (include/cachex/persistence.hpp, src/persistence.cpp)

    [PersistenceManager] over any store that satisfies the interface, and a file
    system that is a map from paths to contents.  What the operating system may
    refuse (creating the temporary file, writing all of it, renaming it) is an
    argument of [save].  The wall clock and the monotonic clock are arguments
    too. *)
From S2P Require Import Prelude Numbers RecencyList Lru KvStore Stream Snapshot.

Module Persistence.
Import Numbers Snapshot.

Abbreviation fs := (gmap bytes bytes).

Record SaveResult := mkSaveResult {
  save_ok : bool;
  save_entries : Z;
  save_bytes : Z;
  save_error : bytes
}.

Record LoadResult := mkLoadResult {
  load_ok : bool;
  loaded : Z;
  expired : Z;
  load_error : bytes
}.

(** [PersistenceManager]: the path of the snapshot. *)
Record t := mk { path_ : bytes }.

(** What the operating system does to one save. *)
Record disk := mkDisk {
  creates : bool;               (** the temporary file can be opened *)
  room : Z;                     (** how many bytes a file can get *)
  rename_error : option bytes   (** [strerror(errno)] if the rename fails *)
}.

(** [path + ".tmp." + pid + "." + counter++], the counter an [unsigned long]. *)
Definition unique_temp_path (path : bytes) (pid counter : Z) : bytes :=
  path ++ $".tmp." ++ to_string pid ++ $"." ++ to_string counter.

Definition exists_ (p : t) (files : fs) : bool := bool_decide (is_Some (files !! path_ p)).

Definition save_failed (bytes_ : Z) (error : bytes) : SaveResult := mkSaveResult false 0 bytes_ error.

Section Store.
Context {C : Type} `{KvOps C}.

(** [save]: the result, the next counter, the files.  [clock] is what the
    export reads, shard after shard. *)
Definition save (clock : nat → time_point) (wall_ms pid counter : Z) (d : disk) (p : t) (c : C) (files : fs)
  : outcome (SaveResult * Z * fs) :=
  entries ← kv_export clock c;
  let temp := unique_temp_path (path_ p) pid counter in
  let counter := u64 (counter + 1) in
  if negb (creates d) then
    Ret (save_failed 0 ($"cannot open '" ++ temp ++ $"' for writing"), counter, files)
  else
    let content := format wall_ms entries in
    if room d <? zlen content then
      Ret (save_failed 0 $"write failed (disk full?)", counter, delete temp files)
    else
      let files := <[temp := content]> files in
      match rename_error d with
      | Some reason =>
          Ret (save_failed (zlen content) ($"cannot rename snapshot into place: " ++ reason),
               counter, delete temp files)
      | None =>
          Ret (mkSaveResult true (zlen entries) (zlen content) [], counter,
               <[path_ p := content]> (delete temp files))
      end.

(** The application loop of [load], over the records in reverse; the i-th
    [set] reads the clock as [clock i]. *)
Fixpoint apply_records (clock : nat → time_point) (i : nat) (elapsed_ms : Z) (rs : list Record)
    (n_loaded n_expired : Z) (c : C) : outcome (Z * Z * C) :=
  match rs with
  | [] => Ret (n_loaded, n_expired, c)
  | r :: rs =>
      if ttl_ms r =? kNoExpiry then
        c ← kv_set (rec_key r) (rec_value r) c;
        apply_records clock (S i) elapsed_ms rs (u64 (n_loaded + 1)) n_expired c
      else
        remaining_ms ← i64 (ttl_ms r - elapsed_ms);
        if 0 <? remaining_ms then
          c ← kv_set_ttl (clock i) (rec_key r) (rec_value r) remaining_ms c;
          apply_records clock (S i) elapsed_ms rs (u64 (n_loaded + 1)) n_expired c
        else apply_records clock (S i) elapsed_ms rs n_loaded (u64 (n_expired + 1)) c
  end.

(** [load]. *)
Definition load (clock : nat → time_point) (wall_ms : Z) (p : t) (files : fs) (c : C)
  : outcome (LoadResult * C) :=
  match files !! path_ p with
  | None => Ret (mkLoadResult true 0 0 [], c)
  | Some content =>
      parsed ← parse wall_ms content;
      match parsed with
      | inl error => Ret (mkLoadResult false 0 0 error, c)
      | inr (elapsed_ms, records) =>
          '(n_loaded, n_expired, c) ← apply_records clock 0 elapsed_ms (rev records) 0 0 c;
          Ret (mkLoadResult true n_loaded n_expired [], c)
      end
  end.
End Store.
End Persistence.
