(* ===== verification/PersistenceTheorems.v ===== *)
(** * Properties of saving and loading *)
From S2P Require Import Prelude Numbers RecencyList Lru KvStore Cache CacheRefine.
From S2P Require Import History CacheTheorems CacheKv Stream Snapshot Persistence.

Module PersistenceTheorems.
Import Snapshot Persistence.
#[local] Existing Instances CacheKv.Cache_ops CacheKv.Cache_laws.

(** ** Applying records to a store *)
Section Apply.
Context {C : Type} `{KvLaws C} (clock : nat → time_point) (elapsed : Z).

(** What a record leaves visible under its key, over time. *)
Definition restored (r : Record) (old new : time_point → option Entry) : Prop :=
  if ttl_ms r =? kNoExpiry then ∀ t, new t = Some (mkEntry (rec_key r) (rec_value r) None)
  else if 0 <? ttl_ms r - elapsed then
    ∃ i, ∀ t, new t =
      alive t (mkEntry (rec_key r) (rec_value r) (Some (clock i + (ttl_ms r - elapsed) * 1000000)))
  else ∀ t, new t = old t.

(** No overflow on the way: the remaining time, and every deadline. *)
Definition record_fits (r : Record) : Prop :=
  ttl_ms r = kNoExpiry ∨
  (i64_min ≤ ttl_ms r - elapsed ≤ i64_max ∧
   ∀ i, 0 ≤ clock i ∧ clock i + (ttl_ms r - elapsed) * 1000000 ≤ i64_max).

(** One record: the loop goes on with a store that has it. *)
Lemma apply_record r rs i n m c :
  kv_ok c → kv_unbounded c → record_fits r →
  ∃ n' m' c', apply_records clock i elapsed (r :: rs) n m c =
      apply_records clock (S i) elapsed rs n' m' c' ∧
    kv_ok c' ∧ kv_unbounded c' ∧ u64 (n' + m') = u64 (n + m + 1) ∧
    restored r (λ t, kv_view t (rec_key r) c) (λ t, kv_view t (rec_key r) c') ∧
    (∀ t k, k ≠ rec_key r → kv_view t k c' = kv_view t k c).
Proof.
  intros Hc Hu Hr. cbn [apply_records]. unfold restored.
  pose proof (kv_unbounded_room (rec_key r) c Hc Hu) as Hroom.
  destruct (Z.eqb_spec (ttl_ms r) kNoExpiry) as [E|E].
  - destruct (kv_set_law (rec_key r) (rec_value r) c Hc) as (c' & -> & Hc' & Hset & _ & _ & Hunb & _).
    destruct (Hunb Hu) as [Hu' Hsame]. rewrite bind_ret_l. do 3 eexists. split; [reflexivity|].
    split_and!; [done|done| |by apply Hset|done]. rewrite u64_add_l. f_equal. lia.
  - destruct Hr as [?|[Hi Hd]]; [done|]. rewrite i64_Ret, bind_ret_l by done.
    destruct (Z.ltb_spec 0 (ttl_ms r - elapsed)).
    + destruct (Hd i) as [Hclock Hdl].
      destruct (kv_set_ttl_law (clock i) (rec_key r) (rec_value r) _ c Hc Hclock Hdl)
        as (c' & -> & Hc' & Hset & _ & _ & Hunb & _).
      destruct (Hunb Hu) as [Hu' Hsame]. rewrite bind_ret_l. do 3 eexists. split; [reflexivity|].
      split_and!; [done|done| | |done].
      * rewrite u64_add_l. f_equal. lia.
      * exists i. intros t. rewrite Hset by done. by rewrite bool_decide_false by lia.
    + do 3 eexists. split; [reflexivity|]. split_and!; [done|done| |done|done].
      rewrite Z.add_comm, u64_add_l. f_equal. lia.
Qed.

Lemma apply_records_spec rs i n m c :
  kv_ok c → kv_unbounded c → NoDup (rec_key <$> rs) → Forall record_fits rs →
  ∃ n' m' c', apply_records clock i elapsed rs n m c = Ret (n', m', c') ∧
    kv_ok c' ∧ kv_unbounded c' ∧ u64 (n' + m') = u64 (n + m + zlen rs) ∧
    ∀ k, match find_by rec_key k rs with
         | Some r => restored r (λ t, kv_view t k c) (λ t, kv_view t k c')
         | None => ∀ t, kv_view t k c' = kv_view t k c
         end.
Proof.
  revert i n m c. induction rs as [|r rs IH]; intros i n m c Hc Hu Hnd Hfit.
  { do 3 eexists. split; [reflexivity|]. split_and!; [done|done| |done]. f_equal. unfold zlen. cbn. lia. }
  apply Forall_cons in Hfit as [Hr Hfit]. cbn in Hnd. apply NoDup_cons in Hnd as [Hk Hnd].
  destruct (apply_record r rs i n m c Hc Hu Hr) as (n1 & m1 & c1 & -> & Hc1 & Hu1 & E1 & Hres & Hoth).
  destruct (IH (S i) n1 m1 c1 Hc1 Hu1 Hnd Hfit) as (n' & m' & c' & -> & Hc' & Hu' & E & Hall).
  do 3 eexists. split; [reflexivity|]. split; [done|]. split; [done|]. split.
  { rewrite E, <- u64_add_l, E1, u64_add_l. f_equal. unfold zlen. cbn [length]. lia. }
  intros k. specialize (Hall k). cbn [find_by]. case_decide as D.
  - subst k. rewrite (proj2 (find_by_None rec_key _ _) Hk) in Hall.
    unfold restored in *. destruct (ttl_ms r =? kNoExpiry); [intros t; by rewrite Hall|].
    destruct (0 <? ttl_ms r - elapsed); [|intros t; by rewrite Hall].
    destruct Hres as [j Hres]. exists j. intros t. by rewrite Hall.
  - assert (∀ t, kv_view t k c1 = kv_view t k c) as Hsame by (intros t; by apply Hoth).
    destruct (find_by rec_key k rs) as [x|]; [|intros t; by rewrite Hall].
    unfold restored in *. destruct (ttl_ms x =? kNoExpiry); [done|].
    destruct (0 <? ttl_ms x - elapsed); [done|]. intros t. by rewrite Hall.
Qed.
End Apply.

(** ** Save, then load *)

(** What the exported entries say, as records. *)
Lemma records_NoDup l : NoDup (snap_key <$> l) → NoDup (rec_key <$> (record_of <$> l)).
Proof. intros Hl. rewrite <- list_fmap_compose. exact Hl. Qed.

Lemma find_record_rev k l :
  NoDup (snap_key <$> l) → find_by rec_key k (rev (record_of <$> l)) = find_by rec_key k (record_of <$> l).
Proof.
  intros Hl%records_NoDup. symmetry. apply find_by_Permutation; [done|apply Permutation_rev].
Qed.

(** Each field of a file is smaller than the file. *)
Lemma format_entries_fit l e :
  e ∈ l → zlen (snap_key e) + zlen (snap_value e) ≤ zlen (format_entries l).
Proof.
  induction l as [|x l IH]; [by intros ?%not_elem_of_nil|]. cbn [format_entries].
  assert (zlen (format_entry x ++ format_entries l) = zlen (format_entry x) + zlen (format_entries l)) as E.
  { unfold zlen. rewrite length_app. lia. }
  intros [->|Hin]%elem_of_cons.
  - pose proof (format_entry_length x). unfold zlen in *. lia.
  - specialize (IH Hin). unfold zlen in *. lia.
Qed.

Lemma format_length wall l : 7 * zlen l ≤ zlen (format wall l) ∧ zlen (format_entries l) ≤ zlen (format wall l).
Proof.
  pose proof (format_entries_length l). unfold format, zlen in *. rewrite !length_app. lia.
Qed.

(** What comes back of an entry seen at the time of the save: nothing if there
    was nothing or its time ran out on disk; otherwise the value, with the
    milliseconds it had left minus those spent on disk. *)
Definition recovered (now elapsed : Z) (clock : nat → time_point) (saved : option Entry)
    (back : time_point → option Entry) : Prop :=
  match saved with
  | None => ∀ t, back t = None
  | Some e =>
      match expires_at e with
      | None => ∀ t, back t = Some e
      | Some deadline =>
          let left := Lru.time_left now deadline - elapsed in
          if 0 <? left then
            ∃ i, ∀ t, back t = alive t (mkEntry (key e) (value e) (Some (clock i + left * 1000000)))
          else ∀ t, back t = None
      end
  end.

Section Recovered.
Context {C : Type} `{KvLaws C} (elapsed : Z) (clock : nat → time_point) (c : C).
Context (Hc : kv_ok c) (Helapsed : 0 ≤ elapsed ≤ i64_max).

(** The milliseconds left of an entry visible at [now]. *)
Lemma time_left_bounds now k e dl :
  0 ≤ now → kv_view now k c = Some e → expires_at e = Some dl →
  0 ≤ Lru.time_left now dl ≤ i64_max ∧ Lru.time_left now dl * 1000000 ≤ dl - now.
Proof.
  intros Hnow Hv E. pose proof (kv_view_deadline _ _ _ _ _ Hc Hv E). apply kv_view_key in Hv as [_ Hd].
  unfold Lru.dead in Hd. rewrite E in Hd. apply bool_decide_eq_false in Hd.
  unfold Lru.time_left. rewrite Z.quot_div_nonneg by lia. pose proof (Z.mul_div_le (dl - now) 1000000).
  split; [|lia]. split; [apply Z.div_pos; lia|].
  assert ((dl - now) / 1000000 ≤ dl - now) by (apply Z.div_le_upper_bound; lia). lia.
Qed.

(** The fields of an exported entry fit in a [long long]. *)
Lemma exported_ttl now k e :
  0 ≤ now → kv_view now k c = Some e → i64_min ≤ ttl_field (Lru.snapshot_of now e) ≤ i64_max.
Proof.
  intros Hnow Hv. unfold ttl_field. cbn. destruct (expires_at e) as [dl|] eqn:E; cbn; [|by vm_compute].
  destruct (time_left_bounds now k e dl Hnow Hv E). unfold i64_min, i64_max in *. lia.
Qed.

(** Applying the exported records overflows nothing. *)
Lemma exported_fit (now : bytes → time_point) l :
  (∀ k, 0 ≤ now k) → (∀ i, 0 ≤ clock i) →
  (∀ k e dl i, kv_view (now k) k c = Some e → expires_at e = Some dl → clock i + (dl - now k) ≤ i64_max) →
  lists_visible kv_view now c l → Forall (record_fits clock elapsed) (record_of <$> l).
Proof.
  intros Hnow Hclock Hdl Hin. apply Forall_fmap, Forall_forall. intros x (e & Hv & Hx)%Hin.
  rewrite Hx. unfold record_fits, compose, record_of, ttl_field. cbn.
  destruct (expires_at e) as [dl|] eqn:E; cbn; [right|by left].
  destruct (time_left_bounds _ _ e dl (Hnow _) Hv E) as [H1 H2]. pose proof (λ i, Hdl _ _ _ i Hv E) as Hi.
  unfold i64_min, i64_max in *. split; [lia|]. intros i. specialize (Hi i). specialize (Hclock i). lia.
Qed.

Lemma restored_recovered now k e old back :
  0 ≤ now → kv_view now k c = Some e → (∀ t, old t = None) →
  restored clock elapsed (record_of (Lru.snapshot_of now e)) old back →
  recovered now elapsed clock (Some e) back.
Proof.
  intros Hnow Hv Hold. unfold restored, recovered, record_of, ttl_field. cbn.
  destruct (expires_at e) as [dl|] eqn:E; cbn.
  - destruct (time_left_bounds _ _ e dl Hnow Hv E) as [H1 _].
    rewrite (proj2 (Z.eqb_neq _ _)) by (unfold kNoExpiry; lia).
    destruct (0 <? _); [done|]. intros Hb t. by rewrite Hb.
  - intros Hb t. rewrite Hb. destruct e. cbn in *. by subst.
Qed.
End Recovered.

Section RoundTrip.
Context {C : Type} `{KvLaws C} (now : bytes → time_point) (Hnow : ∀ k, 0 ≤ now k).

(** A saved file, read back. *)
Lemma saved_file_parses wall wall' (c : C) l :
  0 ≤ wall ≤ wall' → wall' ≤ i64_max → kv_ok c → lists_visible kv_view now c l →
  zlen (format wall l) ≤ i64_max →
  parse wall' (format wall l) = Ret (inr (wall' - wall, record_of <$> l)).
Proof.
  intros Hw Hw' Hc Hin Hsize. destruct (format_length wall l) as [H7 Hfe].
  rewrite parse_format; [by rewrite Z.max_r by lia|unfold i64_min, i64_max in *; lia..|].
  apply Forall_forall. intros x Hx. pose proof (format_entries_fit l x Hx). split; [lia|].
  apply Hin in Hx as (e & Hv & ->). by eapply exported_ttl.
Qed.

Lemma find_visible (c : C) l k :
  lists_visible kv_view now c l → NoDup (snap_key <$> l) →
  find_by rec_key k (record_of <$> l) = record_of ∘ Lru.snapshot_of (now k) <$> kv_view (now k) k c.
Proof.
  intros Hin Hnd. destruct (kv_view (now k) k c) as [e|] eqn:E; cbn.
  - pose proof (kv_view_key _ _ _ _ E) as [Hk _].
    assert (Lru.snapshot_of (now k) e ∈ l) as Hx by (apply Hin; exists e; cbn; by rewrite Hk).
    pose proof (find_by_elem rec_key (record_of <$> l) (record_of (Lru.snapshot_of (now k) e))) as Hf.
    cbn in Hf. rewrite Hk in Hf. apply Hf; [by apply records_NoDup|]. by apply list_elem_of_fmap_2.
  - apply find_by_None. intros (r & -> & (x & -> & Hx)%list_elem_of_fmap)%list_elem_of_fmap.
    apply Hin in Hx as (e & Hv & _). cbn in E. by rewrite E in Hv.
Qed.
End RoundTrip.

Section SaveLoad.
Context {C D : Type} `{KvLaws C, KvLaws D} (c : C) (d : D) (p : t) (files : fs).
Context (now : nat → time_point) (wall wall' pid n size : Z) (clock : nat → time_point).

(** What a save and a later load need: a well-formed store, clocks that do not
    run backwards in between and do not overflow the restored deadlines, a disk
    with room for the file. *)
Record round_trip_ready : Prop := {
  ready_store : kv_ok c;
  ready_clock : (∀ i, 0 ≤ now i) ∧ ∀ i, 0 ≤ clock i;
  ready_wall : 0 ≤ wall ≤ wall' ∧ wall' ≤ i64_max;
  ready_deadlines : ∀ j k e dl i, kv_view (now j) k c = Some e → expires_at e = Some dl →
    clock i + (dl - now j) ≤ i64_max;
  ready_size : size ≤ i64_max ∧ ∀ l, kv_export now c = Ret l → zlen (format wall l) ≤ size
}.

Lemma round_trip : round_trip_ready →
  kv_ok d → kv_unbounded d → (∀ t k, kv_view t k d = None) →
  ∃ r n' files' r' d',
    save now wall pid n (mkDisk true size None) p c files = Ret (r, n', files') ∧ save_ok r = true ∧
    load clock wall' p files' d = Ret (r', d') ∧ load_ok r' = true ∧
    u64 (loaded r' + expired r') = save_entries r ∧ kv_ok d' ∧
    ∀ k, ∃ j, recovered (now j) (wall' - wall) clock (kv_view (now j) k c) (λ t, kv_view t k d').
Proof.
  intros [Hc [Hnow Hclock] [Hwall Hwall'] Hdl Hsize] Hd Hu Hempty.
  destruct (kv_export_law now c Hc Hnow) as (l & reading & Hl & Hnd & Hin). unfold save in *. rewrite Hl in *.
  destruct Hsize as [Hmax Hsize]. specialize (Hsize _ eq_refl).
  assert (∀ k, 0 ≤ (now ∘ reading) k) as Hrd by (intros k; apply Hnow).
  pose proof (saved_file_parses _ Hrd wall wall' c l Hwall Hwall' Hc Hin ltac:(lia)) as Hp.
  destruct (apply_records_spec clock (wall' - wall) (rev (record_of <$> l)) 0 0 0 d Hd Hu)
    as (a & b & d' & Ha & Hd' & _ & Hsum & Hall).
  { rewrite <- Permutation_rev. by apply records_NoDup. }
  { rewrite <- Permutation_rev. apply (exported_fit (wall' - wall) clock c Hc ltac:(lia) (now ∘ reading)); [done..| |done].
    intros k e dl i. apply Hdl. }
  cbn [creates room rename_error negb mbind outcome_bind]. rewrite (proj2 (Z.ltb_ge size _)) by done.
  do 5 eexists. split; [reflexivity|]. split; [done|]. split.
  { unfold load. cbn [path_]. rewrite lookup_insert_eq, Hp. rewrite bind_ret_l, Ha. reflexivity. }
  split; [done|]. split.
  { cbn [loaded expired save_entries]. rewrite Hsum. unfold zlen. rewrite length_rev, length_fmap.
    destruct (format_length wall l). apply u64_small. unfold zlen, i64_max in *. lia. }
  split; [done|]. intros k. specialize (Hall k). exists (reading k).
  rewrite find_record_rev, (find_visible (now ∘ reading) c) in Hall by done. cbn in Hall.
  destruct (kv_view (now (reading k)) k c) as [e|] eqn:E; cbn [fmap option_fmap option_map] in Hall;
    [|by cbn; setoid_rewrite Hall].
  eapply (restored_recovered _ clock c); [done..| |exact Hall]. intros t. apply Hempty.
Qed.
End SaveLoad.
Arguments round_trip_ready {C} {_ _} _ _ _ _ _ _.

(** C23.  A save followed by a load into an empty, unbounded store brings back
    exactly the entries that were visible when the save looked at them, whatever
    bytes they hold: persistent entries as they were, entries with a TTL with
    the time spent on disk taken off, entries whose time ran out left out.
    (The save looks at each key at one of the clock readings [now j] it makes.)
    Both calls report success, and the entries loaded and expired add up to the
    entries saved. *)
Theorem snapshot_round_trip {C D} `{KvLaws C, KvLaws D} (c : C) (d : D) p files now wall wall' pid n size clock
    (Hready : round_trip_ready c now wall wall' size clock)
    (Hd : kv_ok d) (Hu : kv_unbounded d) (Hempty : ∀ t k, kv_view t k d = None) :
  ∃ r n' files' r' d',
    save now wall pid n (mkDisk true size None) p c files = Ret (r, n', files') ∧ save_ok r = true ∧
    load clock wall' p files' d = Ret (r', d') ∧ load_ok r' = true ∧
    u64 (loaded r' + expired r') = save_entries r ∧ kv_ok d' ∧
    ∀ k, ∃ j, recovered (now j) (wall' - wall) clock (kv_view (now j) k c) (λ t, kv_view t k d').
Proof. by apply round_trip. Qed.

(** ** Witness: a cache with a persistent key and one that expires *)
Lemma demo_ready :
  round_trip_ready CacheTheorems.demo (λ _, 4) 100 101 1000 (λ _, 4).
Proof.
  split.
  - apply History.reachable_inv, CacheTheorems.demo_reachable.
  - split; lia.
  - split; [lia|by vm_compute].
  - intros j k e dl i Hv Hd. pose proof (kv_view_deadline 4 k CacheTheorems.demo e dl
      (History.reachable_inv _ CacheTheorems.demo_reachable) Hv Hd). lia.
  - split; [by vm_compute|]. intros l Hl.
    apply (f_equal (λ o, match o with Ret l => zlen (Snapshot.format 100 l) | _ => 0 end)) in Hl.
    cbn beta iota in Hl. rewrite <- Hl. by vm_compute.
Qed.

Lemma snapshot_round_trip_witness :
  ∃ r n' files' r' d',
    save (λ _, 4) 100 42 0 (mkDisk true 1000 None) (Persistence.mk $"f") CacheTheorems.demo ∅ = Ret (r, n', files') ∧
    save_ok r = true ∧ load (λ _, 4) 101 (Persistence.mk $"f") files' Cache.Cache_unbounded = Ret (r', d') ∧
    load_ok r' = true.
Proof.
  destruct (snapshot_round_trip _ Cache.Cache_unbounded (Persistence.mk $"f") ∅ _ _ _ 42 0 _ _ demo_ready)
    as (r & n' & files' & r' & d' & H1 & H2 & H3 & H4 & _);
    [apply CacheRefine.inv_unbounded|reflexivity|reflexivity|].
  exists r, n', files', r', d'. split; [exact H1|]. split; [exact H2|]. split; [exact H3|exact H4].
Defined.
End PersistenceTheorems.
