(* ===== verification/LoadOutcome.v ===== *)
(** * Loading any file

    What [Persistence::load] (src/persistence.cpp) does with a snapshot file of
    any bytes, no assumption on who wrote it.  The lengths and the count of a
    file are checked before they are used; the times are not: this file has
    exactly when that matters. *)
From S2P Require Import Prelude Numbers RecencyList Lru KvStore Cache CacheRefine.
From S2P Require Import CacheTheorems CacheKv SyncCache ShardedCache ShardedTheorems.
From S2P Require Import Stream Snapshot Persistence.

Module LoadOutcome.
Import Snapshot Persistence.

(** The save time of a file whose header is accepted. *)
Definition save_time (content : bytes) : option Z :=
  let s := Stream.open content in
  let '(magic, s) := Stream.read_word s in
  let '(version, s) := Stream.read_int int_min int_max s in
  let '(saved_at_ms, s) := Stream.read_int i64_min i64_max s in
  if Stream.failed s || negb (bool_decide (magic = kMagic)) || negb (version =? kVersion) then None
  else Some saved_at_ms.

(** The age of the file is a [long long]. *)
Definition age_fits (wall : Z) (content : bytes) : bool :=
  match save_time content with Some saved => in_i64 (wall - saved) | None => true end.

(** The time left to a record is a [long long], and the deadline it gets when it
    is set at [now] is a time point. *)
Definition record_ok (now elapsed : Z) (r : Record) : bool :=
  (ttl_ms r =? kNoExpiry) ||
  in_i64 (ttl_ms r - elapsed) && (now + (ttl_ms r - elapsed) * 1000000 <=? i64_max).

(** The records, in the order they are applied, each at its clock reading. *)
Fixpoint records_ok (clock : nat → time_point) (elapsed : Z) (i : nat) (rs : list Record) : bool :=
  match rs with
  | [] => true
  | r :: rs => record_ok (clock i) elapsed r && records_ok clock elapsed (S i) rs
  end.

(** Nothing on the way overflows. *)
Definition times_fit (clock : nat → time_point) (wall : Z) (content : bytes) : bool :=
  age_fits wall content &&
  match parse wall content with
  | Ret (inr (elapsed, rs)) => records_ok clock elapsed 0 (rev rs)
  | _ => true
  end.

(** ** Lemmas *)

(** The parser fails to return only on the age. *)
Lemma parse_outcome wall content :
  if age_fits wall content then ∃ r, parse wall content = Ret r else parse wall content = UB.
Proof.
  unfold age_fits, save_time, parse.
  destruct (Stream.read_word (Stream.open content)) as [magic s1].
  destruct (Stream.read_int int_min int_max s1) as [version s2].
  destruct (Stream.read_int i64_min i64_max s2) as [saved s3].
  destruct (Stream.failed s3 || negb (bool_decide (magic = kMagic))) eqn:Eh; cbn [orb]; [by eexists|].
  destruct (negb (version =? kVersion)); [by eexists|]. unfold i64.
  destruct (in_i64 (wall - saved)); [|done]. cbn [mbind outcome_bind].
  repeat (case_match; try by eexists).
Qed.

Section Apply.
Context {C : Type} `{KvOverflows C} (clock : nat → time_point) (elapsed : Z).
Context (Hclock : ∀ i, 0 ≤ clock i ≤ i64_max).

Lemma record_ok_ttl i r :
  ttl_ms r ≠ kNoExpiry → record_ok (clock i) elapsed r =
  in_i64 (ttl_ms r - elapsed) && (clock i + (ttl_ms r - elapsed) * 1000000 <=? i64_max).
Proof. intros E. unfold record_ok. by rewrite (proj2 (Z.eqb_neq _ _) E). Qed.

Lemma apply_records_outcome rs i n m (c : C) :
  kv_ok c →
  if records_ok clock elapsed i rs
  then ∃ n' m' c', apply_records clock i elapsed rs n m c = Ret (n', m', c') ∧ kv_ok c' ∧
         u64 (n' + m') = u64 (n + m + zlen rs)
  else apply_records clock i elapsed rs n m c = UB.
Proof.
  revert i n m c. induction rs as [|r rs IH]; intros i n m c Hc.
  { do 3 eexists. split; [reflexivity|]. split; [done|]. f_equal. unfold zlen. cbn. lia. }
  assert (∀ b n1 m1 c1, kv_ok c1 → u64 (n1 + m1) = u64 (n + m + 1) → b = true →
    if b && records_ok clock elapsed (S i) rs
    then ∃ n' m' c', apply_records clock (S i) elapsed rs n1 m1 c1 = Ret (n', m', c') ∧ kv_ok c' ∧
           u64 (n' + m') = u64 (n + m + zlen (r :: rs))
    else apply_records clock (S i) elapsed rs n1 m1 c1 = UB) as Hgo.
  { intros b n1 m1 c1 Hc1 E1 ->. cbn [andb]. specialize (IH (S i) n1 m1 c1 Hc1).
    destruct (records_ok clock elapsed (S i) rs); [|done]. destruct IH as (n' & m' & c' & -> & Hc' & E).
    do 3 eexists. split; [reflexivity|]. split; [done|]. rewrite E, <- u64_add_l, E1, u64_add_l.
    f_equal. unfold zlen. cbn [length]. lia. }
  cbn [apply_records records_ok].
  destruct (Z.eqb_spec (ttl_ms r) kNoExpiry) as [E|E].
  - destruct (kv_set_law (rec_key r) (rec_value r) c Hc) as (c' & -> & Hc' & _).
    cbn [mbind outcome_bind]. apply Hgo; [done| |].
    + rewrite u64_add_l. f_equal. lia.
    + unfold record_ok. by rewrite E.
  - rewrite record_ok_ttl by done. unfold i64. destruct (in_i64 (ttl_ms r - elapsed)) eqn:Ei; [|done].
    cbn [andb mbind outcome_bind]. destruct (Hclock i) as [Hlo Hhi].
    destruct (Z.ltb_spec 0 (ttl_ms r - elapsed)) as [Hpos|Hneg].
    + destruct (Z.leb_spec (clock i + (ttl_ms r - elapsed) * 1000000) i64_max) as [Hd|Hd].
      * destruct (kv_set_ttl_law (clock i) (rec_key r) (rec_value r) _ c Hc Hlo Hd) as (c' & -> & Hc' & _).
        cbn [mbind outcome_bind]. apply (Hgo true); [done| |done]. rewrite u64_add_l. f_equal. lia.
      * by rewrite kv_set_ttl_overflows.
    + apply Hgo; [done| |apply Z.leb_le; lia]. rewrite Z.add_comm, u64_add_l. f_equal. lia.
Qed.
End Apply.

(** C39.  [load] on a file of any bytes, into any well-formed store: it reaches
    undefined behaviour exactly when a time of the file does not fit, that is when
    the age of the file overflows a [long long], or the time left to some record
    does, or the deadline of a record that is set overflows.  In all other
    cases it returns: either it reports an error and the store is as it was,
    or it reports success and every record of the file is counted as loaded or
    as expired. *)
Theorem load_outcome {C} `{KvOverflows C} clock wall p files content (c : C)
    (Hc : kv_ok c) (Hclock : ∀ i, 0 ≤ clock i ≤ i64_max)
    (Hfile : files !! path_ p = Some content) :
  if times_fit clock wall content
  then ∃ r c', load clock wall p files c = Ret (r, c') ∧ kv_ok c' ∧
         match parse wall content with
         | Ret (inr (_, records)) => load_ok r = true ∧ u64 (loaded r + expired r) = u64 (zlen records)
         | _ => load_ok r = false ∧ c' = c
         end
  else load clock wall p files c = UB.
Proof.
  unfold times_fit, load. rewrite Hfile. pose proof (parse_outcome wall content) as Hp.
  destruct (age_fits wall content); cbn [andb]; [|by rewrite Hp].
  destruct Hp as [[error|[elapsed rs]] ->]; cbn [mbind outcome_bind]; [by do 2 eexists|].
  pose proof (apply_records_outcome clock elapsed Hclock (rev rs) 0 0 0 c Hc) as Ha.
  destruct (records_ok clock elapsed 0 (rev rs)); [|by rewrite Ha].
  destruct Ha as (n & m & c' & -> & Hc' & E). cbn [mbind outcome_bind]. do 2 eexists. split; [reflexivity|].
  split; [done|]. split; [done|]. cbn. rewrite E. unfold zlen. by rewrite length_rev, Z.add_0_l.
Qed.

(** ** Witness: three files no save would write

    One with a TTL of 2^63 - 1 milliseconds, one saved at -2^63, and one cut
    short, which alone is reported. *)
Definition huge_ttl : bytes := format 0 [mkSnapshot $"k" $"v" (Some i64_max)].
Definition ancient : bytes := format i64_min [].
Definition cut_short : bytes := take 20 huge_ttl.

#[local] Existing Instances ShardedCache.ShardedCache_ops ShardedCache.ShardedCache_laws ShardedCache.ShardedCache_overflows.

Definition demo_store : ShardedCache.t ShardedTheorems.length_hash :=
  ShardedCache.ShardedCache_unbounded ShardedTheorems.length_hash 4.

Lemma load_outcome_witness :
  load (λ _, 0) 0 (Persistence.mk $"f") {[ $"f" := huge_ttl ]} demo_store = UB ∧
  load (λ _, 0) 0 (Persistence.mk $"f") {[ $"f" := ancient ]} demo_store = UB ∧
  ∃ r, load (λ _, 0) 0 (Persistence.mk $"f") {[ $"f" := cut_short ]} demo_store = Ret (r, demo_store) ∧
    load_ok r = false.
Proof.
  assert (kv_ok demo_store) as Hok by (apply ShardedTheorems.unbounded_ok; lia).
  assert (∀ i : nat, 0 ≤ (λ _ : nat, 0) i ≤ i64_max) as Hclock by (intros i; vm_compute; split; discriminate).
  split; [|split].
  - exact (load_outcome (λ _, 0) 0 (Persistence.mk $"f") {[ $"f" := huge_ttl ]} huge_ttl demo_store Hok Hclock
      (lookup_singleton_eq _ _)).
  - exact (load_outcome (λ _, 0) 0 (Persistence.mk $"f") {[ $"f" := ancient ]} ancient demo_store Hok Hclock
      (lookup_singleton_eq _ _)).
  - destruct (load_outcome (λ _, 0) 0 (Persistence.mk $"f") {[ $"f" := cut_short ]} cut_short demo_store Hok Hclock
      (lookup_singleton_eq _ _)) as (r & c' & E & _ & Hr & Hsame).
    exists r. rewrite Hsame in E. split; [exact E|exact Hr].
Defined.
End LoadOutcome.
