(* ===== verification/SaveRace.v ===== *)
(** * Concurrent and interrupted saves

    [PersistenceManager::save] as the sequence of its effects on the file
    system, interleaved with those of any number of other threads saving to the
    same path: naming the temporary file, creating it, writing some more of it,
    renaming it into place, or failing and removing it.  A crash is a run that
    stops; what a reader finds at any instant is the state of that instant. *)
From S2P Require Import Prelude Numbers RecencyList Lru KvStore Cache CacheKv.
From S2P Require Import Stream Snapshot Persistence.

Module SaveRace.
Import Numbers Snapshot Persistence.

(** Where a thread is in [save].  The content is what it exported: it is
    formatted from the entries before the file is opened. *)
Inductive phase :=
| Idle
| Named (counter : Z) (content : bytes)
| Writing (counter : Z) (content : bytes) (written : nat).

Record sys := mkSys {
  files : fs;
  counter_ : Z;
  savers : list phase
}.

(** What a save may write: some wall-clock time and some entries. *)
Definition snapshot_file (content : bytes) : Prop :=
  ∃ wall l, content = format wall l ∧ 0 ≤ wall ≤ i64_max ∧ zlen l ≤ i64_max ∧ Forall entry_fits l.

Section Race.
Context (path : bytes) (pid : Z).

Definition temp_path (n : Z) : bytes := unique_temp_path path pid n.

(** One effect of one thread.  [counter.fetch_add(1)] is assumed not to have
    wrapped: that would take 2^64 saves. *)
Inductive step : sys → sys → Prop :=
| step_name f n sv i content :
    sv !! i = Some Idle → snapshot_file content → n + 1 < 2 ^ 64 →
    step (mkSys f n sv) (mkSys f (u64 (n + 1)) (<[i := Named n content]> sv))
| step_open f n sv i k content :
    sv !! i = Some (Named k content) →
    step (mkSys f n sv) (mkSys (<[temp_path k := []]> f) n (<[i := Writing k content 0]> sv))
| step_open_fails f n sv i k content :
    sv !! i = Some (Named k content) →
    step (mkSys f n sv) (mkSys f n (<[i := Idle]> sv))
| step_write f n sv i k content w w' :
    sv !! i = Some (Writing k content w) → (w ≤ w' ≤ length content)%nat →
    step (mkSys f n sv)
         (mkSys (<[temp_path k := take w' content]> f) n (<[i := Writing k content w']> sv))
| step_remove f n sv i k content w :
    sv !! i = Some (Writing k content w) →
    step (mkSys f n sv) (mkSys (delete (temp_path k) f) n (<[i := Idle]> sv))
| step_rename f n sv i k content :
    sv !! i = Some (Writing k content (length content)) →
    step (mkSys f n sv)
         (mkSys (<[path := default [] (f !! temp_path k)]> (delete (temp_path k) f)) n
                (<[i := Idle]> sv)).

(** The counter a thread holds. *)
Definition held (p : phase) : option Z :=
  match p with Idle => None | Named k _ | Writing k _ _ => Some k end.

(** The invariant: counters held are distinct and already handed out, a file
    being written holds the prefix its thread wrote, the path holds what it held
    at the start or a complete snapshot, and nothing else changed. *)
Record safe (f0 : fs) (s : sys) : Prop := {
  safe_range : 0 ≤ counter_ s < 2 ^ 64;
  safe_held i p k : savers s !! i = Some p → held p = Some k → 0 ≤ k < counter_ s;
  safe_distinct i j p q k : savers s !! i = Some p → savers s !! j = Some q →
    held p = Some k → held q = Some k → i = j;
  safe_content i p k content : savers s !! i = Some p →
    (p = Named k content ∨ ∃ w, p = Writing k content w) → snapshot_file content;
  safe_writing i k content w : savers s !! i = Some (Writing k content w) →
    files s !! temp_path k = Some (take w content);
  safe_path : files s !! path = f0 !! path ∨
    ∃ content, snapshot_file content ∧ files s !! path = Some content;
  safe_others q : q ≠ path → (∀ k, 0 ≤ k < 2 ^ 64 → q ≠ temp_path k) → files s !! q = f0 !! q
}.

(** ** Lemmas: temporary names *)
Lemma to_string_inj a b : - 10 ^ 20 < a < 10 ^ 20 → - 10 ^ 20 < b < 10 ^ 20 → to_string a = to_string b → a = b.
Proof.
  intros Ha Hb E.
  pose proof (from_chars_to_string (- 10 ^ 20) (10 ^ 20) a [] ltac:(lia) Ha I) as H1.
  pose proof (from_chars_to_string (- 10 ^ 20) (10 ^ 20) b [] ltac:(lia) Hb I) as H2.
  rewrite E in H1. congruence.
Qed.

Lemma temp_path_inj a b : 0 ≤ a < 2 ^ 64 → 0 ≤ b < 2 ^ 64 → temp_path a = temp_path b → a = b.
Proof.
  intros Ha Hb E. unfold temp_path, unique_temp_path in E. do 4 apply app_inv_head in E.
  apply to_string_inj in E; lia.
Qed.

Lemma temp_path_ne k : temp_path k ≠ path.
Proof.
  intros E%(f_equal length). unfold temp_path, unique_temp_path in E. rewrite !length_app in E.
  cbn in E. lia.
Qed.

(** ** The invariant holds in every reachable state *)
Lemma safe_start f n m : 0 ≤ n < 2 ^ 64 → safe f (mkSys f n (replicate m Idle)).
Proof.
  intros Hn. assert (∀ i p, replicate m Idle !! i = Some p → p = Idle) as Hi.
  { intros i p Hp. by apply lookup_replicate in Hp as [-> _]. }
  split; cbn; try done.
  - intros i p k ->%Hi Hk. done.
  - intros i j p q k ->%Hi _ Hk. done.
  - intros i p k content ->%Hi [?|[? ?]]; done.
  - intros i k content w ?%Hi. done.
  - by left.
Qed.

Ltac lookup_cases :=
  repeat match goal with
  | H : <[_ := _]> _ !! _ = Some _ |- _ =>
      apply list_lookup_insert_Some in H as [(? & ? & _)|[? H]]
  end; subst.

(** The thread that moves keeps its counter or gives it up. *)
Section Move.
Context (f0 : fs) (f : fs) (n : Z) (sv : list phase) (i : nat) (p p' : phase).
Context (Hs : safe f0 (mkSys f n sv)) (Hp : sv !! i = Some p).
Context (Hheld : held p' = None ∨ held p' = held p).

Lemma move_held j q k : <[i := p']> sv !! j = Some q → held q = Some k → 0 ≤ k < n.
Proof.
  intros Hq Hk. lookup_cases; [|by eapply (safe_held _ _ Hs)].
  destruct Hheld as [E|E]; [congruence|]. eapply (safe_held _ _ Hs); [exact Hp|congruence].
Qed.

Lemma move_distinct j1 j2 q1 q2 k :
  <[i := p']> sv !! j1 = Some q1 → <[i := p']> sv !! j2 = Some q2 →
  held q1 = Some k → held q2 = Some k → j1 = j2.
Proof.
  intros H1 H2 K1 K2. lookup_cases; try done; [..|by eapply (safe_distinct _ _ Hs)];
    (destruct Hheld as [E|E]; [congruence|rewrite E in *]).
  - by apply (safe_distinct _ _ Hs _ _ q1 p k).
  - by apply (safe_distinct _ _ Hs _ _ p q2 k).
Qed.

(** Another thread's file is another file. *)
Lemma other_temp j q k k' :
  sv !! j = Some q → held q = Some k → held p = Some k' → i ≠ j → temp_path k' ≠ temp_path k.
Proof.
  intros Hj Hk Hk' Hij E. pose proof (safe_range _ _ Hs). cbn in *.
  pose proof (safe_held _ _ Hs _ _ _ Hj Hk). pose proof (safe_held _ _ Hs _ _ _ Hp Hk'). cbn in *.
  apply temp_path_inj in E; [|lia..]. subst. apply Hij. by eapply (safe_distinct _ _ Hs).
Qed.

(** A move that touches only the thread's own file and the path, and leaves
    there what the invariant asks for. *)
Lemma safe_move f' k :
  held p = Some k → (∀ q, q ≠ temp_path k → q ≠ path → f' !! q = f !! q) →
  (∀ k' c, (p' = Named k' c ∨ ∃ w, p' = Writing k' c w) → snapshot_file c) →
  (∀ k' c w, p' = Writing k' c w → f' !! temp_path k' = Some (take w c)) →
  (f' !! path = f !! path ∨ ∃ c, snapshot_file c ∧ f' !! path = Some c) →
  safe f0 (mkSys f' n (<[i := p']> sv)).
Proof.
  intros Hk Hf Hc Hw Hpath. pose proof (safe_range _ _ Hs) as Hr.
  pose proof (safe_held _ _ Hs _ _ _ Hp Hk) as Hk'. cbn in Hr, Hk'.
  split; cbn [files counter_ savers]; [done|apply move_held|apply move_distinct|..].
  - intros j q k1 c Hq Hcase. lookup_cases; [by eapply Hc|by eapply (safe_content _ _ Hs)].
  - intros j k1 c w Hq. lookup_cases; [by apply Hw|]. rewrite Hf.
    + by apply (safe_writing _ _ Hs j k1 c w).
    + apply not_eq_sym. by apply (other_temp j (Writing k1 c w)).
    + apply temp_path_ne.
  - destruct Hpath as [->|?]; [apply (safe_path _ _ Hs)|by right].
  - intros q Hq Hall. rewrite Hf by (done || apply Hall; lia). by apply (safe_others _ _ Hs).
Qed.
End Move.

Lemma safe_name f0 f n sv i content :
  safe f0 (mkSys f n sv) → sv !! i = Some Idle → snapshot_file content → n + 1 < 2 ^ 64 →
  safe f0 (mkSys f (u64 (n + 1)) (<[i := Named n content]> sv)).
Proof.
  intros Hs Hi Hsnap Hn. pose proof (safe_range _ _ Hs) as Hr. cbn in Hr.
  assert (u64 (n + 1) = n + 1) as Hu by (apply u64_small; lia).
  split; cbn [files counter_ savers]; rewrite ?Hu; [lia|..|apply (safe_path _ _ Hs)|apply (safe_others _ _ Hs)].
  - intros j q k Hq Hk. lookup_cases; [cbn in Hk; simplify_eq; lia|].
    pose proof (safe_held _ _ Hs _ _ _ Hq Hk). cbn in *. lia.
  - intros j1 j2 q1 q2 k H1 H2 K1 K2. lookup_cases; cbn in *; simplify_eq; try done.
    + pose proof (safe_held _ _ Hs _ _ _ H1 K1). cbn in *. lia.
    + pose proof (safe_held _ _ Hs _ _ _ H2 K2). cbn in *. lia.
    + by eapply (safe_distinct _ _ Hs).
  - intros j q k c Hq Hc. lookup_cases; [by destruct Hc as [?|[? ?]]; simplify_eq|].
    by eapply (safe_content _ _ Hs).
  - intros j k c w Hq. lookup_cases; [done|]. by eapply (safe_writing _ _ Hs).
Qed.

(** The invariant after a thread gives up its counter. *)
Lemma safe_release f0 f f' n sv i p k :
  safe f0 (mkSys f n sv) → sv !! i = Some p → held p = Some k →
  (∀ q, q ≠ temp_path k → q ≠ path → f' !! q = f !! q) →
  (f' !! path = f !! path ∨ ∃ c, snapshot_file c ∧ f' !! path = Some c) →
  safe f0 (mkSys f' n (<[i := Idle]> sv)).
Proof.
  intros Hs Hi Hk Hf Hpath. apply (safe_move f0 f n sv i p Idle Hs Hi (or_introl eq_refl) f' k); try done.
  intros k' c [?|[? ?]]; done.
Qed.

(** The invariant after a thread writes to its own file. *)
Lemma safe_write f0 f n sv i p k content w :
  safe f0 (mkSys f n sv) → sv !! i = Some p → held p = Some k → snapshot_file content →
  safe f0 (mkSys (<[temp_path k := take w content]> f) n (<[i := Writing k content w]> sv)).
Proof.
  intros Hs Hi Hk Hc. pose proof (temp_path_ne k).
  apply (safe_move f0 f n sv i p (Writing k content w) Hs Hi (or_intror (eq_sym Hk)) _ k); try done.
  - intros q Hq _. by rewrite lookup_insert_ne.
  - intros k' c [?|[? ?]]; by simplify_eq.
  - intros k' c w' ?. simplify_eq. by rewrite lookup_insert_eq.
  - left. by rewrite lookup_insert_ne.
Qed.

Lemma safe_step f0 s s' : safe f0 s → step s s' → safe f0 s'.
Proof.
  intros Hs Hstep. destruct Hstep as
    [f n sv i content Hi Hsnap Hn|f n sv i k content Hi|f n sv i k content Hi
    |f n sv i k content w w' Hi Hw|f n sv i k content w Hi|f n sv i k content Hi];
    [by apply safe_name|pose proof (temp_path_ne k) as Hne..].
  - apply (safe_write f0 f n sv i _ k content 0 Hs Hi eq_refl).
    apply (safe_content _ _ Hs i _ k content Hi). by left.
  - apply (safe_release f0 f f n sv i _ k Hs Hi eq_refl); [done|by left].
  - apply (safe_write f0 f n sv i _ k content w' Hs Hi eq_refl).
    apply (safe_content _ _ Hs i _ k content Hi). right. by exists w.
  - apply (safe_release f0 f _ n sv i _ k Hs Hi eq_refl).
    + intros q Hq _. by rewrite lookup_delete_ne.
    + left. by rewrite lookup_delete_ne.
  - apply (safe_release f0 f _ n sv i _ k Hs Hi eq_refl).
    + intros q Hq Hqp. by rewrite lookup_insert_ne, lookup_delete_ne by done.
    + right. exists content. split.
      * apply (safe_content _ _ Hs i _ k content Hi). right. by eexists.
      * pose proof (safe_writing _ _ Hs i k content _ Hi) as Hf. cbn in Hf.
        by rewrite lookup_insert_eq, Hf, take_ge by done.
Qed.

Lemma safe_run f0 s s' : safe f0 s → rtc step s s' → safe f0 s'.
Proof. intros Hs Hr. induction Hr; eauto using safe_step. Qed.
End Race.

(** ** Properties *)

(** C25.  However many threads save to one path at the same time, and wherever
    their runs stop (a crash, a full disk, a failed rename), the path holds at
    every instant what it held at the start or one complete snapshot, which a
    load parses without error; files that are neither the snapshot nor a
    temporary of this process are never touched. *)
Theorem saves_never_tear path pid f0 n m s (Hn : 0 ≤ n < 2 ^ 64)
    (Hrun : rtc (step path pid) (mkSys f0 n (replicate m Idle)) s) :
  (files s !! path = f0 !! path ∨
   ∃ content, files s !! path = Some content ∧
     ∀ now, 0 ≤ now ≤ i64_max → ∃ age rs, parse now content = Ret (inr (age, rs))) ∧
  (∀ q, q ≠ path → (∀ k, 0 ≤ k < 2 ^ 64 → q ≠ temp_path path pid k) → files s !! q = f0 !! q).
Proof.
  pose proof (safe_run path pid f0 _ s (safe_start path pid f0 n m Hn) Hrun) as Hs. split.
  - destruct (safe_path _ _ _ _ Hs) as [?|(content & (wall & l & -> & Hw & Hl & Hfit) & E)]; [by left|right].
    exists (format wall l). split; [done|]. intros now Hnow.
    rewrite parse_format; [by do 2 eexists|unfold i64_min, i64_max in *; lia..|done].
  - apply (safe_others _ _ _ _ Hs).
Qed.

Section Alone.
Context {C : Type} `{KvOps C} (wall pid : Z) (p : t) (c : C) (l : list EntrySnapshot).

(** The steps of one call of [save]. *)
Lemma write_run f n : snapshot_file (format wall l) → n + 1 < 2 ^ 64 →
  rtc (step (path_ p) pid) (mkSys f n [Idle])
    (mkSys (<[temp_path (path_ p) pid n := format wall l]> f) (u64 (n + 1))
       [Writing n (format wall l) (length (format wall l))]).
Proof.
  intros Hs Hn. eapply rtc_l; [by apply (step_name (path_ p) pid f n [Idle] 0 (format wall l))|].
  eapply rtc_l; [by apply (step_open (path_ p) pid f _ _ 0 n (format wall l))|].
  cbn. apply rtc_once.
  pose proof (step_write (path_ p) pid (<[temp_path (path_ p) pid n := []]> f) (u64 (n + 1))
    [Writing n (format wall l) 0] 0 n (format wall l) 0 (length (format wall l)) eq_refl) as Hw.
  rewrite insert_insert_eq, take_ge in Hw by done. apply Hw. lia.
Qed.
End Alone.

(** C26.  The function [save] performs these steps: whatever the operating
    system answers, its effect on the files and the counter is a run of a single
    saver that ends idle, so that what is proved of every interleaving holds of
    it. *)
Theorem save_is_a_run {C} `{KvOps C} clock wall pid n d p (c : C) f l r n' f'
    (Hexport : kv_export clock c = Ret l) (Hsnap : snapshot_file (format wall l)) (Hn : n + 1 < 2 ^ 64)
    (Hsave : save clock wall pid n d p c f = Ret (r, n', f')) :
  rtc (step (path_ p) pid) (mkSys f n [Idle]) (mkSys f' n' [Idle]).
Proof.
  unfold save in Hsave. rewrite Hexport in Hsave. cbn in Hsave.
  destruct (creates d); cbn in Hsave; [|simplify_eq].
  - pose proof (write_run wall pid p l f n Hsnap Hn) as Hw.
    destruct (room d <? _); [|destruct (rename_error d)]; simplify_eq.
    + eapply rtc_r; [exact Hw|]. rewrite <- (delete_insert_eq f _ (format wall l)).
      exact (step_remove (path_ p) pid _ _ [Writing n _ _] 0 n (format wall l) _ eq_refl).
    + eapply rtc_r; [exact Hw|].
      exact (step_remove (path_ p) pid _ _ [Writing n _ _] 0 n (format wall l) _ eq_refl).
    + eapply rtc_r; [exact Hw|].
      pose proof (step_rename (path_ p) pid (<[temp_path (path_ p) pid n := format wall l]> f) (u64 (n + 1))
        [Writing n _ _] 0 n (format wall l) eq_refl) as Hr.
      rewrite lookup_insert_eq in Hr. exact Hr.
  - eapply rtc_l; [by apply (step_name (path_ p) pid f' n [Idle] 0 (format wall l))|].
    apply rtc_once.
    exact (step_open_fails (path_ p) pid f' (u64 (n + 1)) [Named n (format wall l)] 0 n (format wall l) eq_refl).
Qed.
(** ** Witnesses: two threads interleaved; one call *)
Definition file_a : bytes := format 1 [mkSnapshot $"a" $"1" None].
Definition file_b : bytes := format 2 [mkSnapshot $"b" $"2" None].

Lemma small_snapshot wall k v :
  0 ≤ wall ≤ 2 → zlen k + zlen v ≤ 2 →
  0 ≤ wall ≤ i64_max ∧ zlen [mkSnapshot k v None] ≤ i64_max ∧ Forall entry_fits [mkSnapshot k v None].
Proof.
  intros Hw Hl. unfold entry_fits, ttl_field, kNoExpiry, i64_min, i64_max. cbn. split; [lia|]. split; [done|].
  constructor; [|constructor]. cbn. lia.
Qed.

Lemma file_a_snapshot : snapshot_file file_a.
Proof. exists 1, [mkSnapshot $"a" $"1" None]. split; [reflexivity|]. by apply small_snapshot. Qed.

Lemma file_b_snapshot : snapshot_file file_b.
Proof. exists 2, [mkSnapshot $"b" $"2" None]. split; [reflexivity|]. by apply small_snapshot. Qed.

(** Both threads are writing; neither has renamed yet. *)
Lemma two_writers :
  rtc (step $"f" 42) (mkSys ∅ 0 (replicate 2 Idle))
    (mkSys (<[temp_path $"f" 42 1 := []]> (<[temp_path $"f" 42 0 := []]> ∅)) 2
       [Writing 0 file_a 0; Writing 1 file_b 0]).
Proof.
  eapply rtc_l; [apply (step_name _ _ ∅ 0 [Idle; Idle] 0 file_a); [done|apply file_a_snapshot|lia]|].
  eapply rtc_l; [by apply (step_open _ _ ∅ 1 [Named 0 file_a; Idle] 0 0 file_a)|].
  eapply rtc_l; [apply (step_name _ _ _ 1 [Writing 0 file_a 0; Idle] 1 file_b); [done|apply file_b_snapshot|lia]|].
  apply rtc_once. by apply (step_open _ _ _ 2 [Writing 0 file_a 0; Named 1 file_b] 1 1 file_b).
Qed.

Lemma saves_never_tear_witness :
  let s := mkSys (<[temp_path $"f" 42 1 := []]> (<[temp_path $"f" 42 0 := []]> ∅)) 2
             [Writing 0 file_a 0; Writing 1 file_b 0] in
  files s !! $"f" = (∅ : fs) !! $"f" ∨
  ∃ content, files s !! $"f" = Some content ∧
    ∀ now, 0 ≤ now ≤ i64_max → ∃ age rs, parse now content = Ret (inr (age, rs)).
Proof.
  intros s. destruct (saves_never_tear $"f" 42 ∅ 0 2 s ltac:(lia) two_writers) as [H _]. exact H.
Defined.

#[local] Existing Instance CacheKv.Cache_ops.

Lemma save_is_a_run_witness :
  rtc (step $"f" 42) (mkSys ∅ 0 [Idle])
    (mkSys (<[$"f" := format 1 []]> (delete (temp_path $"f" 42 0) (<[temp_path $"f" 42 0 := format 1 []]> ∅))) 1 [Idle]).
Proof.
  apply (save_is_a_run (λ _, 0) 1 42 0 (mkDisk true 1000 None) (Persistence.mk $"f") Cache.Cache_unbounded ∅ []
    (mkSaveResult true 0 (zlen (format 1 [])) [])).
  - reflexivity.
  - exists 1, []. split; [reflexivity|]. unfold i64_max. split; [lia|]. split; [unfold zlen; cbn; lia|constructor].
  - lia.
  - reflexivity.
Defined.
End SaveRace.
