(* ===== verification/CommandHandler.v ===== *)
(** * Applying a command (include/cachex/command_handler.hpp, src/net/command_handler.cpp)

    [execute] over any store that satisfies the interface: the replies depend
    on what is visible in the store, not on how it is built. *)
From S2P Require Import Prelude Numbers RecencyList Lru Cache History CacheTheorems.
From S2P Require Import KvStore CacheKv LineBuffer Protocol Snapshot Persistence.

Module CommandHandler.
Import Protocol.

(** What a command can touch besides its arguments: the store, the files, and
    the counter of temporary names. *)
Record world (C : Type) := mkWorld {
  store : C;
  files : Persistence.fs;
  counter : Z
}.
Arguments mkWorld {C} _ _ _.
Arguments store {C} _.
Arguments files {C} _.
Arguments counter {C} _.

(** What the surroundings answer while one command runs: the monotonic clock
    (for [save] at each shard, for [load] at each record), the wall clock, the process id, the disk. *)
Record env := mkEnv {
  now : time_point;
  clock : nat → time_point;
  wall_ms : Z;
  pid : Z;
  disk : Persistence.disk
}.

Definition not_enabled : bytes := $"persistence is not enabled on this server".

Section Execute.
Context {C : Type} `{KvOps C}.

Definition with_store (c : C) (w : world C) : world C := mkWorld c (files w) (counter w).

(** [reply_integer(cond ? 1 : 0)]. *)
Definition reply_bool (b : bool) : bytes := reply_integer (if b then 1 else 0).

(** Seconds left, rounded up. *)
Definition reply_ttl (info : TtlInfo) : outcome bytes :=
  match state info with
  | Missing => Ret reply_nil
  | Persistent => Ret reply_no_expiry
  | Expiring => n ← i64 (remaining info + 999); Ret (reply_integer (n `quot` 1000))
  end.

Definition execute (e : env) (persistence : option Persistence.t) (command : Command) (w : world C)
  : outcome (bytes * world C) :=
  match type command with
  | Set_ =>
      match ttl command with
      | Some seconds =>
          ms ← i64 (seconds * 1000);
          c ← kv_set_ttl (now e) (key command) (value command) ms (store w);
          Ret (reply_ok, with_store c w)
      | None =>
          c ← kv_set (key command) (value command) (store w);
          Ret (reply_ok, with_store c w)
      end
  | Get =>
      '(v, c) ← kv_get (now e) (key command) (store w);
      Ret (match v with Some v => reply_value v | None => reply_nil end, with_store c w)
  | Delete =>
      '(b, c) ← kv_erase (now e) (key command) (store w);
      Ret (reply_bool b, with_store c w)
  | Exists_ =>
      b ← kv_contains (now e) (key command) (store w);
      Ret (reply_bool b, w)
  | Ttl =>
      '(info, c) ← kv_ttl (now e) (key command) (store w);
      reply ← reply_ttl info;
      Ret (reply, with_store c w)
  | Ping => Ret (reply_pong, w)
  | Save =>
      match persistence with
      | None => Ret (reply_error not_enabled, w)
      | Some p =>
          '(saved, n, f) ← Persistence.save (clock e) (wall_ms e) (pid e) (counter w) (disk e) p (store w) (files w);
          Ret (if Persistence.save_ok saved then reply_integer (Persistence.save_entries saved)
               else reply_error ($"save failed: " ++ Persistence.save_error saved),
               mkWorld (store w) f n)
      end
  | Load =>
      match persistence with
      | None => Ret (reply_error not_enabled, w)
      | Some p =>
          '(loaded, c) ← Persistence.load (clock e) (wall_ms e) p (files w) (store w);
          Ret (if Persistence.load_ok loaded then reply_integer (Persistence.loaded loaded)
               else reply_error ($"load failed: " ++ Persistence.load_error loaded),
               with_store c w)
      end
  | Quit => Ret (reply_bye, w)
  end.
End Execute.

(** ** What the replies say *)

(** The reply to a data command, read off what is visible under its key. *)
Definition expected_reply (t : CommandType) (now : time_point) (seen : option Entry) : bytes :=
  match t with
  | Set_ => reply_ok
  | Get => match seen with Some e => reply_value (RecencyList.value e) | None => reply_nil end
  | Delete | Exists_ => reply_bool (bool_decide (is_Some seen))
  | Ttl =>
      match seen with
      | None => reply_nil
      | Some e =>
          match expires_at e with
          | None => reply_no_expiry
          | Some d => reply_integer ((Lru.time_left now d + 999) / 1000)
          end
      end
  | Ping => reply_pong
  | Quit => reply_bye
  | Save | Load => reply_error not_enabled
  end.

(** What is visible under the command's key afterwards, at [t]. *)
Definition seen_after (c : Command) (now t : time_point) (before : option Entry) : option Entry :=
  match type c with
  | Set_ =>
      match ttl c with
      | None => Some (mkEntry (key c) (value c) None)
      | Some 0 => None
      | Some s => alive t (mkEntry (key c) (value c) (Some (now + s * 1000 * 1000000)))
      end
  | Delete => None
  | _ => before
  end.

(** ** Lemmas *)
Section Laws.
Context {C : Type} `{KvLaws C}.

Lemma reply_ttl_info now k (c : C) :
  kv_ok c → 0 ≤ now →
  reply_ttl (ttl_info now (kv_view now k c)) = Ret (expected_reply Ttl now (kv_view now k c)).
Proof.
  intros Hc Hn. unfold expected_reply, ttl_info. destruct (kv_view now k c) as [e|] eqn:E; [|done].
  destruct (expires_at e) as [d|] eqn:Ed; [|done].
  pose proof (kv_view_deadline _ _ _ _ _ Hc E Ed) as Hd. apply kv_view_key in E as [_ Hdead].
  unfold Lru.dead in Hdead. rewrite Ed in Hdead. apply bool_decide_eq_false in Hdead.
  unfold reply_ttl. cbn [state remaining]. unfold Lru.time_left.
  assert (0 ≤ (d - now) `quot` 1000000 ≤ 9223372036855).
  { rewrite Z.quot_div_nonneg by lia. unfold i64_max in Hd.
    split; [apply Z.div_pos; lia|apply Z.div_le_upper_bound; lia]. }
  rewrite i64_Ret by (unfold i64_min, i64_max; lia). rewrite bind_ret_l.
  by rewrite (Z.quot_div_nonneg (_ + 999)) by lia.
Qed.

Lemma expressible_ttl c s :
  expressible c = true → type c = Set_ → ttl c = Some s → 0 ≤ s ≤ kMaxTtlSeconds.
Proof.
  unfold expressible. intros H1 Ht Hs. rewrite Ht, Hs in H1.
  apply andb_true_iff in H1 as [_ H1]. apply andb_true_iff in H1 as [?%Z.leb_le ?%Z.leb_le]. lia.
Qed.
End Laws.

(** ** Properties *)

(** The deadline of the longest TTL the protocol accepts still fits. *)
Definition clock_ok (now : time_point) : Prop := 0 ≤ now ∧ now + kMaxTtlSeconds * 1000 * 1000000 ≤ i64_max.

(** Commands that leave the snapshot alone: all but SAVE and LOAD, and those too
    when persistence is not enabled. *)
Definition in_memory (persistence : option Persistence.t) (t : CommandType) : Prop :=
  persistence = None ∨ (t ≠ Save ∧ t ≠ Load).

Lemma execute_spec {C} `{KvLaws C} e persistence command (w : world C) :
  kv_ok (store w) → expressible command = true → in_memory persistence (type command) → clock_ok (now e) →
  let seen := kv_view (now e) (key command) (store w) in
  ∃ c', execute e persistence command w = Ret (expected_reply (type command) (now e) seen, with_store c' w) ∧
    kv_ok c' ∧ (∀ k, kv_room k c' ↔ kv_room k (store w)) ∧
    (kv_room (key command) (store w) → ∀ t, now e ≤ t →
       kv_view t (key command) c' = seen_after command (now e) t (kv_view t (key command) (store w))) ∧
    (∀ t k, now e ≤ t → k ≠ key command →
       kv_view t k c' = kv_view t k (store w) ∨ kv_view t k c' = None) ∧
    (∀ t x, now e ≤ t → kv_view t (key command) c' = Some x →
       (∃ d, x = mkEntry (key command) (value command) d ∧
          ∀ dl, d = Some dl → dl ≤ now e + kMaxTtlSeconds * 1000 * 1000000) ∨
       kv_view t (key command) (store w) = Some x).
Proof.
  intros Hw Hc Hp [Hn Hmax]. destruct w as [c f n]. cbn zeta. cbn [store] in *.
  unfold execute, seen_after, with_store. cbn [store files counter].
  destruct (type command) eqn:Ht; cbn [expected_reply].
  - destruct (ttl command) as [s|] eqn:Hs.
    + pose proof (expressible_ttl command s Hc Ht Hs) as Hr. unfold kMaxTtlSeconds in *.
      rewrite i64_Ret, bind_ret_l by (unfold i64_min, i64_max; lia).
      destruct (kv_set_ttl_law (now e) (key command) (value command) (s * 1000) c)
        as (c' & -> & Hc' & Hset & Hoth & Hroom & _ & Hval); [done|done|lia|].
      exists c'. split; [done|]. split_and!; [done|done| |by intros; apply Hoth|].
      2: { intros t x _ Hx%Hval. left. exists (Some (now e + s * 1000 * 1000000)).
           split; [done|]. intros dl [= <-]. lia. }
      intros Hr' t _. rewrite Hset by done. destruct s; [done| |lia].
      by rewrite bool_decide_false by lia.
    + destruct (kv_set_law (key command) (value command) c Hw) as (c' & -> & Hc' & Hset & Hoth & Hroom & _ & Hval).
      exists c'. split; [done|]. split_and!; [done|done|by intros; apply Hset|by intros; apply Hoth|].
      intros t x _ Hx%Hval. left. by exists None.
  - destruct (kv_get_law (now e) (key command) c Hw) as (c' & -> & Hc' & Hsame & _ & Hroom).
    exists c'. split; [by cbn; destruct (kv_view (now e) _ c)|].
    split_and!; [done|done|by intros; apply Hsame|by intros; left; apply Hsame|by intros t x Hle; rewrite Hsame by done; right].
  - destruct (kv_erase_law (now e) (key command) c Hw) as (c' & -> & Hc' & Hgone & Hsame & Hroom).
    exists c'. split; [done|]. split_and!; [done|done|by intros; apply Hgone|by intros; left; apply Hsame|by intros t x _; rewrite Hgone].
  - rewrite (kv_contains_law (now e) (key command) c Hw). exists c.
    split; [done|]. split_and!; [done|done|done|by left|by right].
  - destruct (kv_ttl_law (now e) (key command) c Hw Hn) as (c' & -> & Hc' & Hsame & _ & Hroom).
    rewrite bind_ret_l. rewrite reply_ttl_info, bind_ret_l by done.
    exists c'. split; [done|]. split_and!; [done|done|by intros; apply Hsame|by intros; left; apply Hsame|by intros t x Hle; rewrite Hsame by done; right].
  - exists c. split; [done|]. split_and!; [done|done|done|by left|by right].
  - destruct Hp as [->|[? ?]]; [|done]. exists c. split; [done|]. split_and!; [done|done|done|by left|by right].
  - destruct Hp as [->|[? ?]]; [|done]. exists c. split; [done|]. split_and!; [done|done|done|by left|by right].
  - exists c. split; [done|]. split_and!; [done|done|done|by left|by right].
Qed.


(** The TTL reply rounds up: with [ms] whole milliseconds left it answers
    the least number of seconds not below them.  A key with at least one
    millisecond left is never reported as 0; one with less than a millisecond
    left is. *)
Theorem ttl_reply_rounds_up {C} `{KvLaws C} now k (c : C) x d
    (Hc : kv_ok c) (Hn : 0 ≤ now) (Hv : kv_view now k c = Some x) (Hd : expires_at x = Some d) :
  let ms := Lru.time_left now d in
  ∃ c' n, kv_ttl now k c = Ret (mkTtlInfo Expiring ms, c') ∧
    reply_ttl (mkTtlInfo Expiring ms) = Ret (reply_integer n) ∧
    (n - 1) * 1000 < ms ≤ n * 1000 ∧ (n = 0 ↔ d - now < 1000000).
Proof.
  intros ms. destruct (kv_ttl_law now k c Hc Hn) as (c' & Ht & _).
  pose proof (reply_ttl_info now k c Hc Hn) as Hr. unfold ttl_info, expected_reply in *.
  rewrite Hv, Hd in *. exists c', ((ms + 999) / 1000). split; [done|]. split; [done|].
  apply kv_view_key in Hv as [_ Hdead]. unfold Lru.dead in Hdead. rewrite Hd in Hdead.
  apply bool_decide_eq_false in Hdead. subst ms. unfold Lru.time_left. rewrite Z.quot_div_nonneg by lia.
  pose proof (Z.div_mod (d - now) 1000000 ltac:(lia)). pose proof (Z.mod_pos_bound (d - now) 1000000 ltac:(lia)).
  set (q := (d - now) / 1000000) in *. pose proof (Z.div_mod (q + 999) 1000 ltac:(lia)).
  pose proof (Z.mod_pos_bound (q + 999) 1000 ltac:(lia)). lia.
Qed.

(** ** Witnesses *)
#[local] Existing Instances CacheKv.Cache_ops CacheKv.Cache_laws.

Definition demo_env (now : time_point) : env :=
  mkEnv now (λ _, now) 0 42 (Persistence.mkDisk true i64_max None).

Definition demo_world : world Cache.t := mkWorld CacheTheorems.demo ∅ 0.

Lemma demo_ok : kv_ok (store demo_world).
Proof. apply History.reachable_inv, CacheTheorems.demo_reachable. Qed.


Lemma ttl_reply_rounds_up_witness :
  ∃ c' n, kv_ttl 4 $"c" (store demo_world) = Ret (mkTtlInfo Expiring 4, c') ∧
    reply_ttl (mkTtlInfo Expiring 4) = Ret (reply_integer n) ∧ (n - 1) * 1000 < 4 ≤ n * 1000.
Proof.
  destruct (ttl_reply_rounds_up 4 $"c" (store demo_world) (mkEntry $"c" $"3" (Some 5000002)) 5000002)
    as (c' & n & H1 & H2 & H3 & _); [exact demo_ok|lia|reflexivity|reflexivity|].
  exists c', n. split; [exact H1|]. split; [exact H2|exact H3].
Defined.
End CommandHandler.
