(* ===== verification/Settled.v ===== *)
(** * A server at rest between commands

    What holds of the store, the files and the counter before and after every
    command of a server that nobody else disturbs, SAVE and LOAD included:
    values that fit in a reply line, deadlines within the longest TTL the
    protocol accepts, a snapshot file the server can load again.  Every reply is then one line. *)
From S2P Require Import Prelude Numbers RecencyList Lru KvStore LineBuffer Protocol.
From S2P Require Import Stream Snapshot Persistence PersistenceTheorems CommandHandler.

Module Settled.
Import Protocol CommandHandler.

(** ** Lines *)
Lemma to_string_no_newline z : - 10 ^ 20 < z < 10 ^ 20 → LineBuffer.newline ∉ Numbers.to_string z.
Proof.
  intros Hz Hin. destruct (Numbers.to_string_chars z Hz) as [_ Hall]. rewrite Forall_forall in Hall.
  by destruct (Hall _ Hin).
Qed.

Lemma no_newline_app a b : LineBuffer.newline ∉ a → LineBuffer.newline ∉ b → LineBuffer.newline ∉ a ++ b.
Proof. intros Ha Hb [?|?]%elem_of_app; done. Qed.

(** The reply that ends a conversation, as a line. *)
Definition bye : bytes := $"+BYE".

Lemma strip_cr_head c l : c ≠ LineBuffer.carriage_return → head (LineBuffer.strip_cr (c :: l)) = Some c.
Proof.
  intros Hc. unfold LineBuffer.strip_cr. case_bool_decide as E; [|done]. destruct l; [|done].
  cbn in E. congruence.
Qed.

(** A tagged text is not the farewell. *)
Lemma tagged_not_bye c l : c ≠ LineBuffer.carriage_return → c ≠ "+"%char → LineBuffer.strip_cr (c :: l) ≠ bye.
Proof. intros Hr Hc E. pose proof (strip_cr_head c l Hr) as H. rewrite E in H. cbn in H. congruence. Qed.


(** A text put together from literals, small numbers and lines is a line. *)
Ltac one_line :=
  repeat apply no_newline_app;
  first [done | by apply no_newline_literal | apply to_string_no_newline; unfold i64_min, i64_max in *; lia].

(** ** Replies *)
(** A reply is a line; only [QUIT] gets the farewell. *)
Definition says (t : CommandType) (reply : bytes) : Prop :=
  ∃ y, reply = y ++ line_end ∧ (LineBuffer.newline ∉ y) ∧
    (t = Quit → y = bye) ∧ (t ≠ Quit → LineBuffer.strip_cr y ≠ bye).

(** The reply a line calls for. *)
Definition answered (line reply : bytes) : Prop :=
  says match parse_command line with succeed c => type c | fail _ => Ping end reply.

(** The lines a client gets an answer to: up to [QUIT]. *)
Fixpoint up_to_quit (lines : list bytes) : list bytes :=
  match lines with
  | [] => []
  | line :: lines =>
      line :: match parse_command line with
              | fail _ => up_to_quit lines
              | succeed c => if bool_decide (type c = Quit) then [] else up_to_quit lines
              end
  end.

Lemma says_fixed t (text : bytes) :
  forallb (λ c, negb (bool_decide (c = LineBuffer.newline))) text = true →
  bool_decide (LineBuffer.strip_cr text = bye) = false → t ≠ Quit → says t (text ++ line_end).
Proof.
  intros H1%no_newline_literal H2%bool_decide_eq_false Ht. by exists text.
Qed.

Lemma says_tagged t tag (text : bytes) :
  LineBuffer.newline ∉ text → tag ≠ LineBuffer.newline → tag ≠ LineBuffer.carriage_return →
  tag ≠ "+"%char → t ≠ Quit → says t ((tag :: text) ++ line_end).
Proof.
  intros Hy Hn Hr Hp Ht. exists (tag :: text). split_and!; [done| |done|].
  - by apply not_elem_of_cons.
  - intros _. by apply tagged_not_bye.
Qed.

Lemma says_integer t z : - 10 ^ 20 < z < 10 ^ 20 → t ≠ Quit → says t (reply_integer z).
Proof. intros Hz Ht. apply (says_tagged t ":"%char); [by apply to_string_no_newline|done..]. Qed.

Lemma says_error t message : LineBuffer.newline ∉ message → t ≠ Quit → says t (reply_error message).
Proof.
  intros Hm Ht. replace (reply_error message) with (("-"%char :: ($"ERR " ++ message)) ++ line_end)
    by (unfold reply_error; cbn [app]; by rewrite <- app_assoc).
  apply says_tagged; [one_line|done..].
Qed.

(** ** The texts of load errors are lines *)
Section LoadErrors.
Import Stream Snapshot.

Lemma read_int_range lo hi s : lo ≤ 0 ≤ hi → lo ≤ (read_int lo hi s).1 ≤ hi.
Proof.
  intros H0. assert (∀ neg body s, lo ≤ (accept_digits lo hi neg body s).1 ≤ hi) as Ha.
  { intros neg body s'. unfold accept_digits. destruct (Numbers.span _ body) as [[|d ds] r]; cbn; [lia|].
    match goal with |- context [?v <? lo] => generalize v; intros z end.
    destruct (Z.ltb_spec z lo); cbn; [lia|]. destruct (Z.ltb_spec hi z); cbn; lia. }
  unfold read_int. destruct (failed _); [cbn; lia|]. destruct (rest _); [apply Ha|].
  destruct (bool_decide _); [apply Ha|]. destruct (bool_decide _); apply Ha.
Qed.

Lemma at_record_line m i : LineBuffer.newline ∉ m → 0 ≤ i ≤ i64_max → LineBuffer.newline ∉ at_record m i.
Proof. intros Hm Hi. unfold at_record. one_line. Qed.

Lemma read_record_error fb i s e :
  0 ≤ i ≤ i64_max → read_record fb i s = inl e → LineBuffer.newline ∉ e.
Proof.
  intros Hi. unfold read_record.
  repeat (case_match; try (intros [= <-]; apply at_record_line; [by apply no_newline_literal|done])); done.
Qed.

Lemma read_records_error n fb i s e :
  0 ≤ i → i + Z.of_nat n ≤ i64_max → read_records n fb i s = inl e → LineBuffer.newline ∉ e.
Proof.
  revert i s. induction n as [|n IH]; intros i s Hi Hn; cbn [read_records]; [done|].
  destruct (read_record fb i s) as [x|[r s']] eqn:E.
  - intros [= <-]. eapply read_record_error; [|exact E]. lia.
  - destruct (read_records n fb (i + 1) s') as [x|[rs s2]] eqn:E2; [|done].
    intros [= <-]. eapply IH; [| |exact E2]; lia.
Qed.

Lemma error_inj (x y : bytes) : Ret (A := bytes + Z * list Record) (inl x) = Ret (inl y) → x = y.
Proof. congruence. Qed.

Lemma parse_error wall content e : parse wall content = Ret (inl e) → LineBuffer.newline ∉ e.
Proof.
  unfold parse. destruct (read_word _) as [magic s1].
  pose proof (read_int_range int_min int_max s1 ltac:(by vm_compute)) as Hv.
  destruct (read_int int_min int_max s1) as [version s2]. cbn [fst] in Hv.
  destruct (read_int i64_min i64_max s2) as [saved s3].
  destruct (_ || _); [intros <-%error_inj; one_line|].
  destruct (negb _).
  { intros <-%error_inj. unfold int_min, int_max in Hv. one_line. }
  destruct (i64 _); cbn [mbind outcome_bind]; try done.
  pose proof (read_int_range i64_min i64_max s3 ltac:(by vm_compute)) as Hc.
  destruct (read_int i64_min i64_max s3) as [count s4]. cbn [fst] in Hc.
  destruct (_ || (count <? 0)) eqn:En; [intros <-%error_inj; one_line|].
  apply orb_false_iff in En as [_ En%Z.ltb_ge].
  destruct (get s4) as [c s5]. destruct (tellg s5) as [position s6].
  destruct (_ <? count).
  { intros <-%error_inj. one_line. }
  destruct (read_records _ _ _ _) as [x|[rs s7]] eqn:E; [|done]. intros <-%error_inj.
  eapply read_records_error; [| |exact E]; lia.
Qed.
End LoadErrors.
(** ** What holds between commands *)

(** The longest TTL the protocol accepts, as nanoseconds. *)
Definition horizon : Z := kMaxTtlSeconds * 1000 * 1000000.

(** A record that may be loaded: its value fits in a line, its TTL is one the
    protocol could have set. *)
Definition gentle (r : Snapshot.Record) : Prop :=
  (LineBuffer.newline ∉ Snapshot.rec_value r) ∧
  Snapshot.kNoExpiry ≤ Snapshot.ttl_ms r ≤ kMaxTtlSeconds * 1000.

(** A file that loads without overflow at any time: rejected, or made of such
    records. *)
Definition harmless (content : bytes) : Prop :=
  ∀ wall, 0 ≤ wall ≤ i64_max → ∃ r, Snapshot.parse wall content = Ret r ∧
    ∀ elapsed rs, r = inr (elapsed, rs) → 0 ≤ elapsed ≤ i64_max ∧ Forall gentle rs.

Section Settled.
Context {C : Type} `{KvLaws C}.

(** Visible values fit in a line; deadlines are within the horizon. *)
Definition tidy (now : time_point) (c : C) : Prop :=
  ∀ t k e, now ≤ t → kv_view t k c = Some e →
    (LineBuffer.newline ∉ RecencyList.value e) ∧
    ∀ d, expires_at e = Some d → d ≤ now + horizon.

Record settled (persistence : option Persistence.t) (now : time_point) (w : world C) : Prop := {
  settled_store : kv_ok (store w);
  settled_tidy : tidy now (store w);
  settled_counter : 0 ≤ counter w < 2 ^ 64;
  settled_file p content : persistence = Some p → files w !! Persistence.path_ p = Some content →
    harmless content
}.

(** Surroundings that do nothing odd while a command runs from [now e] until
    [later]: clocks that neither run backwards nor overflow, names and error texts without
    newlines, files no larger than a [long long]. *)
Record calm (persistence : option Persistence.t) (e : env) (later : time_point) : Prop := {
  calm_clock : clock_ok (now e) ∧ clock_ok later ∧ now e ≤ later;
  calm_readings i : now e ≤ clock e i ≤ later;
  calm_wall : 0 ≤ wall_ms e ≤ i64_max;
  calm_pid : 0 ≤ pid e ≤ i64_max;
  calm_room : Persistence.room (disk e) ≤ i64_max;
  calm_reason reason : Persistence.rename_error (disk e) = Some reason → LineBuffer.newline ∉ reason;
  calm_path p : persistence = Some p → LineBuffer.newline ∉ Persistence.path_ p
}.

Lemma tidy_later now later (c : C) : now ≤ later → tidy now c → tidy later c.
Proof.
  intros Hle Hc t k e Ht Hv. destruct (Hc t k e ltac:(lia) Hv) as [Hn Hd]. split; [done|].
  intros d E. specialize (Hd d E). lia.
Qed.

Lemma settled_later p now later (w : world C) : now ≤ later → settled p now w → settled p later w.
Proof. intros Hle [H1 H2 H3 H4]. split; try done. by eapply tidy_later. Qed.

(** A store that shows, under each key, what it showed, nothing, or a new entry
    that is in order. *)
Lemma tidy_change now k0 (c c' : C) :
  tidy now c →
  (∀ t k, now ≤ t → k ≠ k0 → kv_view t k c' = kv_view t k c ∨ kv_view t k c' = None) →
  (∀ t x, now ≤ t → kv_view t k0 c' = Some x →
     kv_view t k0 c = Some x ∨
     (LineBuffer.newline ∉ RecencyList.value x) ∧ ∀ d, expires_at x = Some d → d ≤ now + horizon) →
  tidy now c'.
Proof.
  intros Hc Hoth Hk t k e Ht Hv. destruct (decide (k = k0)) as [->|Hne].
  - destruct (Hk t e Ht Hv) as [Hold|Hnew]; [by apply (Hc t k0)|done].
  - destruct (Hoth t k Ht Hne) as [E|E]; rewrite E in Hv; [by apply (Hc t k)|done].
Qed.

(** The number a TTL reply shows is small. *)
Lemma shown_ttl now k (c : C) e d :
  kv_ok c → 0 ≤ now → kv_view now k c = Some e → expires_at e = Some d →
  - 10 ^ 20 < (Lru.time_left now d + 999) / 1000 < 10 ^ 20.
Proof.
  intros Hc Hn E Ed. pose proof (kv_view_deadline _ _ _ _ _ Hc E Ed) as Hd. apply kv_view_key in E as [_ Hdead].
  unfold Lru.dead in Hdead. rewrite Ed in Hdead. apply bool_decide_eq_false in Hdead.
  unfold Lru.time_left, i64_max in *. rewrite Z.quot_div_nonneg by lia.
  assert (0 ≤ (d - now) / 1000000 ≤ d - now).
  { split; [apply Z.div_pos; lia|apply Z.div_le_upper_bound; lia]. }
  assert (0 ≤ ((d - now) / 1000000 + 999) / 1000 ≤ d - now + 999).
  { split; [apply Z.div_pos; lia|apply Z.div_le_upper_bound; lia]. }
  lia.
Qed.

Lemma expected_line t now k (c : C) :
  kv_ok c → 0 ≤ now → tidy now c → says t (expected_reply t now (kv_view now k c)).
Proof.
  intros Hc Hn Hclean. destruct t; cbn [expected_reply].
  - by apply (says_fixed _ $"+OK").
  - destruct (kv_view now k c) as [e|] eqn:E; [|by apply (says_fixed _ $"_")].
    apply (says_tagged _ "="%char); [|done..]. by eapply (Hclean now k e).
  - destruct (bool_decide _); [by apply (says_fixed _ $":1")|by apply (says_fixed _ $":0")].
  - destruct (bool_decide _); [by apply (says_fixed _ $":1")|by apply (says_fixed _ $":0")].
  - destruct (kv_view now k c) as [e|] eqn:E; [|by apply (says_fixed _ $"_")].
    destruct (expires_at e) as [d|] eqn:Ed; [|by apply (says_fixed _ $"+NOEXPIRE")].
    apply says_integer; [|done]. by eapply shown_ttl.
  - by apply (says_fixed _ $"+PONG").
  - by apply (says_fixed _ ($"-ERR " ++ not_enabled)).
  - by apply (says_fixed _ ($"-ERR " ++ not_enabled)).
  - exists bye. split_and!; [done|by apply no_newline_literal|done|done].
Qed.
(** *** SAVE and LOAD *)
Section Files.
Import Snapshot Persistence PersistenceTheorems.

(** An entry of a tidy store, as an export lists it. *)
Lemma seen_gentle now t k e (c : C) :
  kv_ok c → tidy now c → 0 ≤ now ≤ t → kv_view t k c = Some e → gentle (record_of (Lru.snapshot_of t e)).
Proof.
  intros Hc Htidy Ht Hv. destruct (Htidy t k e ltac:(lia) Hv) as [Hn Hd]. split; [done|].
  unfold record_of, ttl_field. cbn. destruct (expires_at e) as [d|] eqn:E; cbn; [|by vm_compute].
  destruct (time_left_bounds c Hc t k e d ltac:(lia) Hv E) as [? ?]. specialize (Hd d eq_refl).
  unfold kNoExpiry, horizon, kMaxTtlSeconds in *. lia.
Qed.

(** A snapshot of such entries is harmless. *)
Lemma gentle_harmless wall l :
  Forall (λ x, gentle (record_of x)) l → 0 ≤ wall ≤ i64_max → zlen (format wall l) ≤ i64_max →
  harmless (format wall l).
Proof.
  intros Hl Hwall Hsize wall' Hwall'. destruct (format_length wall l) as [H7 Hfe]. rewrite Forall_forall in Hl.
  eexists. split.
  - apply parse_format; [unfold i64_min, i64_max in *; lia..|]. apply Forall_forall. intros x Hx.
    pose proof (format_entries_fit l x Hx). split; [lia|]. destruct (Hl x Hx) as [_ Ht]. cbn in Ht.
    unfold kNoExpiry, kMaxTtlSeconds, i64_min, i64_max in *. lia.
  - intros elapsed rs [= <- <-]. split; [unfold i64_max in *; lia|]. by apply Forall_fmap, Forall_forall.
Qed.

Lemma save_settled e later p (w : world C) :
  settled (Some p) (now e) w → calm (Some p) e later →
  ∃ r n f, save (clock e) (wall_ms e) (pid e) (counter w) (CommandHandler.disk e) p (store w) (files w) = Ret (r, n, f) ∧
    0 ≤ n < 2 ^ 64 ∧ (LineBuffer.newline ∉ save_error r) ∧ 0 ≤ save_entries r ≤ i64_max ∧
    ∀ content, f !! path_ p = Some content → harmless content.
Proof.
  intros [Hc Htidy Hn Hfile] [[[Hnow _] _] Hread Hwall Hpid Hroom Hreason Hpath].
  destruct (kv_export_law (clock e) (store w) Hc) as (l & reading & Hl & _ & Hin).
  { intros i. specialize (Hread i). lia. }
  specialize (Hpath p eq_refl). pose proof (λ content, Hfile p content eq_refl) as Hold.
  unfold save, save_failed. rewrite Hl. cbn [mbind outcome_bind]. pose proof (u64_range (counter w + 1)) as Hu.
  destruct (creates (CommandHandler.disk e)); cbn [negb].
  2: { do 3 eexists. split; [reflexivity|]. cbn [save_error save_entries]. split_and!; [lia..| |done|done|done].
       unfold unique_temp_path. one_line. }
  destruct (Z.ltb_spec (room (CommandHandler.disk e)) (zlen (format (wall_ms e) l))) as [Hfull|Hfits].
  { do 3 eexists. split; [reflexivity|]. cbn [save_error save_entries]. split_and!; [lia..|by apply no_newline_literal|done|done|].
    by intros content [_ ?%Hold]%lookup_delete_Some. }
  destruct (rename_error (CommandHandler.disk e)) as [reason|].
  - do 3 eexists. split; [reflexivity|]. split_and!; [lia..| |done|done|].
    + specialize (Hreason _ eq_refl). cbn [save_error]. one_line.
    + intros content [Hne Hx]%lookup_delete_Some. rewrite lookup_insert_ne in Hx by done. by apply Hold.
  - do 3 eexists. split; [reflexivity|]. cbn [save_error save_entries].
    destruct (format_length (wall_ms e) l) as [H7 _].
    split_and!; [lia..|by apply not_elem_of_nil|unfold zlen in *; lia|lia|].
    intros content. rewrite lookup_insert_eq. intros [= <-].
    apply gentle_harmless; [|done|lia]. apply Forall_forall. intros x (y & Hv & ->)%Hin.
    eapply (seen_gentle (now e)); [done|done| |exact Hv]. split; [done|apply Hread].
Qed.

Lemma apply_gentle (clock : nat → time_point) later elapsed rs i n m (c : C) :
  (∀ i, 0 ≤ clock i ≤ later) → clock_ok later → 0 ≤ elapsed ≤ i64_max → Forall gentle rs →
  kv_ok c → tidy later c → 0 ≤ n < 2 ^ 64 →
  ∃ n' m' c', apply_records clock i elapsed rs n m c = Ret (n', m', c') ∧ 0 ≤ n' < 2 ^ 64 ∧
    kv_ok c' ∧ tidy later c'.
Proof.
  intros Hclock [_ Hlater] Hel Hrs. revert i n m c.
  induction Hrs as [|r rs [Hv Httl] _ IH]; intros i n m c Hc Ht Hn; cbn [apply_records].
  { by exists n, m, c. }
  specialize (Hclock i). unfold kNoExpiry in *.
  destruct (Z.eqb_spec (ttl_ms r) (-1)) as [E|E].
  - destruct (kv_set_law (rec_key r) (rec_value r) c Hc) as (c' & -> & Hc' & _ & Hoth & _ & _ & Hval).
    rewrite bind_ret_l. apply IH; [done| |apply u64_range].
    apply (tidy_change later (rec_key r) c); [done|by intros; apply Hoth|].
    intros t x _ ->%Hval. by right.
  - unfold kMaxTtlSeconds in *. rewrite i64_Ret, bind_ret_l by (unfold i64_min, i64_max in *; lia).
    destruct (Z.ltb_spec 0 (ttl_ms r - elapsed)); [|by apply IH].
    destruct (kv_set_ttl_law (clock i) (rec_key r) (rec_value r) (ttl_ms r - elapsed) c Hc)
      as (c' & -> & Hc' & _ & Hoth & _ & _ & Hval); [lia..|].
    rewrite bind_ret_l. apply IH; [done| |apply u64_range].
    apply (tidy_change later (rec_key r) c); [done|by intros; apply Hoth|].
    intros t x _ ->%Hval. right. split; [done|]. cbn. intros d [= <-]. unfold horizon, kMaxTtlSeconds. lia.
Qed.

Lemma load_settled e later p (w : world C) :
  settled (Some p) (now e) w → calm (Some p) e later →
  ∃ r c', load (clock e) (wall_ms e) p (files w) (store w) = Ret (r, c') ∧
    (LineBuffer.newline ∉ load_error r) ∧ 0 ≤ loaded r < 2 ^ 64 ∧ kv_ok c' ∧ tidy later c'.
Proof.
  intros [Hc Htidy Hn Hfile] [[[Hnow _] [Hlater Hle]] Hread Hwall _ _ _ _].
  apply (tidy_later _ later) in Htidy; [|done].
  unfold load. destruct (files w !! path_ p) as [content|] eqn:E.
  2: { do 2 eexists. split; [reflexivity|]. split_and!; try done. by apply not_elem_of_nil. }
  destruct (Hfile p content eq_refl E (wall_ms e) Hwall) as (r & Hp & Hr). rewrite Hp, bind_ret_l.
  destruct r as [error|[elapsed rs]].
  { do 2 eexists. split; [reflexivity|]. split_and!; try done. by eapply parse_error. }
  destruct (Hr _ _ eq_refl) as [Hel Hrs].
  destruct (apply_gentle (clock e) later elapsed (rev rs) 0 0 0 (store w)) as (n & m & c' & Ha & Hn' & Hc' & Ht');
    try done.
  - intros i. specialize (Hread i). lia.
  - by rewrite <- Permutation_rev.
  - rewrite Ha. do 2 eexists. split; [reflexivity|]. split_and!; try done; [by apply not_elem_of_nil|apply Hn'..].
Qed.
End Files.
(** *** Every command *)
(** A command that is not SAVE or LOAD, or is refused because persistence is not enabled. *)
Lemma in_memory_settled persistence e later command (w : world C) :
  in_memory persistence (type command) →
  settled persistence (now e) w → calm persistence e later → result_ok (succeed command) →
  ∃ reply w', execute e persistence command w = Ret (reply, w') ∧ says (type command) reply ∧
    settled persistence later w'.
Proof.
  intros Hp [Hc Htidy Hn Hfile] [[Hclock [Hlater Hle]] _ _ _ _ _ _] (Hex & Hk & Hv).
  destruct (execute_spec e persistence command w Hc Hex Hp Hclock) as (c' & Hr & Hc' & _ & _ & Hoth & Hval).
  do 2 eexists. split; [exact Hr|]. split; [apply expected_line; [done|apply Hclock|done]|].
  split; [done| |done|done]. apply (tidy_later (now e)); [done|]. cbn [with_store store].
  eapply tidy_change; [exact Htidy|exact Hoth|]. intros t x Ht Hx.
  destruct (Hval t x Ht Hx) as [(d & -> & Hd)|Hold]; [right|by left]. split; [done|]. exact Hd.
Qed.

Lemma execute_settled persistence e later command (w : world C) :
  settled persistence (now e) w → calm persistence e later → result_ok (succeed command) →
  ∃ reply w', execute e persistence command w = Ret (reply, w') ∧ says (type command) reply ∧
    settled persistence later w'.
Proof.
  intros Hs He Hex. destruct persistence as [p|]; [|by apply in_memory_settled; [left|..]].
  pose proof (calm_clock _ _ _ He) as (_ & _ & Hle).
  destruct (decide (type command = Save)) as [E|Hsave]; [|destruct (decide (type command = Load)) as [E|Hload]].
  - unfold execute. rewrite E. destruct (save_settled e later p w Hs He) as (r & n & f & -> & Hn & Hr & Hnum & Hf).
    rewrite bind_ret_l. do 2 eexists. split; [reflexivity|]. split.
    + destruct (Persistence.save_ok r); [apply says_integer|apply says_error]; try done;
        [unfold i64_max in *; lia|one_line].
    + destruct Hs as [Hc Ht _ _]. split; [done|by eapply tidy_later|done|by intros ? content [= <-]; apply Hf].
  - unfold execute. rewrite E. destruct (load_settled e later p w Hs He) as (r & c' & -> & Hr & Hnum & Hc' & Ht').
    rewrite bind_ret_l. do 2 eexists. split; [reflexivity|]. split.
    + destruct (Persistence.load_ok r); [apply says_integer|apply says_error]; try done;
        [unfold i64_max in *; lia|one_line].
    + destruct Hs as [_ _ Hn Hf]. by split.
  - apply in_memory_settled; [|done..]. right. done.
Qed.
End Settled.
End Settled.
