(* ===== verification/Socket.v ===== *)
(** * Sockets (include/cachex/socket.hpp, src/net/socket.cpp)

    Ownership of descriptors, [send_all], [connect_to] and [parse_port].  What
    the kernel answers to [send], [socket] and [connect] is an argument. *)
From S2P Require Import Prelude Numbers.

Module Socket.
Import Numbers.

(** ** Ownership

    The variables of type [Socket] of a program, each with its [fd_], and the
    descriptors the kernel has open.  [strayed] records a [close] of a
    descriptor that is not open: in a process it would hit somebody else's. *)
Definition kInvalid : Z := -1.

Record table := mkTable {
  fds : gmap nat Z;
  open_fds : gset Z;
  strayed : bool
}.

(** [::close(fd)]. *)
Definition sys_close (fd : Z) (t : table) : table :=
  mkTable (fds t) (open_fds t ∖ {[fd]}) (strayed t || negb (bool_decide (fd ∈ open_fds t))).

Definition set_fd (v : nat) (fd : Z) (t : table) : table :=
  mkTable (<[v := fd]> (fds t)) (open_fds t) (strayed t).

(** [Socket::close]. *)
Definition close (v : nat) (fd : Z) (t : table) : table :=
  if negb (fd =? kInvalid) then set_fd v kInvalid (sys_close fd t) else t.

(** [Socket v(std::move(from))]: [v] takes the descriptor, [from] is left
    invalid.  [None] here and below: a variable the operation names does not
    exist (or already does), which the language rules out. *)
Definition move_init (v from : nat) (t : table) : option table :=
  match fds t !! v, fds t !! from with
  | None, Some fd => Some (set_fd from kInvalid (set_fd v fd t))
  | _, _ => None
  end.

(** [v = std::move(from)]: closes what [v] held, unless it is the same object. *)
Definition move_assign (v from : nat) (t : table) : option table :=
  match fds t !! v, fds t !! from with
  | Some mine, Some _ =>
      if bool_decide (v = from) then Some t
      else let t := close v mine t in
           match fds t !! from with
           | Some fd => Some (set_fd from kInvalid (set_fd v fd t))
           | None => None
           end
  | _, _ => None
  end.

(** [~Socket]. *)
Definition destroy (v : nat) (t : table) : option table :=
  match fds t !! v with
  | Some fd => let t := close v fd t in Some (mkTable (delete v (fds t)) (open_fds t) (strayed t))
  | None => None
  end.

(** The operations on socket variables.  Opening asks the kernel, which answers
    a descriptor nobody holds, or -1. *)
Inductive socket_op :=
| Open (v : nat) (fd : Z)         (** [Socket v(::socket(...))] or [::accept] *)
| MoveInit (v from : nat)         (** [Socket v(std::move(from))] *)
| MoveAssign (v from : nat)       (** [v = std::move(from)] *)
| Close (v : nat)                 (** [v.close()] *)
| Destroy (v : nat).              (** the destructor *)

(** One operation. *)
Definition apply (o : socket_op) (t : table) : option table :=
  match o with
  | Open v fd =>
      match fds t !! v with
      | Some _ => None
      | None => if fd =? kInvalid then Some (set_fd v kInvalid t)
                else if bool_decide (fd ∈ open_fds t) then None
                else Some (mkTable (<[v := fd]> (fds t)) ({[fd]} ∪ open_fds t) (strayed t))
      end
  | MoveInit v from => move_init v from t
  | MoveAssign v from => move_assign v from t
  | Close v => match fds t !! v with Some fd => Some (close v fd t) | None => None end
  | Destroy v => destroy v t
  end.

Fixpoint apply_all (os : list socket_op) (t : table) : option table :=
  match os with
  | [] => Some t
  | o :: os => match apply o t with Some t => apply_all os t | None => None end
  end.

(** ** [send_all] *)
Inductive send_result :=
| Written (n : nat)
| SendInterrupted
| SendFailed.

#[global] Instance send_result_eq_dec : EqDecision send_result.
Proof. solve_decision. Defined.

(** The loop; each turn takes the kernel's next answer.  Yields the result, the
    bytes that went out and the answers not used.  No answer means [send] never
    returns. *)
Fixpoint send_all (answers : list send_result) (data : bytes)
  : outcome (bool * bytes * list send_result) :=
  match data, answers with
  | [], _ => Ret (true, [], answers)
  | _, [] => Hang
  | _, Written n :: answers =>
      '(ok, out, answers) ← send_all answers (drop n data);
      Ret (ok, take n data ++ out, answers)
  | _, SendInterrupted :: answers => send_all answers data
  | _, SendFailed :: answers => Ret (false, [], answers)
  end.

(** ** Options of a descriptor

    What the kernel has open, each descriptor with the options set on it. *)
Inductive sockopt := TCP_NODELAY | SO_REUSEADDR.

Abbreviation fd_table := (gmap Z (list sockopt)).

(** [::setsockopt(fd, ..., &on, sizeof(on))]; the code ignores its result.
    On an open descriptor it is taken to succeed; one that is not open is left
    alone. *)
Definition setsockopt (fd : Z) (o : sockopt) (t : fd_table) : fd_table := alter (cons o) fd t.

Definition set_tcp_nodelay (fd : Z) (t : fd_table) : fd_table := setsockopt fd TCP_NODELAY t.

(** Where there is no [SO_NOSIGPIPE] (Linux), nothing: [send] gets
    [MSG_NOSIGNAL] instead. *)
Definition set_no_sigpipe (fd : Z) (t : fd_table) : fd_table := t.

(** ** [connect_to] *)

(** One address: no socket, a socket that could not be connected, one that
    could. *)
Inductive candidate :=
| NoSocket
| Refused (fd : Z) (reason : bytes)
| Connected (fd : Z).

(** The loop over the addresses.  A socket that is not returned is destroyed at
    the end of its turn. *)
Fixpoint try_candidates (l : list candidate) (error : bytes) (t : fd_table) : Z * bytes * fd_table :=
  match l with
  | [] => (kInvalid, match error with [] => $"no usable address" | _ => error end, t)
  | NoSocket :: l => try_candidates l error t
  | Connected fd :: _ =>
      let t := <[fd := []]> t in
      (fd, error, set_no_sigpipe fd (set_tcp_nodelay fd t))
  | Refused fd reason :: l =>
      let t := <[fd := []]> t in
      try_candidates l reason (delete fd t)
  end.

(** [inl] is what [gai_strerror] says. *)
Definition connect_to (host : bytes) (resolved : bytes + list candidate) (error : bytes) (t : fd_table)
  : Z * bytes * fd_table :=
  match resolved with
  | inl why => (kInvalid, $"cannot resolve '" ++ host ++ $"': " ++ why, t)
  | inr l => try_candidates l error t
  end.

(** A descriptor the kernel hands out is valid and not open already. *)
Definition new_descriptor (t : fd_table) (c : candidate) : Prop :=
  match c with
  | NoSocket => True
  | Refused fd _ | Connected fd => fd ≠ kInvalid ∧ t !! fd = None
  end.

(** ** [parse_port] *)
Definition parse_port (text : bytes) : option Z :=
  let parsed := from_chars false 0 (2 ^ 64 - 1) text in
  match text, parsed with
  | _ :: _, Parsed v [] => if 65535 <? v then None else Some v
  | _, _ => None
  end.

(** ** Lemmas and properties *)

(** Valid descriptors are open and have one owner, every open descriptor has an
    owner, and nothing was closed twice. *)
Record owned (t : table) : Prop := {
  owned_open v fd : fds t !! v = Some fd → fd ≠ kInvalid → fd ∈ open_fds t;
  owned_once v v' fd : fds t !! v = Some fd → fds t !! v' = Some fd → fd ≠ kInvalid → v = v';
  owned_all fd : fd ∈ open_fds t → fd ≠ kInvalid ∧ ∃ v, fds t !! v = Some fd;
  owned_never : strayed t = false
}.

Ltac map_cases :=
  repeat match goal with
  | H : context [<[_ := _]> _ !! _] |- _ => rewrite lookup_insert in H; case_decide
  | H : context [delete _ _ !! _] |- _ => rewrite lookup_delete in H; case_decide
  end; simplify_eq.

Lemma close_owned v fd t : owned t → fds t !! v = Some fd → owned (close v fd t) ∧
  fds (close v fd t) = <[v := kInvalid]> (fds t) ∧
  (∀ g, g ∈ open_fds (close v fd t) ↔ g ∈ open_fds t ∧ g ≠ fd).
Proof.
  intros Ht Hv. unfold close. destruct (Z.eqb_spec fd kInvalid) as [->|Hne]; cbn.
  - split; [done|]. split; [by rewrite insert_id|]. intros g. split; [|tauto]. intros Hg. split; [done|].
    by destruct (owned_all _ Ht g Hg).
  - assert (∀ g, g ∈ open_fds t ∖ {[fd]} ↔ g ∈ open_fds t ∧ g ≠ fd) as Hopen.
    { intros g. rewrite elem_of_difference, elem_of_singleton. done. }
    split; [|by split]. split; cbn.
    + intros w g Hw Hg. map_cases. apply Hopen. split; [by eapply (owned_open _ Ht)|].
      intros ->. by pose proof (owned_once _ Ht _ _ _ Hv Hw Hne).
    + intros w w' g Hw Hw' Hg. map_cases; try done. by eapply (owned_once _ Ht).
    + intros g [Hg Hgne]%Hopen. destruct (owned_all _ Ht g Hg) as [? [w Hw]]. split; [done|].
      exists w. rewrite lookup_insert_ne; [done|]. intros ->. congruence.
    + rewrite (owned_never _ Ht). rewrite bool_decide_true; [done|]. by apply (owned_open _ Ht v).
Qed.

Lemma move_owned v from fd t :
  owned t → v ≠ from → fds t !! from = Some fd → default kInvalid (fds t !! v) = kInvalid →
  owned (set_fd from kInvalid (set_fd v fd t)).
Proof.
  intros Ht Hne Hf Hv. split; cbn; [..|apply (owned_never _ Ht)].
  - intros w g Hw Hg. map_cases; [by eapply (owned_open _ Ht from)|by eapply (owned_open _ Ht w)].
  - intros w w' g Hw Hw' Hg. map_cases; try done; try (by eapply (owned_once _ Ht)); exfalso.
    + by pose proof (owned_once _ Ht _ _ _ Hf Hw Hg).
    + by pose proof (owned_once _ Ht _ _ _ Hf Hw' Hg).
  - intros g Hg. destruct (owned_all _ Ht g Hg) as [Hgne [w Hw]]. split; [done|].
    destruct (decide (w = from)) as [->|Hwf].
    + exists v. rewrite lookup_insert_ne, lookup_insert_eq by done. congruence.
    + exists w. rewrite lookup_insert_ne by done. rewrite lookup_insert_ne; [done|].
      intros <-. rewrite Hw in Hv. by cbn in Hv.
Qed.

Lemma open_owned v fd t :
  owned t → fds t !! v = None → fd ≠ kInvalid → fd ∉ open_fds t →
  owned (mkTable (<[v := fd]> (fds t)) ({[fd]} ∪ open_fds t) (strayed t)).
Proof.
  intros Ht Hv Hne Hfresh. split; cbn; [..|apply (owned_never _ Ht)].
  - intros w g Hw Hg. rewrite elem_of_union, elem_of_singleton. map_cases; [by left|right].
    by eapply (owned_open _ Ht).
  - intros w w' g Hw Hw' Hg. map_cases; try done.
    + by destruct Hfresh; eapply (owned_open _ Ht).
    + by destruct Hfresh; eapply (owned_open _ Ht).
    + by eapply (owned_once _ Ht).
  - intros g [->%elem_of_singleton|Hg]%elem_of_union.
    + split; [done|]. exists v. apply lookup_insert_eq.
    + destruct (owned_all _ Ht g Hg) as [? [w Hw]]. split; [done|]. exists w.
      rewrite lookup_insert_ne; [done|]. congruence.
Qed.

Lemma apply_owned o t t' : owned t → apply o t = Some t' → owned t'.
Proof.
  intros Ht E. destruct o as [v fd|v from|v from|v|v]; cbn in E; unfold move_init, move_assign, destroy in E.
  - destruct (fds t !! v) eqn:Hv; [done|]. destruct (Z.eqb_spec fd kInvalid).
    + simplify_eq. split; cbn; [..|apply (owned_never _ Ht)].
      * intros w g Hw Hg. map_cases. by eapply (owned_open _ Ht).
      * intros w w' g Hw Hw' Hg. map_cases. by eapply (owned_once _ Ht).
      * intros g Hg. destruct (owned_all _ Ht g Hg) as [? [w Hw]]. split; [done|]. exists w.
        rewrite lookup_insert_ne; [done|congruence].
    + case_bool_decide; simplify_eq. by apply open_owned.
  - destruct (fds t !! v) eqn:Hv; [done|]. destruct (fds t !! from) as [fd|] eqn:Hf; [|done].
    simplify_eq. apply move_owned; [done| |done|by rewrite Hv]. congruence.
  - destruct (fds t !! v) as [mine|] eqn:Hv; [|done]. destruct (fds t !! from) as [fd|] eqn:Hf; [|done].
    case_bool_decide; simplify_eq; [done|]. destruct (close_owned v mine t Ht Hv) as (Hc & Hfds & _).
    destruct (fds (close v mine t) !! from) as [g|] eqn:Hg; simplify_eq.
    apply move_owned; [done|done|done|]. by rewrite Hfds, lookup_insert_eq.
  - destruct (fds t !! v) as [fd|] eqn:Hv; simplify_eq. by apply close_owned.
  - destruct (fds t !! v) as [fd|] eqn:Hv; simplify_eq.
    destruct (close_owned v fd t Ht Hv) as (Hc & Hfds & _).
    split; cbn; [..|apply (owned_never _ Hc)].
    + intros w g Hw Hg. map_cases. by eapply (owned_open _ Hc).
    + intros w w' g Hw Hw' Hg. map_cases. by eapply (owned_once _ Hc).
    + intros g Hg. destruct (owned_all _ Hc g Hg) as [? [w Hw]]. split; [done|]. exists w.
      rewrite lookup_delete_ne; [done|]. intros <-. rewrite Hfds, lookup_insert_eq in Hw. congruence.
Qed.

(** C28.  Socket ownership: whatever a program does with sockets (opening,
    moving, closing, destroying them, in any order), no descriptor is closed
    that is not open, no two sockets own one descriptor, and every open
    descriptor has an owner; when all the sockets are destroyed, none is left
    open. *)
Theorem descriptors_closed_once os t (Hrun : apply_all os (mkTable ∅ ∅ false) = Some t) :
  strayed t = false ∧
  (∀ v v' fd, fds t !! v = Some fd → fds t !! v' = Some fd → fd ≠ kInvalid → v = v' ∧ fd ∈ open_fds t) ∧
  (fds t = ∅ → open_fds t = ∅).
Proof.
  assert (∀ os t t', owned t → apply_all os t = Some t' → owned t') as Hall.
  { clear. intros os. induction os as [|o os IH]; intros t t' Ht E; cbn in E; [by simplify_eq|].
    destruct (apply o t) as [t1|] eqn:E1; [|done]. eapply IH; [|done]. by eapply apply_owned. }
  assert (owned (mkTable ∅ ∅ false)) as H0.
  { split; cbn; [intros v fd; by rewrite lookup_empty|intros v v' fd; by rewrite lookup_empty| |done].
    intros fd []%not_elem_of_empty. }
  assert (owned t) as Ht by by apply (Hall os _ _ H0 Hrun).
  split; [apply (owned_never _ Ht)|]. split.
  - intros v v' fd Hv Hv' Hne. split; [by eapply (owned_once _ Ht)|by eapply (owned_open _ Ht)].
  - intros E. apply set_eq. intros fd. split; [|set_solver]. intros Hfd.
    destruct (owned_all _ Ht fd Hfd) as [_ [v Hv]]. by rewrite E in Hv.
Qed.

(** ** [send_all] delivers all of it, once, in order *)

(** The kernel makes progress: each successful [send] takes at least a byte. *)
Definition progresses (a : send_result) : bool :=
  match a with Written n => (1 <=? n)%nat | SendInterrupted => true | SendFailed => false end.

Definition interrupted (a : send_result) : bool :=
  match a with SendInterrupted => true | _ => false end.

Lemma send_all_prefix answers data ok out rest :
  send_all answers data = Ret (ok, out, rest) →
  out `prefix_of` data ∧ (ok = true → out = data).
Proof.
  revert data out. induction answers as [|a answers IH]; intros data out E.
  { destruct data; cbn in E; by simplify_eq. }
  destruct data as [|c data]; [cbn in E; by simplify_eq|]. destruct a; cbn [send_all] in E.
  - destruct (send_all answers (drop n (c :: data))) as [[[ok' out'] rest']| |] eqn:E1; cbn in E; simplify_eq.
    destruct (IH _ _ E1) as [[k Hk] Ht]. split.
    + exists k. rewrite <- (take_drop n (c :: data)) at 1. by rewrite Hk, app_assoc.
    + intros ->. rewrite Ht by done. apply take_drop.
  - by apply IH.
  - simplify_eq. split; [apply prefix_nil|done].
Qed.

(** Enough answers for [n] bytes, none of them an error. *)
Record willing (answers : list send_result) (n : nat) : Prop := {
  willing_progress : Forall (λ a, progresses a = true) answers;
  willing_enough : (n ≤ length (filter (λ a, interrupted a = false) answers))%nat
}.

Lemma send_all_willing answers data n :
  willing answers n → (length data ≤ n)%nat →
  ∃ rest, send_all answers data = Ret (true, data, rest) ∧ willing rest (n - length data).
Proof.
  intros [Hp Hen]. revert data n Hen. induction Hp as [|a answers Ha Hp IH]; intros data n Hen Hlen.
  { destruct data; [|cbn in *; lia]. eexists. split; [reflexivity|]. split; [constructor|cbn in *; lia]. }
  destruct data as [|c data].
  { eexists. split; [reflexivity|]. split; [by constructor|cbn [length]; lia]. }
  rewrite filter_cons in Hen. destruct a as [m| |]; try done; cbn in Ha.
  - rewrite decide_True in Hen by done. cbn [send_all]. destruct m as [|m]; [done|].
    cbn [length] in Hen, Hlen. pose proof (length_drop (c :: data) (S m)) as Hd. cbn [length] in Hd.
    destruct (IH (drop (S m) (c :: data)) (n - 1)%nat ltac:(lia) ltac:(lia)) as (rest & E & [Hr1 Hr2]).
    rewrite E. cbn [mbind outcome_bind]. rewrite take_drop. eexists. split; [reflexivity|].
    split; [done|]. cbn [length]. lia.
  - rewrite decide_False in Hen by done. by apply IH.
Qed.

Lemma send_all_returns answers data :
  willing answers (length data) → ∃ rest, send_all answers data = Ret (true, data, rest).
Proof.
  intros Hw. destruct (send_all_willing answers data _ Hw ltac:(lia)) as (rest & E & _). by eexists.
Qed.

(** [send_all] when the kernel takes the data in pieces of any size and
    signals interrupt it any number of times: it returns, reports success, and
    exactly the data went out, in order and once.  On an error it reports
    failure, and what went out is a prefix of the data. *)
Theorem send_all_delivers answers data :
  (willing answers (length data) → ∃ rest, send_all answers data = Ret (true, data, rest)) ∧
  (∀ ok out rest, send_all answers data = Ret (ok, out, rest) →
     out `prefix_of` data ∧ (ok = true → out = data)).
Proof. split; [apply send_all_returns|intros ok out rest; apply send_all_prefix]. Qed.

(** ** [connect_to] leaks nothing *)
Lemma try_candidates_spec l error t :
  Forall (new_descriptor t) l →
  let '(fd, error', t') := try_candidates l error t in
  (fd = kInvalid → t' = t ∧ error' ≠ [] ∧ ∀ fd', Connected fd' ∉ l) ∧
  (fd ≠ kInvalid → t' = <[fd := [TCP_NODELAY]]> t ∧ Connected fd ∈ l).
Proof.
  intros Hl. revert error. induction Hl as [|c l Hc _ IH]; intros error; cbn [try_candidates].
  { split; [|done]. intros _. split; [done|]. split; [by destruct error|]. intros fd' []%not_elem_of_nil. }
  destruct c as [|fd reason|fd]; cbn in Hc.
  - specialize (IH error). destruct (try_candidates l error t) as [[fd' e'] t']. destruct IH as [H1 H2]. split.
    + intros E. destruct (H1 E) as (? & ? & Hn). split_and!; [done..|]. intros g [?|?]%elem_of_cons; [done|by eapply Hn].
    + intros E. destruct (H2 E). split; [done|by right].
  - destruct Hc as [Hv Hnew]. rewrite delete_insert_id by done. specialize (IH reason).
    destruct (try_candidates l reason t) as [[fd' e'] t']. destruct IH as [H1 H2]. split.
    + intros E. destruct (H1 E) as (? & ? & Hn). split_and!; [done..|]. intros g [?|?]%elem_of_cons; [done|by eapply Hn].
    + intros E. destruct (H2 E). split; [done|by right].
  - destruct Hc as [Hv Hnew]. split; [done|]. intros _. unfold set_no_sigpipe, set_tcp_nodelay, setsockopt.
    rewrite alter_insert_eq. split; [done|by left].
Qed.

(** [connect_to] either returns a connected descriptor, the only new one open,
    with Nagle's algorithm off, or reports why and leaves nothing open. *)
Lemma connect_to_spec host resolved error t :
  (∀ l, resolved = inr l → Forall (new_descriptor t) l) →
  let '(fd, error', t') := connect_to host resolved error t in
  (fd = kInvalid → t' = t ∧ error' ≠ []) ∧ (fd ≠ kInvalid → t' = <[fd := [TCP_NODELAY]]> t).
Proof.
  intros Hl. unfold connect_to. destruct resolved as [why|l]; [by split|].
  pose proof (try_candidates_spec l error t (Hl l eq_refl)) as H.
  destruct (try_candidates l error t) as [[fd e] t']. split; intros E; by apply H in E as (? & ?); intuition.
Qed.

(** [parse_port] accepts exactly the non-empty strings of digits that denote a
    number up to 65535, and returns that number: no sign, no trailing bytes, no
    wrap-around. *)
Lemma parse_port_spec text p :
  parse_port text = Some p ↔
  text ≠ [] ∧ Forall (λ c, is_digit c = true) text ∧ digits_value text = p ∧ p ≤ 65535.
Proof.
  unfold parse_port, from_chars. split.
  - destruct text as [|c r]; [done|]. cbn [andb]. pose proof (span_app is_digit (c :: r)) as Happ.
    pose proof (span_all is_digit (c :: r)) as Hall. destruct (span is_digit (c :: r)) as [ds rest].
    cbn [fst snd] in *. destruct ds as [|d ds]; [done|]. destruct (_ && _); [|done].
    destruct rest; [|done]. rewrite app_nil_r in Happ. rewrite <- Happ in *.
    destruct (Z.ltb_spec 65535 (digits_value (d :: ds))); [done|]. intros [= <-]. by split_and!.
  - intros (Hne & Hall & <- & Hp). destruct text as [|c r]; [done|]. cbn [andb].
    pose proof (span_block is_digit (c :: r) [] Hall I) as E. rewrite app_nil_r in E. rewrite E.
    pose proof (value_from_nonneg (c :: r) 0 Hall ltac:(lia)) as H0. fold (digits_value (c :: r)) in H0.
    rewrite (proj2 (Z.leb_le 0 _)), (proj2 (Z.leb_le (digits_value (c :: r)) _)) by lia. cbn [andb].
    by rewrite (proj2 (Z.ltb_ge _ _)) by lia.
Qed.

(** ** Witness: a client moved into a worker, the listener closed *)
Lemma descriptors_closed_once_witness :
  ∃ t, apply_all [Open 0 3; Open 1 4; MoveInit 2 1; Destroy 1; MoveAssign 0 2; Destroy 2; Destroy 0]
         (mkTable ∅ ∅ false) = Some t ∧ strayed t = false ∧ (fds t = ∅ → open_fds t = ∅).
Proof.
  eexists. split; [reflexivity|].
  match goal with |- strayed ?t = _ ∧ _ =>
    destruct (descriptors_closed_once
      [Open 0 3; Open 1 4; MoveInit 2 1; Destroy 1; MoveAssign 0 2; Destroy 2; Destroy 0] t) as (H1 & _ & H2) end;
    [reflexivity|]. split; [exact H1|exact H2].
Defined.
End Socket.
