(* ===== verification/Connection.v ===== *)
(** * One client (include/cachex/connection.hpp, src/net/connection.cpp)

    The serving loop of a connection: what the peer sends arrives in reads of
    any size, what the kernel accepts goes out in pieces of any size.  The
    kernel's answers to [recv] and [send] are lists consumed from the front;
    an empty list is a call that never returns. *)
From S2P Require Import Prelude Numbers RecencyList Lru KvStore Cache CacheKv.
From S2P Require Import LineBuffer Protocol Persistence CommandHandler Socket.

Module Connection.
Import Protocol CommandHandler.

Definition kReadChunkBytes : Z := 16 * 1024.

(** What [recv] answers. *)
Inductive recv_result :=
| Received (data : bytes)   (** at least a byte, at most [kReadChunkBytes] *)
| EndOfStream
| RecvInterrupted
| RecvFailed.

Section Serve.
Context {C : Type} `{KvOps C}.
(** The configuration, and the surroundings of the n-th command executed. *)
Context (persistence_ : option Persistence.t) (envs : nat → env).

(** The connection, the kernel's pending answers, the bytes sent so far, and
    the world its commands act on. *)
Record conn := mkConn {
  buffer_ : LineBuffer.t;
  commands_handled_ : nat;
  recvs : list recv_result;
  sends : list Socket.send_result;
  sent : bytes;
  world_ : world C
}.

Definition with_buffer (b : LineBuffer.t) (k : conn) : conn :=
  mkConn b (commands_handled_ k) (recvs k) (sends k) (sent k) (world_ k).

(** [send_all(socket_.get(), data)]. *)
Definition send (data : bytes) (k : conn) : outcome (bool * conn) :=
  '(ok, out, answers) ← Socket.send_all (sends k) data;
  Ret (ok, mkConn (buffer_ k) (commands_handled_ k) (recvs k) answers (sent k ++ out) (world_ k)).

Definition fill_buffer (k : conn) : outcome (bool * conn) :=
  match recvs k with
  | [] => Hang
  | r :: recvs =>
      let k := mkConn (buffer_ k) (commands_handled_ k) recvs (sends k) (sent k) (world_ k) in
      match r with
      | Received data => Ret (true, with_buffer (LineBuffer.append data (buffer_ k)) k)
      | EndOfStream => Ret (false, k)
      | RecvInterrupted => Ret (true, k)
      | RecvFailed => Ret (false, k)
      end
  end.

Definition handle_line (line : bytes) (k : conn) : outcome (bool * conn) :=
  match parse_command line with
  | fail error => send (reply_error error) k
  | succeed command =>
      '(reply, w) ← execute (envs (commands_handled_ k)) persistence_ command (world_ k);
      let k := mkConn (buffer_ k) (S (commands_handled_ k)) (recvs k) (sends k) (sent k) w in
      '(ok, k) ← send reply k;
      if negb ok then Ret (false, k) else Ret (negb (bool_decide (type command = Quit)), k)
  end.

(** The inner loop: every complete line already buffered.  A line takes at least
    its terminator out of the buffer. *)
Fixpoint drain (fuel : nat) (k : conn) : outcome (bool * conn) :=
  match fuel with
  | O => Hang
  | S f =>
      match LineBuffer.next_line (buffer_ k) with
      | (None, b) => Ret (true, with_buffer b k)
      | (Some line, b) =>
          '(go_on, k) ← handle_line line (with_buffer b k);
          if negb go_on then Ret (false, k) else drain f k
      end
  end.

Definition too_long : bytes :=
  $"line too long (maximum " ++ Numbers.to_string kMaxLineBytes ++ $" bytes); closing connection".

(** [serve]: each turn of the outer loop but the last takes one answer of
    [recv]. *)
Fixpoint serve_loop (fuel : nat) (k : conn) : outcome conn :=
  match fuel with
  | O => Hang
  | S f =>
      '(go_on, k) ← drain (S (length (LineBuffer.buffer_ (buffer_ k)))) k;
      if negb go_on then Ret k
      else if kMaxLineBytes <? LineBuffer.buffered (buffer_ k) then
        '(_, k) ← send (reply_error too_long) k;
        Ret k
      else
        '(more, k) ← fill_buffer k;
        if negb more then Ret k else serve_loop f k
  end.

Definition serve (k : conn) : outcome conn := serve_loop (S (length (recvs k))) k.

(** A new connection. *)
Definition new (recvs : list recv_result) (sends : list Socket.send_result) (w : world C) : conn :=
  mkConn LineBuffer.new 0 recvs sends [] w.

(** ** What a session is: one line after another *)

(** The replies to a list of request lines, in order, up to [QUIT]: the bytes,
    the number of commands, whether the session goes on, the world. *)
Fixpoint session (lines : list bytes) (n : nat) (w : world C)
  : outcome (bytes * nat * bool * world C) :=
  match lines with
  | [] => Ret ([], n, true, w)
  | line :: lines =>
      match parse_command line with
      | fail error =>
          '(out, n, open, w) ← session lines n w;
          Ret (reply_error error ++ out, n, open, w)
      | succeed command =>
          '(reply, w) ← execute (envs n) persistence_ command w;
          if bool_decide (type command = Quit) then Ret (reply, S n, false, w)
          else
            '(out, n, open, w) ← session lines (S n) w;
            Ret (reply ++ out, n, open, w)
      end
  end.
End Serve.
Arguments conn : clear implicits.
Arguments send : simpl never.
Arguments handle_line : simpl never.
Arguments execute : simpl never.
Arguments reply_error : simpl never.

(** ** Lemmas: the loops run the session *)
Section Session.
Context {C : Type} `{KvOps C} (persistence : option Persistence.t) (envs : nat → env).
Implicit Types (k : conn C) (w : world C).
Local Abbreviation session := (session persistence envs).

Lemma session_app l1 l2 n w :
  session (l1 ++ l2) n w =
  ('(out, n, open, w) ← session l1 n w;
   if (open : bool) then '(out2, n, open, w) ← session l2 n w; Ret (out ++ out2, n, open, w)
   else Ret (out, n, open, w)).
Proof.
  revert n w. induction l1 as [|line l1 IH]; intros n w; cbn.
  { by destruct (session l2 n w) as [[[[? ?] ?] ?]| |]. }
  destruct (parse_command line) as [c|e].
  - destruct (execute (envs n) persistence c w) as [[reply w1]| |]; cbn; [|done..].
    destruct (bool_decide (type c = Quit)); [done|]. rewrite IH.
    destruct (session l1 (S n) w1) as [[[[out n1] []] w2]| |]; cbn; try done.
    destruct (session l2 n1 w2) as [[[[out2 n2] o2] w3]| |]; cbn; try done. by rewrite app_assoc.
  - rewrite IH. destruct (session l1 n w) as [[[[out n1] []] w2]| |]; cbn; try done.
    destruct (session l2 n1 w2) as [[[[out2 n2] o2] w3]| |]; cbn; try done. by rewrite app_assoc.
Qed.

(** [k'] is [k] after [out] was sent and the commands up to [n] ran. *)
Record after k (out : bytes) (n : nat) w (m : nat) k' : Prop := {
  after_sent : sent k' = sent k ++ out;
  after_count : commands_handled_ k' = n;
  after_world : world_ k' = w;
  after_recvs : recvs k' = recvs k;
  after_sends : Socket.willing (sends k') m
}.

Lemma send_after k data m :
  Socket.willing (sends k) m → (length data ≤ m)%nat →
  ∃ k', send data k = Ret (true, k') ∧ buffer_ k' = buffer_ k ∧
    after k data (commands_handled_ k) (world_ k) (m - length data) k'.
Proof.
  intros Hw Hm. destruct (Socket.send_all_willing _ _ _ Hw Hm) as (rest & E & Hr).
  unfold send. rewrite E. cbn. eexists. split; [reflexivity|]. by split.
Qed.

(** One line. *)
Lemma handle_line_session line k out n open w m :
  Socket.willing (sends k) m → (length out ≤ m)%nat →
  session [line] (commands_handled_ k) (world_ k) = Ret (out, n, open, w) →
  ∃ k', handle_line persistence envs line k = Ret (open, k') ∧ buffer_ k' = buffer_ k ∧
    after k out n w (m - length out) k'.
Proof.
  intros Hw Hm. cbn. unfold handle_line. destruct (parse_command line) as [c|e]; cbn.
  - destruct (execute _ persistence c (world_ k)) as [[reply w1]| |]; cbn; [|done..].
    destruct (bool_decide (type c = Quit)) eqn:Q; intros [= <- <- <- <-].
    + edestruct (send_after (mkConn (buffer_ k) (S (commands_handled_ k)) (recvs k) (sends k) (sent k) w1) reply m)
        as (k' & -> & Hb & Ha); [done|done|]. cbn. exists k'. by destruct Ha.
    + rewrite app_nil_r in *.
      edestruct (send_after (mkConn (buffer_ k) (S (commands_handled_ k)) (recvs k) (sends k) (sent k) w1) reply m)
        as (k' & -> & Hb & Ha); [done|done|]. cbn. exists k'. by destruct Ha.
  - intros [= <- <- <- <-]. rewrite app_nil_r in *.
    destruct (send_after k (reply_error e) m Hw Hm) as (k' & -> & Hb & Ha). by exists k'.
Qed.

Lemma after_trans k out1 n1 w1 m1 k1 out2 n2 w2 m2 k2 :
  after k out1 n1 w1 m1 k1 → after k1 out2 n2 w2 m2 k2 → after k (out1 ++ out2) n2 w2 m2 k2.
Proof.
  intros [S1 C1 W1 R1 A1] [S2 C2 W2 R2 A2]. split; [|done|done|congruence|done].
  by rewrite S2, S1, app_assoc.
Qed.

(** The inner loop handles the complete lines of the buffer. *)
Lemma drain_session fuel k out n open w m :
  (length (LineBuffer.split_lines (LineBuffer.buffer_ (buffer_ k))).1 < fuel)%nat →
  Socket.willing (sends k) m → (length out ≤ m)%nat →
  session (LineBuffer.strip_cr <$> (LineBuffer.split_lines (LineBuffer.buffer_ (buffer_ k))).1)
    (commands_handled_ k) (world_ k) = Ret (out, n, open, w) →
  ∃ k', drain persistence envs fuel k = Ret (open, k') ∧ after k out n w (m - length out) k' ∧
    (open = true → buffer_ k' = LineBuffer.mk (LineBuffer.split_lines (LineBuffer.buffer_ (buffer_ k))).2).
Proof.
  revert k out m. induction fuel as [|f IH]; intros k out m Hf Hw Hm Hs; [lia|]. cbn [drain].
  unfold LineBuffer.next_line. set (l := LineBuffer.buffer_ (buffer_ k)) in *.
  destruct (LineBuffer.find LineBuffer.newline l) as [i|] eqn:E.
  - apply LineBuffer.find_Some in E as [El Hn].
    assert (LineBuffer.split_lines l = (take i l :: (LineBuffer.split_lines (drop (S i) l)).1,
      (LineBuffer.split_lines (drop (S i) l)).2)) as Hsplit.
    { rewrite El at 1. by apply LineBuffer.split_line. }
    rewrite Hsplit in *. cbn [fst snd fmap list_fmap] in *.
    set (line := LineBuffer.strip_cr (take i l)) in *. set (more := drop (S i) l) in *.
    change (line :: ?ls) with ([line] ++ ls) in Hs. rewrite session_app in Hs.
    destruct (session [line] (commands_handled_ k) (world_ k)) as [[[[out1 n1] open1] w1]| |] eqn:E1;
      cbn [mbind outcome_bind] in Hs; [|done..].
    assert (length out1 ≤ length out)%nat as Hle.
    { destruct open1; [|by simplify_eq]. destruct (Connection.session _ _ _ n1 w1) as [[[[? ?] ?] ?]| |];
        cbn in Hs; simplify_eq. rewrite length_app. lia. }
    destruct (handle_line_session line (with_buffer (LineBuffer.mk more) k) out1 n1 open1 w1 m)
      as (k1 & -> & Hb1 & Ha1); [done|lia|done|]. cbn [mbind outcome_bind].
    destruct open1; cbn [negb].
    2: { simplify_eq. exists k1. split; [done|]. split; [by destruct Ha1; split|done]. }
    destruct (Connection.session _ _ _ n1 w1) as [[[[out2 n2] open2] w2]| |] eqn:E2;
      cbn [mbind outcome_bind] in Hs; [|done..]. simplify_eq.
    destruct (IH k1 out2 (m - length out1)%nat) as (k2 & -> & Ha2 & Hb2).
    + rewrite Hb1. cbn in *. lia.
    + apply (after_sends _ _ _ _ _ _ Ha1).
    + rewrite length_app in Hm. lia.
    + rewrite Hb1, (after_count _ _ _ _ _ _ Ha1), (after_world _ _ _ _ _ _ Ha1). done.
    + exists k2. split; [done|]. split; [|by rewrite Hb1 in Hb2].
      replace (m - length (out1 ++ out2))%nat with (m - length out1 - length out2)%nat
        by (rewrite length_app; lia).
      eapply after_trans; [|exact Ha2]. by destruct Ha1; split.
  - apply LineBuffer.find_None in E. rewrite LineBuffer.split_no_newline in Hs |- * by done. cbn in Hs.
    simplify_eq. exists (with_buffer (buffer_ k) k). split; [done|]. split.
    + split; cbn; [by rewrite app_nil_r|done|done|done|]. by rewrite Nat.sub_0_r.
    + intros _. cbn. unfold l. by destruct (buffer_ k).
Qed.

(** *** The outer loop *)

(** The bytes that arrive before the peer hangs up or the socket fails. *)
Inductive arrives : list recv_result → bytes → Prop :=
| arrives_end rs : arrives (EndOfStream :: rs) []
| arrives_failed rs : arrives (RecvFailed :: rs) []
| arrives_interrupted rs s : arrives rs s → arrives (RecvInterrupted :: rs) s
| arrives_data d rs s : arrives rs s → arrives (Received d :: rs) (d ++ s).

(** Every line, and what follows the last one, is within the limit. *)
Definition within_limit (stream : bytes) : Prop :=
  Forall (λ line, zlen line ≤ kMaxLineBytes) (LineBuffer.split_lines stream).1 ∧
  zlen (LineBuffer.split_lines stream).2 ≤ kMaxLineBytes.

Lemma leftover_prefix t b :
  LineBuffer.newline ∉ t →
  match (LineBuffer.split_lines (t ++ b)).1 with
  | [] => t `prefix_of` (LineBuffer.split_lines (t ++ b)).2
  | line :: _ => t `prefix_of` line
  end.
Proof.
  induction t as [|x t IH]; intros Ht; cbn.
  { destruct (LineBuffer.split_lines b).1; apply prefix_nil. }
  apply not_elem_of_cons in Ht as [Hx Ht]. specialize (IH Ht).
  destruct (LineBuffer.split_lines (t ++ b)) as [[|line ls] tail]; rewrite decide_False by done; cbn in *.
  - by apply prefix_cons.
  - by apply prefix_cons.
Qed.

Lemma prefix_zlen (a b : bytes) : a `prefix_of` b → zlen a ≤ zlen b.
Proof. intros Hp%prefix_length. unfold zlen. lia. Qed.

Lemma within_limit_app a b :
  within_limit (a ++ b) →
  zlen (LineBuffer.split_lines a).2 ≤ kMaxLineBytes ∧ within_limit ((LineBuffer.split_lines a).2 ++ b).
Proof.
  unfold within_limit. rewrite LineBuffer.split_app. cbn. intros [[_ Hl]%Forall_app Ht].
  split; [|by split]. pose proof (leftover_prefix _ b (LineBuffer.split_tail a)) as Hp.
  destruct (LineBuffer.split_lines (_ ++ b)).1 as [|line ls].
  - apply prefix_zlen in Hp. lia.
  - apply prefix_zlen in Hp. apply Forall_cons in Hl as [Hl _]. lia.
Qed.

(** The request lines of a stream. *)
Definition lines_of (stream : bytes) : list bytes :=
  LineBuffer.strip_cr <$> (LineBuffer.split_lines stream).1.

Lemma lines_of_app a b : lines_of (a ++ b) = lines_of a ++ lines_of ((LineBuffer.split_lines a).2 ++ b).
Proof. unfold lines_of. rewrite LineBuffer.split_app. cbn. apply fmap_app. Qed.

(** One turn of the outer loop: the session is over, or the loop goes on to
    [recv] with the unterminated rest of the buffer. *)
Lemma serve_turn fuel k stream out n open w m :
  let b := LineBuffer.buffer_ (buffer_ k) in
  let rest := (LineBuffer.split_lines b).2 in
  within_limit (b ++ stream) → Socket.willing (sends k) m → (length out ≤ m)%nat →
  session (lines_of (b ++ stream)) (commands_handled_ k) (world_ k) = Ret (out, n, open, w) →
  (∃ k', serve_loop persistence envs (S fuel) k = Ret k' ∧ sent k' = sent k ++ out ∧
     commands_handled_ k' = n ∧ world_ k' = w) ∨
  (∃ k1 out1 out2 n1 w1, out = out1 ++ out2 ∧
     serve_loop persistence envs (S fuel) k =
       ('(more, k) ← fill_buffer k1; if negb more then Ret k else serve_loop persistence envs fuel k) ∧
     after k out1 n1 w1 (m - length out1) k1 ∧ buffer_ k1 = LineBuffer.mk rest ∧
     within_limit (rest ++ stream) ∧ session (lines_of (rest ++ stream)) n1 w1 = Ret (out2, n, open, w)).
Proof.
  intros b rest Hlim Hw Hm Hs. apply within_limit_app in Hlim as [Hleft Hlim].
  rewrite lines_of_app, session_app in Hs. fold rest in Hs.
  destruct (Connection.session _ _ (lines_of b) _ _) as [[[[out1 n1] open1] w1]| |] eqn:E1;
    cbn [mbind outcome_bind] in Hs; [|done..].
  assert (length out1 ≤ m)%nat as Hm1.
  { destruct open1; [|by simplify_eq]. destruct (Connection.session _ _ _ n1 w1) as [[[[? ?] ?] ?]| |];
      cbn in Hs; simplify_eq. rewrite length_app in Hm. lia. }
  destruct (drain_session (S (length b)) k out1 n1 open1 w1 m) as (k1 & Hd & Ha & Hb);
    [pose proof (LineBuffer.split_length b); fold b; lia|done|done|done|].
  cbn [serve_loop]. fold b. rewrite Hd. cbn [mbind outcome_bind]. destruct open1; cbn [negb].
  - right. destruct (Connection.session _ _ _ n1 w1) as [[[[out2 n2] open2] w2]| |] eqn:E2;
      cbn [mbind outcome_bind] in Hs; [|done..]. simplify_eq.
    exists k1, out1, out2, n1, w1. specialize (Hb eq_refl). split_and!; try done.
    unfold LineBuffer.buffered. rewrite Hb. cbn [LineBuffer.buffer_].
    by rewrite (proj2 (Z.ltb_ge _ _)) by exact Hleft.
  - left. simplify_eq. exists k1. split; [done|]. by destruct Ha.
Qed.

Lemma serve_loop_session reads stream fuel k out n open w m :
  arrives reads stream → recvs k = reads → (length reads < fuel)%nat →
  within_limit (LineBuffer.buffer_ (buffer_ k) ++ stream) →
  Socket.willing (sends k) m → (length out ≤ m)%nat →
  session (lines_of (LineBuffer.buffer_ (buffer_ k) ++ stream)) (commands_handled_ k) (world_ k) =
    Ret (out, n, open, w) →
  ∃ k', serve_loop persistence envs fuel k = Ret k' ∧ sent k' = sent k ++ out ∧
    commands_handled_ k' = n ∧ world_ k' = w.
Proof.
  intros Harr. revert fuel k out m.
  assert (∀ k k1 out1 n1 w1 m1 out2 (r k' : conn C), after k out1 n1 w1 m1 k1 → sent r = sent k1 → sent k' = sent r ++ out2 →
    sent k' = sent k ++ out1 ++ out2) as Hsent.
  { intros k k1 out1 n1 w1 m1 out2 r k' Ha Hr ->. by rewrite Hr, (after_sent _ _ _ _ _ _ Ha), app_assoc. }
  induction Harr as [rs|rs|rs s Harr IH|d rs s Harr IH];
    intros fuel k out m Hk Hfuel Hlim Hw Hm Hs; (destruct fuel as [|fuel]; [cbn in Hfuel; lia|]);
    (destruct (serve_turn fuel k _ out n open w m Hlim Hw Hm Hs)
       as [?|(k1 & out1 & out2 & n1 & w1 & -> & -> & Ha & Hb & Hlim' & Hs')]; [done|]);
    unfold fill_buffer; rewrite (after_recvs _ _ _ _ _ _ Ha), Hk; cbn [mbind outcome_bind negb].
  1,2: unfold lines_of in Hs'; rewrite app_nil_r in Hs'; rewrite LineBuffer.split_no_newline in Hs' by apply LineBuffer.split_tail;
    cbn in Hs'; simplify_eq; eexists; (split; [reflexivity|]); cbn; rewrite app_nil_r; by destruct Ha.
  all: match goal with |- context [serve_loop _ _ ?f ?x] =>
      destruct (IH f x out2 (m - length out1)%nat) as (k' & -> & Hk1 & Hk2 & Hk3) end;
    [done|cbn in Hfuel; lia| | | | |exists k'; split; [done|]; split; [|done]; by eapply Hsent];
    cbn [recvs buffer_ sends commands_handled_ world_ with_buffer]; rewrite ?Hb;
    cbn [LineBuffer.buffer_ LineBuffer.append]; rewrite <- ?app_assoc; try done; try apply Ha.
  all: try (rewrite length_app in Hm; lia).
  all: by rewrite (after_count _ _ _ _ _ _ Ha), (after_world _ _ _ _ _ _ Ha).
Qed.
End Session.

(** ** Properties *)

(** C30.  For a client whose lines (and the unterminated rest) are within the
    limit and that takes what is sent, and whose session is defined (C31 has
    that it always is on a settled server): however the request stream is cut
    into reads, however often a signal interrupts [recv] and [send], and in
    whatever pieces the kernel takes the replies, [serve] returns after exactly
    the session of the stream's lines: the replies in order up to [QUIT] or the
    end of the stream, the same number of commands and the same world.  (A line
    over the limit ends the connection, C32.) *)
Theorem serve_runs_session {C} `{KvOps C} persistence envs reads stream answers (w w' : world C) out n open
    (Harr : arrives reads stream) (Hlim : within_limit stream)
    (Hsend : Socket.willing answers (length out))
    (Hsession : session persistence envs (lines_of stream) 0 w =
       Ret (out, n, open, w')) :
  ∃ k, serve persistence envs (new reads answers w) = Ret k ∧ sent k = out ∧
    commands_handled_ k = n ∧ world_ k = w'.
Proof.
  eapply (serve_loop_session persistence envs reads stream (S (length reads)) (new reads answers w) out n open w');
    try done; cbn; lia.
Qed.
(** ** Witness: two requests in three reads, the replies taken byte by byte *)
#[local] Existing Instance CacheKv.Cache_ops.

Definition demo_reads : list recv_result :=
  [Received $"PI"; RecvInterrupted; Received ($"NG" ++ [LineBuffer.newline] ++ $"QU");
   Received ($"IT" ++ [LineBuffer.newline]); EndOfStream].

Definition demo_stream : bytes := $"PING" ++ [LineBuffer.newline] ++ $"QUIT" ++ [LineBuffer.newline].

Lemma serve_runs_session_witness :
  ∃ k, serve None (λ _, demo_env 0) (new demo_reads (replicate 20 (Socket.Written 1)) demo_world) = Ret k ∧
    sent k = reply_pong ++ reply_bye ∧ commands_handled_ k = 2%nat ∧ world_ k = demo_world.
Proof.
  apply (serve_runs_session None (λ _, demo_env 0) demo_reads demo_stream (replicate 20 (Socket.Written 1))
    demo_world demo_world (reply_pong ++ reply_bye) 2 false).
  - apply (arrives_data $"PI" _ ($"NG" ++ [LineBuffer.newline] ++ $"QUIT" ++ [LineBuffer.newline])).
    apply arrives_interrupted.
    apply (arrives_data ($"NG" ++ [LineBuffer.newline] ++ $"QU") _ ($"IT" ++ [LineBuffer.newline])).
    apply (arrives_data ($"IT" ++ [LineBuffer.newline]) _ []). apply arrives_end.
  - split; [repeat constructor; by vm_compute|by vm_compute].
  - split; [repeat constructor|vm_compute; lia].
  - reflexivity.
Defined.
End Connection.
