(* ===== verification/ConnectionTheorems.v ===== *)
(** * What a client of the server can count on *)
From S2P Require Import Prelude Numbers RecencyList Lru KvStore Cache CacheRefine.
From S2P Require Import CacheKv LineBuffer Protocol Snapshot Persistence CommandHandler Settled.
From S2P Require Import Socket Connection.

Module ConnectionTheorems.
Import CacheRefine Protocol CommandHandler Settled Connection.

(** ** One line per reply *)
Definition newlines (l : bytes) : nat := length (filter (λ c, c = LineBuffer.newline) l).

(** Lines, each with its terminator. *)
Definition unlines (ls : list bytes) : bytes := concat ((λ y, y ++ line_end) <$> ls).

Lemma newlines_none l : LineBuffer.newline ∉ l → newlines l = 0%nat.
Proof.
  induction l as [|c l IH]; intros Hl; [done|]. apply not_elem_of_cons in Hl as [Hc Hl].
  unfold newlines in *. rewrite filter_cons, decide_False by done. auto.
Qed.

(** Requests and the reply lines they got: one each, up to the farewell, which
    closes the conversation. *)
Inductive exchange : list bytes → list bytes → bool → Prop :=
| exchange_over : exchange [] [] true
| exchange_quit r rs : exchange (r :: rs) [bye] false
| exchange_reply r rs y ys open :
    LineBuffer.newline ∉ y → LineBuffer.strip_cr y ≠ bye → exchange rs ys open →
    exchange (r :: rs) (y :: ys) open.

(** The request is the last one. *)
Definition is_quit (line : bytes) : bool :=
  match parse_command line with succeed c => bool_decide (type c = Quit) | fail _ => false end.

(** No line is [QUIT]: the server waits for more. *)
Definition goes_on (lines : list bytes) : bool := forallb (negb ∘ is_quit) lines.

Lemma goes_on_cons line lines :
  goes_on (line :: lines) =
  match parse_command line with
  | succeed c => if bool_decide (type c = Quit) then false else goes_on lines
  | fail _ => goes_on lines
  end.
Proof.
  unfold goes_on. cbn [forallb]. unfold compose at 1, is_quit at 1.
  by destruct (parse_command line) as [c|e]; [destruct (bool_decide (type c = Quit))|].
Qed.

Lemma up_to_quit_take lines : up_to_quit lines = take (length (up_to_quit lines)) lines.
Proof.
  induction lines as [|line lines IH]; [done|]. cbn [up_to_quit length take]. f_equal.
  destruct (parse_command line); [destruct (bool_decide _)|]; done.
Qed.

Lemma answered_newlines lines replies :
  Forall2 answered lines replies → newlines (concat replies) = length lines.
Proof.
  induction 1 as [|line reply lines replies (y & -> & Hy & _) _ IH]; [done|]. cbn [concat length].
  unfold newlines in *. rewrite !filter_app, !length_app, IH. pose proof (newlines_none y Hy) as E.
  unfold newlines in E. by rewrite E.
Qed.

Lemma answered_exchange lines replies :
  Forall2 answered (up_to_quit lines) replies →
  ∃ ys, replies = (λ y, y ++ line_end) <$> ys ∧ exchange lines ys (goes_on lines).
Proof.
  revert replies. induction lines as [|line lines IH]; intros replies Ha; cbn [up_to_quit] in Ha.
  { apply Forall2_nil_inv_l in Ha as ->. exists []. split; [done|constructor]. }
  apply Forall2_cons_inv_l in Ha as (reply & replies' & (y & -> & Hy & Hq & Hnq) & Ha & ->).
  rewrite goes_on_cons.
  destruct (parse_command line) as [c|e]; [destruct (bool_decide (type c = Quit)) eqn:Q|].
  - apply Forall2_nil_inv_l in Ha as ->. apply bool_decide_eq_true in Q. rewrite (Hq Q).
    exists [bye]. split; [done|constructor].
  - destruct (IH _ Ha) as (ys & -> & Hx). apply bool_decide_eq_false in Q.
    exists (y :: ys). split; [done|]. constructor; auto.
  - destruct (IH _ Ha) as (ys & -> & Hx). exists (y :: ys). split; [done|]. constructor; auto.
Qed.

(** ** Whole sessions *)
Section Session.
Context {C : Type} `{KvLaws C} (persistence : option Persistence.t) (envs : nat → env).
Context (Hcalm : ∀ i, calm persistence (envs i) (CommandHandler.now (envs (S i)))).

(** A session answers every line up to [QUIT], and no other. *)
Lemma session_answered lines n (w : world C) :
  Forall (λ line, LineBuffer.newline ∉ line) lines →
  settled persistence (CommandHandler.now (envs n)) w →
  ∃ replies m w', session persistence envs lines n w = Ret (concat replies, m, goes_on lines, w') ∧
    session persistence envs (up_to_quit lines) n w = Ret (concat replies, m, goes_on lines, w') ∧
    settled persistence (CommandHandler.now (envs m)) w' ∧ Forall2 answered (up_to_quit lines) replies.
Proof.
  intros Hl. revert n w. induction Hl as [|line lines Hline _ IH]; intros n w Hs.
  { exists [], n, w. split_and!; [done|done|done|constructor]. }
  pose proof (parse_result_ok line Hline) as Hp. cbn [session up_to_quit]. rewrite goes_on_cons.
  assert (∀ t reply, match parse_command line with succeed c => type c | fail _ => Ping end = t →
    says t reply → answered line reply) as Hanswer by (unfold answered; by intros t reply ->).
  destruct (parse_command line) as [c|e] eqn:Ec; cbn in Hp; cbn [session]; rewrite ?Ec.
  - destruct (execute_settled persistence (envs n) _ c w Hs (Hcalm n) Hp) as (reply & w1 & Hex & Hsay & Hs1).
    rewrite Hex. cbn [mbind outcome_bind]. destruct (bool_decide (type c = Quit)) eqn:Q.
    + exists [reply], (S n), w1. cbn [concat]. rewrite app_nil_r. split_and!; [done|done|done|].
      repeat constructor. by eapply Hanswer.
    + destruct (IH (S n) w1 Hs1) as (replies & m & w' & E1 & E2 & Hs2 & Ha).
      exists (reply :: replies), m, w'. rewrite E1, E2. split_and!; [done..|]. constructor; [by eapply Hanswer|done].
  - destruct (IH n w Hs) as (replies & m & w' & E1 & E2 & Hs2 & Ha).
    exists (reply_error e :: replies), m, w'. rewrite E1, E2. split_and!; [done..|].
    constructor; [|done]. eapply Hanswer; [done|]. apply says_error; [apply Hp|done].
Qed.

(** The same as an exchange of lines. *)
Lemma session_exchange lines n (w : world C) :
  Forall (λ line, LineBuffer.newline ∉ line) lines →
  settled persistence (CommandHandler.now (envs n)) w →
  ∃ m open w' ys, session persistence envs lines n w = Ret (unlines ys, m, open, w') ∧
    settled persistence (CommandHandler.now (envs m)) w' ∧ exchange lines ys open ∧
    session persistence envs (take (length ys) lines) n w = Ret (unlines ys, m, open, w').
Proof.
  intros Hl Hs. destruct (session_answered lines n w Hl Hs) as (replies & m & w' & E1 & E2 & Hs' & Ha).
  destruct (answered_exchange _ _ Ha) as (ys & -> & Hx).
  exists m, (goes_on lines), w', ys. split_and!; [done|done|done|].
  by rewrite (up_to_quit_take lines), (Forall2_length _ _ _ Ha), length_fmap in E2.
Qed.
End Session.

Lemma lines_of_clean stream : Forall (λ line, LineBuffer.newline ∉ line) (lines_of stream).
Proof.
  unfold lines_of. apply Forall_fmap. eapply Forall_impl; [apply LineBuffer.split_clean|].
  intros line. apply LineBuffer.strip_cr_clean.
Qed.

(** C31.  Whatever bytes a client sends, with or without a snapshot path, the
    server never reaches undefined behaviour and never gets stuck: from a settled
    state (a well-formed store whose visible values hold no newline and whose
    deadlines the protocol could have set, a snapshot file that loads), the
    session of the request lines returns, SAVE and LOAD included, whatever the
    disk answers; the state is settled again, so that the next session can
    start.  What is sent is exactly one line for each request up to and
    including the first [QUIT], in order: the farewell for [QUIT] and something
    else for any other request; and the session goes on exactly when no request
    was [QUIT].  A connection that receives these bytes, cut into reads in any
    way, with lines within the limit, and whose peer takes what is sent, sends
    exactly these replies and returns. *)
Theorem one_reply_per_request {C} `{KvLaws C} persistence envs stream (w : world C)
    (Hw : settled persistence (CommandHandler.now (envs 0%nat)) w)
    (Hcalm : ∀ i, calm persistence (envs i) (CommandHandler.now (envs (S i)))) :
  let lines := lines_of stream in
  ∃ replies n w', session persistence envs lines 0 w = Ret (concat replies, n, goes_on lines, w') ∧
    settled persistence (CommandHandler.now (envs n)) w' ∧
    Forall2 answered (up_to_quit lines) replies ∧
    newlines (concat replies) = length (up_to_quit lines) ∧
    ∀ reads answers, arrives reads stream → within_limit stream →
      Socket.willing answers (length (concat replies)) →
      ∃ k, serve persistence envs (new reads answers w) = Ret k ∧ sent k = concat replies ∧
        commands_handled_ k = n ∧ world_ k = w'.
Proof.
  intros lines.
  destruct (session_answered persistence envs Hcalm lines 0 w) as (replies & m & w' & E & _ & Hs & Ha);
    [apply lines_of_clean|done|].
  exists replies, m, w'. split_and!; [done|done|done|by apply answered_newlines|].
  intros reads answers Harr Hlim Hsend.
  eapply (serve_loop_session persistence envs reads stream (S (length reads)) (new reads answers w));
    try done; cbn; lia.
Qed.

(** ** The line limit *)

(** A single read that holds no newline. *)
Definition fragment (r : recv_result) : Prop :=
  match r with
  | Received d => (LineBuffer.newline ∉ d) ∧ zlen d ≤ kReadChunkBytes
  | RecvInterrupted => True
  | EndOfStream | RecvFailed => False
  end.

(** A read after which the loop goes on. *)
Definition goes_on_reading (r : recv_result) : Prop :=
  match r with Received _ | RecvInterrupted => True | EndOfStream | RecvFailed => False end.

Definition data_of (r : recv_result) : bytes := match r with Received d => d | _ => [] end.

Section Limit.
Context {C : Type} `{KvOps C} (persistence : option Persistence.t) (envs : nat → env).
Implicit Types (k : conn C).

Lemma drain_nothing fuel k :
  LineBuffer.newline ∉ LineBuffer.buffer_ (buffer_ k) → drain persistence envs (S fuel) k = Ret (true, k).
Proof.
  intros Hb. cbn [drain]. unfold LineBuffer.next_line. rewrite (proj2 (LineBuffer.find_None _ _) Hb).
  by destruct k as [[]].
Qed.

Lemma serve_drained fuel k k1 :
  drain persistence envs (S (length (LineBuffer.buffer_ (buffer_ k)))) k = Ret (true, k1) →
  LineBuffer.newline ∉ LineBuffer.buffer_ (buffer_ k1) →
  serve_loop persistence envs (S fuel) k = serve_loop persistence envs (S fuel) k1.
Proof. intros Hd Hb. cbn [serve_loop]. by rewrite Hd, drain_nothing. Qed.

Lemma serve_read fuel k k1 r rs :
  drain persistence envs (S (length (LineBuffer.buffer_ (buffer_ k)))) k = Ret (true, k1) →
  LineBuffer.buffered (buffer_ k1) ≤ kMaxLineBytes → recvs k1 = r :: rs → goes_on_reading r →
  serve_loop persistence envs (S fuel) k =
  serve_loop persistence envs fuel
    (mkConn (LineBuffer.append (data_of r) (buffer_ k1)) (commands_handled_ k1) rs (sends k1) (sent k1) (world_ k1)).
Proof.
  intros Hd Hb Hr Hgo. cbn [serve_loop]. rewrite Hd. cbn [mbind outcome_bind negb].
  rewrite (proj2 (Z.ltb_ge _ _)) by done. unfold fill_buffer. rewrite Hr. destruct r; try done.
  cbn [mbind outcome_bind negb]. do 2 f_equal. destruct (buffer_ k1) as [b]. unfold LineBuffer.append. cbn.
  by rewrite app_nil_r.
Qed.

Lemma oversized_loop reads more fuel k :
  Forall fragment reads → recvs k = reads ++ more → (length reads < fuel)%nat →
  LineBuffer.newline ∉ LineBuffer.buffer_ (buffer_ k) →
  LineBuffer.buffered (buffer_ k) ≤ kMaxLineBytes + kReadChunkBytes →
  kMaxLineBytes < LineBuffer.buffered (buffer_ k) + zlen (concat (data_of <$> reads)) →
  Socket.willing (sends k) (length (reply_error too_long)) →
  ∃ k', serve_loop persistence envs fuel k = Ret k' ∧ sent k' = sent k ++ reply_error too_long ∧
    commands_handled_ k' = commands_handled_ k ∧ world_ k' = world_ k ∧
    LineBuffer.buffered (buffer_ k') ≤ kMaxLineBytes + kReadChunkBytes.
Proof.
  intros Hreads. revert fuel k. induction Hreads as [|r reads Hr _ IH];
    intros fuel k Hk Hfuel Hb Hmax Hbig Hw; (destruct fuel as [|fuel]; [cbn in Hfuel; lia|]);
    cbn [serve_loop]; rewrite drain_nothing by done; cbn [mbind outcome_bind negb];
    destruct (Z.ltb_spec kMaxLineBytes (LineBuffer.buffered (buffer_ k))) as [Hlt|Hge].
  1,3: destruct (send_after k (reply_error too_long) _ Hw (le_n _)) as (k' & -> & Hbuf & Ha);
    cbn [mbind outcome_bind]; exists k'; destruct Ha; rewrite Hbuf; by split_and!.
  - cbn in Hbig. unfold zlen in Hbig. cbn in Hbig. lia.
  - unfold fill_buffer. rewrite Hk. cbn [app].
    destruct r as [d| | |]; try done; cbn [mbind outcome_bind negb];
      match goal with |- context [serve_loop _ _ fuel ?x] =>
        destruct (IH fuel x) as (k' & -> & H1 & H2 & H3 & H4) end; try done;
      try (cbn in Hfuel; lia); try (by exists k').
    + cbn. apply not_elem_of_app. split; [done|apply Hr].
    + destruct Hr as [_ Hr]. unfold LineBuffer.buffered, zlen in *. cbn. rewrite length_app. lia.
    + unfold LineBuffer.buffered, zlen in *. cbn in *. rewrite !length_app in *. lia.
Qed.
(** A session that goes on went on after its first part. *)
Lemma session_open_app l1 l2 n w out m w' :
  session persistence envs (l1 ++ l2) n w = Ret (out, m, true, w') →
  ∃ out1 n1 w1 out2, session persistence envs l1 n w = Ret (out1, n1, true, w1) ∧
    session persistence envs l2 n1 w1 = Ret (out2, m, true, w') ∧ out = out1 ++ out2.
Proof.
  rewrite session_app. intros Hs. destruct (session _ _ l1 n w) as [[[[out1 n1] []] w1]| |];
    cbn [mbind outcome_bind] in Hs; try done.
  destruct (session _ _ l2 n1 w1) as [[[[out2 n2] o2] w2]| |] eqn:E2; cbn in Hs; simplify_eq. eauto 9.
Qed.

(** The lines of the buffer are handled and the rest of it is kept. *)
Lemma drain_open k out n w m :
  let b := LineBuffer.buffer_ (buffer_ k) in
  Socket.willing (sends k) m → (length out ≤ m)%nat →
  session persistence envs (lines_of b) (commands_handled_ k) (world_ k) = Ret (out, n, true, w) →
  ∃ k', drain persistence envs (S (length b)) k = Ret (true, k') ∧ after k out n w (m - length out) k' ∧
    buffer_ k' = LineBuffer.mk (LineBuffer.split_lines b).2.
Proof.
  intros b Hw Hm Hs. destruct (drain_session persistence envs (S (length b)) k out n true w m)
    as (k' & Hd & Ha & Hb); [pose proof (LineBuffer.split_length b); fold b; lia|done..|]. eauto.
Qed.

(** The loop after requests that were answered, when the next one is too long. *)
Lemma oversized_after reads1 reads2 more fuel k out n w :
  let stream := LineBuffer.buffer_ (buffer_ k) ++ concat (data_of <$> reads1) in
  Forall goes_on_reading reads1 → Forall fragment reads2 → recvs k = reads1 ++ reads2 ++ more →
  (length reads1 + length reads2 < fuel)%nat → within_limit stream →
  session persistence envs (lines_of stream) (commands_handled_ k) (world_ k) = Ret (out, n, true, w) →
  kMaxLineBytes < zlen (LineBuffer.split_lines stream).2 + zlen (concat (data_of <$> reads2)) →
  Socket.willing (sends k) (length out + length (reply_error too_long)) →
  ∃ k', serve_loop persistence envs fuel k = Ret k' ∧ sent k' = sent k ++ out ++ reply_error too_long ∧
    commands_handled_ k' = n ∧ world_ k' = w ∧
    LineBuffer.buffered (buffer_ k') ≤ kMaxLineBytes + kReadChunkBytes.
Proof.
  intros stream Hreads1 Hreads2. subst stream. revert fuel k out.
  induction Hreads1 as [|r reads1 Hr _ IH]; intros fuel k out Hk Hfuel Hlim Hs Hbig Hw;
    (destruct fuel as [|fuel]; [lia|]).
  - cbn [fmap list_fmap concat] in *. rewrite app_nil_r in *.
    destruct (drain_open k out n w _ Hw ltac:(lia) Hs) as (k1 & Hd & Ha & Hb).
    rewrite (serve_drained fuel k k1 Hd) by (rewrite Hb; apply LineBuffer.split_tail).
    destruct (oversized_loop reads2 more (S fuel) k1) as (k' & E & H1 & H2 & H3 & H4); [done| | | | | | |].
    + by rewrite (after_recvs _ _ _ _ _ _ Ha), Hk.
    + cbn in Hfuel. lia.
    + rewrite Hb. apply LineBuffer.split_tail.
    + unfold LineBuffer.buffered. rewrite Hb. cbn. destruct Hlim as [_ Hlim]. unfold kReadChunkBytes. lia.
    + unfold LineBuffer.buffered. by rewrite Hb.
    + replace (length (reply_error too_long)) with (length out + length (reply_error too_long) - length out)%nat by lia.
      apply Ha.
    + exists k'. rewrite H1, H2, H3, (after_sent _ _ _ _ _ _ Ha), <- app_assoc. split_and!; try done; apply Ha.
  - cbn [fmap list_fmap concat] in *. set (b := LineBuffer.buffer_ (buffer_ k)) in *.
    apply within_limit_app in Hlim as [Hleft Hlim]. rewrite lines_of_app in Hs.
    apply session_open_app in Hs as (out1 & n1 & w1 & out2 & Hs1 & Hs2 & ->). rewrite length_app in Hw.
    destruct (drain_open k out1 n1 w1 _ Hw ltac:(lia) Hs1) as (k1 & Hd & Ha & Hb).
    rewrite (serve_read fuel k k1 r (reads1 ++ reads2 ++ more) Hd); [|by rewrite Hb|by rewrite (after_recvs _ _ _ _ _ _ Ha)|done].
    match goal with |- context [serve_loop _ _ fuel ?x] => destruct (IH fuel x out2) as (k' & -> & H1 & H2 & H3 & H4) end;
      cbn [recvs buffer_ sends sent commands_handled_ world_ LineBuffer.buffer_ LineBuffer.append];
      rewrite ?Hb; cbn [LineBuffer.buffer_]; rewrite <- ?app_assoc; try done.
    + cbn in Hfuel. lia.
    + by rewrite (after_count _ _ _ _ _ _ Ha), (after_world _ _ _ _ _ _ Ha).
    + rewrite LineBuffer.split_app in Hbig. exact Hbig.
    + pose proof (after_sends _ _ _ _ _ _ Ha) as Hsends.
      by replace (length out2 + _)%nat with (length out1 + length out2 + length (reply_error too_long) - length out1)%nat by lia.
    + exists k'. split_and!; try done. rewrite H1. cbn [sent]. by rewrite (after_sent _ _ _ _ _ _ Ha), <- !app_assoc.
Qed.
End Limit.

(** C32.  A client cannot make the server buffer without bound, at whatever
    point of the conversation it tries: let the client have sent requests within the
    limit, cut into reads in any way, whose session goes on (no [QUIT] among
    them), possibly with the beginning of a further line; if that line then
    grows past the limit before its terminator arrives, the earlier requests
    are answered as usual, the long line is answered with one error line and
    the connection is closed, whatever comes after, without executing anything
    of it, and the buffer exceeds the limit by at most one read.  (The peer
    takes what is sent.) *)
Theorem oversized_line_closes {C} `{KvOps C} persistence envs reads1 reads2 more answers (w w' : world C) out n
    (Hreads1 : Forall goes_on_reading reads1) (Hlim : within_limit (concat (data_of <$> reads1)))
    (Hsession : session persistence envs (lines_of (concat (data_of <$> reads1))) 0 w = Ret (out, n, true, w'))
    (Hreads2 : Forall fragment reads2)
    (Hbig : kMaxLineBytes < zlen (LineBuffer.split_lines (concat (data_of <$> reads1))).2 +
                            zlen (concat (data_of <$> reads2)))
    (Hw : Socket.willing answers (length out + length (reply_error too_long))) :
  ∃ k, serve persistence envs (new (reads1 ++ reads2 ++ more) answers w) = Ret k ∧
    sent k = out ++ reply_error too_long ∧ commands_handled_ k = n ∧ world_ k = w' ∧
    LineBuffer.buffered (buffer_ k) ≤ kMaxLineBytes + kReadChunkBytes.
Proof.
  apply (oversized_after persistence envs reads1 reads2 more (S (length (reads1 ++ reads2 ++ more)))
           (new (reads1 ++ reads2 ++ more) answers w) out n w'); try done.
  rewrite !length_app. lia.
Qed.
(** ** Witnesses *)
#[local] Existing Instances CacheKv.Cache_ops CacheKv.Cache_laws.

Lemma empty_settled persistence now : settled persistence now (mkWorld Cache.Cache_unbounded ∅ 0).
Proof. split; [apply inv_unbounded|by intros t k e _ Hv|done|done]. Qed.

Lemma demo_calm persistence now :
  (∀ p, persistence = Some p → LineBuffer.newline ∉ Persistence.path_ p) → clock_ok now →
  calm persistence (demo_env now) now.
Proof. intros Hp Hn. split; try done; cbn; split_and!; done. Qed.

(** A client that saves and loads, and sends one more line after [QUIT]. *)
Definition saving_stream : bytes := unlines [$"SET a 1"; $"SAVE"; $"SET b 2 60"; $"LOAD"; $"TTL b"; $"NONSENSE";
    $"QUIT"; $"PING"].

Definition demo_path : option Persistence.t := Some (Persistence.mk $"snapshot").

Lemma one_reply_per_request_witness :
  ∃ replies n w', session demo_path (λ _, demo_env 0) (lines_of saving_stream) 0 (mkWorld Cache.Cache_unbounded ∅ 0) =
      Ret (concat replies, n, false, w') ∧
    concat replies = unlines [$"+OK"; $":1"; $"+OK"; $":1"; $":60"; $"-ERR unknown command 'NONSENSE'"; $"+BYE"] ∧
    length (lines_of saving_stream) = 8%nat ∧ length replies = 7%nat ∧ settled demo_path 0 w' ∧
    ∃ k, serve demo_path (λ _, demo_env 0) (new [Received saving_stream; EndOfStream] (replicate 80 (Socket.Written 1))
        (mkWorld Cache.Cache_unbounded ∅ 0)) = Ret k ∧ sent k = concat replies ∧ world_ k = w'.
Proof.
  destruct (one_reply_per_request demo_path (λ _, demo_env 0) saving_stream (mkWorld Cache.Cache_unbounded ∅ 0))
    as (replies & n & w' & H1 & H2 & H3 & _ & H4).
  - apply empty_settled.
  - intros _. apply demo_calm; [|by vm_compute]. intros p [= <-]. by apply no_newline_literal.
  - assert (concat replies = unlines [$"+OK"; $":1"; $"+OK"; $":1"; $":60"; $"-ERR unknown command 'NONSENSE'"; $"+BYE"]) as Hout.
    { apply (f_equal (λ o, match o with Ret (out, _, _, _) => out | _ => [] end)) in H1.
      cbn beta iota in H1. rewrite <- H1. vm_compute. reflexivity. }
    exists replies, n, w'. split; [exact H1|]. split; [exact Hout|]. split; [reflexivity|].
    split; [|split; [exact H2|]].
    + rewrite <- (Forall2_length _ _ _ H3). vm_compute. reflexivity.
    + destruct (H4 [Received saving_stream; EndOfStream] (replicate 80 (Socket.Written 1))) as (k & K1 & K2 & _ & K3).
      * rewrite <- (app_nil_r saving_stream). apply arrives_data, arrives_end.
      * split; [repeat constructor; by vm_compute|by vm_compute].
      * rewrite Hout. split; [repeat constructor|vm_compute; lia].
      * exists k. split; [exact K1|]. split; [exact K2|exact K3].
Defined.

(** Five reads of 16 KiB without a newline. *)
Definition flood : list recv_result := replicate 5 (Received (replicate (Z.to_nat kReadChunkBytes) "x"%char)).

Lemma flood_fragments : Forall fragment flood.
Proof.
  apply Forall_replicate. split; [|unfold zlen; by rewrite length_replicate].
  intros Hin%elem_of_replicate. by destruct Hin.
Qed.

(** Two requests in two reads, and then a line that never ends. *)
Definition before_flood : list recv_result :=
  [Received $"PI"; RecvInterrupted; Received ($"NG" ++ [LineBuffer.newline] ++ $"PING" ++ [LineBuffer.newline] ++ $"SET x ")].

Lemma oversized_line_closes_witness :
  ∃ k, serve None (λ _, demo_env 0) (new (before_flood ++ flood ++ []) (replicate 100 (Socket.Written 1)) demo_world) = Ret k ∧
    sent k = (reply_pong ++ reply_pong) ++ reply_error too_long ∧ commands_handled_ k = 2%nat.
Proof.
  destruct (oversized_line_closes None (λ _, demo_env 0) before_flood flood [] (replicate 100 (Socket.Written 1))
    demo_world demo_world (reply_pong ++ reply_pong) 2) as (k & H1 & H2 & H3 & _).
  - repeat constructor.
  - split; [repeat constructor; by vm_compute|by vm_compute].
  - reflexivity.
  - exact flood_fragments.
  - by vm_compute.
  - split; [repeat constructor|vm_compute; lia].
  - exists k. split; [exact H1|]. split; [exact H2|exact H3].
Defined.
End ConnectionTheorems.
