(* ===== verification/Workers.v ===== *)
(** * Many clients at once

    Every connection has a worker thread, and all workers share one
    [ShardedCache].  A worker handles a request line by parsing it and, for a
    data command, making one call on the shard of the key; between the parts of
    a call the other workers run.  The clients nevertheless see a server that
    handles one line at a time: the replies every client gets, and the store at
    the end, are those of some sequence of whole requests. *)
From S2P Require Import Prelude Numbers RecencyList Lru KvStore Cache CacheRefine.
From S2P Require Import History CacheKv SyncCache Concurrency ShardedCache ShardedTheorems.
From S2P Require Import LineBuffer Protocol Persistence CommandHandler Settled Connection.
From S2P Require Import ConnectionTheorems.

Module Workers.
Import Protocol CommandHandler Settled Connection.
#[local] Existing Instances CacheKv.Cache_ops SyncCache.SyncCache_ops.
#[local] Existing Instances ShardedCache.ShardedCache_ops ShardedCache.ShardedCache_laws.

(** ** What a worker asks of the cache *)

(** The one call a command makes, if any. *)
Definition call_of (c : Command) : option kv_call :=
  match type c with
  | Set_ => Some match ttl c with
                 | Some seconds => KSetTtl (key c) (value c) (seconds * 1000)
                 | None => KSet (key c) (value c)
                 end
  | Get => Some (KGet (key c))
  | Delete => Some (KErase (key c))
  | Exists_ => Some (KContains (key c))
  | Ttl => Some (KTtl (key c))
  | Ping | Save | Load | Quit => None
  end.

(** The same call as one of the operations of a shard. *)
Definition op_of (o : kv_call) : History.op :=
  match o with
  | KSet k v => History.OpSet k v
  | KSetTtl k v ttl => History.OpSetTtl k v ttl
  | KGet k => History.OpGet k
  | KGetInto k out => History.OpGetInto k out
  | KErase k => History.OpErase k
  | KContains k => History.OpContains k
  | KTtl k => History.OpTtl k
  end.

Definition answer_of (a : kv_answer) : History.answer :=
  match a with
  | AnsDone => History.Done
  | AnsValue v => History.Value v
  | AnsInto hit out => History.Into hit out
  | AnsBool b => History.Bool b
  | AnsTtl i => History.Ttl i
  end.

(** The reply, given the answer. *)
Definition reply_for (a : History.answer) : outcome bytes :=
  match a with
  | History.Value (Some v) => Ret (reply_value v)
  | History.Value None => Ret reply_nil
  | History.Bool b => Ret (reply_bool b)
  | History.Ttl info => reply_ttl info
  | _ => Ret reply_ok
  end.

(** The reply to a command that asks nothing. *)
Definition fixed_reply (t : CommandType) : bytes := expected_reply t 0 None.

(** The calls of a worker, from the lines its client sends, up to [QUIT]. *)
Fixpoint program_of (lines : list bytes) : list kv_call :=
  match lines with
  | [] => []
  | line :: lines =>
      match parse_command line with
      | fail _ => program_of lines
      | succeed c =>
          if bool_decide (type c = Quit) then []
          else match call_of c with
               | Some o => o :: program_of lines
               | None => program_of lines
               end
      end
  end.

(** What the worker sends, given the answers to these calls: one reply per
    line up to [QUIT]. *)
Fixpoint transcript (lines : list bytes) (answers : list History.answer) : outcome (list bytes) :=
  match lines with
  | [] => Ret []
  | line :: lines =>
      match parse_command line with
      | fail error => rs ← transcript lines answers; Ret (reply_error error :: rs)
      | succeed c =>
          if bool_decide (type c = Quit) then Ret [fixed_reply Quit]
          else match call_of c, answers with
               | Some _, a :: answers =>
                   r ← reply_for a; rs ← transcript lines answers; Ret (r :: rs)
               | Some _, [] => Hang
               | None, _ => rs ← transcript lines answers; Ret (fixed_reply (type c) :: rs)
               end
      end
  end.

(** ** A server that handles one line at a time *)

(** At [when], the line of one client. *)
Record turn := mkTurn { client : nat; request : bytes; when : time_point }.

(** Nothing but the clock is asked for. *)
Definition env_at (now : time_point) : env := mkEnv now (λ _, now) 0 0 (Persistence.mkDisk false 0 None).

Fixpoint one_by_one {C} `{KvOps C} (persistence : option Persistence.t) (turns : list turn) (w : world C)
  : outcome (list (nat * bytes) * world C) :=
  match turns with
  | [] => Ret ([], w)
  | u :: turns =>
      '(reply, w) ← match parse_command (request u) with
                    | fail error => Ret (reply_error error, w)
                    | succeed c => execute (env_at (when u)) persistence c w
                    end;
      '(rs, w) ← one_by_one persistence turns w;
      Ret ((client u, reply) :: rs, w)
  end.

(** What one client sends, and gets. *)
Definition requests_of (t : nat) (turns : list turn) : list bytes :=
  request <$> filter (λ u, client u = t) turns.
Definition replies_to (t : nat) (rs : list (nat * bytes)) : list bytes :=
  snd <$> filter (λ r, r.1 = t) rs.

(** No line asks for the snapshot. *)
Definition line_in_memory (persistence : option Persistence.t) (line : bytes) : Prop :=
  match parse_command line with
  | fail _ => True
  | succeed c => in_memory persistence (type c)
  end.

(** ** Lemmas *)

(** [execute] makes the one call and replies to its answer. *)
Lemma execute_call {C} `{KvOps C} e persistence c (w : world C) :
  expressible c = true → in_memory persistence (type c) →
  execute e persistence c w =
  match call_of c with
  | Some o => '(a, s) ← kv_run (now e) o (store w); r ← reply_for (answer_of a); Ret (r, with_store s w)
  | None => Ret (fixed_reply (type c), w)
  end.
Proof.
  intros Hc Hp. unfold execute, call_of. destruct (type c) eqn:Ht; try done.
  - destruct (ttl c) as [s|] eqn:Hs; cbn [kv_run].
    + pose proof (expressible_ttl c s Hc Ht Hs) as Hr. unfold kMaxTtlSeconds in Hr.
      rewrite i64_Ret, bind_ret_l by (unfold i64_min, i64_max; lia). by destruct (kv_set_ttl _ _ _ _ _).
    + by destruct (kv_set _ _ _).
  - cbn [kv_run]. by destruct (kv_get _ _ _) as [[[v|] s]| |].
  - cbn [kv_run]. by destruct (kv_erase _ _ _) as [[b s]| |].
  - cbn [kv_run]. destruct (kv_contains _ _ _) as [b| |]; try done. cbn. by destruct w.
  - cbn [kv_run]. by destruct (kv_ttl _ _ _) as [[i s]| |].
  - destruct Hp as [->|[? ?]]; done.
  - destruct Hp as [->|[? ?]]; done.
Qed.

Lemma run_call now o c :
  History.run now (op_of o) c = ('(a, c) ← kv_run now o c; Ret (answer_of a, c)).
Proof.
  destruct o; cbn;
    match goal with |- context [Cache.set _ _ _] => destruct (Cache.set _ _ _)
    | |- context [Cache.set_ttl _ _ _ _ _] => destruct (Cache.set_ttl _ _ _ _ _)
    | |- context [Cache.get_into _ _ _ _] => destruct (Cache.get_into _ _ _ _) as [[[]]| |]
    | |- context [Cache.get _ _ _] => destruct (Cache.get _ _ _) as [[]| |]
    | |- context [Cache.erase _ _ _] => destruct (Cache.erase _ _ _) as [[]| |]
    | |- context [Cache.contains _ _ _] => destruct (Cache.contains _ _ _)
    | |- context [Cache.ttl _ _ _] => destruct (Cache.ttl _ _ _) as [[]| |] end; done.
Qed.
Lemma one_by_one_app {C} `{KvOps C} persistence us vs (w w1 w2 : world C) rs1 rs2 :
  one_by_one persistence us w = Ret (rs1, w1) → one_by_one persistence vs w1 = Ret (rs2, w2) →
  one_by_one persistence (us ++ vs) w = Ret (rs1 ++ rs2, w2).
Proof.
  revert w rs1. induction us as [|u us IH]; intros w rs1 H1 H2; cbn [app one_by_one] in *.
  { injection H1 as <- <-. done. }
  destruct (match parse_command _ with fail _ => _ | succeed _ => _ end) as [[r w']| |]; cbn in *; try done.
  destruct (one_by_one persistence us w') as [[rs w'']| |] eqn:E; cbn in *; try done.
  injection H1 as <- <-. by rewrite (IH _ _ E H2).
Qed.

(** Lines of one client, all at one time. *)
Definition turns_of (t : nat) (now : time_point) (lines : list bytes) : list turn :=
  (λ line, mkTurn t line now) <$> lines.

Lemma requests_of_turns t t' now lines :
  requests_of t (turns_of t' now lines) = if decide (t' = t) then lines else [].
Proof.
  unfold requests_of, turns_of. induction lines as [|l lines IH]; [by case_decide|]. cbn [fmap list_fmap].
  rewrite filter_cons. cbn [client]. case_decide; [|done]. cbn. by f_equal.
Qed.

Lemma replies_to_pair t t' rs :
  replies_to t (pair t' <$> rs) = if decide (t' = t) then rs else [].
Proof.
  unfold replies_to. induction rs as [|r rs IH]; [by case_decide|]. cbn [fmap list_fmap].
  rewrite filter_cons. cbn [fst]. case_decide; [|done]. cbn. by f_equal.
Qed.

Lemma requests_of_app t us vs : requests_of t (us ++ vs) = requests_of t us ++ requests_of t vs.
Proof. unfold requests_of. by rewrite filter_app, fmap_app. Qed.

Lemma replies_to_app t rs rs' : replies_to t (rs ++ rs') = replies_to t rs ++ replies_to t rs'.
Proof. unfold replies_to. by rewrite filter_app, fmap_app. Qed.

Section Idle.
Context {C : Type} `{KvOps C} (persistence : option Persistence.t).
Implicit Types (w : world C).

(** A line as the buffer hands it out, that does not touch the snapshot. *)
Definition fine (line : bytes) : Prop := (LineBuffer.newline ∉ line) ∧ line_in_memory persistence line.

(** A line that makes no call and does not end the session. *)
Definition idle (line : bytes) : Prop :=
  match parse_command line with
  | fail _ => True
  | succeed c => call_of c = None ∧ type c ≠ Quit
  end.

Lemma fine_expressible line c : fine line → parse_command line = succeed c →
  expressible c = true ∧ in_memory persistence (type c).
Proof.
  intros [Hl Hm] E. pose proof (parse_result_ok line Hl) as Hp. unfold line_in_memory in Hm.
  rewrite E in *. split; [apply Hp|done].
Qed.

(** Lines without calls change nothing, and get the same replies from a worker. *)
Lemma idle_turns t now lines w :
  Forall fine lines → Forall idle lines →
  ∃ rs, one_by_one persistence (turns_of t now lines) w = Ret (pair t <$> rs, w) ∧
    ∀ post answers, transcript (lines ++ post) answers = (rs' ← transcript post answers; Ret (rs ++ rs')) ∧
      up_to_quit (lines ++ post) = lines ++ up_to_quit post.
Proof.
  intros Hf Hi. induction Hi as [|line lines Hline _ IH]; cbn [turns_of fmap list_fmap one_by_one].
  { exists []. split; [done|]. intros post answers. split; [|done]. cbn [app]. by destruct (transcript post answers). }
  apply Forall_cons in Hf as [Hfl Hf]. destruct (IH Hf) as (rs & E & Hpost). unfold turns_of in E.
  cbn [request client when]. unfold idle in Hline. destruct (parse_command line) as [c|error] eqn:Ec.
  - destruct (fine_expressible line c Hfl Ec) as [Hx Hm]. destruct Hline as [Hc Hq].
    rewrite execute_call by done. rewrite Hc. cbn [mbind outcome_bind]. rewrite E.
    exists (fixed_reply (type c) :: rs). split; [done|]. intros post answers. cbn [app transcript up_to_quit].
    destruct (Hpost post answers) as [-> ->]. rewrite Ec, Hc, bool_decide_false by done.
    by destruct (transcript post answers).
  - cbn [mbind outcome_bind]. rewrite E. exists (reply_error error :: rs). split; [done|].
    intros post answers. cbn [app transcript up_to_quit]. destruct (Hpost post answers) as [-> ->]. rewrite Ec.
    by destruct (transcript post answers).
Qed.

(** The lines after the last call. *)
Lemma last_turns t now lines w :
  Forall fine lines → program_of lines = [] →
  ∃ rs, one_by_one persistence (turns_of t now (up_to_quit lines)) w = Ret (pair t <$> rs, w) ∧
    transcript lines [] = Ret rs.
Proof.
  induction lines as [|line lines IH]; intros Hf Hp; [by exists []|]. apply Forall_cons in Hf as [Hfl Hf].
  cbn [program_of transcript up_to_quit] in *. destruct (parse_command line) as [c|error] eqn:Ec.
  - destruct (fine_expressible line c Hfl Ec) as [Hx Hm]. destruct (bool_decide (type c = Quit)) eqn:Q.
    + apply bool_decide_eq_true in Q. exists [fixed_reply Quit]. split; [|done].
      cbn [turns_of fmap list_fmap one_by_one request client when]. rewrite Ec, execute_call by done.
      unfold call_of. by rewrite Q.
    + destruct (call_of c) eqn:Hc; [done|]. destruct (IH Hf Hp) as (rs & E & ->).
      exists (fixed_reply (type c) :: rs). split; [|done].
      cbn [turns_of fmap list_fmap one_by_one request client when]. rewrite Ec, execute_call by done.
      rewrite Hc. cbn [mbind outcome_bind]. unfold turns_of in E. by rewrite E.
  - destruct (IH Hf Hp) as (rs & E & ->). exists (reply_error error :: rs). split; [|done].
    cbn [turns_of fmap list_fmap one_by_one request client when]. rewrite Ec. cbn [mbind outcome_bind].
    unfold turns_of in E. by rewrite E.
Qed.

(** The line of the next call. *)
Lemma next_call lines o rest :
  program_of lines = o :: rest →
  ∃ pre line c post, lines = pre ++ line :: post ∧ Forall idle pre ∧ parse_command line = succeed c ∧
    type c ≠ Quit ∧ call_of c = Some o ∧ program_of post = rest.
Proof.
  induction lines as [|line lines IH]; intros Hp; [done|]. cbn [program_of] in Hp.
  assert (idle line → program_of lines = o :: rest → ∃ pre line' c post, line :: lines = pre ++ line' :: post ∧
    Forall idle pre ∧ parse_command line' = succeed c ∧ type c ≠ Quit ∧ call_of c = Some o ∧ program_of post = rest) as Hskip.
  { intros Hi (pre & line' & c & post & -> & Hpre & H')%IH. exists (line :: pre), line', c, post.
    split; [done|]. split; [by constructor|done]. }
  unfold idle in Hskip. destruct (parse_command line) as [c|error] eqn:Ec; [|by apply Hskip].
  case_bool_decide as Q; [done|]. destruct (call_of c) as [o'|] eqn:Hc; [|by apply Hskip].
  injection Hp as <- Hp. by exists [], line, c, lines.
Qed.

(** All clients, after the last call of any. *)
Lemma trailing n (rem : nat → list bytes) now w :
  (∀ t, (t < n)%nat → Forall fine (rem t) ∧ program_of (rem t) = []) →
  ∃ turns rs, one_by_one persistence turns w = Ret (rs, w) ∧ Forall (λ u, when u = now ∧ (client u < n)%nat) turns ∧
    Forall (λ r, (r.1 < n)%nat) rs ∧
    ∀ t, (t < n)%nat → requests_of t turns = up_to_quit (rem t) ∧ transcript (rem t) [] = Ret (replies_to t rs).
Proof.
  induction n as [|n IH]; intros Hrem; [exists [], []; split_and!; [done|constructor|constructor|lia]|].
  destruct IH as (turns & rs & E & Hturns & Hrs & Hall); [intros t Ht; apply Hrem; lia|].
  destruct (Hrem n ltac:(lia)) as [Hf Hp]. destruct (last_turns n now (rem n) w Hf Hp) as (rs' & E' & Ht').
  exists (turns ++ turns_of n now (up_to_quit (rem n))), (rs ++ (pair n <$> rs')).
  split; [by eapply one_by_one_app|]. split; [|split].
  - apply Forall_app. split; [eapply Forall_impl; [exact Hturns|]; intros u [-> ?]; split; [done|lia]|].
    apply Forall_fmap, Forall_forall. intros line _. cbn. split; [done|lia].
  - apply Forall_app. split; [eapply Forall_impl; [exact Hrs|]; cbn; lia|].
    apply Forall_fmap, Forall_forall. intros r _. cbn. lia.
  - intros t Ht. rewrite requests_of_app, replies_to_app, requests_of_turns, replies_to_pair.
    case_decide as D.
    + subst t. replace (requests_of n turns) with (@nil bytes); [replace (replies_to n rs) with (@nil bytes); [done|]|].
      * unfold replies_to. destruct (filter _ rs) as [|r l] eqn:Ef; [done|].
        assert (r ∈ filter (λ r, r.1 = n) rs) as [Hr Hin]%list_elem_of_filter by (rewrite Ef; left).
        rewrite Forall_forall in Hrs. specialize (Hrs _ Hin). cbn in Hrs. lia.
      * unfold requests_of. destruct (filter _ turns) as [|u l] eqn:Ef; [done|].
        assert (u ∈ filter (λ u, client u = n) turns) as [Hu Hin]%list_elem_of_filter by (rewrite Ef; left).
        rewrite Forall_forall in Hturns. destruct (Hturns _ Hin) as [_ Hlt]. lia.
    + rewrite !app_nil_r. apply Hall. lia.
Qed.
End Idle.
(** ** Merging the workers *)
Section Merge.
Import Concurrency ShardedCache.
Context (hash : bytes → Z) (persistence : option Persistence.t) (n : nat) (limit : time_point).
Context (final : list SyncCache.t) (Hlimit : clock_ok limit).
Local Abbreviation sharded := (ShardedCache.t hash).
Implicit Types (c : sharded) (rem : nat → list bytes).

(** A call, routed to the shard of its key. *)
Definition routed c (o : kv_call) : nat * History.op := (home hash (call_key o) c, op_of o).

(** The events [l] still to come lead every shard to its final state, and every
    worker through the calls of its remaining lines. *)
Record ahead (l : list event) rem c : Prop := {
  ahead_ok : sharded_ok hash c;
  ahead_length : length (shards_ c) = length final;
  ahead_shards i s : shards_ c !! i = Some s → ∃ s', final !! i = Some s' ∧ SyncCache.mutex_ s' = None ∧
    History.run_all (calls (on_shard i l)) (SyncCache.cache_ s) =
      Ret (ev_answer <$> on_shard i l, SyncCache.cache_ s');
  ahead_threads e : e ∈ l → (ev_thread e < n)%nat;
  ahead_fine t : (t < n)%nat → Forall (fine persistence) (rem t);
  ahead_calls t : (t < n)%nat →
    routed c <$> program_of (rem t) = (λ e, (ev_shard e, ev_op e)) <$> by_thread t l
}.

Lemma ahead_done rem c : ahead [] rem c → shards_ c = final.
Proof.
  intros [Hok Hlen Hsh _ _ _]. apply list_eq. intros i.
  destruct (shards_ c !! i) as [s|] eqn:E.
  - destruct (Hsh i s E) as (s' & -> & Hm & Hrun). cbn in Hrun. injection Hrun as Hc.
    pose proof (ok_shards _ _ Hok) as Hall. rewrite Forall_lookup in Hall. destruct (Hall i s E) as [Hm' _].
    destruct s, s'. cbn in *. by subst.
  - symmetry. apply lookup_ge_None. rewrite <- Hlen. by apply lookup_ge_None.
Qed.

(** The remaining lines of one worker change. *)
Definition set_lines (t : nat) (lines : list bytes) rem : nat → list bytes :=
  λ t', if decide (t' = t) then lines else rem t'.

(** The next call, executed as a command on the whole cache. *)
Lemma ahead_call e l rem c o command f k :
  ahead (e :: l) rem c → call_of command = Some o → routed c o = (ev_shard e, ev_op e) →
  expressible command = true → in_memory persistence (type command) → 0 ≤ ev_now e ≤ limit →
  ∃ r c', execute (env_at (ev_now e)) persistence command (mkWorld c f k) = Ret (r, mkWorld c' f k) ∧
    reply_for (ev_answer e) = Ret r ∧ sharded_ok hash c' ∧ length (shards_ c') = length final ∧
    (∀ o, routed c' o = routed c o) ∧
    ∀ i s, shards_ c' !! i = Some s → ∃ s', final !! i = Some s' ∧ SyncCache.mutex_ s' = None ∧
      History.run_all (calls (on_shard i l)) (SyncCache.cache_ s) =
        Ret (ev_answer <$> on_shard i l, SyncCache.cache_ s').
Proof.
  intros [Hok Hlen Hsh _ _ _] Hc [= Hi Ho] Hex Hmem Hnow.
  pose proof (Hok : kv_ok c) as Hkv.
  destruct (execute_spec (env_at (ev_now e)) persistence command (mkWorld c f k) Hkv Hex Hmem) as (c' & Hr & Hok' & _).
  { unfold clock_ok in *. cbn. lia. }
  pose proof (execute_call (env_at (ev_now e)) persistence command (mkWorld c f k) Hex Hmem) as Hcall.
  rewrite Hr, Hc in Hcall. cbn [store with_store files counter CommandHandler.now env_at] in Hcall.
  destruct (home_shard hash (call_key o) c Hok) as (s & Hs & [Hm Hinv]).
  rewrite (ShardedTheorems.sharded_run hash c s), ShardedTheorems.sync_run in Hcall by done.
  destruct (Hsh _ _ Hs) as (s' & Hs' & Hm' & Hrun). unfold on_shard in Hrun. rewrite filter_cons, decide_True in Hrun by done.
  cbn [calls fmap list_fmap History.run_all] in Hrun. rewrite <- Ho, run_call in Hrun.
  destruct (kv_run (ev_now e) o (SyncCache.cache_ s)) as [[a c1]| |] eqn:Ea; try discriminate.
  cbn [mbind outcome_bind] in Hcall, Hrun.
  destruct (History.run_all _ c1) as [[as' c2]| |] eqn:Erest; try discriminate. cbn [mbind outcome_bind] in Hrun.
  injection Hrun as Hans Has Hc2.
  destruct (reply_for (answer_of a)) as [r| |] eqn:Er; try discriminate. cbn [mbind outcome_bind] in Hcall.
  injection Hcall as Hreply Hc'. exists r, c'. rewrite <- Hans.
  split; [rewrite Hr; do 2 f_equal; exact Hreply|]. split; [done|]. split; [done|].
  rewrite Hc'. split; [cbn; by rewrite length_insert|]. split.
  { intros o'. unfold routed. by rewrite home_update. }
  intros i x. cbn [shards_ put_shard]. rewrite (lookup_update _ _ _ _ _ Hs).
  case_decide as D; [intros [= <-]; subst i|].
  - exists s'. split; [done|]. split; [done|]. cbn [SyncCache.cache_]. unfold on_shard. unfold calls in Erest |- *.
    rewrite Erest. by rewrite Has, Hc2.
  - intros Hx. destruct (Hsh i x Hx) as (x' & ? & ? & Hrx). exists x'. split; [done|]. split; [done|].
    unfold on_shard in Hrx. rewrite filter_cons, decide_False in Hrx by congruence. done.
Qed.

Definition earlier (u v : turn) : Prop := when u ≤ when v.

Lemma sorted_turns t now lines vs :
  StronglySorted earlier vs → Forall (λ v, now ≤ when v) vs → StronglySorted earlier (turns_of t now lines ++ vs).
Proof.
  intros Hs Hv. induction lines as [|line lines IH]; [done|]. cbn. constructor; [done|].
  apply Forall_app. split; [|done]. apply Forall_fmap, Forall_forall. intros x _. unfold earlier. cbn. lia.
Qed.

(** What is ahead after the next call. *)
Lemma ahead_step e l rem c c' o rest post :
  ahead (e :: l) rem c → program_of (rem (ev_thread e)) = o :: rest → program_of post = rest →
  Forall (fine persistence) post → sharded_ok hash c' → length (shards_ c') = length final →
  (∀ o, routed c' o = routed c o) →
  (∀ i s, shards_ c' !! i = Some s → ∃ s', final !! i = Some s' ∧ SyncCache.mutex_ s' = None ∧
      History.run_all (calls (on_shard i l)) (SyncCache.cache_ s) =
        Ret (ev_answer <$> on_shard i l, SyncCache.cache_ s')) →
  ahead l (set_lines (ev_thread e) post rem) c'.
Proof.
  intros [_ _ _ Hth Hfine Hcalls] Hprog Hpost Hf Hok Hlen Hr Hsh. split; try done.
  - intros x Hx. apply Hth. by right.
  - intros t Ht. unfold set_lines. case_decide; [done|by apply Hfine].
  - intros t Ht. rewrite (list_fmap_ext _ (routed c)) by (intros; apply Hr).
    specialize (Hcalls t Ht). unfold by_thread in Hcalls. rewrite filter_cons in Hcalls.
    unfold set_lines. destruct (decide (t = ev_thread e)) as [D|D].
    + subst t. rewrite decide_True, Hprog in Hcalls by done. cbn in Hcalls. injection Hcalls as _ _ E. by rewrite Hpost.
    + rewrite decide_False in Hcalls by congruence. done.
Qed.

(** No calls are left: the remaining lines, client after client. *)
Lemma merged_done f k b rem c :
  ahead [] rem c →
  ∃ turns rs c', one_by_one persistence turns (mkWorld c f k) = Ret (rs, mkWorld c' f k) ∧
    shards_ c' = final ∧ sharded_ok hash c' ∧ StronglySorted earlier turns ∧
    Forall (λ u, b ≤ when u ∧ (client u < n)%nat) turns ∧
    ∀ t, (t < n)%nat → requests_of t turns = up_to_quit (rem t) ∧
      transcript (rem t) (ev_answer <$> by_thread t []) = Ret (replies_to t rs).
Proof.
  intros Ha. destruct (trailing persistence n rem b (mkWorld c f k)) as (turns & rs & E & Hturns & _ & Hall).
  { intros t Ht. split; [by apply (ahead_fine _ _ _ Ha)|]. pose proof (ahead_calls _ _ _ Ha t Ht) as Hc.
    cbn in Hc. by apply fmap_nil_inv in Hc. }
  exists turns, rs, c. split_and!; [done|by eapply ahead_done|apply Ha| | |done].
  - clear -Hturns. induction Hturns as [|u us [Hu _] Hus IH]; constructor; [done|].
    eapply Forall_impl; [exact Hus|]. intros v [Hv _]. unfold earlier. lia.
  - eapply Forall_impl; [exact Hturns|]. cbn. intros u [-> ?]. split; [lia|done].
Qed.

(** From any point on, the rest of the log as turns. *)
Lemma merged f k l : ∀ b rem c,
  StronglySorted no_later l → (∀ e, e ∈ l → b ≤ ev_now e ≤ limit) → 0 ≤ b ≤ limit → ahead l rem c →
  ∃ turns rs c', one_by_one persistence turns (mkWorld c f k) = Ret (rs, mkWorld c' f k) ∧
    shards_ c' = final ∧ sharded_ok hash c' ∧ StronglySorted earlier turns ∧
    Forall (λ u, b ≤ when u ∧ (client u < n)%nat) turns ∧
    ∀ t, (t < n)%nat → requests_of t turns = up_to_quit (rem t) ∧
      transcript (rem t) (ev_answer <$> by_thread t l) = Ret (replies_to t rs).
Proof.
  induction l as [|e l IH]; intros b rem c Hsort Hnow Hb Ha.
  { by apply merged_done. }
  apply StronglySorted_inv in Hsort as [Hsort Hle]. set (t := ev_thread e). set (now := ev_now e).
  assert (t < n)%nat as Ht by (apply (ahead_threads _ _ _ Ha); left).
  pose proof (Hnow e ltac:(left)) as Hnow0. fold now in Hnow0.
  pose proof (ahead_calls _ _ _ Ha t Ht) as Hcalls. unfold by_thread in Hcalls.
  rewrite filter_cons, decide_True in Hcalls by done.
  destruct (program_of (rem t)) as [|o rest] eqn:Hprog; [done|]. cbn [fmap list_fmap] in Hcalls.
  injection Hcalls as Hroute Hrest.
  destruct (next_call _ _ _ Hprog) as (pre & line & command & post & Erem & Hpre & Hparse & Hquit & Hcall & Hpost).
  pose proof (ahead_fine _ _ _ Ha t Ht) as Hfine. rewrite Erem in Hfine.
  apply Forall_app in Hfine as [Hfpre Hfine]. apply Forall_cons in Hfine as [Hfline Hfpost].
  destruct (fine_expressible persistence line command Hfline Hparse) as [Hex Hmem].
  destruct (ahead_call e l rem c o command f k Ha Hcall) as (r & c' & Hx & Hreply & Hok' & Hlen' & Hr & Hsh'); try done;
    [unfold routed; congruence|fold now; lia|].
  destruct (IH now (set_lines t post rem) c') as (turns & rs & c2 & E & Hfin & Hok2 & Hs2 & Ht2 & Hall);
    [done| |lia|by eapply ahead_step|].
  { intros x Hx'. specialize (Hnow x ltac:(by right)). rewrite Forall_forall in Hle. specialize (Hle x Hx').
    unfold no_later in Hle. fold now in Hle. lia. }
  destruct (idle_turns persistence t now pre (mkWorld c f k) Hfpre Hpre) as (rs0 & E0 & Htr).
  exists (turns_of t now pre ++ mkTurn t line now :: turns), ((pair t <$> rs0) ++ (t, r) :: rs), c2.
  split_and!; [|done|done| | |].
  - eapply one_by_one_app; [exact E0|]. cbn [one_by_one request client when]. rewrite Hparse. fold now in Hx.
    rewrite Hx. cbn [mbind outcome_bind]. by rewrite E.
  - change (mkTurn t line now :: turns) with (turns_of t now [line] ++ turns).
    assert (Forall (λ v, now ≤ when v) turns) by (eapply Forall_impl; [exact Ht2|]; by intros ? []).
    apply sorted_turns; [by apply sorted_turns|]. constructor; [done|done].
  - apply Forall_app. split.
    + apply Forall_fmap, Forall_forall. intros x _. cbn. split; [lia|done].
    + constructor; [cbn; split; [lia|done]|]. eapply Forall_impl; [exact Ht2|]. cbn. intros u []. split; [lia|done].
  - intros t' Ht'. destruct (Hall t' Ht') as [Hreq Hrep]. unfold set_lines in Hreq, Hrep.
    rewrite requests_of_app, replies_to_app, requests_of_turns, replies_to_pair.
    unfold requests_of, replies_to, by_thread in *. rewrite !filter_cons. cbn [client fst].
    fold t. destruct (decide (t' = t)) as [->|Hne].
    + rewrite !decide_True by done. cbn [fmap list_fmap]. rewrite Hreq, Erem.
      destruct (Htr (line :: post) (ev_answer e :: (ev_answer <$> filter (λ x, ev_thread x = t) l))) as [-> ->].
      cbn [up_to_quit transcript]. rewrite Hparse, bool_decide_false, Hcall, Hreply by done.
      cbn [mbind outcome_bind]. by rewrite Hrep.
    + rewrite !decide_False by congruence. by rewrite Hreq, Hrep.
Qed.
End Merge.
(** ** The property *)

(** What the worker of a client that sends [stream] will do. *)
Definition worker_program {hash} (c : ShardedCache.t hash) (stream : bytes) : list (nat * History.op) :=
  routed hash c <$> program_of (lines_of stream).

Section Programs.
Import Concurrency ShardedCache.
Context (hash : bytes → Z) (persistence : option Persistence.t) (limit : time_point) (Hlimit : clock_ok limit).

Lemma program_fits lines :
  Forall (fine persistence) lines → Forall (λ o, op_fits limit (op_of o) = true) (program_of lines).
Proof.
  induction 1 as [|line lines Hline _ IH]; cbn [program_of]; [constructor|].
  destruct (parse_command line) as [c|error] eqn:Ec; [|done]. destruct (bool_decide _); [constructor|].
  destruct (call_of c) as [o|] eqn:Hc; [|done]. constructor; [|done].
  destruct (fine_expressible persistence line c Hline Ec) as [Hex _].
  unfold call_of in Hc. destruct (type c) eqn:Ht; try done; simplify_eq; try done.
  destruct (Protocol.ttl c) as [s|] eqn:Hs; [|done]. pose proof (expressible_ttl c s Hex Ht Hs).
  cbn. apply Z.leb_le. unfold clock_ok, kMaxTtlSeconds in *. lia.
Qed.

Lemma worker_program_ok (c : t hash) stream :
  sharded_ok hash c → Forall (fine persistence) (lines_of stream) →
  prog_ok limit (length (shards_ c)) (worker_program c stream) = true.
Proof.
  intros Hc Hf%program_fits. unfold prog_ok, worker_program. apply forallb_forall.
  intros x (o & -> & Ho)%list_elem_of_In%list_elem_of_fmap. rewrite Forall_forall in Hf. cbn.
  rewrite Hf by done. rewrite andb_true_r. apply Nat.ltb_lt. apply home_lt, Hc.
Qed.

(** A machine whose workers are done has run them all to the end. *)
Lemma finished_ahead (c : t hash) streams m l :
  sharded_ok hash c → Forall (λ s, Forall (fine persistence) (lines_of s)) streams →
  reaches limit (start (shards_ c) (worker_program c <$> streams)) m → Forall finished (threads m) →
  same_order l (log m) →
  ahead hash persistence (length streams) (shards m) l (λ i, default [] (lines_of <$> streams !! i)) c ∧
  ∀ i th, threads m !! i = Some th → answers th = ev_answer <$> by_thread i l.
Proof.
  intros Hc Hf Hm Hdone (Hperm & Hsh & Hbt).
  assert (good limit (shards_ c) (worker_program c <$> streams) m) as Hg.
  { apply good_reaches; [apply Hc|apply Hlimit| |done]. apply Forall_fmap. eapply Forall_impl; [exact Hf|].
    intros s Hs. by apply worker_program_ok. }
  destruct (threads_reaches limit (shards_ c) (worker_program c <$> streams) m Hm) as [Hlen Hev].
  rewrite length_fmap in Hlen, Hev. rewrite Forall_lookup in Hdone. split.
  - split; [done|by rewrite (good_len _ _ _ _ Hg)| | | |].
    + intros i s Hs. destruct (lookup_lt_is_Some_2 (shards m) i) as [s' Hs'].
      { rewrite (good_len _ _ _ _ Hg). by eapply lookup_lt_Some. }
      exists s'. split; [done|]. split.
      * eapply all_idle_free; [exact Hg| |exact Hs']. apply Forall_lookup. intros j th Hth. by apply (Hdone j).
      * destruct (good_shard _ _ _ _ Hg i s' Hs') as (_ & s1 & Hs1 & Hrun). simplify_eq. by rewrite Hsh.
    + intros e He. rewrite Forall_forall in Hev. apply Hev. by rewrite <- Hperm.
    + intros i Hi. apply lookup_lt_is_Some in Hi as [s Hs]. rewrite Hs. cbn. rewrite Forall_lookup in Hf. by eapply Hf.
    + intros i Hi. destruct (lookup_lt_is_Some_2 (threads m) i) as [th Hth]; [by rewrite Hlen|].
      destruct (good_thread _ _ _ _ Hg i th Hth) as (prog & Hprog & Heq & _). rewrite Hbt.
      destruct (Hdone i th Hth) as [Hp Hpc]. rewrite Hp, Hpc in Heq. cbn in Heq. rewrite app_nil_r in Heq.
      rewrite list_lookup_fmap in Hprog. destruct (streams !! i) as [s|]; [|done]. cbn in Hprog |- *. simplify_eq. done.
  - intros i th Hth. destruct (good_thread _ _ _ _ Hg i th Hth) as (prog & _ & _ & Ha). rewrite Hbt.
    destruct (Hdone i th Hth) as [_ Hpc]. rewrite Hpc in Ha. cbn in Ha. by rewrite app_nil_r in Ha.
Qed.
End Programs.

(** C12.  Clients served at once see a server that handles one line at a time,
    as far as the cache is concerned: for clients none of whose lines reads or
    writes the snapshot (anything but [SAVE] and [LOAD], and those two as well
    on a server without a snapshot path, where they are refused).  However the
    workers of any number of such connections interleave inside the calls of
    the sharded cache, once all have finished there is one sequence of whole
    requests, in the order of the clock, in which every client's lines occur in
    the order sent (up to its [QUIT]), such that executing them one after the
    other from the same store returns, leaves exactly the store the workers
    left, and gives every client exactly the replies its worker sent.  ([SAVE]
    and [LOAD] are not atomic; what holds of them beside other requests is in
    LiveExport and BusySound.) *)
Theorem clients_see_one_server hash persistence limit (c : ShardedCache.t hash) files counter streams m
    (Hc : ShardedCache.sharded_ok hash c) (Hlimit : clock_ok limit)
    (Hmem : Forall (λ s, Forall (line_in_memory persistence) (lines_of s)) streams)
    (Hm : Concurrency.reaches limit
            (Concurrency.start (ShardedCache.shards_ c) (worker_program c <$> streams)) m)
    (Hdone : Forall Concurrency.finished (Concurrency.threads m)) :
  ∃ turns rs c',
    one_by_one persistence turns (mkWorld c files counter) = Ret (rs, mkWorld c' files counter) ∧
    ShardedCache.shards_ c' = Concurrency.shards m ∧ ShardedCache.sharded_ok hash c' ∧
    StronglySorted earlier turns ∧ Forall (λ u, (client u < length streams)%nat) turns ∧
    ∀ t stream th, streams !! t = Some stream → Concurrency.threads m !! t = Some th →
      requests_of t turns = up_to_quit (lines_of stream) ∧
      transcript (lines_of stream) (Concurrency.answers th) = Ret (replies_to t rs).
Proof.
  assert (Forall (λ s, Forall (fine persistence) (lines_of s)) streams) as Hf.
  { eapply Forall_impl; [exact Hmem|]. intros s Hs. apply Forall_and. split; [apply ConnectionTheorems.lines_of_clean|done]. }
  assert (Forall (λ p, Concurrency.prog_ok limit (length (ShardedCache.shards_ c)) p = true)
    (worker_program c <$> streams)) as Hprogs.
  { apply Forall_fmap. eapply Forall_impl; [exact Hf|]. intros s Hs.
    exact (worker_program_ok hash persistence limit Hlimit c s Hc Hs). }
  pose proof (Concurrency.timed_reaches limit _ _ (ShardedCache.ok_shards _ _ Hc) (proj1 Hlimit) Hprogs m Hm) as Ht.
  pose proof (Concurrency.good_reaches limit _ _ (ShardedCache.ok_shards _ _ Hc) (proj1 Hlimit) Hprogs m Hm) as Hg.
  destruct (Concurrency.timed_order _ Ht) as (l & Hsort & Hsame).
  destruct (finished_ahead hash persistence limit Hlimit c streams m l Hc Hf Hm Hdone Hsame) as [Ha Hans].
  destruct (merged hash persistence (length streams) limit (Concurrency.shards m) Hlimit files counter l 0
    (λ i, default [] (lines_of <$> streams !! i)) c)
    as (turns & rs & c' & E & Hfin & Hok & Hs & Hcl & Hall); [done| |destruct Hlimit; lia|exact Ha|].
  { intros e He. pose proof (Concurrency.timed_log _ Ht) as Hlog. rewrite Forall_forall in Hlog.
    specialize (Hlog e). destruct Hsame as [Hp _]. rewrite Hp in He. specialize (Hlog He). cbn in Hlog.
    pose proof (Concurrency.good_clock _ _ _ _ Hg). lia. }
  exists turns, rs, c'. split_and!; try done.
  { eapply Forall_impl; [exact Hcl|]. by intros u []. }
  intros t stream th Hstream Hth. destruct (Hall t) as [Hr Htr]; [by eapply lookup_lt_Some|].
  rewrite Hstream in Hr, Htr. cbn in Hr, Htr. by rewrite (Hans t th Hth).
Qed.
(** ** Witness: two clients, their calls interleaved *)
Section Witness.
Import Concurrency ShardedCache.

Definition two_shards : t ShardedTheorems.length_hash := ShardedCache_unbounded ShardedTheorems.length_hash 2.

Definition first_stream : bytes := ConnectionTheorems.unlines [$"SET a 1"; $"GET bb"].
Definition second_stream : bytes := ConnectionTheorems.unlines [$"SET bb 2"; $"PING"; $"GET a"; $"QUIT"].
Definition two_streams : list bytes := [first_stream; second_stream].

(** Both hold the mutex of another shard, then each waits for the other's. *)
Definition two_schedule : list nat := [0; 1; 0; 1; 1; 0; 1; 0; 1; 0; 0; 0; 1; 1; 0; 1]%nat.

Definition two_start : machine := start (shards_ two_shards) (worker_program two_shards <$> two_streams).
Definition two_done : machine := default two_start (schedule two_schedule two_start).

Lemma two_reaches : reaches 100 two_start two_done.
Proof. apply (schedule_reaches _ two_schedule _ two_start); [constructor|vm_compute; reflexivity]. Qed.

Lemma clients_see_one_server_witness :
  ∃ turns rs c', one_by_one None turns (mkWorld two_shards ∅ 0) = Ret (rs, mkWorld c' ∅ 0) ∧
    shards_ c' = shards two_done ∧ requests_of 1 turns = [$"SET bb 2"; $"PING"; $"GET a"; $"QUIT"] ∧
    replies_to 0 rs = [reply_ok; reply_value $"2"] ∧
    replies_to 1 rs = [reply_ok; reply_pong; reply_value $"1"; reply_bye].
Proof.
  destruct (clients_see_one_server ShardedTheorems.length_hash None 100 two_shards ∅ 0 two_streams two_done)
    as (turns & rs & c' & H1 & H2 & _ & _ & _ & Hall).
  - apply ShardedTheorems.unbounded_ok. lia.
  - by vm_compute.
  - apply Forall_forall. intros s _. apply Forall_forall. intros line _. unfold line_in_memory.
    destruct (parse_command line); [by left|done].
  - exact two_reaches.
  - vm_compute. repeat constructor.
  - assert (threads two_done !! 0%nat = Some (mkThread [] Idle [History.Done; History.Value (Some $"2")])) as T0
      by (vm_compute; reflexivity).
    assert (threads two_done !! 1%nat = Some (mkThread [] Idle [History.Done; History.Value (Some $"1")])) as T1
      by (vm_compute; reflexivity).
    destruct (Hall 0%nat first_stream _ eq_refl T0) as [_ Hr0].
    destruct (Hall 1%nat second_stream _ eq_refl T1) as [Hq1 Hr1].
    exists turns, rs, c'. split; [exact H1|]. split; [exact H2|]. split.
    + rewrite Hq1. vm_compute. reflexivity.
    + split.
      * assert (Ret (replies_to 0 rs) = Ret [reply_ok; reply_value $"2"]) as E
          by (rewrite <- Hr0; vm_compute; reflexivity). congruence.
      * assert (Ret (replies_to 1 rs) = Ret [reply_ok; reply_pong; reply_value $"1"; reply_bye]) as E
          by (rewrite <- Hr1; vm_compute; reflexivity). congruence.
Defined.
End Witness.
End Workers.
