(* ===== verification/BusyServer.v ===== *)
(** * A server with everything going on at once

    Workers.v treats the commands that make one call on the cache.  SAVE and LOAD
    make many, one shard or one record at a time, and use the files; other
    workers and the auto-save thread run in between.  Here a thread is a finite
    tree of effects, each of them one call on a shard or one operation on the
    file system (Concurrency.v shows that a call is indivisible, SaveRace.v looks
    inside the writing of a file), and what it does next depends on the answers.
    A client that is gone, or whose line is too long (ConnectionTheorems.v), is
    one whose stream ends there. *)
From S2P Require Import Prelude Numbers RecencyList Lru KvStore Cache CacheRefine.
From S2P Require Import History CacheKv SyncCache ShardedCache ShardedTheorems.
From S2P Require Import LineBuffer Protocol Stream Snapshot Persistence PersistenceTheorems SaveRace.
From S2P Require Import CommandHandler Settled Connection ConnectionTheorems Workers.

Module BusyServer.
Import Protocol CommandHandler Settled Workers PersistenceTheorems.
#[local] Existing Instances ShardedCache.ShardedCache_ops ShardedCache.ShardedCache_laws.

(** ** Effects and programs *)

(** What a thread asks of the cache, the clock and the file system. *)
Inductive effect :=
| Call (o : kv_call)
| ExportShard (i : nat)
| WallClock
| ReadFile (path : bytes)
| NextCounter
| CreateFile (path : bytes)
| WriteFile (path content : bytes)
| RenameFile (from to : bytes)
| RemoveFile (path : bytes).

(** What it is told: whether opening and writing succeeded, [strerror] of a
    failed rename. *)
Definition reply_to (e : effect) : Type :=
  match e with
  | Call _ => kv_answer
  | ExportShard _ => list EntrySnapshot
  | WallClock | NextCounter => Z
  | ReadFile _ => option bytes
  | CreateFile _ | WriteFile _ _ => bool
  | RenameFile _ _ => option bytes
  | RemoveFile _ => unit
  end.

Inductive prog :=
| Stop
| Undefined                                     (** undefined behaviour *)
| Say (reply : bytes) (rest : prog)             (** the reply to a line is sent *)
| Act (e : effect) (k : reply_to e → prog).

(** A computation of its own. *)
Definition lift {A} (o : outcome A) (k : A → prog) : prog :=
  match o with Ret a => k a | _ => Undefined end.

Section Programs.
(** The process id, and the number of shards. *)
Context (pid : Z) (shard_count : nat).

(** [export_entries]. *)
Fixpoint export_prog (shards : list nat) (all : list EntrySnapshot) (k : list EntrySnapshot → prog) : prog :=
  match shards with
  | [] => k all
  | i :: shards => Act (ExportShard i) (λ part, export_prog shards (all ++ part) k)
  end.

(** [PersistenceManager::save]. *)
Definition save_prog (p : Persistence.t) (k : Persistence.SaveResult → prog) : prog :=
  export_prog (seq 0 shard_count) [] (λ entries,
  Act NextCounter (λ counter,
    let temp := Persistence.unique_temp_path (Persistence.path_ p) pid counter in
    Act (CreateFile temp) (λ opened,
      if negb opened then k (Persistence.save_failed 0 ($"cannot open '" ++ temp ++ $"' for writing"))
      else Act WallClock (λ wall_ms,
        let content := Snapshot.format wall_ms entries in
        Act (WriteFile temp content) (λ written,
          if negb written then
            Act (RemoveFile temp) (λ _, k (Persistence.save_failed 0 $"write failed (disk full?)"))
          else Act (RenameFile temp (Persistence.path_ p)) (λ error,
            match error with
            | Some reason =>
                Act (RemoveFile temp) (λ _,
                  k (Persistence.save_failed (zlen content) ($"cannot rename snapshot into place: " ++ reason)))
            | None => k (Persistence.mkSaveResult true (zlen entries) (zlen content) [])
            end)))))).

(** The application loop of [load]. *)
Fixpoint apply_prog (elapsed_ms : Z) (rs : list Snapshot.Record) (n_loaded n_expired : Z) (k : Z → Z → prog) : prog :=
  match rs with
  | [] => k n_loaded n_expired
  | r :: rs =>
      if Snapshot.ttl_ms r =? Snapshot.kNoExpiry then
        Act (Call (KSet (Snapshot.rec_key r) (Snapshot.rec_value r))) (λ _,
          apply_prog elapsed_ms rs (u64 (n_loaded + 1)) n_expired k)
      else
        lift (i64 (Snapshot.ttl_ms r - elapsed_ms)) (λ remaining_ms,
          if 0 <? remaining_ms then
            Act (Call (KSetTtl (Snapshot.rec_key r) (Snapshot.rec_value r) remaining_ms)) (λ _,
              apply_prog elapsed_ms rs (u64 (n_loaded + 1)) n_expired k)
          else apply_prog elapsed_ms rs n_loaded (u64 (n_expired + 1)) k)
  end.

(** [PersistenceManager::load]. *)
Definition load_prog (p : Persistence.t) (k : Persistence.LoadResult → prog) : prog :=
  Act (ReadFile (Persistence.path_ p)) (λ file,
    match file with
    | None => k (Persistence.mkLoadResult true 0 0 [])
    | Some content =>
        Act WallClock (λ wall_ms,
          lift (Snapshot.parse wall_ms content) (λ parsed,
            match parsed with
            | inl error => k (Persistence.mkLoadResult false 0 0 error)
            | inr (elapsed_ms, records) =>
                apply_prog elapsed_ms (rev records) 0 0 (λ n_loaded n_expired,
                  k (Persistence.mkLoadResult true n_loaded n_expired []))
            end))
    end).

(** [execute]: what a command makes of the cache, and its reply. *)
Definition execute_prog (persistence : option Persistence.t) (command : Command) (k : bytes → prog) : prog :=
  match call_of command with
  | Some o => Act (Call o) (λ a, lift (reply_for (answer_of a)) k)
  | None =>
      match persistence, type command with
      | Some p, Save =>
          save_prog p (λ saved,
            k (if Persistence.save_ok saved then reply_integer (Persistence.save_entries saved)
               else reply_error ($"save failed: " ++ Persistence.save_error saved)))
      | Some p, Load =>
          load_prog p (λ loaded,
            k (if Persistence.load_ok loaded then reply_integer (Persistence.loaded loaded)
               else reply_error ($"load failed: " ++ Persistence.load_error loaded)))
      | _, t => k (fixed_reply t)
      end
  end.

(** A worker, from the lines its client sends: [handle_line] after
    [handle_line], up to [QUIT]. *)
Fixpoint worker_prog (persistence : option Persistence.t) (lines : list bytes) : prog :=
  match lines with
  | [] => Stop
  | line :: lines =>
      match parse_command line with
      | fail error => Say (reply_error error) (worker_prog persistence lines)
      | succeed command =>
          execute_prog persistence command (λ reply,
            Say reply (if bool_decide (type command = Quit) then Stop else worker_prog persistence lines))
      end
  end.

(** The auto-save thread, stopped after some number of saves. *)
Fixpoint saver_prog (p : Persistence.t) (saves : nat) : prog :=
  match saves with
  | O => Stop
  | S saves => save_prog p (λ _, saver_prog p saves)
  end.
End Programs.

(** ** The machine *)
Section Machine.
Context (hash : bytes → Z).
Abbreviation world := (world (ShardedCache.t hash)).

Definition with_files (f : Persistence.fs) (w : world) : world := mkWorld (store w) f (counter w).

(** What an effect can answer, and do, when the clock shows [now].  A file that
    was not written to the end holds some prefix.  The counter is assumed not to
    have wrapped, which would take 2^64 saves. *)
Definition perform (now : time_point) (e : effect) (w : world) : reply_to e → world → Prop :=
  match e with
  | Call o => λ a w', ∃ c, kv_run now o (store w) = Ret (a, c) ∧ w' = with_store c w
  | ExportShard i => λ l w', w' = w ∧ ∃ s, ShardedCache.shards_ (store w) !! i = Some s ∧
      SyncCache.export_entries now s = Ret l
  | WallClock => λ ms w', w' = w ∧ 0 ≤ ms ≤ i64_max
  | ReadFile path => λ r w', w' = w ∧ r = files w !! path
  | NextCounter => λ n w', n = counter w ∧ n + 1 < 2 ^ 64 ∧ w' = mkWorld (store w) (files w) (u64 (n + 1))
  | CreateFile path => λ opened w', w' = if opened : bool then with_files (<[path := []]> (files w)) w else w
  | WriteFile path content => λ written w',
      if written : bool then zlen content ≤ i64_max ∧ w' = with_files (<[path := content]> (files w)) w
      else ∃ n, w' = with_files (<[path := take n content]> (files w)) w
  | RenameFile from to => λ error w',
      match error with
      | None => ∃ content, files w !! from = Some content ∧ w' = with_files (<[to := content]> (delete from (files w))) w
      | Some reason => (LineBuffer.newline ∉ reason) ∧ w' = w
      end
  | RemoveFile path => λ _ w', w' = with_files (delete path (files w)) w
  end.

Record thread := mkThread {
  todo : prog;
  sent : list bytes       (** the replies, in order *)
}.

(** The thread has returned. *)
Definition stopped (th : thread) : bool := match todo th with Stop => true | _ => false end.

Record machine := mkMachine {
  world_ : world;
  threads : list thread;
  clock_ : time_point
}.

(** One step of thread [t]. *)
Inductive tstep (t : nat) : machine → machine → Prop :=
| step_say m r rest out : threads m !! t = Some (mkThread (Say r rest) out) →
    tstep t m (mkMachine (world_ m) (<[t := mkThread rest (out ++ [r])]> (threads m)) (clock_ m))
| step_act m e k out r w : threads m !! t = Some (mkThread (Act e k) out) →
    perform (clock_ m) e (world_ m) r w →
    tstep t m (mkMachine w (<[t := mkThread (k r) out]> (threads m)) (clock_ m)).

(** A thread moves, or the monotonic clock. *)
Inductive step (limit : time_point) : machine → machine → Prop :=
| step_thread t m m' : tstep t m m' → step limit m m'
| step_tick m now : clock_ m ≤ now ≤ limit → step limit m (mkMachine (world_ m) (threads m) now).

Definition start (w : world) (now : time_point) (progs : list prog) : machine :=
  mkMachine w ((λ p, mkThread p []) <$> progs) now.

(** The threads of a server: a worker for each stream, and the auto-save thread. *)
Definition server_progs (pid : Z) (persistence : option Persistence.t) (w : world) (streams : list bytes) (saves : nat)
  : list prog :=
  let n := length (ShardedCache.shards_ (store w)) in
  ((λ stream, worker_prog pid n persistence (Connection.lines_of stream)) <$> streams) ++
  match persistence with Some p => [saver_prog pid n p saves] | None => [] end.

(** *** Schedules that can be run: the disk does as it is told *)
Definition perform_run (wall : Z) (now : time_point) (e : effect) (w : world) : option (reply_to e * world) :=
  match e with
  | Call o => match kv_run now o (store w) with Ret (a, c) => Some (a, with_store c w) | _ => None end
  | ExportShard i =>
      match ShardedCache.shards_ (store w) !! i with
      | Some s => match SyncCache.export_entries now s with Ret l => Some (l, w) | _ => None end
      | None => None
      end
  | WallClock => if (0 <=? wall) && (wall <=? i64_max) then Some (wall, w) else None
  | ReadFile path => Some (files w !! path, w)
  | NextCounter =>
      if counter w + 1 <? 2 ^ 64 then Some (counter w, mkWorld (store w) (files w) (u64 (counter w + 1))) else None
  | CreateFile path => Some (true, with_files (<[path := []]> (files w)) w)
  | WriteFile path content =>
      if zlen content <=? i64_max then Some (true, with_files (<[path := content]> (files w)) w) else None
  | RenameFile from to =>
      match files w !! from with
      | Some content => Some (None, with_files (<[to := content]> (delete from (files w))) w)
      | None => None
      end
  | RemoveFile path => Some (tt, with_files (delete path (files w)) w)
  end.

Lemma perform_run_sound wall now e w r w' : perform_run wall now e w = Some (r, w') → perform now e w r w'.
Proof.
  destruct e as [o|i| |path| |path|path content|from to|path]; cbn -[i64_max Z.pow].
  - destruct (kv_run now o (store w)) as [[a c]| |] eqn:E; try done. intros [= <- <-]. by exists c.
  - destruct (_ !! i) as [s|] eqn:Es; [|done]. destruct (SyncCache.export_entries now s) as [l| |] eqn:El; try done.
    intros [= <- <-]. split; [done|]. by exists s.
  - destruct (_ && _) eqn:E; [|done]. apply andb_true_iff in E as [?%Z.leb_le ?%Z.leb_le]. by intros [= <- <-].
  - by intros [= <- <-].
  - destruct (Z.ltb_spec (counter w + 1) (2 ^ 64)); [|done]. by intros [= <- <-].
  - by intros [= <- <-].
  - destruct (Z.leb_spec (zlen content) i64_max); [|done]. by intros [= <- <-].
  - destruct (files w !! from) as [content|] eqn:E; [|done]. intros [= <- <-]. by exists content.
  - by intros [= <- <-].
Qed.

Definition tstep_run (wall : Z) (t : nat) (m : machine) : option machine :=
  match threads m !! t with
  | Some (mkThread (Say r rest) out) =>
      Some (mkMachine (world_ m) (<[t := mkThread rest (out ++ [r])]> (threads m)) (clock_ m))
  | Some (mkThread (Act e k) out) =>
      match perform_run wall (clock_ m) e (world_ m) with
      | Some (r, w) => Some (mkMachine w (<[t := mkThread (k r) out]> (threads m)) (clock_ m))
      | None => None
      end
  | _ => None
  end.

(** A thread that cannot move is passed over. *)
Definition schedule (wall : Z) (ts : list nat) (m : machine) : machine :=
  foldl (λ m t, default m (tstep_run wall t m)) m ts.

Lemma schedule_runs wall limit ts m : rtc (step limit) m (schedule wall ts m).
Proof.
  revert m. induction ts as [|t ts IH]; intros m; [apply rtc_refl|]. cbn.
  destruct (tstep_run wall t m) as [m'|] eqn:E; [|apply IH]. eapply rtc_l; [|apply IH]. apply (step_thread limit t).
  unfold tstep_run in E. destruct (threads m !! t) as [[[| |r rest|e k] out]|] eqn:Et; try done; cbn in E.
  - injection E as <-. by apply step_say.
  - destruct (perform_run _ _ _ _) as [[r w]|] eqn:Ep; [|done]. injection E as <-.
    eapply step_act; [exact Et|]. by eapply perform_run_sound.
Qed.

(** ** A thread by itself *)
Inductive solo : prog → world → list bytes → world → Prop :=
| solo_stop w : solo Stop w [] w
| solo_say r rest w out w' : solo rest w out w' → solo (Say r rest) w (r :: out) w'
| solo_act now e k w r w1 out w' :
    perform now e w r w1 → solo (k r) w1 out w' → solo (Act e k) w out w'.

Lemma solo_lift {A} (o : outcome A) a k w out w' : o = Ret a → solo (k a) w out w' → solo (lift o k) w out w'.
Proof. by intros ->. Qed.

Lemma export_solo clock k w out w' : ∀ l j all r,
  ShardedCache.export_loop clock l = Ret r →
  (∀ i s, l !! i = Some s → ShardedCache.shards_ (store w) !! (j + i)%nat = Some s) →
  solo (k (all ++ r)) w out w' → solo (export_prog (seq j (length l)) all k) w out w'.
Proof.
  intros l. revert clock. induction l as [|s l IH]; intros clock j all r Hr Hl Hk; cbn in Hr |- *.
  { injection Hr as <-. by rewrite app_nil_r in Hk. }
  destruct (SyncCache.export_entries (clock 0%nat) s) as [part| |] eqn:Ep; cbn in Hr; try discriminate.
  destruct (ShardedCache.export_loop (clock ∘ S) l) as [rest| |] eqn:Er; cbn in Hr; try discriminate. injection Hr as <-.
  eapply (solo_act (clock 0%nat) (ExportShard j) _ w part w).
  - split; [done|]. exists s. split; [|done]. specialize (Hl 0%nat s eq_refl). by rewrite Nat.add_0_r in Hl.
  - apply (IH (clock ∘ S) (S j) _ rest); [done| |by rewrite <- app_assoc].
    intros i x Hi. specialize (Hl (S i) x Hi). by rewrite Nat.add_succ_r in Hl.
Qed.

Lemma apply_solo (clock : nat → time_point) (elapsed : Z) (k : Z → Z → prog) (out : list bytes) (w' : world) (f : Persistence.fs) (cnt : Z) :
  ∀ (rs : list Snapshot.Record) (i : nat) (n m : Z) (c : ShardedCache.t hash) (n' m' : Z) (c' : ShardedCache.t hash),
  Persistence.apply_records clock i elapsed rs n m c = Ret (n', m', c') →
  solo (k n' m') (mkWorld c' f cnt) out w' → solo (apply_prog elapsed rs n m k) (mkWorld c f cnt) out w'.
Proof.
  induction rs as [|r rs IH]; intros i n m c n' m' c' Hr Hk; cbn [Persistence.apply_records apply_prog] in *.
  { by simplify_eq. }
  destruct (_ =? _).
  - destruct (kv_set _ _ c) as [c1| |] eqn:E; cbn [mbind outcome_bind] in Hr; try discriminate.
    eapply (solo_act (clock i) (Call _) _ _ AnsDone); [|by eapply IH]. exists c1. split; [|done].
    cbn [kv_run store]. by rewrite E.
  - destruct (i64 _) as [z| |]; cbn [mbind outcome_bind lift] in *; try discriminate. destruct (0 <? z); [|by eapply IH].
    destruct (kv_set_ttl _ _ _ _ c) as [c1| |] eqn:E; cbn [mbind outcome_bind] in Hr; try discriminate.
    eapply (solo_act (clock i) (Call _) _ _ AnsDone); [|by eapply IH]. exists c1. split; [|done].
    cbn [kv_run store]. by rewrite E.
Qed.

(** What the surroundings of a save can be. *)
Record plausible (e : env) (w : world) : Prop := {
  plausible_wall : 0 ≤ wall_ms e ≤ i64_max;
  plausible_room : Persistence.room (CommandHandler.disk e) ≤ i64_max;
  plausible_reason reason : Persistence.rename_error (CommandHandler.disk e) = Some reason → LineBuffer.newline ∉ reason;
  plausible_counter : counter w + 1 < 2 ^ 64
}.

Abbreviation shard_total w := (length (ShardedCache.shards_ (store w))).

Lemma save_solo e p k w out w' r n f :
  plausible e w →
  Persistence.save (clock e) (wall_ms e) (pid e) (counter w) (CommandHandler.disk e) p (store w) (files w) = Ret (r, n, f) →
  solo (k r) (mkWorld (store w) f n) out w' → solo (save_prog (pid e) (shard_total w) p k) w out w'.
Proof.
  intros [Hwall Hroom Hreason Hcnt] Hs Hk. unfold Persistence.save in Hs. unfold save_prog.
  cbn [kv_export ShardedCache.ShardedCache_ops] in Hs. unfold ShardedCache.export_entries in Hs.
  destruct (ShardedCache.export_loop (clock e) (ShardedCache.shards_ (store w))) as [l| |] eqn:El;
    cbn [mbind outcome_bind] in Hs; try discriminate.
  apply (export_solo (clock e) _ _ _ _ _ 0%nat [] l El); [done|]. cbn [app].
  eapply (solo_act 0 NextCounter _ _ (counter w)); [done|]. cbn beta zeta.
  set (temp := Persistence.unique_temp_path _ _ _) in *.
  destruct (Persistence.creates (CommandHandler.disk e)); cbn [negb] in Hs.
  2: { injection Hs as <- <- <-. eapply (solo_act 0 (CreateFile temp) _ _ false); [done|]. exact Hk. }
  eapply (solo_act 0 (CreateFile temp) _ _ true); [done|]. cbn [negb].
  eapply (solo_act 0 WallClock _ _ (wall_ms e)); [done|]. cbn beta zeta.
  destruct (Z.ltb_spec (Persistence.room (CommandHandler.disk e)) (zlen (Snapshot.format (wall_ms e) l))).
  { injection Hs as <- <- <-. eapply (solo_act 0 (WriteFile temp _) _ _ false); [by exists 0%nat|]. cbn [negb].
    eapply (solo_act 0 (RemoveFile temp) _ _ tt); [done|]. cbn [with_files files store counter].
    by rewrite !delete_insert_eq. }
  eapply (solo_act 0 (WriteFile temp _) _ _ true); [split; [lia|done]|]. cbn [negb with_files files store counter].
  rewrite insert_insert_eq. destruct (Persistence.rename_error (CommandHandler.disk e)) as [reason|]; injection Hs as <- <- <-.
  - eapply (solo_act 0 (RenameFile temp _) _ _ (Some reason)); [split; [by apply Hreason|done]|].
    eapply (solo_act 0 (RemoveFile temp) _ _ tt); [done|]. exact Hk.
  - eapply (solo_act 0 (RenameFile temp _) _ _ None); [|exact Hk].
    exists (Snapshot.format (wall_ms e) l). split; [apply lookup_insert_eq|done].
Qed.

Lemma load_solo e p k w out w' r c :
  0 ≤ wall_ms e ≤ i64_max → Persistence.load (clock e) (wall_ms e) p (files w) (store w) = Ret (r, c) →
  solo (k r) (with_store c w) out w' → solo (load_prog p k) w out w'.
Proof.
  intros Hwall Hl Hk. unfold Persistence.load in Hl. unfold load_prog.
  eapply (solo_act 0 (ReadFile _) _ _ (files w !! Persistence.path_ p)); [done|].
  destruct (files w !! Persistence.path_ p) as [content|].
  2: { injection Hl as <- <-. by destruct w. }
  eapply (solo_act 0 WallClock _ _ (wall_ms e)); [done|].
  destruct (Snapshot.parse (wall_ms e) content) as [parsed| |]; cbn [mbind outcome_bind lift] in *; try discriminate.
  destruct parsed as [error|[elapsed rs]].
  { injection Hl as <- <-. by destruct w. }
  destruct (Persistence.apply_records _ _ _ _ _ _ _) as [[[n m] c1]| |] eqn:Ea; cbn [mbind outcome_bind] in Hl; try discriminate.
  injection Hl as <- <-. destruct w as [c0 f cnt]. by eapply apply_solo.
Qed.
End Machine.

(** ** Property *)

(** C15.  The programs are those of the code: whatever [execute] does with a
    command, given the answers of its surroundings, is a run of the command's
    program by itself, with the same reply, the same store, the same files and
    the same counter. *)
Theorem execute_is_a_run hash persistence e command (w : world (ShardedCache.t hash)) reply w'
    (Hcommand : expressible command = true) (Hplausible : plausible hash e w)
    (Hx : execute e persistence command w = Ret (reply, w')) :
  solo hash (execute_prog (pid e) (length (ShardedCache.shards_ (store w))) persistence command (λ r, Say r Stop))
    w [reply] w'.
Proof.
  assert (∀ r w1, solo hash (Say r Stop) w1 [r] w1) as Hdone by (intros; do 2 constructor).
  unfold execute_prog. destruct (call_of command) as [o|] eqn:Ho.
  - assert (in_memory persistence (type command)) as Hmem.
    { right. unfold call_of in Ho. by destruct (type command). }
    rewrite execute_call, Ho in Hx by done.
    destruct (kv_run (now e) o (store w)) as [[a c]| |] eqn:Ea; cbn [mbind outcome_bind] in Hx; try discriminate.
    destruct (reply_for (answer_of a)) as [r| |] eqn:Er; cbn [mbind outcome_bind] in Hx; try discriminate.
    injection Hx as <- <-. eapply (solo_act hash (now e) (Call o) _ _ a); [by exists c|]. eapply solo_lift; [exact Er|apply Hdone].
  - unfold call_of in Ho. unfold execute in Hx. destruct persistence as [p|], (type command) eqn:Ht; try discriminate;
      try (injection Hx as <- <-; apply Hdone).
    + destruct (Persistence.save _ _ _ _ _ _ _ _) as [[[r n] f]| |] eqn:Es; cbn [mbind outcome_bind] in Hx; try discriminate.
      injection Hx as <- <-. eapply save_solo; [done|exact Es|]. apply Hdone.
    + destruct (Persistence.load _ _ _ _ _) as [[r c]| |] eqn:El; cbn [mbind outcome_bind] in Hx; try discriminate.
      injection Hx as <- <-. eapply load_solo; [apply Hplausible|exact El|]. apply Hdone.
Qed.

(** ** Witness: a SAVE *)
Definition save_command : Command := mkCommand Save [] [] None.
Definition save_env : env := mkEnv 5 (λ _, 5) 100 42 (Persistence.mkDisk true 1000 None).
Definition saved_world : world (ShardedCache.t ShardedTheorems.length_hash) :=
  mkWorld two_shards {[ $"snapshot" := Snapshot.format 100 [] ]} 1.

Lemma execute_is_a_run_witness :
  solo ShardedTheorems.length_hash
    (execute_prog 42 2 (Some (Persistence.mk $"snapshot")) save_command (λ r, Say r Stop))
    (mkWorld two_shards ∅ 0) [reply_integer 0] saved_world.
Proof.
  apply (execute_is_a_run ShardedTheorems.length_hash (Some (Persistence.mk $"snapshot")) save_env save_command
    (mkWorld two_shards ∅ 0)).
  - reflexivity.
  - split; cbn; [unfold i64_max; lia|unfold i64_max; lia|done|lia].
  - vm_compute. reflexivity.
Defined.
End BusyServer.
