(* ===== verification/BusySound.v ===== *)
(** * The busy server stays sound

    A program logic for the threads of BusyServer.v: what an effect may be asked
    for, what its answer can be relied on for, and which temporary file the
    thread owns.  Every program of the server satisfies it; every effect that is
    allowed keeps the whole server settled; so no interleaving of workers and
    auto-saves can upset it. *)
From S2P Require Import Prelude Numbers RecencyList Lru KvStore Cache CacheRefine.
From S2P Require Import History CacheKv SyncCache ShardedCache ShardedTheorems.
From S2P Require Import LineBuffer Protocol Stream Snapshot Persistence PersistenceTheorems SaveRace.
From S2P Require Import CommandHandler Settled Connection ConnectionTheorems Workers BusyServer.

Module BusySound.
Import Protocol CommandHandler Settled Workers PersistenceTheorems BusyServer.
#[local] Existing Instances ShardedCache.ShardedCache_ops ShardedCache.ShardedCache_laws.

(** ** What a thread may do, and may count on *)
Section Logic.
Context (pid : Z) (persistence : option Persistence.t) (shard_count : nat).

(** The temporary file a thread owns: its number, and its content once written. *)
Abbreviation owned := (option (Z * option bytes)).

Abbreviation temp p k := (SaveRace.temp_path (Persistence.path_ p) pid k).

(** A call that leaves a tidy store tidy. *)
Definition tame (o : kv_call) : Prop :=
  match o with
  | KSet _ v => LineBuffer.newline ∉ v
  | KSetTtl _ v ttl => (LineBuffer.newline ∉ v) ∧ ttl ≤ kMaxTtlSeconds * 1000
  | KGetInto _ _ => False
  | _ => True
  end.

(** The answer makes a one-line reply. *)
Definition answer_fits (a : kv_answer) : Prop :=
  ∃ r, reply_for (answer_of a) = Ret r ∧ ∀ t, t ≠ Quit → says t r.

Definition allowed (g : owned) (e : effect) : Prop :=
  match e with
  | Call o => tame o
  | ExportShard i => (i < shard_count)%nat
  | WallClock | NextCounter => True
  | ReadFile path => ∃ p, persistence = Some p ∧ path = Persistence.path_ p
  | CreateFile path | WriteFile path _ | RemoveFile path =>
      ∃ p k x, persistence = Some p ∧ g = Some (k, x) ∧ path = temp p k
  | RenameFile from to => ∃ p k content, persistence = Some p ∧ g = Some (k, Some content) ∧
      from = temp p k ∧ to = Persistence.path_ p ∧ harmless content
  end.

(** What the answer tells, and what the thread owns then. *)
Definition learns (g : owned) (e : effect) : reply_to e → owned → Prop :=
  match e with
  | Call _ => λ a g', g' = g ∧ answer_fits a
  | ExportShard _ => λ l g', g' = g ∧ Forall (λ x, gentle (Snapshot.record_of x)) l
  | WallClock => λ ms g', g' = g ∧ 0 ≤ ms ≤ i64_max
  | ReadFile _ => λ r g', g' = g ∧ ∀ content, r = Some content → harmless content
  | NextCounter => λ k g', g' = Some (k, None) ∧ 0 ≤ k < 2 ^ 64
  | CreateFile _ => λ _ g', fst <$> g' = fst <$> g
  | WriteFile _ content => λ written g', fst <$> g' = fst <$> g ∧
      (written = true → zlen content ≤ i64_max ∧ snd <$> g' = Some (Some content))
  | RenameFile _ _ => λ error g', ∀ reason, error = Some reason → g' = g ∧ LineBuffer.newline ∉ reason
  | RemoveFile _ => λ _ _, True
  end.

(** The program never asks for what is not allowed and replies to the lines
    that are due, whatever it is told. *)
Fixpoint behaves (g : owned) (due : list bytes) (p : prog) : Prop :=
  match p with
  | Stop => due = []
  | Undefined => False
  | Say reply rest =>
      match due with
      | line :: due => answered line reply ∧ behaves g due rest
      | [] => False
      end
  | Act e k => allowed g e ∧ ∀ r g', learns g e r g' → behaves g' due (k r)
  end.

(** *** Every program of the server behaves *)
Section Behaves.
Context (Hpid : 0 ≤ pid ≤ i64_max).
Context (Hpath : ∀ p, persistence = Some p → LineBuffer.newline ∉ Persistence.path_ p).

Lemma export_behaves g due shards all k :
  Forall (λ i, (i < shard_count)%nat) shards → Forall (λ x, gentle (Snapshot.record_of x)) all →
  (∀ l, Forall (λ x, gentle (Snapshot.record_of x)) l → behaves g due (k l)) →
  behaves g due (export_prog shards all k).
Proof.
  intros Hs. revert all. induction Hs as [|i shards Hi _ IH]; intros all Hall Hk; cbn [export_prog behaves]; [by apply Hk|].
  split; [done|]. intros part g' [-> Hpart]. apply IH; [|done]. by apply Forall_app.
Qed.

(** What is reported of a save fits in a line. *)
Definition save_fits (r : Persistence.SaveResult) : Prop :=
  (LineBuffer.newline ∉ Persistence.save_error r) ∧ 0 ≤ Persistence.save_entries r ≤ i64_max.

Lemma save_behaves p g due k :
  persistence = Some p → (∀ r g', save_fits r → behaves g' due (k r)) → behaves g due (save_prog pid shard_count p k).
Proof.
  intros Hp Hk. specialize (Hpath p Hp). apply export_behaves; [|constructor|].
  { apply Forall_forall. intros i Hi. apply elem_of_seq in Hi. lia. }
  intros entries Hentries. cbn [behaves allowed learns]. split; [done|]. intros n ? [-> Hn].
  split; [by exists p, n, None|]. intros opened g1 E1. destruct g1 as [[n1 x1]|]; [|done]. injection E1 as ->.
  destruct opened; cbn [negb].
  2: { apply Hk. split; [|cbn; unfold i64_max; lia]. cbn [Persistence.save_failed Persistence.save_error].
       unfold Persistence.unique_temp_path. one_line. }
  cbn [behaves allowed learns]. split; [done|]. intros wall ? [-> Hwall].
  split; [by exists p, n, x1|]. intros written g2 [E2 Hw]. destruct g2 as [[n2 x2]|]; [|done]. injection E2 as ->.
  destruct written; cbn [negb behaves allowed learns].
  2: { split; [by exists p, n, x2|]. intros _ g3 _. apply Hk. split; [by apply no_newline_literal|cbn; unfold i64_max; lia]. }
  destruct (Hw eq_refl) as [Hsize [= ->]]. split.
  { eexists p, n, _. split_and!; [done..|]. by apply gentle_harmless. }
  intros [reason|] g3 Hr; cbn [behaves allowed learns].
  - destruct (Hr reason eq_refl) as [-> Hreason]. split; [by eexists p, n, _|]. intros _ g4 _. apply Hk.
    split; [|cbn; unfold i64_max; lia]. cbn [Persistence.save_failed Persistence.save_error]. one_line.
  - apply Hk. destruct (format_length wall entries) as [H7 _].
    split; [by apply not_elem_of_nil|]. cbn. unfold zlen in *. lia.
Qed.

Lemma apply_behaves g due elapsed rs n m k :
  0 ≤ elapsed ≤ i64_max → Forall gentle rs → 0 ≤ n < 2 ^ 64 →
  (∀ n' m', 0 ≤ n' < 2 ^ 64 → behaves g due (k n' m')) → behaves g due (apply_prog elapsed rs n m k).
Proof.
  intros Hel Hrs. revert n m. induction Hrs as [|r rs [Hv Httl] _ IH]; intros n m Hn Hk; cbn [apply_prog]; [by apply Hk|].
  destruct (_ =? _).
  - split; [done|]. intros a g' [-> _]. apply IH; [apply u64_range|done].
  - unfold Snapshot.kNoExpiry, kMaxTtlSeconds in *. rewrite i64_Ret by (unfold i64_min, i64_max in *; lia). cbn [lift].
    destruct (0 <? _); [|by apply IH]. split; [split; [done|unfold kMaxTtlSeconds; lia]|].
    intros a g' [-> _]. apply IH; [apply u64_range|done].
Qed.

Definition load_fits (r : Persistence.LoadResult) : Prop :=
  (LineBuffer.newline ∉ Persistence.load_error r) ∧ 0 ≤ Persistence.loaded r < 2 ^ 64.

Lemma load_behaves p g due k :
  persistence = Some p → (∀ r, load_fits r → behaves g due (k r)) → behaves g due (load_prog p k).
Proof.
  intros Hp Hk. cbn [load_prog behaves allowed learns]. split; [by exists p|]. intros file ? [-> Hfile].
  destruct file as [content|]; [|apply Hk; split; [by apply not_elem_of_nil|cbn; lia]].
  cbn [behaves allowed learns]. split; [done|]. intros wall ? [-> Hwall].
  destruct (Hfile content eq_refl wall Hwall) as (parsed & Eparse & Hparsed). rewrite Eparse. cbn [lift].
  destruct parsed as [error|[elapsed rs]].
  - apply Hk. split; [|cbn; lia]. by eapply parse_error.
  - destruct (Hparsed _ _ eq_refl) as [Hel Hrs]. apply apply_behaves; [done| |lia|].
    + by rewrite <- Permutation_rev.
    + intros n m Hn. apply Hk. split; [by apply not_elem_of_nil|done].
Qed.

(** The call of a command is tame. *)
Lemma call_tame c o : result_ok (succeed c) → call_of c = Some o → tame o ∧ type c ≠ Quit.
Proof.
  intros (Hex & _ & Hv) Hc. unfold call_of in Hc. destruct (type c) eqn:Ht; simplify_eq; try done.
  destruct (ttl c) as [s|] eqn:Hs; [|done]. split; [|done]. split; [done|].
  pose proof (expressible_ttl c s Hex Ht Hs). lia.
Qed.

Lemma fixed_reply_line c : call_of c = None → says (type c) (fixed_reply (type c)).
Proof.
  intros Hc. unfold call_of in Hc. unfold fixed_reply. destruct (type c); try done; cbn [expected_reply].
  - by apply (says_fixed _ $"+PONG").
  - by apply (says_fixed _ ($"-ERR " ++ not_enabled)).
  - by apply (says_fixed _ ($"-ERR " ++ not_enabled)).
  - exists bye. split_and!; [done|by apply no_newline_literal|done|done].
Qed.

Lemma execute_behaves g due c k :
  result_ok (succeed c) → (∀ r g', says (type c) r → behaves g' due (k r)) →
  behaves g due (execute_prog pid shard_count persistence c k).
Proof.
  intros Hc Hk. enough (∀ q, q = persistence → behaves g due (execute_prog pid shard_count q c k)) by auto.
  intros q Hq. unfold execute_prog. destruct (call_of c) as [o|] eqn:Ho.
  { destruct (call_tame c o Hc Ho) as [Ht Hquit]. cbn [behaves allowed learns]. split; [done|].
    intros a ? [-> (r & -> & Hr)]. by apply Hk, Hr. }
  pose proof (fixed_reply_line c Ho) as Hfixed.
  destruct q as [p|]; [|by apply Hk]. destruct (type c) eqn:Ht; try (by apply Hk).
  - apply (save_behaves p); [done|]. intros r g' [He Hn]. apply Hk.
    destruct (Persistence.save_ok r); [apply says_integer; [unfold i64_max in *; lia|done]|].
    apply says_error; [one_line|done].
  - apply (load_behaves p); [done|]. intros r [He Hn]. apply Hk.
    destruct (Persistence.load_ok r); [apply says_integer; [lia|done]|]. apply says_error; [one_line|done].
Qed.

Lemma worker_behaves g lines :
  Forall (λ line, LineBuffer.newline ∉ line) lines →
  behaves g (up_to_quit lines) (worker_prog pid shard_count persistence lines).
Proof.
  intros Hl. revert g. induction Hl as [|line lines Hline _ IH]; intros g; cbn [up_to_quit worker_prog]; [done|].
  pose proof (parse_result_ok line Hline) as Hp. destruct (parse_command line) as [c|error] eqn:E.
  - apply execute_behaves; [done|]. intros r g' Hr. cbn [behaves]. split; [unfold answered; by rewrite E|].
    by destruct (bool_decide _).
  - cbn [behaves]. split; [|done]. unfold answered. rewrite E. apply says_error; [|done]. apply Hp.
Qed.

Lemma saver_behaves p g saves : persistence = Some p → behaves g [] (saver_prog pid shard_count p saves).
Proof.
  intros Hp. revert g. induction saves as [|n IH]; intros g; cbn [saver_prog]; [done|].
  apply save_behaves; [done|]. intros r g' _. apply IH.
Qed.
End Behaves.
End Logic.

(** ** What the effects do to a settled server *)
Section Store.
Context {C : Type} `{KvLaws C}.

Lemma says_other t t' reply : t ≠ Quit → t' ≠ Quit → says t reply → says t' reply.
Proof. intros Ht Ht' (y & E & Hy & _ & Hb). exists y. split_and!; [done|done|done|]. intros _. by apply Hb. Qed.

(** The replies to answers that tell what is visible. *)
Lemma seen_fits a t now k (c : C) :
  kv_ok c → 0 ≤ now → tidy now c → t ≠ Quit →
  reply_for (answer_of a) = Ret (expected_reply t now (kv_view now k c)) → answer_fits a.
Proof.
  intros Hc Hn Ht Hq E. eexists. split; [exact E|]. intros t' Hq'. apply (says_other t); [done..|]. by apply expected_line.
Qed.

(** A tame call returns, and leaves a tidy store tidy. *)
Lemma call_tidy now o (c : C) :
  kv_ok c → clock_ok now → tidy now c → tame o →
  ∃ a c', kv_run now o c = Ret (a, c') ∧ kv_ok c' ∧ tidy now c' ∧ answer_fits a.
Proof.
  intros Hc [Hn Hmax] Ht Ho.
  assert (∀ c', (∀ t k, now ≤ t → kv_view t k c' = kv_view t k c) → tidy now c') as Hread.
  { intros c' Hsame t k e Hle. rewrite Hsame by done. by apply Ht. }
  destruct o as [k v|k v ttl|k|k out|k|k|k]; cbn [kv_run tame] in *.
  - destruct (kv_set_law k v c Hc) as (c' & -> & Hc' & _ & Hoth & _ & _ & Hval). cbn [mbind outcome_bind].
    exists AnsDone, c'. split_and!; [done|done| |by apply (seen_fits AnsDone Set_ now k c)].
    apply (tidy_change now k c); [done|by intros; apply Hoth|]. intros t x _ ->%Hval. by right.
  - destruct Ho as [Hv Httl]. unfold kMaxTtlSeconds in *.
    destruct (kv_set_ttl_law now k v ttl c Hc Hn) as (c' & -> & Hc' & _ & Hoth & _ & _ & Hval); [lia|].
    cbn [mbind outcome_bind]. exists AnsDone, c'. split_and!; [done|done| |by apply (seen_fits AnsDone Set_ now k c)].
    apply (tidy_change now k c); [done|by intros; apply Hoth|]. intros t x _ ->%Hval. right. split; [done|].
    cbn. intros d [= <-]. unfold horizon, kMaxTtlSeconds. lia.
  - destruct (kv_get_law now k c Hc) as (c' & -> & Hc' & Hsame & _). cbn [mbind outcome_bind].
    eexists _, c'. split_and!; [done|done|by apply Hread|]. apply (seen_fits _ Get now k c); [done..|].
    by destruct (kv_view now k c).
  - done.
  - destruct (kv_erase_law now k c Hc) as (c' & -> & Hc' & Hgone & Hsame & _). cbn [mbind outcome_bind].
    eexists _, c'. split_and!; [done|done| |by apply (seen_fits _ Delete now k c)].
    apply (tidy_change now k c); [done|by intros; left; apply Hsame|]. intros t x _. by rewrite Hgone.
  - rewrite (kv_contains_law now k c Hc). cbn [mbind outcome_bind].
    eexists _, c. split_and!; [done|done|done|by apply (seen_fits _ Exists_ now k c)].
  - destruct (kv_ttl_law now k c Hc Hn) as (c' & -> & Hc' & Hsame & _). cbn [mbind outcome_bind].
    eexists _, c'. split_and!; [done|done|by apply Hread|]. apply (seen_fits _ Ttl now k c); [done..|].
    by apply reply_ttl_info.
Qed.
End Store.

Section Sound.
Context (hash : bytes → Z) (pid : Z) (persistence : option Persistence.t) (shard_count : nat).
Abbreviation world := (world (ShardedCache.t hash)).
Abbreviation owned := (option (Z * option bytes)).
Abbreviation temp p k := (SaveRace.temp_path (Persistence.path_ p) pid k).
Implicit Types (w : world) (gs : list owned) (g : owned).

(** Who owns which temporary file: numbers handed out, each to one thread, and
    a file holds what its owner wrote. *)
Record guards w gs : Prop := {
  own_range t k x : gs !! t = Some (Some (k, x)) → 0 ≤ k < counter w;
  own_distinct t t' k x y : gs !! t = Some (Some (k, x)) → gs !! t' = Some (Some (k, y)) → t = t';
  own_content p t k content : persistence = Some p → gs !! t = Some (Some (k, Some content)) →
    files w !! temp p k = Some content
}.

Record sound (now : time_point) w gs : Prop := {
  sound_settled : settled persistence now w;
  sound_shards : length (ShardedCache.shards_ (store w)) = shard_count;
  sound_guards : guards w gs
}.

(** The owner of a file works on it; perhaps the snapshot is replaced too. *)
Lemma guards_files w gs t k x g' p f :
  persistence = Some p → 0 ≤ counter w < 2 ^ 64 → guards w gs → gs !! t = Some (Some (k, x)) →
  (∀ k' y, g' = Some (k', y) → k' = k ∧ ∀ content, y = Some content → f !! temp p k = Some content) →
  (∀ q, q ≠ temp p k → q ≠ Persistence.path_ p → f !! q = files w !! q) →
  guards (with_files hash f w) (<[t := g']> gs).
Proof.
  intros Hp Hn [H1 H2 H3] Ht Hg Hf.
  assert (∀ t' k' y, <[t := g']> gs !! t' = Some (Some (k', y)) →
    (t' = t ∧ g' = Some (k', y)) ∨ (t' ≠ t ∧ gs !! t' = Some (Some (k', y)))) as Hcase.
  { intros t' k' y [(-> & ? & _)|[? ?]]%list_lookup_insert_Some; [by left|right; split; [congruence|done]]. }
  split; cbn [with_files counter files].
  - intros t' k' y [[-> E]|[_ E]]%Hcase; [|by eapply H1]. destruct (Hg _ _ E) as [-> _]. by eapply H1.
  - intros t1 t2 k' y z [[-> E1]|[N1 E1]]%Hcase [[-> E2]|[N2 E2]]%Hcase; [done|..|by eapply H2].
    + destruct (Hg _ _ E1) as [-> _]. by eapply H2.
    + destruct (Hg _ _ E2) as [-> _]. by eapply H2.
  - intros p' t' k' content Hp' Hk'. rewrite Hp in Hp'. injection Hp' as <-.
    apply Hcase in Hk' as [[-> E]|[Hne E]].
    + destruct (Hg _ _ E) as [-> Hc]. by apply Hc.
    + rewrite Hf; [by eapply H3| |apply SaveRace.temp_path_ne]. intros Et.
      pose proof (H1 _ _ _ E). pose proof (H1 _ _ _ Ht). apply SaveRace.temp_path_inj in Et; [|lia..]. subst k'.
      apply Hne. by eapply H2.
Qed.

Lemma guards_same w w' gs t g :
  guards w gs → gs !! t = Some g → counter w' = counter w → files w' = files w → guards w' (<[t := g]> gs).
Proof.
  intros [H1 H2 H3] Ht Hc Hf. rewrite list_insert_id by done. split; rewrite ?Hc, ?Hf; done.
Qed.

(** The snapshot file is as it was, or harmless. *)
Lemma settled_files now w f p :
  persistence = Some p → settled persistence now w →
  (f !! Persistence.path_ p = files w !! Persistence.path_ p ∨
   ∃ content, f !! Persistence.path_ p = Some content ∧ harmless content) →
  settled persistence now (with_files hash f w).
Proof.
  intros Hp [H1 H2 H3 H4] Hf. split; cbn [with_files store counter files]; try done.
  intros p' content Hp' E. rewrite Hp in Hp'. injection Hp' as <-.
  destruct Hf as [Hf|(content' & Hf & Hh)]; rewrite Hf in E; [by eapply H4|]. by injection E as <-.
Qed.

(** *** One effect of thread [t] *)
Section Effect.
Context (now : time_point) (w : world) (gs : list owned) (t : nat) (g : owned).
Context (Hnow : clock_ok now) (Hw : sound now w gs) (Ht : gs !! t = Some g).

(** The thread has learnt what the logic says, and all is sound again. *)
Definition taught (e : effect) (r : reply_to e) (w' : world) : Prop :=
  ∃ g', learns g e r g' ∧ sound now w' (<[t := g']> gs).

Lemma call_sound o a c : tame o → kv_run now o (store w) = Ret (a, c) → taught (Call o) a (with_store c w).
Proof.
  intros Ho Hr. destruct Hw as [[Hc Htidy Hn Hf] Hlen Hg].
  destruct (call_tidy now o (store w) Hc Hnow Htidy Ho) as (a' & c' & Hr' & Hc' & Ht' & Ha). rewrite Hr in Hr'. simplify_eq.
  exists g. split; [done|]. split; [by split| |by eapply guards_same].
  destruct (ShardedCache.home_shard hash (call_key o) (store w) Hc) as (s & Hs & _). cbn [with_store store].
  rewrite (ShardedTheorems.sharded_run hash (store w) s) in Hr by done.
  destruct (kv_run now o s) as [[x s']| |]; try discriminate. injection Hr as _ <-. cbn. by rewrite length_insert.
Qed.

Lemma export_sound i s l :
  ShardedCache.shards_ (store w) !! i = Some s → SyncCache.export_entries now s = Ret l → taught (ExportShard i) l w.
Proof.
  intros Hs Hl. exists g. destruct Hw as [[Hc Htidy Hn Hf] Hlen Hg]. split; [|split; [by split|done|by eapply guards_same]].
  split; [done|]. pose proof (ShardedCache.ok_shards _ _ Hc) as Hall. rewrite Forall_lookup in Hall.
  destruct (ShardedCache.export_loop_spec (λ _, now) [s]) as (r & Hr & Hin & _).
  { constructor; [by eapply Hall|done]. }
  { intros _. apply Hnow. }
  cbn in Hr. rewrite Hl in Hr. cbn in Hr. rewrite app_nil_r in Hr. injection Hr as <-.
  apply Forall_forall. intros x (j & s' & e & Hj & Hv & ->)%Hin.
  apply list_lookup_singleton_Some in Hj as [_ <-].
  eapply (seen_gentle now now); [exact Hc|exact Htidy|split; [apply Hnow|done]|].
  by eapply ShardedCache.view_shard.
Qed.

Lemma counter_sound n :
  n = counter w → n + 1 < 2 ^ 64 → taught NextCounter n (mkWorld (store w) (files w) (u64 (n + 1))).
Proof.
  intros -> Hn. destruct Hw as [[Hc Htidy Hr Hf] Hlen [H1 H2 H3]]. exists (Some (counter w, None)).
  assert (u64 (counter w + 1) = counter w + 1) as E by (apply u64_small; lia).
  assert (∀ t' k y, <[t := Some (counter w, None)]> gs !! t' = Some (Some (k, y)) →
    (t' = t ∧ k = counter w ∧ y = None) ∨ (gs !! t' = Some (Some (k, y)) ∧ 0 ≤ k < counter w)) as Hcase.
  { intros t' k y [(-> & ? & _)|[? ?]]%list_lookup_insert_Some; [left; by simplify_eq|right]. split; [done|by eapply H1]. }
  split; [by split|]. split; [split; cbn; try done; lia|done|]. rewrite E. split; cbn [counter files].
  - intros t' k y [(_ & -> & _)|[_ ?]]%Hcase; lia.
  - intros t1 t2 k y z [(-> & -> & _)|[E1 ?]]%Hcase [(-> & ? & _)|[E2 ?]]%Hcase; [done|lia|lia|by eapply H2].
  - intros p t' k content Hp [(_ & _ & ?)|[E1 _]]%Hcase; [done|]. by eapply H3.
Qed.

(** The owner of [temp p k] creates, writes or removes it. *)
Lemma file_sound e r p k x f g' :
  persistence = Some p → g = Some (k, x) → learns g e r g' →
  (∀ k' y, g' = Some (k', y) → k' = k ∧ ∀ content, y = Some content → f !! temp p k = Some content) →
  (∀ q, q ≠ temp p k → f !! q = files w !! q) → taught e r (with_files hash f w).
Proof.
  intros Hp Eg Hl Hg Hf. exists g'. split; [done|]. destruct Hw as [Hs Hlen Hgs]. pose proof Ht as Ht'. rewrite Eg in Ht'.
  split; [|done|by eapply guards_files; [|apply (settled_counter _ _ _ Hs)|..]; eauto].
  apply (settled_files now w f p Hp Hs). left. apply Hf. apply not_eq_sym, SaveRace.temp_path_ne.
Qed.

Lemma rename_sound p k content content' :
  persistence = Some p → g = Some (k, Some content) → harmless content → files w !! temp p k = Some content' →
  taught (RenameFile (temp p k) (Persistence.path_ p)) None
    (with_files hash (<[Persistence.path_ p := content']> (delete (temp p k) (files w))) w).
Proof.
  intros Hp Eg Hh Hfile. destruct Hw as [Hs Hlen Hgs]. pose proof Ht as Ht'. rewrite Eg in Ht'. pose proof (own_content _ _ Hgs p t k content Hp Ht') as E.
  rewrite E in Hfile. injection Hfile as <-. exists None. split; [done|]. split; [|done|].
  - apply (settled_files now w _ p Hp Hs). right. exists content. by rewrite lookup_insert_eq.
  - eapply guards_files; [exact Hp|apply (settled_counter _ _ _ Hs)|done|exact Ht'|done|].
    intros q Hq Hqp. by rewrite lookup_insert_ne, lookup_delete_ne.
Qed.

(** Whatever is allowed and happens. *)
Lemma perform_sound e r w' : allowed pid persistence shard_count g e → perform hash now e w r w' → taught e r w'.
Proof.
  intros Ha Hp. destruct e as [o|i| |path| |path|path content|from to|path]; cbn [perform allowed reply_to] in *.
  - destruct Hp as (c & Hr & ->). by apply call_sound.
  - destruct Hp as (-> & s & Hs & Hl). by eapply export_sound.
  - destruct Hp as [-> Hr]. exists g. split; [done|]. destruct Hw. split; [done..|by eapply guards_same].
  - destruct Hp as [-> ->]. destruct Ha as (p & Hp & ->). exists g. destruct Hw as [Hs Hlen Hg]. split.
    + split; [done|]. intros content. by apply (settled_file _ _ _ Hs).
    + split; [done..|by eapply guards_same].
  - destruct Hp as (Hr & Hn & ->). by apply counter_sound.
  - destruct Ha as (p & k & x & Hpp & Eg & ->). destruct r; subst w'.
    + apply (file_sound _ _ p k x _ (Some (k, Some []))); [done|done|by cbn; rewrite Eg| |].
      * intros k' y [= <- <-]. split; [done|]. intros content [= <-]. by rewrite lookup_insert_eq.
      * intros q Hq. by rewrite lookup_insert_ne.
    + exists g. destruct Hw. split; [done|]. split; [done..|by eapply guards_same].
  - destruct Ha as (p & k & x & Hpp & Eg & ->). destruct r.
    + destruct Hp as [Hsize ->]. apply (file_sound _ _ p k x _ (Some (k, Some content))); [done|done|by cbn; rewrite Eg| |].
      * intros k' y [= <- <-]. split; [done|]. intros c [= <-]. by rewrite lookup_insert_eq.
      * intros q Hq. by rewrite lookup_insert_ne.
    + destruct Hp as [n ->]. apply (file_sound _ _ p k x _ (Some (k, None))); [done|done|by cbn; rewrite Eg| |].
      * by intros k' y [= <- <-].
      * intros q Hq. by rewrite lookup_insert_ne.
  - destruct Ha as (p & k & content & Hpp & Eg & -> & -> & Hh). destruct r as [reason|].
    + destruct Hp as [Hr ->]. exists g. destruct Hw. split; [by intros ? [= <-]|].
      split; [done..|by eapply guards_same].
    + destruct Hp as (content' & Hf & ->). by eapply rename_sound.
  - destruct Ha as (p & k & x & Hpp & Eg & ->). subst w'.
    apply (file_sound _ _ p k x _ None); [done..|]. intros q Hq. by rewrite lookup_delete_ne.
Qed.
End Effect.

(** Nothing that is allowed gets stuck. *)
Lemma can_perform now w gs g e :
  clock_ok now → sound now w gs → counter w + 1 < 2 ^ 64 → allowed pid persistence shard_count g e →
  ∃ r w', perform hash now e w r w'.
Proof.
  intros Hnow [[Hc Htidy _ _] Hlen _] Hn Ha. destruct e as [o|i| |path| |path|path content|from to|path]; cbn in Ha |- *.
  - destruct (call_tidy now o (store w) Hc Hnow Htidy Ha) as (a & c' & Hr & _). by exists a, (with_store c' w), c'.
  - rewrite <- Hlen in Ha. apply lookup_lt_is_Some in Ha as [s Hs].
    pose proof (ShardedCache.ok_shards _ _ Hc) as Hall. rewrite Forall_lookup in Hall.
    destruct (ShardedCache.export_loop_spec (λ _, now) [s]) as (r & Hr & _).
    { constructor; [by eapply Hall|done]. }
    { intros _. apply Hnow. }
    cbn in Hr. destruct (SyncCache.export_entries now s) as [l| |] eqn:El; try discriminate. exists l, w. split; [done|]. by exists s.
  - exists 0, w. split; [done|]. unfold i64_max. lia.
  - by eexists _, w.
  - by eexists _, _.
  - by exists false, w.
  - eexists false, _. by exists 0%nat.
  - exists (Some []), w. split; [by apply not_elem_of_nil|done].
  - by exists tt, (with_files hash (delete path (files w)) w).
Qed.
End Sound.

(** ** The whole server *)
Section Server.
Context (hash : bytes → Z) (pid : Z) (persistence : option Persistence.t) (shard_count : nat).
Context (limit : time_point) (Hlimit : clock_ok limit).

(** [due] are the lines each thread has to reply to. *)
Context (due : list (list bytes)).
Abbreviation machine := (machine hash).
Abbreviation sound := (sound hash pid persistence shard_count).
Abbreviation behaves := (behaves pid persistence shard_count).
Implicit Types (m : machine).

(** The replies sent, and the rest of the program. *)
Definition on_track (lines : list bytes) (g : option (Z * option bytes)) (th : thread) : Prop :=
  behaves g (drop (length (sent th)) lines) (todo th) ∧
  Forall2 answered (take (length (sent th)) lines) (sent th).

Definition fine m : Prop :=
  0 ≤ clock_ _ m ≤ limit ∧ ∃ gs, sound (clock_ _ m) (world_ _ m) gs ∧
    length gs = length (threads _ m) ∧
    ∀ t th g, threads _ m !! t = Some th → gs !! t = Some g → ∃ lines, due !! t = Some lines ∧ on_track lines g th.

Lemma clock_before now : 0 ≤ now ≤ limit → clock_ok now.
Proof. destruct Hlimit. unfold clock_ok. lia. Qed.

Lemma on_track_say lines g r rest out :
  on_track lines g (mkThread (Say r rest) out) → on_track lines g (mkThread rest (out ++ [r])).
Proof.
  intros [Hb Hs]. cbn [todo sent] in *. cbn [BusySound.behaves] in Hb.
  destruct (drop (length out) lines) as [|line more] eqn:E; [done|]. destruct Hb as [Ha Hb].
  assert (lines !! length out = Some line) as Hline.
  { rewrite <- (Nat.add_0_r (length out)), <- lookup_drop, E. done. }
  split; cbn [todo sent]; rewrite length_app, Nat.add_1_r.
  - rewrite <- Nat.add_1_r, <- drop_drop, E. done.
  - rewrite (take_S_r _ _ _ Hline). apply Forall2_app; [done|]. by constructor.
Qed.

Lemma fine_tstep t m m' : fine m → tstep hash t m m' → fine m'.
Proof.
  intros (Hclock & gs & Hs & Hlen & Hall) Hst. destruct Hst as [m r rest out Hth|m e k out r w Hth Hp].
  - split; [done|]. exists gs. split; [done|]. cbn [threads]. split; [by rewrite length_insert|].
    intros t' th g Hth' Hg. apply list_lookup_insert_Some in Hth' as [(<- & <- & _)|[_ Hth']]; [|by eapply Hall].
    destruct (Hall _ _ _ Hth Hg) as (lines & Hd & Ht). exists lines. split; [done|]. by apply on_track_say.
  - destruct (lookup_lt_is_Some_2 gs t) as [g Hg].
    { rewrite Hlen. by eapply lookup_lt_Some. }
    destruct (Hall _ _ _ Hth Hg) as (lines & Hd & [Ha Hk] & Hout). cbn [todo sent] in *.
    destruct (perform_sound hash pid persistence shard_count _ _ _ _ _ (clock_before _ Hclock) Hs Hg e r w Ha Hp)
      as (g' & Hl & Hs').
    split; [done|]. exists (<[t := g']> gs). split; [done|]. cbn [threads]. split; [by rewrite !length_insert|].
    intros t' th x Hth' Hx. apply list_lookup_insert_Some in Hth' as [(<- & <- & _)|[Hne Hth']].
    + rewrite list_lookup_insert_eq in Hx by (by eapply lookup_lt_Some). injection Hx as <-.
      exists lines. split; [done|]. split; cbn [todo sent]; [by apply Hk|done].
    + rewrite list_lookup_insert_ne in Hx by done. by eapply Hall.
Qed.

Lemma fine_step m m' : fine m → step hash limit m m' → fine m'.
Proof.
  intros Hm Hst. destruct Hst as [t m m' Ht|m now Hnow]; [by eapply fine_tstep|].
  destruct Hm as (Hclock & gs & [Hs Hsh Hg] & Hrest). split; [cbn; lia|]. exists gs. split; [|done].
  split; [|done|done]. cbn. eapply settled_later; [|exact Hs]. lia.
Qed.

Lemma fine_run m m' : rtc (step hash limit) m m' → fine m → fine m'.
Proof. induction 1; eauto using fine_step. Qed.

(** A thread is not stuck. *)
Lemma fine_progress m : fine m → counter (world_ _ m) + 1 < 2 ^ 64 →
  Forall (λ th, stopped th = true) (threads _ m) ∨ ∃ t m', tstep hash t m m'.
Proof.
  intros (Hclock & gs & Hs & Hlen & Hall) Hn.
  destruct (decide (Forall (λ th, stopped th = true) (threads _ m))) as [?|He]; [by left|right].
  apply not_Forall_Exists, Exists_exists in He as (th & [t Ht]%list_elem_of_lookup & Hne); [|intros x; apply _].
  exists t. destruct (lookup_lt_is_Some_2 gs t) as [g Hg]; [rewrite Hlen; by eapply lookup_lt_Some|].
  destruct (Hall _ _ _ Ht Hg) as (lines & _ & Hb & _). destruct th as [[| |r rest|e k] out]; cbn in Hne, Hb; try done.
  - eexists. by eapply step_say.
  - destruct Hb as [Ha _].
    destruct (can_perform hash pid persistence shard_count _ _ _ _ e (clock_before _ Hclock) Hs Hn Ha) as (r & w' & Hp).
    eexists. by eapply step_act.
Qed.

Lemma fine_start w now progs :
  0 ≤ now ≤ limit → settled persistence now w → length (ShardedCache.shards_ (store w)) = shard_count →
  Forall2 (λ lines p, behaves None lines p) due progs → fine (start hash w now progs).
Proof.
  intros Hnow Hw Hlen Hd. split; [done|]. exists (replicate (length progs) None). cbn [start threads world_ clock_].
  assert (∀ t (g : option (Z * option bytes)), replicate (length progs) None !! t = Some g → g = None) as Hnone.
  { intros t g Hg. by apply lookup_replicate in Hg as [-> _]. }
  split_and!.
  - split; [done..|]. split; [by intros t k x ?%Hnone|by intros t t' k x y ?%Hnone|by intros p t k c _ ?%Hnone].
  - by rewrite length_replicate, length_fmap.
  - intros t th g Hth ->%Hnone. rewrite list_lookup_fmap in Hth. apply fmap_Some in Hth as (p & Hp & ->).
    destruct (Forall2_lookup_r _ _ _ _ _ Hd Hp) as (lines & Hl & Hb). exists lines. split; [done|]. by split.
Qed.
End Server.

(** ** Every schedule ends *)
Definition sub (q p : prog) : Prop :=
  match p with Say _ rest => q = rest | Act e k => ∃ r, q = k r | _ => False end.

Lemma sub_wf p : Acc sub p.
Proof.
  induction p as [| |r rest IH|e k IH]; constructor; intros q Hq; cbn in Hq; [done|done|by subst q|].
  by destruct Hq as [r ->].
Qed.

(** One of the programs goes on. *)
Definition advance (l' l : list prog) : Prop :=
  ∃ t p q, l !! t = Some p ∧ sub q p ∧ l' = <[t := q]> l.

Lemma advance_cons p l : Acc sub p → Acc advance l → Acc advance (p :: l).
Proof.
  intros Hp. revert l. induction Hp as [p _ IHp]. intros l Hl. induction Hl as [l Hl IHl].
  constructor. intros l' ([|t] & q & q' & Hq & Hs & ->); cbn in Hq |- *.
  - injection Hq as ->. apply IHp; [done|by constructor].
  - apply IHl. by exists t, q, q'.
Qed.

Lemma advance_wf l : Acc advance l.
Proof.
  induction l as [|p l IH]; [|by apply advance_cons; [apply sub_wf|]].
  constructor. by intros l' (t & p & q & Hp & _).
Qed.

Lemma tstep_wf hash (m : machine hash) : Acc (λ m2 m1, ∃ t, tstep hash t m1 m2) m.
Proof.
  remember (todo <$> threads _ m) as l eqn:E. revert m E.
  induction (advance_wf l) as [l _ IH]. intros m ->. constructor. intros m2 [t Ht].
  apply (IH (todo <$> threads _ m2)); [|done].
  destruct Ht as [m r rest out Hth|m e k out r w Hth _]; cbn [threads];
    [exists t, (Say r rest), rest|exists t, (Act e k), (k r)];
    (split; [by rewrite list_lookup_fmap, Hth|]; split; [|by rewrite list_fmap_insert]); [done|by exists r].
Qed.

(** ** The threads of the server *)
Definition server_due (persistence : option Persistence.t) (streams : list bytes) : list (list bytes) :=
  ((λ s, up_to_quit (Connection.lines_of s)) <$> streams) ++ match persistence with Some _ => [[]] | None => [] end.

Lemma server_behaves hash pid persistence (w : world (ShardedCache.t hash)) streams saves :
  0 ≤ pid ≤ i64_max → (∀ p, persistence = Some p → LineBuffer.newline ∉ Persistence.path_ p) →
  Forall2 (λ lines p, behaves pid persistence (length (ShardedCache.shards_ (store w))) None lines p)
    (server_due persistence streams) (server_progs hash pid persistence w streams saves).
Proof.
  intros Hpid Hpath. apply Forall2_app.
  - apply Forall2_fmap, Forall_Forall2_diag, Forall_forall. intros stream _. apply worker_behaves; [done|done|].
    apply ConnectionTheorems.lines_of_clean.
  - destruct persistence as [p|]; constructor; [|constructor]. by apply saver_behaves.
Qed.

(** Every state of a run of the server is fine. *)
Lemma server_fine hash pid persistence (w : world (ShardedCache.t hash)) now limit streams saves m :
  0 ≤ pid ≤ i64_max → (∀ p, persistence = Some p → LineBuffer.newline ∉ Persistence.path_ p) →
  0 ≤ now ≤ limit → clock_ok limit → settled persistence now w →
  rtc (step hash limit) (start hash w now (server_progs hash pid persistence w streams saves)) m →
  fine hash pid persistence (length (ShardedCache.shards_ (store w))) limit (server_due persistence streams) m.
Proof.
  intros Hpid Hpath Hnow Hlimit Hw Hm. eapply fine_run; [done|exact Hm|].
  apply fine_start; [done..|by apply server_behaves].
Qed.

(** ** Property *)

(** C14.  Everything at once.  Any number of clients send any bytes, SAVE and
    LOAD included, to a server whose auto-save thread saves meanwhile, and the
    threads are interleaved in any order, also in the middle of a SAVE or a LOAD:
    at every instant the server is settled (a well-formed store whose values and
    deadlines are in order, a snapshot file that loads); no thread has reached
    undefined behaviour; every client has been sent exactly one line for each of
    the requests answered so far, in order, and for all of them (up to [QUIT])
    when its worker has returned; as long as a thread has not returned some
    thread can go on, until 2^64 saves have been made; and every schedule of the
    threads ends. *)
Theorem busy_server_stays_settled hash pid persistence (w : world (ShardedCache.t hash)) now limit streams saves m
    (Hpid : 0 ≤ pid ≤ i64_max)
    (Hpath : ∀ p, persistence = Some p → LineBuffer.newline ∉ Persistence.path_ p)
    (Hclock : 0 ≤ now ≤ limit ∧ clock_ok limit) (Hw : settled persistence now w)
    (Hm : rtc (step hash limit) (start hash w now (server_progs hash pid persistence w streams saves)) m) :
  settled persistence (clock_ _ m) (world_ _ m) ∧
  Forall (λ th, todo th ≠ Undefined) (threads _ m) ∧
  (∀ t th stream, threads _ m !! t = Some th → streams !! t = Some stream →
     let lines := up_to_quit (Connection.lines_of stream) in
     Forall2 answered (take (length (sent th)) lines) (sent th) ∧
     (stopped th = true → length (sent th) = length lines)) ∧
  (counter (world_ _ m) + 1 < 2 ^ 64 →
     Forall (λ th, stopped th = true) (threads _ m) ∨ ∃ t m', tstep hash t m m') ∧
  Acc (λ m2 m1, ∃ t, tstep hash t m1 m2) m.
Proof.
  destruct Hclock as [Hnow Hlimit]. set (n := length (ShardedCache.shards_ (store w))).
  pose proof (server_fine hash pid persistence w now limit streams saves m Hpid Hpath Hnow Hlimit Hw Hm) as Hf.
  pose proof (fine_progress hash pid persistence n limit Hlimit _ m Hf) as Hprogress.
  destruct Hf as (_ & gs & Hs & Hlen & Hall). split_and!; [| | |done|apply tstep_wf].
  - apply Hs.
  - apply Forall_lookup. intros t th Hth. destruct (lookup_lt_is_Some_2 gs t) as [g Hg]; [rewrite Hlen; by eapply lookup_lt_Some|].
    destruct (Hall _ _ _ Hth Hg) as (lines & _ & Hb & _). by destruct (todo th).
  - intros t th stream Hth Hstream. destruct (lookup_lt_is_Some_2 gs t) as [g Hg]; [rewrite Hlen; by eapply lookup_lt_Some|].
    destruct (Hall _ _ _ Hth Hg) as (lines & Hd & Hb & Hout). unfold server_due in Hd.
    rewrite lookup_app_l, list_lookup_fmap, Hstream in Hd by (rewrite length_fmap; by eapply lookup_lt_Some).
    injection Hd as <-. split; [done|]. unfold stopped. destruct (todo th); try done. intros _. cbn in Hb.
    apply Forall2_length in Hout. apply (f_equal length) in Hb. rewrite length_drop in Hb. rewrite length_take in Hout. cbn in Hb. lia.
Qed.

(** ** Witness: a SAVE, a LOAD and an auto-save in each other's way *)
Definition busy_streams : list bytes :=
  [ConnectionTheorems.unlines [$"SET a 1"; $"SAVE"; $"GET bb"];
   ConnectionTheorems.unlines [$"SET bb 2"; $"LOAD"; $"GET a"; $"QUIT"]].

Definition busy_path : option Persistence.t := Some (Persistence.mk $"snapshot").
Definition busy_world : world (ShardedCache.t ShardedTheorems.length_hash) := mkWorld two_shards ∅ 0.

(** Round and round: every thread one effect at a time. *)
Definition busy_end : machine ShardedTheorems.length_hash :=
  schedule _ 100 (concat (replicate 12 [0; 1; 2]%nat))
    (start _ busy_world 1 (server_progs _ 42 busy_path busy_world busy_streams 1)).

Lemma busy_world_settled : settled busy_path 1 busy_world.
Proof.
  split; [by apply ShardedTheorems.unbounded_ok| |done|done].
  intros t k e _ Hv. exfalso. cbn in Hv. unfold ShardedCache.view in Hv.
  destruct (_ !! _) as [s|] eqn:E; [|done]. cbn in E.
  rewrite list_lookup_fmap in E. by apply fmap_Some in E as (? & _ & ->).
Qed.

Lemma busy_server_stays_settled_witness :
  settled busy_path 1 (world_ _ busy_end) ∧
  sent <$> threads _ busy_end = [[reply_ok; reply_integer 2; reply_value $"2"];
                                 [reply_ok; reply_integer 0; reply_value $"1"; reply_bye]; []] ∧
  Forall (λ th, todo th ≠ Undefined) (threads _ busy_end).
Proof.
  destruct (busy_server_stays_settled ShardedTheorems.length_hash 42 busy_path busy_world 1 100 busy_streams 1 busy_end)
    as (H1 & H2 & _).
  - unfold i64_max. lia.
  - intros p [= <-]. by apply no_newline_literal.
  - split; [lia|]. by vm_compute.
  - exact busy_world_settled.
  - apply schedule_runs.
  - split; [exact H1|]. split; [vm_compute; reflexivity|exact H2].
Defined.
End BusySound.
