(* ===== verification/Server.v ===== *)
(** * The accept loop and its workers (include/cachex/server.hpp, src/net/server.cpp)

    [Server::run] on the calling thread, one worker thread per connection, and
    [stop] from anywhere: a step relation over the atomic actions on the shared
    state and on the sockets of the clients.  What [poll], [accept] and thread
    creation answer is the choice of the step.  A worker's conversation
    (Connection.v) is the time between its creation and its first action here. *)
From S2P Require Import Prelude Numbers Socket.

Module Server.

(** Where a worker thread is: serving its connection; past [fetch_sub]; its
    flag set (the [Connection] is destroyed after that, when the body returns);
    returned. *)
Inductive stage := Serving | Leaving | Flagged | Exited.

#[global] Instance stage_eq_dec : EqDecision stage.
Proof. solve_decision. Defined.

(** A worker thread and the descriptor of its client. *)
Record worker := mkWorker { fd_ : Z; at_ : stage }.

(** Where the accept loop is: at the test of [stop_requested_]; in [poll]; at
    index [i] of the reaping loop, with or without a connection waiting; at
    [accept]; with an accepted client at the limit test; past it; counted but
    its thread not yet created; created but not yet pushed; joining the workers
    taken out of the vector; returned from [run]. *)
Inductive loop_pc :=
| AtTest
| InPoll
| Reaping (i : nat) (ready : bool)
| AtAccept
| AtLimit (fd : Z)
| AtSpawn (fd : Z)
| AtCreate (fd : Z)
| AtPush (id : nat)
| Joining (remaining : list nat)
| Returned.

(** [threads] are all the threads ever created, by id; [workers_] is the vector,
    as thread ids; [clients] are the descriptors of accepted clients that are
    open. *)
Record server := mkServer {
  stop_requested_ : bool;
  pc : loop_pc;
  connections_served_ : Z;
  active_connections_ : Z;
  threads : list worker;
  workers_ : list nat;
  clients : Socket.fd_table
}.

Definition start : server := mkServer false AtTest 0 0 [] [] ∅.

Definition with_pc (p : loop_pc) (s : server) : server :=
  mkServer (stop_requested_ s) p (connections_served_ s) (active_connections_ s) (threads s) (workers_ s) (clients s).
Definition with_active (n : Z) (s : server) : server :=
  mkServer (stop_requested_ s) (pc s) (connections_served_ s) n (threads s) (workers_ s) (clients s).
Definition with_threads (l : list worker) (s : server) : server :=
  mkServer (stop_requested_ s) (pc s) (connections_served_ s) (active_connections_ s) l (workers_ s) (clients s).
Definition with_workers (l : list nat) (s : server) : server :=
  mkServer (stop_requested_ s) (pc s) (connections_served_ s) (active_connections_ s) (threads s) l (clients s).
Definition with_clients (t : Socket.fd_table) (s : server) : server :=
  mkServer (stop_requested_ s) (pc s) (connections_served_ s) (active_connections_ s) (threads s) (workers_ s) t.

(** [connections_served_.fetch_add(1)]. *)
Definition count_served (s : server) : server :=
  mkServer (stop_requested_ s) (pc s) (u64 (connections_served_ s + 1)) (active_connections_ s)
    (threads s) (workers_ s) (clients s).

(** [Server::stop]. *)
Definition stop (s : server) : server :=
  mkServer true (pc s) (connections_served_ s) (active_connections_ s) (threads s) (workers_ s) (clients s).

(** [finished->load()] of a worker, and whether joining it returns. *)
Definition finished (s : server) (id : nat) : bool :=
  match at_ <$> threads s !! id with Some (Flagged | Exited) => true | _ => false end.
Definition exited (s : server) (id : nat) : bool :=
  match at_ <$> threads s !! id with Some Exited => true | _ => false end.

(** The destructor of a client's [Socket]. *)
Definition close_client (fd : Z) (s : server) : server := with_clients (delete fd (clients s)) s.

(** A worker thread moves on. *)
Definition move_worker (id : nat) (fd : Z) (to : stage) (s : server) : server :=
  with_threads (<[id := mkWorker fd to]> (threads s)) s.

(** [join_all_workers] begins: [remaining.swap(workers_)]. *)
Definition begin_join (s : server) : server := with_pc (Joining (workers_ s)) (with_workers [] s).

Section Step.
(** [options_.max_connections]. *)
Context (max_connections : Z).

Inductive step : server → server → Prop :=
(** the loop condition *)
| step_stop s : pc s = AtTest → stop_requested_ s = true → step s (begin_join s)
| step_test s : pc s = AtTest → stop_requested_ s = false → step s (with_pc InPoll s)
(** [poll]: interrupted, failed, timed out or ready *)
| step_poll_interrupted s : pc s = InPoll → step s (with_pc AtTest s)
| step_poll_failed s : pc s = InPoll → step s (begin_join s)
| step_polled s ready : pc s = InPoll → step s (with_pc (Reaping 0 ready) s)
(** [reap_finished_workers]: a worker that has not finished; one that has, once
    [join] returns; the end of the vector *)
| step_skip s i ready id : pc s = Reaping i ready → workers_ s !! i = Some id → finished s id = false →
    step s (with_pc (Reaping (S i) ready) s)
| step_reap s i ready id : pc s = Reaping i ready → workers_ s !! i = Some id →
    finished s id = true → exited s id = true →
    step s (with_workers (delete i (workers_ s)) s)
| step_reaped s i ready : pc s = Reaping i ready → workers_ s !! i = None →
    step s (with_pc (if ready : bool then AtAccept else AtTest) s)
(** [accept]: the client vanished, or a descriptor not open before *)
| step_accept_failed s : pc s = AtAccept → step s (with_pc AtTest s)
| step_accept s fd : pc s = AtAccept → clients s !! fd = None →
    step s (with_pc (AtLimit fd)
      (with_clients (Socket.set_no_sigpipe fd (Socket.set_tcp_nodelay fd (<[fd := []]> (clients s)))) s))
(** at the limit the client is told and its socket destroyed *)
| step_refuse s fd : pc s = AtLimit fd → max_connections ≤ active_connections_ s →
    step s (with_pc AtTest (close_client fd s))
| step_admit s fd : pc s = AtLimit fd → active_connections_ s < max_connections →
    step s (with_pc (AtSpawn fd) s)
(** [spawn_worker]: the counters, the thread (or [std::system_error], which
    destroys the socket with the lambda), the vector *)
| step_count s fd : pc s = AtSpawn fd →
    step s (with_pc (AtCreate fd) (with_active (u64 (active_connections_ s + 1)) (count_served s)))
| step_create s fd : pc s = AtCreate fd →
    step s (with_pc (AtPush (length (threads s))) (with_threads (threads s ++ [mkWorker fd Serving]) s))
| step_create_failed s fd : pc s = AtCreate fd →
    step s (with_pc AtTest (with_active (u64 (active_connections_ s - 1)) (close_client fd s)))
| step_push s id : pc s = AtPush id →
    step s (with_pc AtTest (with_workers (workers_ s ++ [id]) s))
(** [join_all_workers] *)
| step_join s id rest : pc s = Joining (id :: rest) → exited s id = true → step s (with_pc (Joining rest) s)
| step_return s : pc s = Joining [] → step s (with_pc Returned s)
(** a worker: its conversation ends; its flag; its connection is destroyed *)
| step_leave s id fd : threads s !! id = Some (mkWorker fd Serving) →
    step s (with_active (u64 (active_connections_ s - 1)) (move_worker id fd Leaving s))
| step_flag s id fd : threads s !! id = Some (mkWorker fd Leaving) → step s (move_worker id fd Flagged s)
| step_exit s id fd : threads s !! id = Some (mkWorker fd Flagged) →
    step s (close_client fd (move_worker id fd Exited s))
(** [stop], from any thread or from the signal handler *)
| step_request_stop s : step s (stop s).
End Step.

(** ** The connection count *)
Definition serving (l : list worker) : Z := zlen (filter (λ w, at_ w = Serving) l).

(** A client counted whose thread does not exist yet. *)
Definition pending (p : loop_pc) : Z := match p with AtCreate _ => 1 | _ => 0 end.

Record counted (max : Z) (s : server) : Prop := {
  counted_exact : active_connections_ s = serving (threads s) + pending (pc s);
  counted_limit : active_connections_ s ≤ max;
  counted_below fd : pc s = AtSpawn fd → active_connections_ s < max
}.

Lemma serving_pos l : 0 ≤ serving l.
Proof. unfold serving, zlen. lia. Qed.

Lemma serving_snoc l w : serving (l ++ [w]) = serving l + (if bool_decide (at_ w = Serving) then 1 else 0).
Proof.
  unfold serving, zlen. rewrite filter_app, length_app, filter_cons, filter_nil. unfold bool_decide.
  repeat case_decide; cbn [length]; (congruence || lia).
Qed.

Lemma serving_insert l id w w' :
  l !! id = Some w →
  serving (<[id := w']> l) = serving l - (if bool_decide (at_ w = Serving) then 1 else 0) +
    (if bool_decide (at_ w' = Serving) then 1 else 0).
Proof.
  unfold serving, zlen. revert id. induction l as [|x l IH]; intros [|id] H; simpl in H; simplify_eq; simpl.
  - clear IH. rewrite !filter_cons. unfold bool_decide. repeat case_decide; cbn [length]; (congruence || lia).
  - rewrite !filter_cons. specialize (IH id H). destruct (decide (at_ x = Serving)); cbn [length]; lia.
Qed.

Lemma serving_leave l id fd :
  l !! id = Some (mkWorker fd Serving) → serving (<[id := mkWorker fd Leaving]> l) = serving l - 1 ∧ 1 ≤ serving l.
Proof.
  intros H. pose proof (serving_insert l id _ (mkWorker fd Leaving) H) as E. cbn [at_] in E.
  rewrite bool_decide_true, bool_decide_false in E by done.
  pose proof (serving_pos (<[id := mkWorker fd Leaving]> l)). lia.
Qed.

Lemma serving_stay l id w w' :
  l !! id = Some w → at_ w ≠ Serving → at_ w' ≠ Serving → serving (<[id := w']> l) = serving l.
Proof.
  intros H H1 H2. rewrite (serving_insert l id w w' H), !bool_decide_false by done. lia.
Qed.

(** The names the cases of a step give to its premises. *)
Ltac step_cases Hstep :=
  destruct Hstep as [s Hp Hq|s Hp Hq|s Hp|s Hp|s ready Hp|s i ready id Hp Hi Hq|s i ready id Hp Hi Hf Hq
    |s i ready Hp Hi|s Hp|s fd Hp Hnew|s fd Hp Hq|s fd Hp Hq|s fd Hp|s fd Hp|s fd Hp|s id Hp
    |s id rest Hp Hq|s Hp|s id fd Hw|s id fd Hw|s id fd Hw|s].

Lemma counted_step max s s' : 0 ≤ max < 2 ^ 64 → counted max s → step max s s' → counted max s'.
Proof.
  intros Hmax [Hc Hl Hb] Hstep. pose proof (serving_pos (threads s)) as Hpos.
  step_cases Hstep; rewrite ?Hp in *; cbn in Hc, Hb; unfold begin_join, close_client, move_worker.
  13: { specialize (Hb fd eq_refl). split; cbn; [|by rewrite u64_small; lia|done]. rewrite u64_small by lia. lia. }
  13: { split; cbn; [rewrite serving_snoc, bool_decide_true by done; lia|done|done]. }
  13: { split; cbn; [|rewrite u64_small; lia|done]. rewrite u64_small by lia. lia. }
  16: { destruct (serving_leave _ _ _ Hw) as [E H1]. assert (0 ≤ pending (pc s)) by (destruct (pc s); cbn; lia).
        split; cbn; [rewrite E, u64_small by lia; lia|rewrite u64_small; lia|].
        intros g Hg. specialize (Hb g Hg). rewrite u64_small by lia. lia. }
  16-17: split; cbn; [by rewrite (serving_stay _ _ _ _ Hw)|done|done].
  all: split; cbn; try done; try lia; try (intros g; by destruct ready); try (by destruct ready; cbn; lia).
  all: rewrite ?Hp; cbn; try done; try lia; try (intros g E; by simplify_eq).
Qed.

(** ** The threads somebody will still join *)
Definition tracked (s : server) (id : nat) : Prop :=
  id ∈ workers_ s ∨ pc s = AtPush id ∨ ∃ l, pc s = Joining l ∧ id ∈ l.

Record joinable (s : server) : Prop := {
  joinable_all id w : threads s !! id = Some w → at_ w ≠ Exited → tracked s id;
  joinable_known id : tracked s id → (id < length (threads s))%nat;
  joinable_taken l : pc s = Joining l ∨ pc s = Returned → workers_ s = []
}.

(** A step of the loop outside [AtPush] and [Joining] that keeps the vector. *)
Lemma joinable_move s p b n m t :
  joinable s → (∀ id, pc s ≠ AtPush id) → (∀ l, pc s ≠ Joining l) →
  (∀ id, p ≠ AtPush id) → (∀ l, p ≠ Joining l) → p ≠ Returned →
  joinable (mkServer b p n m (threads s) (workers_ s) t).
Proof.
  intros [Ha Hk Ht] H1 H2 H3 H4 H5. split; cbn.
  - intros id w Hw Hx. destruct (Ha id w Hw Hx) as [?|[?|(l & ? & _)]]; [by left|by destruct (H1 id)|by destruct (H2 l)].
  - intros id [Hin|[?|(l & ? & _)]]; [apply Hk; by left|by destruct (H3 id)|by destruct (H4 l)].
  - intros l [?|?]; [by destruct (H4 l)|done].
Qed.

(** Leaving the loop: the vector is taken over for joining. *)
Lemma joinable_begin s : joinable s → (pc s = AtTest ∨ pc s = InPoll) → joinable (begin_join s).
Proof.
  intros [Ha Hk Ht] Hp. split; cbn; [| |done].
  - intros id w Hw Hx. right. right. exists (workers_ s). split; [done|].
    destruct (Ha id w Hw Hx) as [?|[?|(l & ? & _)]]; [done|by destruct Hp; congruence..].
  - intros id [Hin|[?|(l & E & Hin)]]; cbn in *; [by apply not_elem_of_nil in Hin|done|]. simplify_eq.
    apply Hk. by left.
Qed.

Lemma exited_stage s id w : exited s id = true → threads s !! id = Some w → at_ w = Exited.
Proof. unfold exited. intros H Hw. rewrite Hw in H. cbn in H. by destruct (at_ w). Qed.

(** A worker that has exited needs no joining. *)
Lemma joinable_reap s i id :
  joinable s → workers_ s !! i = Some id → exited s id = true → joinable (with_workers (delete i (workers_ s)) s).
Proof.
  intros [Ha Hk Ht] Hi Hx. pose proof (delete_Permutation _ _ _ Hi) as Hperm. split; cbn.
  - intros id' w Hw Hne. destruct (Ha id' w Hw Hne) as [Hin|Hr]; [|by right]. left. cbn.
    rewrite Hperm in Hin. apply elem_of_cons in Hin as [->|?]; [|done].
    by pose proof (exited_stage s id w Hx Hw).
  - intros id' [Hin|Hr]; apply Hk; [left|by right]. rewrite Hperm. cbn in Hin. by right.
  - intros l H. rewrite (Ht l H) in Hi. done.
Qed.

Lemma joinable_create s fd :
  joinable s → pc s = AtCreate fd →
  joinable (with_pc (AtPush (length (threads s))) (with_threads (threads s ++ [mkWorker fd Serving]) s)).
Proof.
  intros [Ha Hk Ht] Hp. split; cbn; [| |by intros l [?|?]].
  - intros id w Hw Hx. apply lookup_app_Some in Hw as [Hw|[Hge Hw]].
    + destruct (Ha id w Hw Hx) as [?|[?|(l & ? & _)]]; [by left|congruence..].
    + right. left. cbn. f_equal. apply list_lookup_singleton_Some in Hw as [? _]. lia.
  - rewrite length_app. cbn. intros id [Hin|[E|(l & ? & _)]]; cbn in *; [|simplify_eq; lia|done].
    assert (id < length (threads s))%nat by (apply Hk; by left). lia.
Qed.

Lemma joinable_push s id :
  joinable s → pc s = AtPush id → joinable (with_pc AtTest (with_workers (workers_ s ++ [id]) s)).
Proof.
  intros [Ha Hk Ht] Hp. split; cbn; [| |by intros l [?|?]].
  - intros i w Hw Hx. left. cbn. apply elem_of_app.
    destruct (Ha i w Hw Hx) as [?|[E|(l & ? & _)]]; [by left|right|congruence].
    rewrite Hp in E. simplify_eq. by apply list_elem_of_singleton.
  - intros i [[Hin|Hin%list_elem_of_singleton]%elem_of_app|[?|(l & ? & _)]]; cbn in *; [apply Hk; by left| |done|done].
    subst i. apply Hk. right. by left.
Qed.

Lemma joinable_join s id rest :
  joinable s → pc s = Joining (id :: rest) → exited s id = true → joinable (with_pc (Joining rest) s).
Proof.
  intros [Ha Hk Ht] Hp Hx. split; cbn; [| |intros l _; eapply Ht; by left].
  - intros i w Hw Hne. destruct (Ha i w Hw Hne) as [?|[?|(l & E & Hin)]]; [by left|congruence|]. rewrite Hp in E. simplify_eq.
    apply elem_of_cons in Hin as [->|Hin]; [by pose proof (exited_stage s id w Hx Hw)|]. right. right. by exists rest.
  - intros i [Hin|[?|(l & E & Hin)]]; cbn in *; [apply Hk; by left|done|]. simplify_eq. apply Hk. right. right.
    exists (id :: l). split; [done|by right].
Qed.

(** A worker moves on. *)
Lemma joinable_worker s id fd a b n t :
  joinable s → threads s !! id = Some (mkWorker fd a) → a ≠ Exited →
  joinable (mkServer (stop_requested_ s) (pc s) (connections_served_ s) n
    (<[id := mkWorker fd b]> (threads s)) (workers_ s) t).
Proof.
  intros [Ha Hk Ht] Hw Hne. split; cbn; [| |done].
  - intros i x Hx Hxe. apply list_lookup_insert_Some in Hx as [(<- & -> & _)|[_ Hx]]; [by eapply Ha|by eapply Ha].
  - rewrite length_insert. exact Hk.
Qed.

Lemma joinable_step max s s' : joinable s → step max s s' → joinable s'.
Proof.
  intros Hs Hstep. step_cases Hstep.
  1,4: apply joinable_begin; auto.
  1-4,6-8,9,10: apply (joinable_move s); rewrite ?Hp; try done; by destruct ready.
  - by eapply joinable_reap.
  - by apply (joinable_move s); rewrite ?Hp.
  - by eapply joinable_create.
  - by apply (joinable_move s); rewrite ?Hp.
  - by apply joinable_push.
  - by eapply joinable_join.
  - destruct Hs as [Ha Hk Ht]. split; cbn; [| |intros l _; eapply Ht; by left].
    + intros i w Hw Hne. destruct (Ha i w Hw Hne) as [?|[?|(l & E & Hin)]]; [by left|congruence|].
      rewrite Hp in E. simplify_eq. by apply not_elem_of_nil in Hin.
    + intros i [Hin|[?|(l & ? & _)]]; cbn in *; [apply Hk; by left|done|done].
  - by apply (joinable_worker s id fd Serving).
  - by apply (joinable_worker s id fd Leaving).
  - by apply (joinable_worker s id fd Flagged).
  - destruct Hs. by split.
Qed.

(** ** The sockets of the clients *)

(** The accept loop ([None]) or a worker thread holds a descriptor. *)
Definition loop_fd (p : loop_pc) : option Z :=
  match p with AtLimit fd | AtSpawn fd | AtCreate fd => Some fd | _ => None end.

Definition owns (s : server) (o : option nat) (fd : Z) : Prop :=
  match o with
  | None => loop_fd (pc s) = Some fd
  | Some id => ∃ w, threads s !! id = Some w ∧ at_ w ≠ Exited ∧ fd_ w = fd
  end.

Record held (s : server) : Prop := {
  held_open fd : is_Some (clients s !! fd) ↔ ∃ o, owns s o fd;
  held_once o o' fd : owns s o fd → owns s o' fd → o = o';
  held_nodelay fd opts : clients s !! fd = Some opts → Socket.TCP_NODELAY ∈ opts
}.

(** The same descriptors, held by the same owners or handed over. *)
Lemma held_rename g s s' :
  (∀ o, g (g o) = o) → clients s' = clients s → (∀ o fd, owns s' o fd ↔ owns s (g o) fd) → held s → held s'.
Proof.
  intros Hg Hc Ho [Hop Hon Hnd]. split; rewrite ?Hc; [intros fd| |done].
  - rewrite Hop. split; intros [o H].
    + exists (g o). rewrite Ho, Hg. done.
    + exists (g o). by rewrite <- Ho.
  - intros o o' fd H%Ho H'%Ho. rewrite <- (Hg o), <- (Hg o'). f_equal. by eapply Hon.
Qed.

Lemma held_move s s' :
  clients s' = clients s → threads s' = threads s → loop_fd (pc s') = loop_fd (pc s) → held s → held s'.
Proof.
  intros Hc Ht Hp. apply (held_rename id); [done|done|]. intros [id|] fd; cbn; [by rewrite Ht|by rewrite Hp].
Qed.

(** An owner closes its descriptor. *)
Lemma held_release s s' o fd :
  owns s o fd → clients s' = delete fd (clients s) → (∀ o' fd', owns s' o' fd' ↔ owns s o' fd' ∧ o' ≠ o) →
  held s → held s'.
Proof.
  intros Hfd Hc Ho [Hop Hon Hnd]. split.
  - intros fd'. rewrite Hc. split.
    + intros [opts [Hne Hl]%lookup_delete_Some]. destruct (proj1 (Hop fd') ltac:(by eexists)) as [o' Ho'].
      exists o'. apply Ho. split; [done|]. intros ->. destruct Hne. destruct o; cbn in *.
      * destruct Hfd as (w & Hw & _ & <-), Ho' as (w' & Hw' & _ & <-). congruence.
      * congruence.
    + intros [o' [Ho' Hne]%Ho]. destruct (proj2 (Hop fd') ltac:(by eexists)) as [opts Hl]. exists opts.
      apply lookup_delete_Some. split; [|done]. intros ->. by destruct Hne; eapply Hon.
  - intros o1 o2 fd' [H1 _]%Ho [H2 _]%Ho. by eapply Hon.
  - intros fd' opts. rewrite Hc. intros [_ Hl]%lookup_delete_Some. by eapply Hnd.
Qed.

Lemma held_accept s fd :
  held s → pc s = AtAccept → clients s !! fd = None →
  held (with_pc (AtLimit fd)
    (with_clients (Socket.set_no_sigpipe fd (Socket.set_tcp_nodelay fd (<[fd := []]> (clients s)))) s)).
Proof.
  intros [Hop Hon Hnd] Hp Hnew. unfold Socket.set_no_sigpipe, Socket.set_tcp_nodelay, Socket.setsockopt.
  rewrite alter_insert_eq.
  assert (∀ o, ¬ owns s o fd) as Hno.
  { intros o Ho. destruct (proj2 (Hop fd) ltac:(by eexists)) as [opts Hl]. congruence. }
  split; cbn.
  - intros fd'. destruct (decide (fd' = fd)) as [->|Hne].
    + rewrite lookup_insert_eq. split; [|done]. intros _. by exists None.
    + rewrite lookup_insert_ne, Hop by done. split; intros [[id|] H]; cbn in H.
      * by exists (Some id).
      * by rewrite Hp in H.
      * by exists (Some id).
      * congruence.
  - intros [i|] [j|] g H1 H2; cbn in H1, H2; [|simplify_eq; by destruct (Hno (Some i))|simplify_eq; by destruct (Hno (Some j))|done].
    by eapply Hon.
  - intros g opts. destruct (decide (g = fd)) as [->|Hne].
    + rewrite lookup_insert_eq. intros [= <-]. by left.
    + rewrite lookup_insert_ne by done. apply Hnd.
Qed.

(** The socket is moved into the new thread. *)
Lemma held_create s fd :
  held s → pc s = AtCreate fd →
  held (with_pc (AtPush (length (threads s))) (with_threads (threads s ++ [mkWorker fd Serving]) s)).
Proof.
  intros Hs Hp. set (n := length (threads s)).
  apply (held_rename (λ o, match o with None => Some n | Some i => if decide (i = n) then None else Some i end) s);
    [| done| |done].
  - intros [i|]; [case_decide; [by subst|by rewrite decide_False]|by rewrite decide_True].
  - assert (∀ w, threads s !! n ≠ Some w) as Hn.
    { intros w Hw%lookup_lt_Some. unfold n in Hw. lia. }
    intros [i|] fd'; cbn.
    + case_decide as Hi.
      * subst i. rewrite lookup_app_r, Nat.sub_diag by lia. cbn. rewrite Hp. cbn. split.
        -- by intros (w & [= <-] & _ & <-).
        -- intros [= <-]. by eexists.
      * split; intros (w & Hw & H); exists w; (split; [|done]).
        -- apply lookup_app_Some in Hw as [?|[Hge Hw]]; [done|].
           apply list_lookup_singleton_Some in Hw as [? _]. unfold n in Hi. lia.
        -- apply lookup_app_l_Some; done.
    + split; [done|]. intros (w & Hw & _). by destruct (Hn w).
Qed.

(** A worker moves on without closing its connection. *)
Lemma held_worker s s' id fd a b :
  held s → threads s !! id = Some (mkWorker fd a) → a ≠ Exited → b ≠ Exited →
  clients s' = clients s → pc s' = pc s → threads s' = <[id := mkWorker fd b]> (threads s) → held s'.
Proof.
  intros Hs Hw Ha Hb Hc Hp Ht. apply (held_rename (λ o, o) s); [done|done| |done].
  intros [i|] g; cbn; [|by rewrite Hp]. rewrite Ht. split.
  - intros (w & [(<- & <- & _)|[_ Hi]]%list_lookup_insert_Some & H1 & H2); [by exists (mkWorker fd a)|by exists w].
  - intros (w & Hi & H1 & H2). destruct (decide (i = id)) as [->|Hne].
    + exists (mkWorker fd b). rewrite Hw in Hi. simplify_eq. split; [|done].
      apply list_lookup_insert_eq. by eapply lookup_lt_Some.
    + exists w. by rewrite list_lookup_insert_ne.
Qed.

Lemma held_exit s id fd :
  held s → threads s !! id = Some (mkWorker fd Flagged) → held (close_client fd (move_worker id fd Exited s)).
Proof.
  intros Hs Hw. apply (held_release s _ (Some id) fd); [by exists (mkWorker fd Flagged)|done| |done].
  intros [i|] g; cbn; [|by split; [intros ?|intros []]]. split.
  - intros (w & [(<- & <- & _)|[Hne Hi]]%list_lookup_insert_Some & H1 & H2); [by cbn in H1|].
    split; [by exists w|congruence].
  - intros [(w & Hi & H1 & H2) Hne]. exists w. rewrite list_lookup_insert_ne by congruence. done.
Qed.

(** The accept loop destroys the socket it holds. *)
Lemma held_drop s s' fd :
  held s → loop_fd (pc s) = Some fd → clients s' = delete fd (clients s) → threads s' = threads s →
  loop_fd (pc s') = None → held s'.
Proof.
  intros Hs Hp Hc Ht Hp'. apply (held_release s s' None fd); [done|done| |done].
  intros [i|] g; cbn; [rewrite Ht; by split; [|intros []]|]. rewrite Hp'. by split; [|intros []].
Qed.

Lemma held_step max s s' : held s → step max s s' → held s'.
Proof.
  intros Hs Hstep. step_cases Hstep.
  10: by apply held_accept.
  10,14: by apply (held_drop s _ fd); rewrite ?Hp.
  12: by apply held_create.
  15: by apply (held_worker s _ id fd Serving Leaving).
  15: by apply (held_worker s _ id fd Leaving Flagged).
  15: by apply held_exit.
  all: apply (held_move s); cbn; rewrite ?Hp; try done; by destruct ready.
Qed.

(** ** Runs *)
Lemma server_run max s : 0 ≤ max < 2 ^ 64 → rtc (step max) start s → counted max s ∧ joinable s ∧ held s.
Proof.
  intros Hmax Hr. assert (∀ a b, rtc (step max) a b → counted max a ∧ joinable a ∧ held a →
    counted max b ∧ joinable b ∧ held b) as H.
  { induction 1 as [|a b c Hab _ IH]; [done|]. intros (H1 & H2 & H3). apply IH.
    split_and!; [by eapply counted_step|by eapply joinable_step|by eapply held_step]. }
  apply (H _ _ Hr). split_and!.
  - split; cbn; [done|lia|done].
  - split; cbn; [done| |done]. intros id [?%not_elem_of_nil|[?|(l & ? & _)]]; done.
  - split; cbn; [|intros [i|] o' fd H0; cbn in H0; [by destruct H0 as (w & ? & _)|done]|done]. intros fd. split; [by intros [? ?]|].
    intros [[id|] H0]; cbn in H0; [|done]. by destruct H0 as (w & ? & _).
Qed.

(** ** Connections served *)

(** The clients counted: those that got a thread, the one about to get it, and
    those for which no thread could be created. *)
Definition served (s : server) : Prop :=
  ∃ failed, 0 ≤ failed ∧ connections_served_ s = u64 (zlen (threads s) + pending (pc s) + failed).

Lemma served_same s s' :
  connections_served_ s' = connections_served_ s → length (threads s') = length (threads s) →
  pending (pc s') = pending (pc s) → served s → served s'.
Proof. intros Hc Ht Hp (n & Hn & E). exists n. unfold zlen in *. by rewrite Hc, Ht, Hp. Qed.

Lemma served_step max s s' : served s → step max s s' → served s'.
Proof.
  intros Hs Hstep. step_cases Hstep.
  13: { destruct Hs as (n & Hn & E). exists n. cbn. split; [done|]. rewrite E, Hp, u64_add_l. cbn. f_equal. lia. }
  13: { destruct Hs as (n & Hn & E). exists n. cbn. split; [done|]. rewrite E, Hp. unfold zlen. rewrite length_app.
        cbn. f_equal. lia. }
  13: { destruct Hs as (n & Hn & E). exists (n + 1). cbn. split; [lia|]. rewrite E, Hp. cbn. f_equal. lia. }
  all: apply (served_same s); cbn; rewrite ?length_insert, ?Hp; try done; by destruct ready.
Qed.

Lemma served_run max s : rtc (step max) start s → served s.
Proof.
  intros Hr. assert (∀ a b, rtc (step max) a b → served a → served b) as H.
  { induction 1 as [|a b c Hab _ IH]; [done|]. intros ?. apply IH. by eapply served_step. }
  apply (H _ _ Hr). exists 0. done.
Qed.

(** ** After [run] *)
Lemma returned_clean max s :
  0 ≤ max < 2 ^ 64 → rtc (step max) start s → pc s = Returned →
  Forall (λ w, at_ w = Exited) (threads s) ∧ active_connections_ s = 0 ∧ clients s = ∅.
Proof.
  intros Hmax Hrun Hret.
  destruct (server_run max s Hmax Hrun) as ([Hc _ _] & [Ha _ Ht] & [Hop _ _]).
  assert (Forall (λ w, at_ w = Exited) (threads s)) as Hall.
  { apply Forall_lookup. intros id w Hid. destruct (decide (at_ w = Exited)) as [|Hne]; [done|].
    destruct (Ha id w Hid Hne) as [Hin|[?|(l & ? & _)]]; [|congruence..].
    rewrite (Ht []) in Hin by by right. by apply not_elem_of_nil in Hin. }
  split; [done|]. split.
  - rewrite Hc, Hret. cbn. clear -Hall. unfold serving, zlen.
    induction Hall as [|w l Hw _ IH]; [done|]. by rewrite filter_cons, decide_False by (rewrite Hw; done).
  - apply map_empty. intros fd. apply eq_None_not_Some. intros [[id|] Ho]%Hop; cbn in Ho; [|by rewrite Hret in Ho].
    destruct Ho as (w & Hw & Hne & _). rewrite Forall_lookup in Hall. by apply Hne, (Hall id).
Qed.

(** ** Properties *)

(** C33.  At every instant of a server's life, however its accept loop, its
    workers and [stop] interleave: the count of active connections is the number
    of worker threads still serving (plus a client just accepted whose thread is
    being created) and never exceeds [max_connections]; and every client socket
    that is open has exactly one owner, the accept loop or one live worker, with
    Nagle's algorithm off, so that none leaks and none is shared. *)
Theorem active_connections_exact max s (Hmax : 0 ≤ max < 2 ^ 64) (Hrun : rtc (step max) start s) :
  active_connections_ s = serving (threads s) + pending (pc s) ∧ active_connections_ s ≤ max ∧
  (∀ fd, is_Some (clients s !! fd) ↔ ∃ o, owns s o fd) ∧
  (∀ o o' fd, owns s o fd → owns s o' fd → o = o') ∧
  (∀ fd opts, clients s !! fd = Some opts → Socket.TCP_NODELAY ∈ opts).
Proof. destruct (server_run max s Hmax Hrun) as ([] & _ & []). done. Qed.

(** C34.  When [run] returns, every worker thread has returned: none outlives
    the server or the cache it references, no connection is left counted, and
    every client socket has been closed. *)
Theorem no_worker_outlives_run max s (Hmax : 0 ≤ max < 2 ^ 64) (Hrun : rtc (step max) start s)
    (Hret : pc s = Returned) :
  Forall (λ w, at_ w = Exited) (threads s) ∧ active_connections_ s = 0 ∧ clients s = ∅.
Proof. by apply (returned_clean max). Qed.

(** ** Witnesses: a client served while the server stops *)
Definition demo_clients : Socket.fd_table := {[ 5 := [Socket.TCP_NODELAY] ]}.

Definition demo_running : server := mkServer true AtTest 1 1 [mkWorker 5 Serving] [0%nat] demo_clients.

Lemma demo_serving : rtc (step 1) start demo_running.
Proof.
  eapply rtc_l; [by apply step_test|]. eapply rtc_l; [by apply (step_polled 1 _ true)|].
  eapply rtc_l; [by apply (step_reaped 1 _ 0 true)|]. eapply rtc_l; [by apply (step_accept 1 _ 5)|].
  eapply rtc_l; [by apply (step_admit 1 _ 5)|]. eapply rtc_l; [by apply (step_count 1 _ 5)|].
  eapply rtc_l; [by apply (step_create 1 _ 5)|]. eapply rtc_l; [by apply (step_push 1 _ 0)|].
  apply rtc_once. exact (step_request_stop 1 (mkServer false AtTest 1 1 [mkWorker 5 Serving] [0%nat] demo_clients)).
Qed.

Lemma demo_returned : rtc (step 1) start (mkServer true Returned 1 0 [mkWorker 5 Exited] [] ∅).
Proof.
  eapply transitivity; [apply demo_serving|].
  eapply rtc_l; [by apply step_stop|]. eapply rtc_l; [by apply (step_leave 1 _ 0 5)|].
  eapply rtc_l; [by apply (step_flag 1 _ 0 5)|]. eapply rtc_l; [by apply (step_exit 1 _ 0 5)|].
  eapply rtc_l; [by apply (step_join 1 _ 0 [])|]. eapply rtc_l; [by apply step_return|].
  vm_compute. apply rtc_refl.
Qed.

Lemma active_connections_exact_witness :
  active_connections_ demo_running = serving (threads demo_running) + pending (pc demo_running) ∧
  is_Some (clients demo_running !! 5) ∧ owns demo_running (Some 0%nat) 5.
Proof.
  destruct (active_connections_exact 1 demo_running) as (H1 & _ & H2 & H3 & _); [lia|exact demo_serving|].
  assert (is_Some (clients demo_running !! 5)) as Hfd by (vm_compute; by eexists).
  split; [exact H1|]. split; [exact Hfd|]. by exists (mkWorker 5 Serving).
Defined.

Lemma no_worker_outlives_run_witness :
  Forall (λ w, at_ w = Exited) (threads (mkServer true Returned 1 0 [mkWorker 5 Exited] [] ∅)).
Proof.
  apply (no_worker_outlives_run 1 (mkServer true Returned 1 0 [mkWorker 5 Exited] [] ∅));
    [lia|exact demo_returned|reflexivity].
Defined.
End Server.
