(* ===== verification/ServerShutdown.v ===== *)
(** * Shutting the server down

    What happens after [stop]: the steps of Server.v lead [run] to its end.
    The measure counts the steps the accept loop and the workers can still
    take; a worker's own conversation (Connection.v) ends when its client
    hangs up or says [QUIT], which is a step here. *)
From S2P Require Import Prelude Socket Server.

Module ServerShutdown.
Import Server.

(** ** How much is left to do *)
Definition worker_work (w : worker) : nat :=
  match at_ w with Serving => 3 | Leaving => 2 | Flagged => 1 | Exited => 0 end.

(** Once [stop_requested_] is set, [AtTest] leaves the loop; [n] is the length
    of the vector. *)
Definition loop_work (p : loop_pc) (n : nat) : nat :=
  match p with
  | Returned => 0
  | Joining l => 1 + length l
  | AtTest => 2 + n
  | AtPush _ => 4 + n
  | AtCreate _ => 8 + n
  | AtSpawn _ => 9 + n
  | AtLimit _ => 10 + n
  | AtAccept => 11 + n
  | Reaping i _ => 12 + n + (n - i)
  | InPoll => 13 + n + n
  end.

Definition work (s : server) : nat :=
  loop_work (pc s) (length (workers_ s)) + sum_list_with worker_work (threads s).

Lemma work_insert l id w w' :
  l !! id = Some w → (worker_work w' < worker_work w)%nat →
  (sum_list_with worker_work (<[id := w']> l) < sum_list_with worker_work l)%nat.
Proof.
  revert id. induction l as [|x l IH]; intros [|id] H Hw; simpl in *; simplify_eq; [lia|].
  specialize (IH id H Hw). lia.
Qed.

Lemma stopping_work max s s' :
  stop_requested_ s = true → step max s s' →
  stop_requested_ s' = true ∧ (s' = s ∨ (work s' < work s)%nat).
Proof.
  intros Hs Hstep. unfold work. step_cases Hstep; cbn in *; try congruence.
  21: { split; [done|left]. destruct s. cbn in *. by subst. }
  all: split; [done|right].
  18-20: match goal with |- context [<[_ := ?w]> _] => pose proof (work_insert _ _ _ w Hw ltac:(cbn; lia)) end; lia.
  5-6: pose proof (lookup_lt_Some _ _ _ Hi) as Hlt; rewrite ?Hp; cbn; rewrite ?length_delete by (by eexists); lia.
  5: { rewrite Hp. destruct ready; cbn; lia. }
  all: rewrite ?Hp; cbn; rewrite ?sum_list_with_app, ?length_app; cbn; lia.
Qed.

(** The loop can go on, unless it joins a worker that has not returned. *)
Definition waits_for (s : server) (id : nat) : Prop :=
  ((∃ rest, pc s = Joining (id :: rest)) ∨ ∃ i ready, pc s = Reaping i ready ∧ workers_ s !! i = Some id ∧ finished s id = true) ∧
  ∃ w, threads s !! id = Some w ∧ at_ w ≠ Exited.

(** A worker the loop would join has returned, or the loop waits for it. *)
Lemma join_or_wait s id :
  joinable s → tracked s id → exited s id = true ∨ ∃ w, threads s !! id = Some w ∧ at_ w ≠ Exited.
Proof.
  intros Hj Ht%(joinable_known _ Hj). apply lookup_lt_is_Some in Ht as [w Hw]. unfold exited. rewrite Hw. cbn.
  destruct (at_ w) eqn:E; [right; exists w; by rewrite E..|by left].
Qed.

(** The accept loop itself has moved on. *)
Definition loop_moved (s s' : server) : Prop := pc s' ≠ pc s ∨ workers_ s' ≠ workers_ s.

Lemma loop_progress max s :
  joinable s → stop_requested_ s = true → pc s ≠ Returned →
  (∃ s', step max s s' ∧ loop_moved s s') ∨ (∃ id, waits_for s id).
Proof.
  intros Hj Hs Hr. assert (∀ s', step max s s' → pc s' ≠ pc s → ∃ s', step max s s' ∧ loop_moved s s') as Hgo.
  { intros s' Hst Hne. exists s'. split; [done|by left]. }
  destruct (pc s) as [| |i ready| |fd|fd|fd|id|[|id rest]|] eqn:Hp; [left|left| |left|left|left|left|left|left| |done].
  - by eapply Hgo; [by apply step_stop|].
  - by eapply Hgo; [by apply step_poll_interrupted|].
  - destruct (workers_ s !! i) as [id|] eqn:Hi; [|left; eapply Hgo; [by eapply step_reaped|by destruct ready]].
    destruct (finished s id) eqn:Hf.
    + destruct (join_or_wait s id Hj) as [Hx|Hw]; [left; by eapply list_elem_of_lookup_2| |].
      * left. exists (with_workers (delete i (workers_ s)) s). split; [by eapply step_reap|right].
        cbn. intros E%(f_equal length). rewrite length_delete in E by (by eexists).
        apply lookup_lt_Some in Hi. lia.
      * right. exists id. split; [|done]. right. by exists i, ready.
    + left. eapply Hgo; [by eapply step_skip|]. cbn. intros [= ?]. lia.
  - by eapply Hgo; [by apply step_accept_failed|].
  - destruct (Z.le_gt_cases max (active_connections_ s)).
    + by eapply Hgo; [by apply (step_refuse max s fd)|].
    + by eapply Hgo; [by apply (step_admit max s fd); [|lia]|].
  - by eapply Hgo; [by apply (step_count max s fd)|].
  - by eapply Hgo; [by apply (step_create_failed max s fd)|].
  - by eapply Hgo; [by apply (step_push max s id)|].
  - by eapply Hgo; [by apply step_return|].
  - destruct (join_or_wait s id Hj) as [Hx|Hw].
    + right. right. exists (id :: rest). split; [done|by left].
    + left. eapply Hgo; [by eapply step_join|]. cbn. intros [= E%(f_equal length)]. cbn in E. lia.
    + right. exists id. split; [left; by exists rest|done].
Qed.

(** Whatever the loop waits for can happen. *)
Lemma waited_worker_moves max s id : waits_for s id → ∃ s', step max s s' ∧ s' ≠ s.
Proof.
  intros (_ & [fd a] & Hw & Hne). cbn in Hne.
  assert (∀ b t n, b ≠ a → mkServer (stop_requested_ s) (pc s) (connections_served_ s) n
    (<[id := mkWorker fd b]> (threads s)) (workers_ s) t ≠ s) as Hmoved.
  { intros b t n Hb E%(f_equal (λ s, threads s !! id)). cbn in E.
    rewrite list_lookup_insert_eq, Hw in E by (by eapply lookup_lt_Some). congruence. }
  destruct a; [..|done]; (eexists; split; [by eapply step_leave + eapply step_flag + eapply step_exit|by apply Hmoved]).
Qed.

Lemma one_move max s :
  joinable s → stop_requested_ s = true → pc s ≠ Returned → ∃ s', step max s s' ∧ (work s' < work s)%nat.
Proof.
  intros Hj Hs Hr. assert (∃ s', step max s s' ∧ s' ≠ s) as (s' & Hst & Hne).
  { destruct (loop_progress max s Hj Hs Hr) as [(s' & ? & Hm)|[id Hw]]; [|by eapply waited_worker_moves].
    exists s'. split; [done|]. intros ->. by destruct Hm. }
  exists s'. split; [done|]. by destruct (stopping_work max s s' Hs Hst) as [_ [?|?]].
Qed.

Lemma run_to_the_end max n s :
  joinable s → stop_requested_ s = true → (work s ≤ n)%nat → ∃ s', rtc (step max) s s' ∧ pc s' = Returned.
Proof.
  revert s. induction n as [|n IH]; intros s Hj Hs Hn;
    (assert (pc s = Returned ∨ pc s ≠ Returned) as [Hp|Hp] by (destruct (pc s); auto);
     [exists s; split; [apply rtc_refl|done]|]);
    destruct (one_move max s Hj Hs Hp) as (s1 & Hst & Hlt).
  - lia.
  - destruct (IH s1) as (s2 & Hr & Hp2).
    + by eapply joinable_step.
    + by apply (stopping_work max s s1 Hs Hst).
    + lia.
    + exists s2. split; [by eapply rtc_l|done].
Qed.

(** ** Property *)

(** C29.  Liveness of shutdown.  After [stop], from every reachable state of the
    server: no step undoes the request, every step that changes anything brings
    a count of the remaining steps down (so that there are at most [work s] of
    them), the accept loop can always move on unless it is joining a worker
    that has not returned, and [run] does come to return. *)
Theorem run_returns_after_stop max s (Hmax : 0 ≤ max < 2 ^ 64)
    (Hrun : rtc (step max) start s) (Hstop : stop_requested_ s = true) :
  (∀ s', step max s s' → stop_requested_ s' = true ∧ (s' = s ∨ (work s' < work s)%nat)) ∧
  (pc s ≠ Returned → (∃ s', step max s s' ∧ loop_moved s s') ∨ ∃ id, waits_for s id) ∧
  (∃ s', rtc (step max) s s' ∧ pc s' = Returned).
Proof.
  destruct (server_run max s Hmax Hrun) as (_ & Hj & _). split; [|split].
  - intros s' Hst. by apply (stopping_work max).
  - by apply loop_progress.
  - by eapply run_to_the_end.
Qed.

Lemma run_returns_after_stop_witness :
  ∃ s', rtc (step 1) demo_running s' ∧ pc s' = Returned.
Proof.
  apply (run_returns_after_stop 1 demo_running); [lia|exact demo_serving|reflexivity].
Defined.
End ServerShutdown.
