(* ===== verification/ServerStart.v ===== *)
(** * Opening the listening socket (class Server, src/net/server.cpp)

    [Server::start] and the refusal of a client at the connection limit.  What
    the kernel answers to each call is an argument; the calls made are part of
    the result, in order. *)
From S2P Require Import Prelude Numbers LineBuffer Protocol Socket.

Module ServerStart.
Import Protocol.

(** [Server::Options] and its defaults. *)
Record Options := mkOptions {
  host : bytes;
  port : Z;
  backlog : Z;
  max_connections : Z;
  verbose : bool
}.

Definition default_options : Options := mkOptions $"127.0.0.1" 6379 128 256 true.

(** The calls [start] makes. *)
Inductive syscall :=
| CallSocket
| CallReuseAddress (fd : Z)
| CallBind (fd : Z) (host : bytes) (port : Z)
| CallListen (fd : Z) (backlog : Z)
| CallGetSockName (fd : Z).

(** What they answer: a failure carries [strerror(errno)], that of [bind] also
    whether [errno] is [EADDRINUSE].  [inet_pton] tells which hosts are
    addresses. *)
Record kernel := mkKernel {
  on_socket : bytes + Z;
  inet_pton : bytes → bool;
  on_bind : option (bool * bytes);
  on_listen : option bytes;
  on_getsockname : option Z
}.

(** The result of [start]: the answer, the error text, [listener_], [bound_port_]
    and the calls made. *)
Record started := mkStarted {
  ok : bool;
  error : bytes;
  listener_ : Z;
  bound_port_ : Z;
  calls : list syscall
}.

(** The advice for a port somebody else holds. *)
Definition in_use_hint (o : Options) : bytes :=
  line_end ++ $"  Another process already holds " ++ host o ++ $":" ++ Numbers.to_string (port o) ++
  $". Note that 6379 is also Redis's default port -- check with" ++ line_end ++
  $"  `lsof -nP -iTCP:" ++ Numbers.to_string (port o) ++
  $" -sTCP:LISTEN`, or start CacheX on a different port.".

(** [Server::start]; [bound_port_] is 0 until it is known. *)
Definition start (o : Options) (k : kernel) (error : bytes) : started :=
  match on_socket k with
  | inl why => mkStarted false ($"socket() failed: " ++ why) Socket.kInvalid 0 [CallSocket]
  | inr fd =>
      let calls := [CallSocket; CallReuseAddress fd] in
      if negb (inet_pton k (host o)) then
        mkStarted false ($"invalid bind address '" ++ host o ++ quote) fd 0 calls
      else
        let calls := calls ++ [CallBind fd (host o) (port o)] in
        match on_bind k with
        | Some (in_use, why) =>
            mkStarted false ($"bind() failed: " ++ why ++ (if in_use : bool then in_use_hint o else [])) fd 0 calls
        | None =>
            let calls := calls ++ [CallListen fd (backlog o)] in
            match on_listen k with
            | Some why => mkStarted false ($"listen() failed: " ++ why) fd 0 calls
            | None =>
                mkStarted true error fd (default (port o) (on_getsockname k)) (calls ++ [CallGetSockName fd])
            end
        end
  end.

(** What a client beyond the limit is told before its socket is closed. *)
Definition refusal (o : Options) : bytes :=
  reply_error ($"server at connection limit (" ++ Numbers.to_string (max_connections o) ++ $")").

(** ** Lemmas *)

(** A branch of [start] that returns false. *)
Ltac call_failed :=
  split; [split; [done|by intros (? & ? & ? & ? & ?)]|]; split; [done|]; intros _; split; [done|];
  intros fd' Hin; repeat (apply elem_of_cons in Hin as [?|Hin]; [done|]); by apply not_elem_of_nil in Hin.

(** [start] succeeds exactly when every call it depends on does, and then the
    listener is the new socket, bound and listening in this order; otherwise
    the error text is set, and nothing is called after the failing call. *)
Lemma start_spec o k e :
  let r := start o k e in
  (ok r = true ↔ ∃ fd, on_socket k = inr fd ∧ inet_pton k (host o) = true ∧ on_bind k = None ∧
     on_listen k = None) ∧
  (ok r = true → error r = e ∧ on_socket k = inr (listener_ r) ∧
     calls r = [CallSocket; CallReuseAddress (listener_ r); CallBind (listener_ r) (host o) (port o);
                CallListen (listener_ r) (backlog o); CallGetSockName (listener_ r)] ∧
     (on_getsockname k = None → bound_port_ r = port o) ∧
     (∀ p, on_getsockname k = Some p → bound_port_ r = p)) ∧
  (ok r = false → error r ≠ [] ∧ ∀ fd, CallGetSockName fd ∉ calls r).
Proof.
  unfold start. destruct (on_socket k) as [why|fd]; cbn; [call_failed|].
  destruct (inet_pton k (host o)) eqn:Ha; cbn; [|call_failed].
  destruct (on_bind k) as [[in_use why]|] eqn:Hb; cbn; [call_failed|].
  destruct (on_listen k) as [why|] eqn:Hl; cbn; [call_failed|].
  split; [split; [intros _; by exists fd|done]|]. split; [|done]. intros _. split_and!; [done..| |].
  - by intros ->.
  - by intros p ->.
Qed.
End ServerStart.
