(* ===== verification/PeriodicSaver.v ===== *)
(** * The auto-save thread (class PeriodicSaver, src/persistence.cpp)

    The saver thread and any number of callers of [stop] (the destructor is one
    of them), interleaved.  The mutex and the condition variable are part of the
    state: [wait_for] tests its predicate with the mutex held, then releases the
    mutex and joins the set of waiters in one action, and takes the mutex again
    before it returns.  The save is [Persistence.save] on whatever the cache
    then holds. *)
From S2P Require Import Prelude Numbers RecencyList Lru KvStore Stream Snapshot.
From S2P Require Import Persistence Cache CacheRefine CacheKv.

Module PeriodicSaver.
Import Persistence.

(** Who holds the mutex. *)
Inductive agent := Saver | Caller (i : nat).

(** The saver thread in [run]: before [unique_lock]; in [wait_for], testing the
    predicate; the predicate false, about to wait; waiting; woken (by the end of the interval or not) and in need of
    the mutex; back from [wait_for]; saving; returned. *)
Inductive run_pc := Locking | Checking | Deciding | Blocked | Waking (timed_out : bool) | Awake | Saving | Exited.

(** A caller of [stop]: outside; in the critical section; the flag set, about to
    notify; about to join; back after joining; back at once because somebody
    else is stopping the saver. *)
Inductive stop_pc := Outside | Entered | Flagged | Notified | Joined | Early.

Record t := mk {
  stopping_ : bool;
  mutex_ : option agent;
  saves_ : Z;
  failures_ : Z;
  thread : run_pc;
  callers : list stop_pc;
  files : fs;
  counter : Z
}.

(** The constructor starts the thread; [n] threads may call [stop]. *)
Definition start (n : nat) (f : fs) (k : Z) : t := mk false None 0 0 Locking (replicate n Outside) f k.

Definition with_thread (p : run_pc) (m : option agent) (s : t) : t :=
  mk (stopping_ s) m (saves_ s) (failures_ s) p (callers s) (files s) (counter s).
Definition with_caller (i : nat) (p : stop_pc) (m : option agent) (s : t) : t :=
  mk (stopping_ s) m (saves_ s) (failures_ s) (thread s) (<[i := p]> (callers s)) (files s) (counter s).
Definition set_stopping (s : t) : t :=
  mk true (mutex_ s) (saves_ s) (failures_ s) (thread s) (callers s) (files s) (counter s).

(** [wake_.notify_all()]. *)
Definition notify_all (s : t) : t :=
  match thread s with Blocked => with_thread (Waking false) (mutex_ s) s | _ => s end.

(** [if (manager_.save(cache_).ok) saves_.fetch_add(1); else failures_.fetch_add(1);]
    and back to the top of the loop. *)
Definition count_save (r : SaveResult) (f : fs) (k : Z) (s : t) : t :=
  mk (stopping_ s) (mutex_ s) (if save_ok r then u64 (saves_ s + 1) else saves_ s)
    (if save_ok r then failures_ s else u64 (failures_ s + 1)) Locking (callers s) f k.

Section Step.
Context {C : Type} `{KvLaws C} (manager : Persistence.t) (pid : Z).

(** What needs no passing of time. *)
Inductive prompt : t → t → Prop :=
(** [std::unique_lock lock(mutex_)] *)
| step_lock s : thread s = Locking → mutex_ s = None → prompt s (with_thread Checking (Some Saver) s)
(** [wait_for]: the predicate holds; it does not; wait; take the mutex again *)
| step_ready s : thread s = Checking → stopping_ s = true → prompt s (with_thread Awake (mutex_ s) s)
| step_wait s : thread s = Checking → stopping_ s = false → prompt s (with_thread Deciding (mutex_ s) s)
| step_block s : thread s = Deciding → prompt s (with_thread Blocked None s)
| step_relock s timed_out : thread s = Waking timed_out → mutex_ s = None →
    prompt s (with_thread (if timed_out : bool then Awake else Checking) (Some Saver) s)
(** [if (stopping_) return;], the lock released either way *)
| step_return s : thread s = Awake → stopping_ s = true → prompt s (with_thread Exited None s)
| step_go s : thread s = Awake → stopping_ s = false → prompt s (with_thread Saving None s)
(** the save, of a well-formed cache, whatever the clocks and the disk answer *)
| step_saved s (c : C) clock wall d r k f : thread s = Saving → kv_ok c → (∀ i, 0 ≤ clock i) →
    save clock wall pid (counter s) d manager c (files s) = Ret (r, k, f) →
    prompt s (count_save r f k s)
(** [stop]: the critical section; the flag; [notify_all]; [join] *)
| step_enter s i : callers s !! i = Some Outside → mutex_ s = None →
    prompt s (with_caller i Entered (Some (Caller i)) s)
| step_again s i : callers s !! i = Some Entered → stopping_ s = true → prompt s (with_caller i Early None s)
| step_flag s i : callers s !! i = Some Entered → stopping_ s = false →
    prompt s (set_stopping (with_caller i Flagged None s))
| step_notify s i : callers s !! i = Some Flagged → prompt s (with_caller i Notified (mutex_ s) (notify_all s))
| step_joined s i : callers s !! i = Some Notified → thread s = Exited →
    prompt s (with_caller i Joined (mutex_ s) s).

(** The end of the interval, or a wake-up for no reason. *)
Inductive timed : t → t → Prop :=
| step_timeout s : thread s = Blocked → timed s (with_thread (Waking true) (mutex_ s) s)
| step_spurious s : thread s = Blocked → timed s (with_thread (Waking false) (mutex_ s) s).

Definition step (s s' : t) : Prop := prompt s s' ∨ timed s s'.
End Step.

(** ** The invariant *)

(** The mutex is held by exactly the agent inside a critical section, the flag
    is set by one caller, and a thread that waits although the flag is set has
    its notification still coming: no wake-up is lost. *)
Definition in_section (p : run_pc) : Prop := p = Checking ∨ p = Deciding ∨ p = Awake.

Definition inside (s : t) (a : agent) : Prop :=
  match a with
  | Saver => in_section (thread s)
  | Caller i => callers s !! i = Some Entered
  end.

Definition past_flag (p : stop_pc) : Prop := p = Flagged ∨ p = Notified ∨ p = Joined.

Record ok (s : t) : Prop := {
  ok_mutex a : mutex_ s = Some a ↔ inside s a;
  ok_flag : stopping_ s = true ↔ ∃ i p, callers s !! i = Some p ∧ past_flag p;
  ok_once i j p q :
    callers s !! i = Some p → callers s !! j = Some q → past_flag p → past_flag q → i = j;
  ok_deciding : thread s = Deciding → stopping_ s = false;
  ok_wakeup : thread s = Blocked → stopping_ s = true → ∃ i, callers s !! i = Some Flagged;
  ok_exited : thread s = Exited → stopping_ s = true;
  ok_joined i : callers s !! i = Some Joined → thread s = Exited;
  ok_early i : callers s !! i = Some Early → stopping_ s = true
}.

Lemma start_ok n f k : ok (start n f k).
Proof.
  assert (∀ i p, callers (start n f k) !! i = Some p → p = Outside) as Ho.
  { intros i p Hi. cbn in Hi. by apply lookup_replicate in Hi as [-> _]. }
  split; cbn [start thread mutex_ stopping_]; try done.
  - intros [|i]; split; try done; [by intros [|[|]]|]. by intros H1%Ho.
  - split; [done|]. intros (i & p & ->%Ho & [|[|]]); done.
  - intros i j p q ->%Ho _ [|[|]]; done.
  - by intros i ?%Ho.
  - by intros i ?%Ho.
Qed.

(** The thread moves and nobody calling [stop] notices. *)
Lemma thread_ok s p m :
  ok s → (∀ a, m = Some a ↔ inside (with_thread p m s) a) → thread s ≠ Exited →
  (p = Blocked → stopping_ s = true → ∃ i, callers s !! i = Some Flagged) →
  (p = Exited → stopping_ s = true) → (p = Deciding → stopping_ s = false) → ok (with_thread p m s).
Proof.
  intros [H1 H2 H3 Hd H4 H5 H6 H7] Hm Hx Hb He Hw. split; cbn in *; try done.
  intros i Hi. by destruct Hx; eapply H6.
Qed.

Lemma caller_at s i p p' m j q :
  callers s !! i = Some p →
  callers (with_caller i p' m s) !! j = Some q ↔ (j = i ∧ q = p') ∨ (j ≠ i ∧ callers s !! j = Some q).
Proof.
  intros Hi%lookup_lt_Some. cbn. destruct (decide (j = i)) as [->|Hj].
  - rewrite list_lookup_insert_eq by done. naive_solver.
  - rewrite list_lookup_insert_ne by done. naive_solver.
Qed.

(** A caller enters or leaves the critical section without setting the flag. *)
Lemma caller_ok s i p p' m :
  ok s → callers s !! i = Some p → (past_flag p ↔ past_flag p') → p ≠ Flagged →
  (∀ a, m = Some a ↔ inside (with_caller i p' m s) a) →
  (p' = Joined → thread s = Exited) → (p' = Early → stopping_ s = true) → ok (with_caller i p' m s).
Proof.
  intros [H1 H2 H3 Hd H4 H5 H6 H7] Hi Hp Hf Hm Hj He.
  assert (∀ j q, callers (with_caller i p' m s) !! j = Some q ↔ _) as Hc
    by (intros j q; by apply (caller_at s i p p' m j q)).
  split; cbn [with_caller thread stopping_ mutex_]; try done.
  - rewrite H2. split; intros (j & q & Hq & Hpf).
    + destruct (decide (j = i)) as [->|Hne]; [exists i, p'|exists j, q]; rewrite Hc; naive_solver.
    + apply Hc in Hq as [[-> ->]|[? ?]]; [exists i, p|exists j, q]; naive_solver.
  - intros j1 j2 q1 q2 [[-> ->]|[? ?]]%Hc [[-> ->]|[? ?]]%Hc P1 P2; naive_solver.
  - intros Hb Hs. destruct (H4 Hb Hs) as [j Hjf]. exists j. rewrite Hc. right. split; [|done]. naive_solver.
  - intros j [[-> ?]|[? ?]]%Hc; naive_solver.
  - intros j [[-> ?]|[? ?]]%Hc; naive_solver.
Qed.

(** The mutex, after the thread or a caller has moved. *)
Lemma free_ok s : ok s → mutex_ s = None → ∀ a, ¬ inside s a.
Proof. intros Hs Hm a Ha%(ok_mutex _ Hs). congruence. Qed.

Lemma holder_ok s a b : ok s → inside s a → inside s b → a = b.
Proof. intros Hs Ha%(ok_mutex _ Hs) Hb%(ok_mutex _ Hs). congruence. Qed.

Lemma flag_ok s i : ok s → callers s !! i = Some Entered → stopping_ s = false → thread s ≠ Exited →
  ok (set_stopping (with_caller i Flagged None s)).
Proof.
  intros Hs Hi Hf Hx.
  assert (thread s ≠ Deciding) as Hd.
  { intros Ht. assert (inside s Saver) as Ha by (right; by left).
    by pose proof (holder_ok s Saver (Caller i) Hs Ha Hi). }
  assert (∀ j q, callers s !! j = Some q → ¬ past_flag q) as Hn.
  { intros j q Hq Hp. enough (stopping_ s = true) by congruence. apply (ok_flag _ Hs). by exists j, q. }
  assert (∀ j q, callers (set_stopping (with_caller i Flagged None s)) !! j = Some q ↔ _) as Hc
    by (intros j q; exact (caller_at s i _ Flagged None j q Hi)).
  split; cbn [set_stopping with_caller thread stopping_ mutex_]; try done.
  - intros a. split; [done|]. destruct a as [|j]; cbn -[callers].
    + intros Ha. pose proof (holder_ok s Saver (Caller i) Hs Ha Hi). done.
    + intros [[-> ?]|[Hne Hj]]%Hc; [done|].
      pose proof (holder_ok s (Caller j) (Caller i) Hs Hj Hi). congruence.
  - split; [intros _|done]. exists i, Flagged. split; [rewrite Hc; by left|by left].
  - intros j1 j2 q1 q2 [[-> ->]|[? ?]]%Hc [[-> ->]|[? ?]]%Hc P1 P2; [done|exfalso; by eapply Hn..].
  - intros _ _. exists i. rewrite Hc. by left.
  - intros j [[_ ?]|[? Hj]]%Hc; [done|]. exfalso. eapply (Hn j); [done|]. by right; right.
Qed.

Lemma notify_ok s i : ok s → callers s !! i = Some Flagged →
  ok (with_caller i Notified (mutex_ s) (notify_all s)).
Proof.
  intros Hs Hi.
  assert (callers (notify_all s) = callers s ∧ stopping_ (notify_all s) = stopping_ s ∧
    thread (notify_all s) ≠ Blocked ∧ (thread s ≠ Blocked → thread (notify_all s) = thread s) ∧
    (∀ a, inside (notify_all s) a ↔ inside s a)) as (Ec & Es & Hb & Et & Hin).
  { unfold notify_all. destruct (thread s) eqn:E; cbn; rewrite ?E; repeat split; try done;
      destruct a; cbn; unfold in_section; rewrite ?E; naive_solver. }
  assert (stopping_ s = true) as Hf by (apply (ok_flag _ Hs); exists i, Flagged; split; [done|by left]).
  set (s1 := with_caller _ _ _ _).
  assert (∀ j q, callers s1 !! j = Some q ↔ (j = i ∧ q = Notified) ∨ (j ≠ i ∧ callers s !! j = Some q)) as Hc.
  { intros j q. unfold s1. rewrite (caller_at _ i Flagged) by congruence. by rewrite Ec. }
  split; cbn [s1 with_caller thread stopping_ mutex_]; rewrite ?Es; try done.
  - intros [|j]; rewrite (ok_mutex _ Hs); cbn [inside]; [exact (iff_sym (Hin Saver))|].
    rewrite Hc. split; [intros Hj; right; split; [|done]; intros ->; congruence|by intros [[_ ?]|[_ ?]]].
  - split; [intros _|done]. exists i, Notified. split; [apply Hc; by left|by right; left].
  - intros j1 j2 q1 q2 [[-> ->]|[? ?]]%Hc [[-> ->]|[? ?]]%Hc P1 P2; [done|..];
      eapply (ok_once _ Hs); try done; by left.
  - unfold notify_all. destruct (thread s) eqn:E; cbn; rewrite ?E; try done. intros _. by apply (ok_deciding _ Hs).
  - intros j [[_ ?]|[_ Hj%(ok_joined _ Hs)]]%Hc; [done|]. rewrite Et; congruence.
Qed.

(** The three ways a move concerns the mutex: it takes it, gives it back, or
    leaves it with whoever has it. *)
Lemma thread_takes s p : ok s → mutex_ s = None → in_section p →
  ∀ a, Some Saver = Some a ↔ inside (with_thread p (Some Saver) s) a.
Proof. intros Hs Hn Hp [|j]; cbn; [done|]. split; [done|]. intros Hj. by destruct (free_ok s Hs Hn (Caller j)). Qed.

Lemma thread_leaves s p : ok s → in_section (thread s) → ¬ in_section p →
  ∀ a, None = Some a ↔ inside (with_thread p None s) a.
Proof.
  intros Hs Ht Hp [|j]; cbn; [split; [done|by intros ?%Hp]|]. split; [done|]. intros Hj.
  by pose proof (holder_ok s Saver (Caller j) Hs Ht Hj).
Qed.

Lemma thread_keeps s p : ok s → (in_section (thread s) ↔ in_section p) →
  ∀ a, mutex_ s = Some a ↔ inside (with_thread p (mutex_ s) s) a.
Proof. intros Hs Hp [|j]; rewrite (ok_mutex _ Hs); cbn; [done|done]. Qed.

Lemma caller_leaves s i p' : ok s → callers s !! i = Some Entered → p' ≠ Entered →
  ∀ a, None = Some a ↔ inside (with_caller i p' None s) a.
Proof.
  intros Hs Hi Hp a. split; [done|]. destruct a as [|j]; cbn -[callers].
  - intros Ha. by pose proof (holder_ok s Saver (Caller i) Hs Ha Hi).
  - intros [[_ ?]|[Hne Hj]]%(caller_at s i _ _ _ _ _ Hi); [congruence|].
    pose proof (holder_ok s (Caller j) (Caller i) Hs Hj Hi). congruence.
Qed.

Lemma caller_takes s i p : ok s → mutex_ s = None → callers s !! i = Some p →
  ∀ a, Some (Caller i) = Some a ↔ inside (with_caller i Entered (Some (Caller i)) s) a.
Proof.
  intros Hs Hn Hi [|j]; cbn -[callers].
  - split; [done|]. intros Ha. by destruct (free_ok s Hs Hn Saver).
  - rewrite (caller_at s i _ _ _ _ _ Hi). split; [intros [= <-]; by left|].
    intros [[-> _]|[_ Hj]]; [done|]. by destruct (free_ok s Hs Hn (Caller j)).
Qed.

(** ** How much is left to do once the flag is set *)
Definition thread_steps (p : run_pc) : nat :=
  match p with
  | Deciding => 5 | Saving | Blocked => 4 | Locking | Waking _ => 3 | Checking => 2 | Awake => 1 | Exited => 0
  end.
Definition stop_steps (p : stop_pc) : nat :=
  match p with Outside => 4 | Entered => 3 | Flagged => 2 | Notified => 1 | Joined | Early => 0 end.
Definition steps_left (s : t) : nat := thread_steps (thread s) + sum_list_with stop_steps (callers s).

(** How many saves have begun, as the two counters and the thread show it. *)
Definition begun (s : t) : Z := u64 (saves_ s + failures_ s + match thread s with Saving => 1 | _ => 0 end).

(** Somebody is still at work: the thread, or a caller inside [stop]. *)
Definition in_stop (p : stop_pc) : Prop := p = Entered ∨ p = Flagged ∨ p = Notified.
Definition busy (s : t) : Prop := thread s ≠ Exited ∨ ∃ i p, callers s !! i = Some p ∧ in_stop p.

#[global] Instance in_stop_dec p : Decision (in_stop p).
Proof. destruct p; (by left; (left + (right; left) + (right; right))) || (right; by intros [|[|]]). Defined.

Lemma busy_dec s : busy s ∨ ¬ busy s.
Proof.
  destruct (decide (Exists in_stop (callers s))) as [He|Hn].
  { left. right. apply Exists_exists in He as (p & [i Hi]%list_elem_of_lookup & Hp). by exists i, p. }
  assert (thread s ≠ Exited ∨ thread s = Exited) as [?|Hx] by (destruct (thread s); auto); [by left; left|].
  right. intros [?|(i & p & Hi & Hp)]; [done|]. apply Hn, Exists_exists. exists p. split; [|done].
  by eapply list_elem_of_lookup_2.
Qed.

Lemma caller_steps l i p p' :
  l !! i = Some p →
  (sum_list_with stop_steps (<[i := p']> l) + stop_steps p = sum_list_with stop_steps l + stop_steps p')%nat.
Proof.
  revert i. induction l as [|x l IH]; intros [|i] Hi; simpl in *; simplify_eq; [lia|].
  specialize (IH i Hi). lia.
Qed.

Lemma count_save_begun r f k s : thread s = Saving → begun (count_save r f k s) = begun s.
Proof.
  intros Ht. unfold begun, count_save. rewrite Ht. cbn. destruct (save_ok r).
  - rewrite <-Z.add_assoc, u64_add_l. f_equal. lia.
  - replace (saves_ s + u64 (failures_ s + 1) + 0) with (u64 (failures_ s + 1) + saves_ s) by lia.
    rewrite u64_add_l. f_equal. lia.
Qed.

Section Run.
Context {C : Type} `{KvLaws C} (manager : Persistence.t) (pid : Z).
Abbreviation prompt := (prompt (C := C) manager pid).
Abbreviation step := (step (C := C) manager pid).

Lemma prompt_ok s s' : ok s → prompt s s' → ok s'.
Proof.
  intros Hs Hp. destruct Hp as [s Ht Hn|s Ht Hf|s Ht Hf|s Ht|s b Ht Hn|s Ht Hf|s Ht Hf|s c clock wall d r k f Ht Hc Hk Hr
    |s i Hi Hn|s i Hi Hf|s i Hi Hf|s i Hi|s i Hi Ht].
  - apply thread_ok; [done|by apply thread_takes; [| |by left]|congruence|done..].
  - apply thread_ok; [done|apply thread_keeps; [done|]|congruence|done..]. rewrite Ht. split; intros _; [by right; right|by left].
  - apply thread_ok; [done|apply thread_keeps; [done|]|congruence|done..]. rewrite Ht. split; intros _; [by right; left|by left].
  - apply thread_ok; [done|apply thread_leaves; [done|by right; left|by intros [|[|]]]|congruence| |done..].
    intros _ Hf. pose proof (ok_deciding _ Hs Ht). congruence.
  - apply thread_ok; [done|apply thread_takes; [done..|]|congruence|by destruct b..]. destruct b; [by right; right|by left].
  - apply thread_ok; [done|apply thread_leaves; [done|by right; right|by intros [|[|]]]|congruence|done..].
  - apply thread_ok; [done|apply thread_leaves; [done|by right; right|by intros [|[|]]]|congruence|done..].
  - assert (ok (with_thread Locking (mutex_ s) s)) as [H1 H2 H3 Hd H4 H5 H6 H7].
    { apply thread_ok; [done|apply thread_keeps; [done|]|congruence|done..]. rewrite Ht. split; by intros [|[|]]. }
    by split.
  - eapply caller_ok; [done|done|split; by intros [|[|]]|done|by eapply caller_takes|done|done].
  - eapply caller_ok; [done|done|split; by intros [|[|]]|done|by eapply caller_leaves|done|done].
  - apply flag_ok; [done..|]. intros Hx%(ok_exited _ Hs). congruence.
  - by apply notify_ok.
  - eapply caller_ok; [done|done|unfold past_flag; naive_solver|done| |done|done].
    intros [|j]; rewrite (ok_mutex _ Hs); cbn -[callers]; [done|]. rewrite (caller_at _ _ _ _ _ _ _ Hi).
    naive_solver.
Qed.

Lemma timed_ok s s' : ok s → timed s s' → ok s'.
Proof.
  intros Hs Hp. assert (thread s = Blocked ∧ ∃ b, s' = with_thread (Waking b) (mutex_ s) s) as (Ht & b & ->).
  { destruct Hp; eauto. }
  apply thread_ok; [done|apply thread_keeps; [done|]|congruence|done..]. rewrite Ht. split; by intros [|[|]].
Qed.

Lemma step_ok s s' : ok s → step s s' → ok s'.
Proof. intros Hs [?|?]; [by eapply prompt_ok|by eapply timed_ok]. Qed.

Lemma run_ok s s' : rtc step s s' → ok s → ok s'.
Proof. induction 1; eauto using step_ok. Qed.

(** With the flag set, every step leads towards the end and begins no save. *)
Definition closer (s s' : t) : Prop :=
  stopping_ s' = true ∧ (steps_left s' < steps_left s)%nat ∧ begun s' = begun s.

Lemma step_closer s s' : stopping_ s = true → step s s' → closer s s'.
Proof.
  intros Hs [Hp|Hp].
  2: { destruct Hp as [s Ht|s Ht]; unfold closer, steps_left, begun; cbn; rewrite Ht; cbn; split_and!; [done|lia|done..|lia|done]. }
  destruct Hp as [s Ht Hn|s Ht Hf|s Ht Hf|s Ht|s b Ht Hn|s Ht Hf|s Ht Hf|s c clock wall d r k f Ht Hc Hk Hr
    |s i Hi Hn|s i Hi Hf|s i Hi Hf|s i Hi|s i Hi Ht]; try congruence.
  6: { split_and!; [done|unfold steps_left; cbn; rewrite Ht; cbn; lia|by apply count_save_begun]. }
  8: { pose proof (caller_steps _ _ _ Notified Hi). unfold closer, steps_left, begun, notify_all.
    destruct (thread s) eqn:Ht; cbn in *; rewrite ?Ht; split_and!; (done || (cbn; lia)). }
  6-8: pose proof (λ p', caller_steps _ _ _ p' Hi) as Hsum;
    unfold closer, steps_left, begun; cbn; split_and!; [done| |done];
    match goal with |- context [<[_ := ?p']> _] => specialize (Hsum p'); cbn in Hsum; lia end.
  all: unfold closer, steps_left, begun; cbn; rewrite Ht; cbn; split_and!; [done| |try done].
  all: try lia; destruct b; cbn; (lia || done).
Qed.

Context (c0 : C) (Hc0 : kv_ok c0).

(** A save returns, whatever it returns. *)
Lemma saving_goes_on s : thread s = Saving → ∃ s', prompt s s'.
Proof.
  intros Ht. destruct (kv_export_law (λ _, 0) c0 Hc0 (λ _, Z.le_refl 0)) as (l & _ & El & _).
  assert (∃ x, save (λ _, 0) 0 pid (counter s) (mkDisk false 0 None) manager c0 (files s) = Ret x) as [[[r k] f] Ex].
  { unfold save. rewrite El. cbn. by eexists. }
  eexists. eapply (step_saved _ _ s c0); [done|done| |exact Ex]. intros i. lia.
Qed.

(** Nobody has to wait for the clock: whoever holds the mutex can go on, and
    with the mutex free the thread can, or the caller that will wake it. *)
Lemma busy_goes_on s : ok s → stopping_ s = true → busy s → ∃ s', prompt s s'.
Proof.
  intros Hok Hs Hb. destruct (mutex_ s) as [[|i]|] eqn:Hm.
  - apply (ok_mutex _ Hok) in Hm as [Ht|[Ht|Ht]]; eexists; [by apply step_ready|by apply step_block|by apply step_return].
  - apply (ok_mutex _ Hok) in Hm as Hi. eexists. by eapply step_again.
  - destruct (thread s) as [| | | |w| | |] eqn:Ht.
    + eexists. by apply step_lock.
    + eexists. by apply step_ready.
    + eexists. by apply step_block.
    + destruct (ok_wakeup _ Hok Ht Hs) as [i Hi]. eexists. by eapply step_notify.
    + eexists. by eapply step_relock.
    + eexists. by apply step_return.
    + by apply saving_goes_on.
    + destruct Hb as [?|(i & p & Hi & [->|[->| ->]])]; [done|..]; eexists;
        [by eapply step_again|by eapply step_notify|by eapply step_joined].
Qed.

Lemma runs_down n s : ok s → stopping_ s = true → (steps_left s ≤ n)%nat → ∃ s', rtc prompt s s' ∧ ¬ busy s'.
Proof.
  revert s. induction n as [|n IH]; intros s Hok Hs Hn;
    (destruct (busy_dec s) as [Hb|Hb]; [|by exists s; split; [apply rtc_refl|]]);
    destruct (busy_goes_on s Hok Hs Hb) as [s1 Hp];
    destruct (step_closer s s1 Hs (or_introl Hp)) as (Hs1 & Hlt & _); [lia|].
  destruct (IH s1) as (s2 & Hr & Hb2); [by eapply prompt_ok|done|lia|].
  exists s2. split; [by eapply rtc_l|done].
Qed.
End Run.

(** ** Property *)

(** C35.  Stopping the saver.  From every reachable state in which the flag is
    set, whatever any number of callers of [stop] do: no step clears the flag,
    every step brings a count of the remaining steps down, and no save begins
    any more; as long as the thread or a caller of [stop] is at work a step is
    possible that does not wait for the clock (no wake-up is lost, so [stop]
    does not wait out the interval), and such steps lead to the end; at most
    one caller joins the thread, and when it returns the thread has exited. *)
Theorem saver_stops {C} `{KvLaws C} manager pid n f k (c0 : C) s
    (Hc0 : kv_ok c0) (Hrun : rtc (step (C := C) manager pid) (start n f k) s) (Hstop : stopping_ s = true) :
  (∀ s', step (C := C) manager pid s s' → closer s s') ∧
  (busy s → ∃ s', prompt (C := C) manager pid s s') ∧
  (∃ s', rtc (prompt (C := C) manager pid) s s' ∧ ¬ busy s') ∧
  (∀ i j p q, callers s !! i = Some p → callers s !! j = Some q → past_flag p → past_flag q → i = j) ∧
  (∀ i, callers s !! i = Some Joined → thread s = Exited).
Proof.
  pose proof (run_ok manager pid _ _ Hrun (start_ok n f k)) as Hok. split_and!.
  - intros s'. by apply step_closer.
  - by apply (busy_goes_on manager pid c0 Hc0).
  - by eapply (runs_down manager pid c0 Hc0).
  - apply (ok_once _ Hok).
  - apply (ok_joined _ Hok).
Qed.

Import CacheKv.

(** The thread waits, one caller has set the flag and is about to notify, and a
    second is on its way into [stop]. *)
Definition demo_waiting : t :=
  mk true None 0 0 Blocked [Flagged; Outside] ∅ 0.

Lemma demo_waits manager pid : rtc (step (C := Cache.t) manager pid) (start 2 ∅ 0) demo_waiting.
Proof.
  eapply rtc_l; [left; by apply step_lock|]. eapply rtc_l; [left; by apply step_wait|]. eapply rtc_l; [left; by apply step_block|].
  eapply rtc_l; [left; by apply (step_enter _ _ _ 0)|]. eapply rtc_l; [left; by apply (step_flag _ _ _ 0)|].
  apply rtc_refl.
Qed.

Lemma saver_stops_witness :
  ∃ s', rtc (prompt (C := Cache.t) (Persistence.mk $"dump") 7) demo_waiting s' ∧ ¬ busy s'.
Proof.
  destruct (saver_stops (Persistence.mk $"dump") 7 2 ∅ 0 Cache.Cache_unbounded demo_waiting) as (_ & _ & H & _).
  - apply CacheRefine.inv_unbounded.
  - apply demo_waits.
  - reflexivity.
  - exact H.
Defined.
End PeriodicSaver.
