(* ===== verification/Client.v ===== *)
(** * The command-line client (src/client_main.cpp, src/version.cpp)

    The client's loop over the lines of its standard input: send the request,
    wait for one reply line, print it.  The kernel's answers to [recv] and
    [send] are lists, as in Connection.v; [std::cout] and [std::cerr] are the
    bytes written so far.  The last part puts the client and the server of
    Connection.v at the two ends of one connection. *)
From S2P Require Import Prelude Numbers RecencyList Lru KvStore Cache CacheRefine.
From S2P Require Import CacheKv LineBuffer Protocol Persistence CommandHandler Settled Socket.
From S2P Require Import Connection ConnectionTheorems.

Module Client.
Import Protocol CommandHandler Settled Connection ConnectionTheorems.

(** ** The program *)

(** [version_string]; the three constants are generated by the build. *)
Definition version_string (kVersionMajor kVersionMinor kVersionPatch : Z) : bytes :=
  Numbers.to_string kVersionMajor ++ $"." ++ Numbers.to_string kVersionMinor ++ $"." ++
  Numbers.to_string kVersionPatch.

(** The client's end of the connection and its console. *)
Record client := mkClient {
  replies : LineBuffer.t;
  incoming : list recv_result;
  sends : list Socket.send_result;
  sent : bytes;
  cout : bytes;
  cerr : bytes
}.

Definition print (text : bytes) (k : client) : client :=
  mkClient (replies k) (incoming k) (sends k) (sent k) (cout k ++ text) (cerr k).
Definition complain (text : bytes) (k : client) : client :=
  mkClient (replies k) (incoming k) (sends k) (sent k) (cout k) (cerr k ++ text).

(** [read_reply]: a complete line, or [None] when [recv] answers 0 or fails
    (an interrupted call counts as a failure here). *)
Fixpoint read_reply (incoming : list recv_result) (buffer : LineBuffer.t)
  : outcome (option bytes * list recv_result * LineBuffer.t) :=
  match LineBuffer.next_line buffer with
  | (Some line, buffer) => Ret (Some line, incoming, buffer)
  | (None, buffer) =>
      match incoming with
      | [] => Hang
      | Received data :: incoming => read_reply incoming (LineBuffer.append data buffer)
      | _ :: incoming => Ret (None, incoming, buffer)
      end
  end.

Definition prompt : bytes := $"cachex> ".

(** The loop of [main]; [input] are the lines [std::getline] will deliver. *)
Fixpoint request_loop (input : list bytes) (k : client) : outcome (Z * client) :=
  let k := print prompt k in
  match input with
  | [] => Ret (0, print line_end k)
  | request :: input =>
      if bool_decide (request = []) then request_loop input k
      else
        '(ok, data, answers) ← Socket.send_all (sends k) (request ++ line_end);
        let k := mkClient (replies k) (incoming k) answers (sent k ++ data) (cout k) (cerr k) in
        if negb ok then Ret (1, complain ($"cachex-client: connection lost while sending" ++ line_end) k)
        else
          '(reply, rest, buffer) ← read_reply (incoming k) (replies k);
          let k := mkClient buffer rest (sends k) (sent k) (cout k) (cerr k) in
          match reply with
          | None => Ret (1, complain ($"cachex-client: server closed the connection" ++ line_end) k)
          | Some reply =>
              let k := print (reply ++ line_end) k in
              if bool_decide (reply = bye) then Ret (0, k) else request_loop input k
          end
  end.

(** [std::getline] until it fails: the last line need not be terminated. *)
Definition getlines (stdin : bytes) : list bytes :=
  let '(lines, rest) := LineBuffer.split_lines stdin in
  lines ++ match rest with [] => [] | _ => [rest] end.

Definition print_banner (version host : bytes) (port : Z) : bytes :=
  $"CacheX client " ++ version ++ $" connected to " ++ host ++ $":" ++ Numbers.to_string port ++ line_end ++
  $"commands: SET key value [ttl_seconds] | GET key | DELETE key" ++ line_end ++
  $"          EXISTS key | TTL key | SAVE | LOAD | PING | QUIT" ++ line_end ++
  $"Ctrl-D or QUIT to exit" ++ line_end ++ line_end.

(** [main]: [args] are [argv] with the program's name, [resolved] what the
    resolver and [connect] answer, [k] the kernel's further answers. *)
Definition main (version program : bytes) (args : list bytes) (resolved : bytes + list Socket.candidate)
    (stdin : bytes) (k : client) : outcome (Z * client) :=
  if 2 <? zlen args then Ret (2, complain ($"usage: " ++ program ++ $" [host] [port]" ++ line_end) k)
  else
    let host := default $"127.0.0.1" (args !! 0%nat) in
    let port := match args !! 1%nat with
                | None => Some 6379
                | Some text => match Socket.parse_port text with
                               | Some p => if p =? 0 then None else Some p
                               | None => None
                               end
                end in
    match port with
    | None =>
        Ret (2, complain ($"cachex-client: invalid port '" ++ default [] (args !! 1%nat) ++ quote ++ line_end) k)
    | Some port =>
        let '(fd, error, _) := Socket.connect_to host resolved [] ∅ in
        if fd =? Socket.kInvalid then
          Ret (1, complain ($"cachex-client: cannot connect to " ++ host ++ $":" ++ Numbers.to_string port ++
                            $": " ++ error ++ line_end) k)
        else request_loop (getlines stdin) (print (print_banner version host port) k)
    end.

(** ** Lemmas: reading the replies *)

(** The bytes on their way to the client; what the kernel answers once they are
    all read does not matter. *)
Inductive delivered : list recv_result → bytes → Prop :=
| delivered_all rs : delivered rs []
| delivered_data d rs s : delivered rs s → delivered (Received d :: rs) (d ++ s).

Lemma first_line_unique (a b x y : bytes) :
  LineBuffer.newline ∉ a → LineBuffer.newline ∉ b →
  a ++ LineBuffer.newline :: x = b ++ LineBuffer.newline :: y → a = b ∧ x = y.
Proof.
  intros Ha Hb E. pose proof (f_equal LineBuffer.split_lines E) as Es.
  rewrite !LineBuffer.split_line in Es by done. injection Es as -> _ _. split; [done|].
  apply app_inv_head in E. by injection E.
Qed.

Lemma read_reply_line incoming s buffer line rest :
  delivered incoming s → LineBuffer.newline ∉ line →
  LineBuffer.buffer_ buffer ++ s = line ++ LineBuffer.newline :: rest →
  ∃ incoming' s' buffer', read_reply incoming buffer = Ret (Some (LineBuffer.strip_cr line), incoming', buffer') ∧
    delivered incoming' s' ∧ LineBuffer.buffer_ buffer' ++ s' = rest.
Proof.
  intros Hd Hl. revert buffer. induction Hd as [rs|d rs s Hd IH]; intros [b] E; cbn [LineBuffer.buffer_] in E.
  all: assert (∀ s' rs', b ++ s' = line ++ LineBuffer.newline :: rest → delivered rs' s' → LineBuffer.newline ∈ b →
    ∃ incoming' s'' buffer', read_reply rs' (LineBuffer.mk b) = Ret (Some (LineBuffer.strip_cr line), incoming', buffer') ∧
    delivered incoming' s'' ∧ LineBuffer.buffer_ buffer' ++ s'' = rest) as Hhere;
    [intros s' rs' E' Hd' Hin|].
  1,3: destruct (LineBuffer.find LineBuffer.newline b) as [i|] eqn:F; [|by apply LineBuffer.find_None in F];
    pose proof F as [Eb Hi]%LineBuffer.find_Some; rewrite Eb, <- app_assoc in E'; cbn [app] in E';
    apply first_line_unique in E' as [<- <-]; [|done..];
    exists rs', s', (LineBuffer.mk (drop (S i) b)); destruct rs'; cbn [read_reply];
    unfold LineBuffer.next_line; cbn [LineBuffer.buffer_]; by rewrite F.
  - apply (Hhere []); [done|constructor|]. rewrite app_nil_r in E. rewrite E. apply elem_of_app. right. left.
  - destruct (decide (LineBuffer.newline ∈ b)) as [Hin|Hin]; [apply (Hhere (d ++ s)); [done|by constructor|done]|].
    cbn [read_reply]. unfold LineBuffer.next_line. cbn [LineBuffer.buffer_].
    rewrite (proj2 (LineBuffer.find_None _ _) Hin). apply IH. cbn. by rewrite <- app_assoc.
Qed.

(** What the screen shows of a conversation. *)
Definition screen (ys : list bytes) (open : bool) : bytes :=
  concat ((λ y, prompt ++ LineBuffer.strip_cr y ++ line_end) <$> ys) ++ (if open then prompt ++ line_end else []).

Lemma request_loop_exchange requests ys open k s m :
  exchange requests ys open → Forall (λ r, r ≠ []) requests →
  delivered (incoming k) s → LineBuffer.buffer_ (replies k) ++ s = unlines ys →
  Socket.willing (sends k) m → (length (unlines requests) ≤ m)%nat →
  ∃ k', request_loop requests k = Ret (0, k') ∧ sent k' = sent k ++ unlines (take (length ys) requests) ∧
    cout k' = cout k ++ screen ys open ∧ cerr k' = cerr k.
Proof.
  intros Hx. revert k s m. induction Hx as [|r rs|r rs y ys open Hy Hnot Hx IH]; intros k s m Hr Hd E Hw Hm.
  { eexists. split; [reflexivity|]. cbn. rewrite app_nil_r. by rewrite <- app_assoc. }
  all: apply Forall_cons in Hr as [Hr Hrs]; unfold unlines in Hm, E; cbn [fmap list_fmap concat] in Hm, E;
    rewrite length_app in Hm; cbn [request_loop]; rewrite bool_decide_false by done; cbn [print sends];
    (destruct (Socket.send_all_willing _ (r ++ line_end) _ Hw ltac:(lia)) as (rest & -> & Hw'));
    cbn [mbind outcome_bind negb incoming replies print sends sent cout cerr];
    rewrite <- app_assoc in E.
  - destruct (read_reply_line _ _ _ bye _ Hd (no_newline_literal bye eq_refl) E) as (rs' & s' & b' & -> & _ & _).
    cbn [mbind outcome_bind]. change (LineBuffer.strip_cr bye) with bye. rewrite bool_decide_true by done.
    eexists. split; [reflexivity|]. cbn. unfold screen, unlines. cbn. rewrite ?take_0. cbn.
    by rewrite !app_nil_r, <- !app_assoc.
  - destruct (read_reply_line _ _ _ y _ Hd Hy E) as (rs' & s' & b' & -> & Hd' & Eb).
    cbn [mbind outcome_bind]. rewrite bool_decide_false by done.
    match goal with |- context [request_loop rs ?x] =>
      destruct (IH x s' (m - length (r ++ line_end))%nat Hrs Hd' Eb Hw') as (k' & -> & H1 & H2 & H3) end.
    { unfold unlines. cbn [length] in *. lia. }
    exists k'. split; [done|]. rewrite H1, H2, H3. cbn. unfold screen, unlines. cbn.
    by rewrite <- !app_assoc.
Qed.

(** A client that sends lines makes a stream of these lines. *)
Lemma split_unlines ls :
  Forall (λ r, LineBuffer.newline ∉ r) ls → LineBuffer.split_lines (unlines ls) = (ls, []).
Proof.
  induction 1 as [|r ls Hr _ IH]; [done|]. unfold unlines in *. cbn [fmap list_fmap concat].
  rewrite <- app_assoc. cbn [line_end app]. rewrite LineBuffer.split_line by done. by rewrite IH.
Qed.

(** A request the server will take as one line within its limit. *)
Definition typed (r : bytes) : Prop :=
  r ≠ [] ∧ (LineBuffer.newline ∉ r) ∧ zlen r ≤ kMaxLineBytes.

Lemma typed_stream ls :
  Forall typed ls → within_limit (unlines ls) ∧ lines_of (unlines ls) = LineBuffer.strip_cr <$> ls.
Proof.
  intros Hls. unfold within_limit, lines_of. rewrite split_unlines.
  - cbn [fst snd]. split; [|done]. split; [|by vm_compute].
    eapply Forall_impl; [exact Hls|]. by intros r (_ & _ & ?).
  - eapply Forall_impl; [exact Hls|]. by intros r (_ & ? & _).
Qed.

Lemma exchange_same_length rs rs' ys open :
  exchange rs ys open → length rs' = length rs → exchange rs' ys open.
Proof.
  intros Hx. revert rs'. induction Hx; intros [|r' rs'] Hlen; try done; constructor; auto.
Qed.

(** ** Property *)

(** C40.  Client and server agree, end to end.  For any requests typed at the
    client and any settled server, with or without a snapshot path, there is one
    conversation, one reply line per request up to [QUIT], such that: the
    client, however its writes are split and the replies are cut into reads,
    sends the requests up to [QUIT], shows every reply after a prompt, and exits
    with status 0; and the server, given exactly what the client sent in reads
    of any size, sends exactly the replies the client was given, leaves the
    store of that conversation, settled again, and ends the connection. *)
Theorem client_and_server_agree {C} `{KvLaws C} persistence envs requests (w : world C)
    (Hreq : Forall typed requests)
    (Hw : settled persistence (CommandHandler.now (envs 0%nat)) w)
    (Hcalm : ∀ i, calm persistence (envs i) (CommandHandler.now (envs (S i)))) :
  ∃ ys open n w', exchange requests ys open ∧ settled persistence (CommandHandler.now (envs n)) w' ∧
    (∀ reads answers, delivered reads (unlines ys) → Socket.willing answers (length (unlines requests)) →
       ∃ k, request_loop requests (mkClient LineBuffer.new reads answers [] [] []) = Ret (0, k) ∧
         sent k = unlines (take (length ys) requests) ∧ cout k = screen ys open ∧ cerr k = []) ∧
    (∀ reads answers, arrives reads (unlines (take (length ys) requests)) →
       Socket.willing answers (length (unlines ys)) →
       ∃ k, serve persistence envs (new reads answers w) = Ret k ∧ Connection.sent k = unlines ys ∧
         commands_handled_ k = n ∧ world_ k = w').
Proof.
  destruct (session_exchange persistence envs Hcalm (LineBuffer.strip_cr <$> requests) 0 w)
    as (n & open & w' & ys & _ & Hw' & Hx & Hs); [|done|].
  { apply Forall_fmap. eapply Forall_impl; [exact Hreq|]. intros r (_ & Hr & _). by apply LineBuffer.strip_cr_clean. }
  apply (exchange_same_length _ requests) in Hx; [|by rewrite length_fmap].
  exists ys, open, n, w'. split; [done|]. split; [done|]. split.
  - intros reads answers Hd Hans.
    destruct (request_loop_exchange requests ys open (mkClient LineBuffer.new reads answers [] [] [])
      (unlines ys) (length (unlines requests)) Hx) as (k & Hk); [|done|done|done|lia|by exists k].
    eapply Forall_impl; [exact Hreq|]. by intros r [? _].
  - intros reads answers Hd Hans. destruct (typed_stream (take (length ys) requests)) as [Hlim Hlines];
      [by apply Forall_take|].
    eapply (serve_loop_session persistence envs reads _ (S (length reads)) (new reads answers w) _ n open w');
      try done; cbn; try lia. by rewrite Hlines, fmap_take.
Qed.

(** ** Witness: a conversation that saves and quits *)
#[local] Existing Instances CacheKv.Cache_ops CacheKv.Cache_laws.

Definition demo_requests : list bytes := [$"SET a 1"; $"get a"; $"SAVE"; $"QUIT"].

Lemma client_and_server_agree_witness :
  ∃ ys open n w', exchange demo_requests ys open ∧ settled demo_path 4 w' ∧
    ∀ reads answers, delivered reads (unlines ys) → Socket.willing answers 24 →
      ∃ k, request_loop demo_requests (mkClient LineBuffer.new reads answers [] [] []) = Ret (0, k) ∧
        cout k = screen ys open ∧
        ∀ reads answers, arrives reads (sent k) → Socket.willing answers (length (unlines ys)) →
          ∃ k', serve demo_path (λ _, demo_env 4) (new reads answers (mkWorld Cache.Cache_unbounded ∅ 0)) = Ret k' ∧
            Connection.sent k' = unlines ys ∧ commands_handled_ k' = n ∧ world_ k' = w'.
Proof.
  destruct (client_and_server_agree demo_path (λ _, demo_env 4) demo_requests
    (mkWorld Cache.Cache_unbounded ∅ 0)) as (ys & open & n & w' & Hx & Hw' & Hc & Hs).
  - repeat constructor; try done; by apply no_newline_literal.
  - apply empty_settled.
  - intros i. apply demo_calm; [|by vm_compute]. intros p [= <-]. by apply no_newline_literal.
  - exists ys, open, n, w'. split; [exact Hx|]. split; [exact Hw'|]. intros reads answers Hd Hans.
    destruct (Hc reads answers Hd Hans) as (k & Hk & Hsent & Hout & _).
    exists k. split; [exact Hk|]. split; [exact Hout|]. rewrite Hsent. exact Hs.
Defined.
End Client.
