(* ===== verification/ServerMain.v ===== *)
(** * Starting the server (src/server_main.cpp)

    The command line, and the life of the process around the accept loop:
    what is loaded before it and saved after it. *)
From S2P Require Import Prelude Numbers RecencyList Lru KvStore Cache SyncCache.
From S2P Require Import LineBuffer Protocol Server ServerStart.
From S2P Require Import ShardedCache Socket Snapshot Persistence CacheKv ShardedTheorems PersistenceTheorems.

Module ServerMain.
Import Numbers PersistenceTheorems.
Import Protocol (line_end).
#[local] Existing Instances ShardedCache.ShardedCache_ops ShardedCache.ShardedCache_laws.

(** Digits only, a [std::size_t]. *)
Definition parse_count (text : bytes) : option Z :=
  match text, from_chars false 0 (2 ^ 64 - 1) text with
  | _ :: _, Parsed v [] => Some v
  | _, _ => None
  end.

Record config := mkConfig {
  port : Z;
  capacity : Z;
  shards : Z;
  snapshot_path : bytes;
  save_interval : Z
}.

(** [argc < i + 2 || parse(argv[i + 1], out)], [out] keeping its default. *)
Definition argument (parse : bytes → option Z) (args : list bytes) (i : nat) (dflt : Z) : option Z :=
  match args !! i with None => Some dflt | Some text => parse text end.

(** The arguments after the program name; [None] prints the usage and exits
    with status 2. *)
Definition parse_args (args : list bytes) : option config :=
  if 5 <? zlen args then None
  else
    match argument Socket.parse_port args 0 6379, argument parse_count args 1 0,
          argument parse_count args 2 8, argument parse_count args 4 0 with
    | Some port, Some capacity, Some shards, Some save_interval =>
        Some (mkConfig port capacity shards (default [] (args !! 3%nat)) save_interval)
    | _, _, _, _ => None
    end.

(** The signal handler: [g_server] is null until the server listens. *)
Definition handle_signal (g_server : option Server.server) : option Server.server :=
  match g_server with Some s => Some (Server.stop s) | None => None end.

Section Main.
Context (hash : bytes → Z).

(** [capacity > 0 ? ShardedCache(shards, capacity) : ShardedCache(shards)]. *)
Definition make_cache (c : config) : ShardedCache.t hash :=
  if 0 <? capacity c then ShardedCache.ShardedCache_bounded hash (shards c) (capacity c)
  else ShardedCache.ShardedCache_unbounded hash (shards c).

(** Persistence is enabled by a non-empty path. *)
Definition make_persistence (c : config) : option Persistence.t :=
  match snapshot_path c with [] => None | path => Some (Persistence.mk path) end.

(** What the start prints about the snapshot: on [std::cout], on [std::cerr]. *)
Definition restore_report (c : config) (r : Persistence.LoadResult) : bytes * bytes :=
  if negb (Persistence.load_ok r) then
    ([], $"cachex-server: ignoring snapshot: " ++ Persistence.load_error r ++ line_end)
  else if (0 <? Persistence.loaded r) || (0 <? Persistence.expired r) then
    ($"restored " ++ to_string (Persistence.loaded r) ++ $" entries from " ++ snapshot_path c ++ $" (" ++
     to_string (Persistence.expired r) ++ $" already expired)" ++ line_end, [])
  else ([], []).

(** Before the accept loop: the cache, restored if there is a snapshot, and what
    is printed.  A snapshot that cannot be read is reported and ignored. *)
Definition restore (clock : nat → time_point) (wall_ms : Z) (c : config) (files : Persistence.fs)
  : outcome (ShardedCache.t hash * (bytes * bytes)) :=
  match make_persistence c with
  | None => Ret (make_cache c, ([], []))
  | Some p =>
      '(restored, cache) ← Persistence.load clock wall_ms p files (make_cache c);
      Ret (cache, restore_report c restored)
  end.

(** [Server::Options] with the port of the command line. *)
Definition options (c : config) : ServerStart.Options :=
  let o := ServerStart.default_options in
  ServerStart.mkOptions (ServerStart.host o) (port c) (ServerStart.backlog o)
    (ServerStart.max_connections o) (ServerStart.verbose o).

(** What is printed once the server listens. *)
Definition banner (version : bytes) (c : config) (bound_port shard_count : Z) : bytes :=
  $"CacheX " ++ version ++ $" listening on " ++ ServerStart.host (options c) ++ $":" ++ to_string bound_port ++
  line_end ++ $"capacity: " ++
  (if 0 <? capacity c then to_string (capacity c) ++ $" entries" else $"unbounded") ++ line_end ++
  $"shards: " ++ to_string shard_count ++ line_end ++ $"snapshot: " ++
  match snapshot_path c with
  | [] => $"disabled"
  | path => path ++ (if 0 <? save_interval c then $" (auto-save every " ++ to_string (save_interval c) ++ $"s)"
                     else $" (SAVE/LOAD only)")
  end ++ line_end ++ $"thread-per-connection, max " ++ to_string (ServerStart.max_connections (options c)) ++
  $" concurrent clients" ++ line_end ++ $"press Ctrl-C to stop" ++ line_end.

(** Whether the auto-save thread is started. *)
Definition saver_enabled (c : config) : bool :=
  match make_persistence c with Some _ => 0 <? save_interval c | None => false end.

(** What a process leaves behind: its exit status, what it printed, the files. *)
Record process := mkProcess {
  status : Z;
  cout : bytes;
  cerr : bytes;
  files_after : Persistence.fs
}.

(** After the accept loop: the summary, the final save, and the exit status. *)
Definition shut_down (clock : nat → time_point) (wall_ms pid counter : Z) (d : Persistence.disk) (c : config)
    (connections_served : Z) (cache : ShardedCache.t hash) (files : Persistence.fs) : outcome process :=
  n ← ShardedCache.size hash cache;
  let summary := line_end ++ $"[cachex] shutting down after " ++ to_string connections_served ++
    $" connection(s); " ++ to_string n ++ $" entries in cache" ++ line_end in
  match make_persistence c with
  | None => Ret (mkProcess 0 summary [] files)
  | Some p =>
      '(saved, _, files) ← Persistence.save clock wall_ms pid counter d p cache files;
      Ret (if Persistence.save_ok saved
           then mkProcess 0 (summary ++ $"[cachex] saved " ++ to_string (Persistence.save_entries saved) ++
                  $" entries to " ++ snapshot_path c ++ $" (" ++ to_string (Persistence.save_bytes saved) ++
                  $" bytes)" ++ line_end) [] files
           else mkProcess 1 summary
                  ($"[cachex] final save failed: " ++ Persistence.save_error saved ++ line_end) files)
  end.

Definition usage (program : bytes) : bytes :=
  $"usage: " ++ program ++ $" [port] [capacity] [shards] [snapshot] [save-secs]" ++ line_end ++
  $"  port       TCP port to listen on (default 6379)" ++ line_end ++
  $"  capacity   maximum entries total, 0 for unbounded (default 0)" ++ line_end ++
  $"  shards     independently locked shards (default 8)" ++ line_end ++
  $"  snapshot   snapshot file path; enables SAVE/LOAD (default off)" ++ line_end ++
  $"  save-secs  auto-save interval in seconds, 0 to disable" ++ line_end.

(** What happens while [server.run()] serves clients and the saver saves, up to
    [saver->stop()]: the connections served, the cache, the files and the counter
    of temporary names afterwards. *)
Context (serve : config → ShardedCache.t hash → Persistence.fs →
  outcome (Z * ShardedCache.t hash * Persistence.fs * Z)).

(** [main]. *)
Definition main (version program : bytes) (args : list bytes) (start_clock stop_clock : nat → time_point)
    (start_wall stop_wall pid : Z) (k : ServerStart.kernel) (d : Persistence.disk) (files : Persistence.fs)
  : outcome process :=
  match parse_args args with
  | None => Ret (mkProcess 2 [] (usage program) files)
  | Some c =>
      '(cache, (out, err)) ← restore start_clock start_wall c files;
      let r := ServerStart.start (options c) k [] in
      if negb (ServerStart.ok r) then
        Ret (mkProcess 1 out (err ++ $"cachex-server: " ++ ServerStart.error r ++ line_end) files)
      else
        let out := out ++ banner version c (ServerStart.bound_port_ r) (ShardedCache.shard_count hash cache) in
        '(served, cache, files, counter) ← serve c cache files;
        p ← shut_down stop_clock stop_wall pid counter d c served cache files;
        Ret (mkProcess (status p) (out ++ cout p) (err ++ cerr p) (files_after p))
  end.
End Main.

(** ** Lemmas *)
Lemma fresh_unbounded hash n :
  0 ≤ n → let c := ShardedCache.ShardedCache_unbounded hash n in
  kv_ok c ∧ kv_unbounded c ∧ ∀ t k, kv_view t k c = None.
Proof.
  intros Hn c. split; [by apply ShardedTheorems.unbounded_ok|]. split.
  - cbn. by apply Forall_fmap, Forall_true.
  - intros t k. cbn. unfold ShardedCache.view. destruct (_ !! _) as [s|] eqn:E; [|done].
    unfold c in E. cbn in E. rewrite list_lookup_fmap in E. by apply fmap_Some in E as (? & _ & ->).
Qed.

Lemma parse_count_digits text n :
  parse_count text = Some n → text ≠ [] ∧ Forall (λ c, is_digit c = true) text ∧ digits_value text = n ∧ 0 ≤ n < 2 ^ 64.
Proof.
  unfold parse_count, from_chars. destruct text as [|c r]; [done|]. cbn [andb].
  pose proof (span_app is_digit (c :: r)) as Happ. pose proof (span_all is_digit (c :: r)) as Hall.
  destruct (span is_digit (c :: r)) as [ds rest]. cbn [fst snd] in *. destruct ds as [|d ds]; [done|].
  destruct (_ && _) eqn:E; [|done]. destruct rest; [|done]. rewrite app_nil_r in Happ. rewrite <- Happ in *.
  apply andb_true_iff in E as [?%Z.leb_le ?%Z.leb_le]. intros [= <-]. split_and!; [done|done|done|lia|lia].
Qed.

Lemma argument_count args i dflt n :
  0 ≤ dflt < 2 ^ 64 → argument parse_count args i dflt = Some n →
  0 ≤ n < 2 ^ 64 ∧ (∀ text, args !! i = Some text →
    text ≠ [] ∧ Forall (λ c, is_digit c = true) text ∧ digits_value text = n).
Proof.
  intros Hd. unfold argument. destruct (args !! i) as [text|]; [|by intros [= <-]].
  intros (H1 & H2 & H3 & H4)%parse_count_digits. split; [done|]. intros text' [= <-]. done.
Qed.

(** The numbers of an accepted command line are not negative. *)
Lemma parse_args_range args c : parse_args args = Some c → 0 ≤ capacity c ∧ 0 ≤ shards c.
Proof.
  unfold parse_args. destruct (5 <? zlen args); [done|].
  destruct (argument Socket.parse_port args 0 6379); [|done].
  destruct (argument parse_count args 1 0) eqn:E1; [|done]. destruct (argument parse_count args 2 8) eqn:E2; [|done].
  destruct (argument parse_count args 4 0); [|done]. intros [= <-].
  apply argument_count in E1 as [? _], E2 as [? _]; [|lia..]. cbn. lia.
Qed.

(** A new cache shows nothing. *)
Lemma fresh_cache hash c :
  0 ≤ capacity c → 0 ≤ shards c → kv_ok (make_cache hash c) ∧ ∀ t k, kv_view t k (make_cache hash c) = None.
Proof.
  intros Hcap Hsh. unfold make_cache. destruct (Z.ltb_spec 0 (capacity c)).
  - split; [by apply ShardedTheorems.bounded_ok|]. intros t k. cbn. unfold ShardedCache.view.
    destruct (_ !! _) as [s|] eqn:E; [|done]. unfold ShardedCache.ShardedCache_bounded in E. cbn in E.
    rewrite list_lookup_fmap in E. by apply fmap_Some in E as (? & _ & ->).
  - destruct (fresh_unbounded hash (shards c) Hsh) as (? & _ & ?). done.
Qed.

(** ** Properties *)

(** C37.  The command line is read strictly: when the server starts, every
    numeric argument given is a non-empty string of digits that denotes the
    value used (no sign, no trailing bytes, no wrap-around to another port or
    capacity), and the port is at most 65535. *)
Theorem command_line_strict args c (Hargs : parse_args args = Some c) :
  0 ≤ capacity c < 2 ^ 64 ∧ 0 ≤ shards c < 2 ^ 64 ∧ 0 ≤ save_interval c < 2 ^ 64 ∧
  (∀ i v text, (i, v) ∈ [(0%nat, port c); (1%nat, capacity c); (2%nat, shards c); (4%nat, save_interval c)] →
     args !! i = Some text →
     text ≠ [] ∧ Forall (λ ch, is_digit ch = true) text ∧ digits_value text = v) ∧
  (∀ text, args !! 0%nat = Some text → port c ≤ 65535).
Proof.
  unfold parse_args in Hargs. destruct (5 <? zlen args); [done|].
  destruct (argument Socket.parse_port args 0 6379) as [p|] eqn:E0; [|done].
  destruct (argument parse_count args 1 0) as [n1|] eqn:E1; [|done].
  destruct (argument parse_count args 2 8) as [n2|] eqn:E2; [|done].
  destruct (argument parse_count args 4 0) as [n4|] eqn:E4; [|done]. simplify_eq. cbn.
  apply argument_count in E1 as [R1 D1], E2 as [R2 D2], E4 as [R4 D4]; [|lia..].
  assert (∀ text, args !! 0%nat = Some text → text ≠ [] ∧ Forall (λ ch, is_digit ch = true) text ∧
    digits_value text = p ∧ p ≤ 65535) as D0.
  { intros text Ht. unfold argument in E0. rewrite Ht in E0. by apply Socket.parse_port_spec. }
  split_and!; [lia..| |by intros text Ht; destruct (D0 text Ht) as (_ & _ & _ & ?)].
  intros i v text Hin Ht. rewrite !elem_of_cons, elem_of_nil in Hin.
  destruct Hin as [[= -> ->]|[[= -> ->]|[[= -> ->]|[[= -> ->]|[]]]]];
    [destruct (D0 text Ht) as (? & ? & ? & _)|destruct (D1 text Ht)|destruct (D2 text Ht)|destruct (D4 text Ht)];
    done.
Qed.

(** C38.  A restart keeps the data: what a server holds when it shuts down, a new
    one started with the same command line holds again, with the time in
    between taken off the TTLs and the keys whose time ran out left out; the
    shutdown exits with status 0 and no complaint is printed at either end.
    This is for a command line that names a snapshot path and no capacity limit,
    a disk that creates, takes and renames the snapshot, a wall clock that does
    not go back, and deadlines that are still representable after the restart
    ([round_trip_ready]); without a path nothing is saved. *)
Theorem restart_keeps_entries hash c p (cache : ShardedCache.t hash) files now wall wall' pid n size clock served
    (Hp : make_persistence c = Some p) (Hcap : capacity c = 0) (Hshards : 0 ≤ shards c)
    (Hready : round_trip_ready cache now wall wall' size clock) :
  ∃ gone cache' out, shut_down hash now wall pid n (Persistence.mkDisk true size None) c served cache files = Ret gone ∧
    status gone = 0 ∧ cerr gone = [] ∧
    restore hash clock wall' c (files_after gone) = Ret (cache', (out, [])) ∧ kv_ok cache' ∧
    ∀ k, ∃ j, recovered (now j) (wall' - wall) clock (kv_view (now j) k cache) (λ t, kv_view t k cache').
Proof.
  destruct (fresh_unbounded hash (shards c) Hshards) as (Hf & Hu & He).
  destruct (round_trip cache (ShardedCache.ShardedCache_unbounded hash (shards c)) p files now wall wall' pid n size clock
    Hready Hf Hu He)
    as (r & n' & files' & r' & d' & Hs & Hsok & Hl & Hlok & _ & Hd' & Hall).
  pose proof (ShardedTheorems.size_run hash cache (ready_store _ _ _ _ _ _ Hready)) as Hsize.
  unfold shut_down, restore, make_cache. rewrite Hsize, Hp, Hs, Hcap. cbn [mbind outcome_bind].
  rewrite Hsok. cbn [Z.ltb Z.compare]. eexists _, d', (restore_report c r').1.
  split; [reflexivity|]. cbn [status cerr files_after]. rewrite Hl. cbn [mbind outcome_bind].
  split_and!; [done|done| |done|done]. unfold restore_report. rewrite Hlok. cbn [negb]. by destruct (_ || _).
Qed.

(** ** Witnesses *)
Definition demo_args : list bytes := [$"7000"; $"0"; $"2"; $"snapshot"; $"30"].
Definition demo_config : config := mkConfig 7000 0 2 $"snapshot" 30.

Lemma command_line_strict_witness :
  parse_args demo_args = Some demo_config ∧ port demo_config ≤ 65535.
Proof.
  split; [reflexivity|].
  destruct (command_line_strict demo_args demo_config eq_refl) as (_ & _ & _ & _ & H).
  apply (H $"7000"). reflexivity.
Defined.

(** A running server's cache: one key that stays, one that expires. *)
Definition demo_cache : ShardedCache.t ShardedTheorems.length_hash :=
  match (c ← kv_set $"a" $"1" (make_cache _ demo_config); kv_set_ttl 0 $"bb" $"2" 5000 c) with
  | Ret c => c
  | _ => make_cache _ demo_config
  end.

Lemma demo_cache_ok : kv_ok demo_cache.
Proof.
  destruct (fresh_unbounded ShardedTheorems.length_hash 2 ltac:(lia)) as (Hok & _ & _).
  unfold demo_cache. change (make_cache _ demo_config)
    with (ShardedCache.ShardedCache_unbounded ShardedTheorems.length_hash 2) in *.
  destruct (kv_set_law $"a" $"1" _ Hok) as (c1 & -> & H1 & _). rewrite bind_ret_l.
  destruct (kv_set_ttl_law 0 $"bb" $"2" 5000 c1 H1) as (c2 & -> & H2 & _); [lia|by vm_compute|done].
Qed.

Lemma demo_cache_ready :
  round_trip_ready demo_cache (λ _, 4) 100 101 1000 (λ _, 4).
Proof.
  split.
  - apply demo_cache_ok.
  - split; lia.
  - split; [lia|by vm_compute].
  - intros j k e dl i Hv Hd. pose proof (kv_view_deadline 4 k demo_cache e dl demo_cache_ok Hv Hd). lia.
  - split; [by vm_compute|]. intros l Hl.
    apply (f_equal (λ o, match o with Ret l => zlen (Snapshot.format 100 l) | _ => 0 end)) in Hl.
    cbn beta iota in Hl. rewrite <- Hl. by vm_compute.
Qed.

Lemma restart_keeps_entries_witness :
  ∃ gone cache' out,
    shut_down _ (λ _, 4) 100 42 0 (Persistence.mkDisk true 1000 None) demo_config 3 demo_cache ∅ = Ret gone ∧
    status gone = 0 ∧
    restore ShardedTheorems.length_hash (λ _, 4) 101 demo_config (files_after gone) = Ret (cache', (out, [])) ∧
    kv_ok cache'.
Proof.
  destruct (restart_keeps_entries ShardedTheorems.length_hash demo_config (Persistence.mk $"snapshot") demo_cache
    ∅ (λ _, 4) 100 101 42 0 1000 (λ _, 4) 3 eq_refl eq_refl ltac:(cbn; lia) demo_cache_ready)
    as (gone & cache' & out & H1 & H2 & _ & H3 & H4 & _).
  exists gone, cache', out. split; [exact H1|]. split; [exact H2|]. split; [exact H3|exact H4].
Defined.
End ServerMain.
