(* ===== verification/Process.v ===== *)
(** * The life of the server process

    [main] of src/server_main.cpp from the command line to the exit status, with
    what happens in between put in: a run of the machine of BusyServer.v, in
    which the workers of all clients and the auto-save thread are interleaved,
    until a signal has made [run] return and the saver has been stopped. *)
From S2P Require Import Prelude Numbers RecencyList Lru KvStore Cache SyncCache.
From S2P Require Import LineBuffer Protocol Socket Server ServerShutdown ServerStart.
From S2P Require Import ShardedCache Snapshot Persistence CacheKv ShardedTheorems PersistenceTheorems.
From S2P Require Import CommandHandler Settled ConnectionTheorems BusyServer BusySound ServerMain.

Module Process.
Import Numbers Protocol CommandHandler Settled ServerMain.
#[local] Existing Instances ShardedCache.ShardedCache_ops ShardedCache.ShardedCache_laws.

Section Life.
Context (hash : bytes → Z).
Abbreviation world := (world (ShardedCache.t hash)).
Abbreviation machine := (BusyServer.machine hash).

(** From the end of the start-up until [run] and the saver have returned:
    [during] is the machine then, [ran] the accept loop. *)
Definition serve (during : ShardedCache.t hash → machine) (ran : Server.server) (_ : config)
    (cache : ShardedCache.t hash) (_ : Persistence.fs) : outcome (Z * ShardedCache.t hash * Persistence.fs * Z) :=
  let w := BusyServer.world_ hash (during cache) in
  Ret (Server.connections_served_ ran, store w, files w, counter w).

(** The whole process: [opening] and [closing] are the surroundings of the load
    and of the final save. *)
Definition process_run (version program : bytes) (args : list bytes) (k : ServerStart.kernel)
    (opening : env) (during : ShardedCache.t hash → machine) (ran : Server.server) (closing : env) (f : Persistence.fs)
  : outcome process :=
  main hash (serve during ran) version program args (clock opening) (clock closing)
    (wall_ms opening) (wall_ms closing) (pid closing) k (CommandHandler.disk closing) f.

(** The threads of a server started with this command line on this cache.  The
    counter of temporary names starts at 0. *)
Definition threads_of (c : config) (process_id : Z) (streams : list bytes) (saves : nat) (cache : ShardedCache.t hash)
    (f : Persistence.fs) (now : time_point) : machine :=
  let w := mkWorld cache f 0 in
  BusyServer.start hash w now
    (BusyServer.server_progs hash process_id (make_persistence c) w streams (if saver_enabled c then saves else 0%nat)).
End Life.

Section Laws.
Context (hash : bytes → Z).
Abbreviation world := (world (ShardedCache.t hash)).
Abbreviation settled := (settled (C := ShardedCache.t hash)).

(** The start-up. *)
Lemma restore_settled args c e later f :
  parse_args args = Some c → calm (make_persistence c) e later →
  (∀ p content, make_persistence c = Some p → f !! Persistence.path_ p = Some content → harmless content) →
  ∃ cache out err, restore hash (clock e) (wall_ms e) c f = Ret (cache, (out, err)) ∧
    settled (make_persistence c) later (mkWorld cache f 0).
Proof.
  intros [Hcap Hsh]%parse_args_range Hcalm Hfile. destruct (fresh_cache hash c Hcap Hsh) as [Hok Hnone].
  assert (∀ t, settled (make_persistence c) t (mkWorld (make_cache hash c) f 0)) as Hs.
  { intros t. split; cbn; [done| |lia|done]. intros t' k x _ Hv. by rewrite Hnone in Hv. }
  unfold restore. destruct (make_persistence c) as [p|] eqn:Hp; [|by do 3 eexists].
  destruct (load_settled e later p _ (Hs (now e)) Hcalm) as (r & cache & Hl & _ & _ & Hc & Ht). cbn in Hl. rewrite Hl.
  cbn [mbind outcome_bind]. destruct (restore_report c r) as [out err]. exists cache, out, err. split; [done|].
  split; cbn; [done|done|lia|done].
Qed.

(** A save that reports success has written the snapshot of what it exported. *)
Lemma save_writes clock wall pid n d p (c : ShardedCache.t hash) f r n' f' :
  Persistence.save clock wall pid n d p c f = Ret (r, n', f') → Persistence.save_ok r = true →
  ∃ l, kv_export clock c = Ret l ∧ f' !! Persistence.path_ p = Some (Snapshot.format wall l).
Proof.
  unfold Persistence.save, Persistence.save_failed. destruct (kv_export clock c) as [l| |]; cbn [mbind outcome_bind]; try done.
  destruct (negb _); [by intros [= <- _ _]|]. destruct (_ <? _); [by intros [= <- _ _]|].
  destruct (Persistence.rename_error d); [by intros [= <- _ _]|]. intros [= _ _ <-] _.
  exists l. by rewrite lookup_insert_eq.
Qed.

(** The end of a server that was up: without a snapshot path it ends well; with
    one, as its final save does, which it makes of the world [w]. *)
Definition final_save (c : config) (e : env) (w : world) (p : process) : Prop :=
  match make_persistence c with
  | None => status p = 0 ∧ files_after p = files w
  | Some q => ∃ r n,
      Persistence.save (clock e) (wall_ms e) (pid e) (counter w) (CommandHandler.disk e) q (store w) (files w) =
        Ret (r, n, files_after p) ∧
      if Persistence.save_ok r
      then status p = 0 ∧ ∃ l, kv_export (clock e) (store w) = Ret l ∧
             files_after p !! Persistence.path_ q = Some (Snapshot.format (wall_ms e) l)
      else status p = 1 ∧ cerr p ≠ []
  end.

(** The summary names the number of connections. *)
Definition reports (n : Z) (p : process) : Prop :=
  ∃ before after, cout p = before ++ $"shutting down after " ++ to_string n ++ $" connection(s); " ++ after.

Lemma shut_down_settled c e later served (w : world) :
  settled (make_persistence c) (now e) w → calm (make_persistence c) e later →
  ∃ p, shut_down hash (clock e) (wall_ms e) (pid e) (counter w) (CommandHandler.disk e) c served (store w) (files w) = Ret p ∧
    final_save c e w p ∧ reports served p ∧
    ∀ q content, make_persistence c = Some q → files_after p !! Persistence.path_ q = Some content → harmless content.
Proof.
  intros Hs Hcalm. unfold shut_down. pose proof (ShardedTheorems.size_run hash (store w) (settled_store _ _ _ Hs)) as ->.
  cbn [mbind outcome_bind]. unfold final_save. set (size := u64 _).
  assert (∀ tail code err f, reports served (mkProcess code
    ((line_end ++ $"[cachex] shutting down after " ++ to_string served ++ $" connection(s); " ++
      to_string size ++ $" entries in cache" ++ line_end) ++ tail) err f)) as Hrep.
  { intros. exists (line_end ++ $"[cachex] "), (to_string size ++ $" entries in cache" ++ line_end ++ tail).
    cbn [cout]. change ($"[cachex] shutting down after ") with ($"[cachex] " ++ $"shutting down after ").
    by rewrite <- !app_assoc. }
  destruct (make_persistence c) as [q|].
  2: { eexists. split; [reflexivity|]. split; [done|]. split; [|done]. rewrite <- (app_nil_r (line_end ++ _)). apply Hrep. }
  destruct (save_settled e later q w Hs Hcalm) as (r & n & f & Hsave & _ & _ & _ & Hf). rewrite Hsave.
  cbn [mbind outcome_bind]. eexists. split; [reflexivity|].
  destruct (Persistence.save_ok r) eqn:Hok; cbn [status cerr files_after]; (split; [|split]).
  - exists r, n. rewrite Hok. split; [done|]. split; [done|]. by eapply save_writes.
  - apply Hrep.
  - intros q' content [= <-]. apply Hf.
  - exists r, n. rewrite Hok. split; [done|]. by split.
  - rewrite <- (app_nil_r (line_end ++ _)). apply Hrep.
  - intros q' content [= <-]. apply Hf.
Qed.
End Laws.

(** ** Property *)

(** How a process ends, whose accept loop ended as [ran] and whose threads left
    the world of [during]. *)
Record ended hash (args : list bytes) (k : ServerStart.kernel) (opening : env)
    (during : ShardedCache.t hash → BusyServer.machine hash) (ran : Server.server) (closing : env)
    (f : Persistence.fs) (p : process) : Prop := {
  ended_usage : parse_args args = None → status p = 2 ∧ cout p = [] ∧ files_after p = f;
  ended_refused c : parse_args args = Some c → ServerStart.ok (ServerStart.start (options c) k []) = false →
    status p = 1 ∧ cerr p ≠ [] ∧ files_after p = f;
  ended_served c : parse_args args = Some c → ServerStart.ok (ServerStart.start (options c) k []) = true →
    ∃ cache report, restore hash (clock opening) (wall_ms opening) c f = Ret (cache, report) ∧
      final_save hash c closing (BusyServer.world_ hash (during cache)) p ∧
      reports (Server.connections_served_ ran) p;
  ended_snapshot c q content : parse_args args = Some c → make_persistence c = Some q →
    files_after p !! Persistence.path_ q = Some content → harmless content
}.

(** The limit the server program runs with. *)
Abbreviation max_connections := (ServerStart.max_connections ServerStart.default_options).

(** Everything around the accept loop: a process in calm surroundings, whose
    snapshot file is harmless if it exists, and whose threads have been started
    on the cache that was restored and have all returned. *)
Record quiet hash (args : list bytes) (opening : env) (streams : list bytes) (saves : nat)
    (during : ShardedCache.t hash → BusyServer.machine hash) (closing : env) (f : Persistence.fs) : Prop := {
  quiet_files c p content : parse_args args = Some c → make_persistence c = Some p →
    f !! Persistence.path_ p = Some content → harmless content;
  quiet_times c : parse_args args = Some c → ∃ opened limit finish,
    calm (make_persistence c) opening opened ∧ opened ≤ limit ∧ clock_ok limit ∧
    calm (make_persistence c) closing finish ∧
    ∀ cache report, restore hash (clock opening) (wall_ms opening) c f = Ret (cache, report) →
      rtc (BusyServer.step hash limit) (threads_of hash c (pid closing) streams saves cache f opened) (during cache) ∧
      Forall (λ th, BusyServer.stopped th = true) (BusyServer.threads hash (during cache)) ∧
      BusyServer.clock_ hash (during cache) ≤ now closing
}.

(** The texts of the whole process keep those of the shutdown. *)
Lemma final_save_outer hash c e (w : CommandHandler.world (ShardedCache.t hash)) p out err :
  final_save hash c e w p →
  final_save hash c e w (mkProcess (status p) (out ++ cout p) (err ++ cerr p) (files_after p)).
Proof.
  unfold final_save. destruct (make_persistence c); cbn [status cerr files_after]; [|done].
  intros (r & n & E & H). exists r, n. split; [done|]. destruct (Persistence.save_ok r); [done|].
  destruct H as [? Hne]. split; [done|]. by intros [_ ?]%app_eq_nil.
Qed.

Lemma reports_outer n p code out err f :
  reports n p → reports n (mkProcess code (out ++ cout p) err f).
Proof.
  intros (before & after & E). exists (out ++ before), after. cbn [cout]. by rewrite E, <- app_assoc.
Qed.

Lemma process_returns hash version program args k opening streams saves during ran closing f :
  quiet hash args opening streams saves during closing f →
  ∃ p, process_run hash version program args k opening during ran closing f = Ret p ∧
    ended hash args k opening during ran closing f p.
Proof.
  intros [Hfile Htimes]. unfold process_run, main. destruct (parse_args args) as [c|] eqn:Ha.
  2: { eexists. split; [reflexivity|]. split; cbn; try congruence. done. }
  destruct (Htimes c eq_refl) as (opened & limit & finish & Hopen & Hle & Hlimit & Hclose & Hduring).
  assert (∀ q content, make_persistence c = Some q → f !! Persistence.path_ q = Some content → harmless content) as Hf.
  { intros q content. by apply Hfile. }
  destruct (restore_settled hash args c opening opened f Ha Hopen Hf) as (cache & out & err & Hrestore & Hs).
  destruct (Hduring _ _ Hrestore) as (Hrun & _ & Hlast). rewrite Hrestore. cbn [mbind outcome_bind].
  destruct (ServerStart.ok (ServerStart.start (options c) k [])) eqn:Hstart; cbn [negb].
  2: { eexists. split; [reflexivity|]. split; cbn [status cout cerr files_after]; intros; simplify_eq; try done.
       - split_and!; [done| |done]. by intros [_ ?]%app_eq_nil.
       - congruence.
       - by eapply Hf. }
  unfold serve. cbn zeta. cbn [mbind outcome_bind]. set (w := BusyServer.world_ hash (during cache)) in *.
  assert (settled (make_persistence c) (now closing) w) as Hw.
  { destruct (calm_clock _ _ _ Hopen) as ([? _] & [? _] & ?).
    destruct (BusySound.server_fine hash (pid closing) (make_persistence c) (mkWorld cache f 0) opened limit streams
      (if saver_enabled c then saves else 0%nat) (during cache)) as (_ & gs & Hsound & _); [..|done|];
      [apply (calm_pid _ _ _ Hclose)|apply (calm_path _ _ _ Hclose)|lia|done|done|].
    eapply settled_later; [exact Hlast|]. apply Hsound. }
  destruct (shut_down_settled hash c closing finish (Server.connections_served_ ran) w Hw Hclose)
    as (p & -> & Hsave & Hrep & Hp). cbn [mbind outcome_bind].
  eexists. split; [reflexivity|]. split; intros; simplify_eq; try congruence.
  - exists cache, (out, err). split; [done|]. split; [by apply final_save_outer|by apply reports_outer].
  - by eapply Hp.
Qed.

(** A signal, whenever it comes, leads [run] to its end. *)
Lemma signal_ends_run s :
  rtc (Server.step max_connections) Server.start s →
  ∃ s1, handle_signal (Some s) = Some s1 ∧ rtc (Server.step max_connections) Server.start s1 ∧
    ∃ ran, rtc (Server.step max_connections) s1 ran ∧ Server.pc ran = Server.Returned.
Proof.
  intros Hs. exists (Server.stop s). split; [done|].
  assert (Server.step max_connections s (Server.stop s)) as Hst by apply Server.step_request_stop.
  split; [by eapply rtc_r|]. eapply ServerShutdown.run_to_the_end; [|done|done].
  apply (Server.server_run max_connections); [by vm_compute|]. by eapply rtc_r.
Qed.


(** ** Witness: two clients and an auto-save, then the final save *)
Definition life_env (now wall : Z) : env := mkEnv now (λ _, now) wall 42 (Persistence.mkDisk true 1000 None).
Definition life_streams : list bytes :=
  [ConnectionTheorems.unlines [$"SET a 1 60"; $"SAVE"]; ConnectionTheorems.unlines [$"LOAD"; $"SET bb 2"; $"QUIT"]].
Definition life_during (cache : ShardedCache.t ShardedTheorems.length_hash) : BusyServer.machine ShardedTheorems.length_hash :=
  BusyServer.schedule _ 100 (concat (replicate 12 [0; 1; 2]%nat)) (threads_of _ demo_config 42 life_streams 1 cache ∅ 1).
Definition life_kernel : ServerStart.kernel :=
  ServerStart.mkKernel (inr 3) (λ _, true) None None (Some 7000).

Lemma life_calm now wall : clock_ok now → 0 ≤ wall ≤ i64_max →
  calm (make_persistence demo_config) (life_env now wall) now.
Proof.
  intros Hn Hw. split; cbn [life_env CommandHandler.now clock wall_ms pid CommandHandler.disk]; try done.
  - intros p [= <-]. by apply no_newline_literal.
Qed.

Lemma life_quiet : quiet ShardedTheorems.length_hash demo_args (life_env 1 99) life_streams 1 life_during (life_env 5 103) ∅.
Proof.
  assert (∀ t, 0 ≤ t ≤ 5 → clock_ok t) as Hclock.
  { intros t Ht. split; [lia|]. unfold kMaxTtlSeconds, i64_max. lia. }
  split; [by intros c p content _ _ ?%lookup_empty_Some|]. intros c [= <-]. exists 1, 5, 5.
  split; [apply life_calm; [apply Hclock|unfold i64_max]; lia|]. split; [lia|]. split; [apply Hclock; lia|].
  split; [apply life_calm; [apply Hclock|unfold i64_max]; lia|]. intros cache report Hr.
  split; [apply BusyServer.schedule_runs|]. vm_compute in Hr. injection Hr as <- _.
  split; [vm_compute; by repeat constructor|by vm_compute].
Qed.

(** The accept loop takes in one client. *)
Lemma life_admits fd stop served active threads workers clients :
  active < max_connections → clients !! fd = None →
  rtc (Server.step max_connections)
    (Server.mkServer stop Server.AtAccept served active threads workers clients)
    (Server.mkServer stop Server.AtTest (u64 (served + 1)) (u64 (active + 1))
       (threads ++ [Server.mkWorker fd Server.Serving]) (workers ++ [length threads])
       (Socket.set_no_sigpipe fd (Socket.set_tcp_nodelay fd (<[fd := []]> clients)))).
Proof.
  intros Hactive Hfd. eapply rtc_l; [by apply (Server.step_accept _ _ fd)|].
  eapply rtc_l; [by apply (Server.step_admit _ _ fd)|]. eapply rtc_l; [by apply (Server.step_count _ _ fd)|].
  eapply rtc_l; [by apply (Server.step_create _ _ fd)|].
  eapply rtc_l; [by apply (Server.step_push _ _ (length threads))|]. apply rtc_refl.
Qed.

(** A worker ends its conversation and its thread. *)
Lemma life_exits s id fd :
  Server.threads s !! id = Some (Server.mkWorker fd Server.Serving) →
  rtc (Server.step max_connections) s
    (Server.close_client fd (Server.move_worker id fd Server.Exited (Server.move_worker id fd Server.Flagged
      (Server.with_active (u64 (Server.active_connections_ s - 1)) (Server.move_worker id fd Server.Leaving s))))).
Proof.
  intros Hid. assert (id < length (Server.threads s))%nat as Hlt by by eapply lookup_lt_Some.
  eapply rtc_l; [by apply (Server.step_leave _ _ id fd)|].
  eapply rtc_l; [apply (Server.step_flag _ _ id fd)|apply rtc_once, (Server.step_exit _ _ id fd)];
    cbn; apply list_lookup_insert_eq; rewrite ?length_insert; done.
Qed.

Definition life_clients : Socket.fd_table := {[ 5 := [Socket.TCP_NODELAY]; 6 := [Socket.TCP_NODELAY] ]}.

(** Two clients being served, and after the signal both gone. *)
Definition life_running (stop : bool) : Server.server :=
  Server.mkServer stop Server.AtTest 2 2 [Server.mkWorker 5 Server.Serving; Server.mkWorker 6 Server.Serving]
    [0; 1]%nat life_clients.
Definition life_ran : Server.server :=
  Server.mkServer true Server.Returned 2 0 [Server.mkWorker 5 Server.Exited; Server.mkWorker 6 Server.Exited] [] ∅.

Lemma life_runs : rtc (Server.step max_connections) Server.start (life_running false).
Proof.
  eapply rtc_l; [by apply Server.step_test|]. eapply rtc_l; [by apply (Server.step_polled _ _ true)|].
  eapply rtc_l; [by apply (Server.step_reaped _ _ 0 true)|].
  etrans; [by apply (life_admits 5)|].
  eapply rtc_l; [by apply Server.step_test|]. eapply rtc_l; [by apply (Server.step_polled _ _ true)|].
  eapply rtc_l; [by apply (Server.step_skip _ _ 0 true 0)|].
  eapply rtc_l; [by apply (Server.step_reaped _ _ 1 true)|].
  etrans; [by apply (life_admits 6)|]. vm_compute. apply rtc_refl.
Qed.

Lemma life_returns : rtc (Server.step max_connections) (life_running true) life_ran.
Proof.
  eapply rtc_l; [by apply Server.step_stop|]. etrans; [by apply (life_exits _ 0 5)|].
  etrans; [by apply (life_exits _ 1 6)|].
  eapply rtc_l; [by apply (Server.step_join _ _ 0 [1%nat])|]. eapply rtc_l; [by apply (Server.step_join _ _ 1 [])|].
  eapply rtc_l; [by apply Server.step_return|]. vm_compute. apply rtc_refl.
Qed.

End Process.
